(** * GoPPT slide rasterizer: a shallow embedding of [renderer.go]

    The development follows the source file [renderer.go] of the
    [gopresentation] package.  Go's [int] and [int64] values are the
    integers of [Z] from -2^63 up to 2^63 ([int64]).  The sums that place a
    picture are written with their wrap-around ([wrap64]); the drawing
    primitives compute on [Z], which is what the code computes as long as no
    sum or difference leaves that range.  [uint8] and [uint32] arithmetic is
    written with its wrap-around, [float64] is the kernel's
    binary64 type [float], the pixel buffer [Pix] is a list of bytes updated
    by index, Go maps are [gmap]s, and a run-time panic (an index out of
    range) is the [None] of an option monad. *)

From Stdlib Require Import ZArith Lia Bool List String Ascii.
From Stdlib Require Import Floats Uint63 DecimalString.
From Stdlib Require Import Sorted Permutation.
From stdpp Require Import base option list gmap strings.

Local Open Scope Z_scope.

(** ** int *)

(** The values of an [int] (64 bits wide on the platforms of the package). *)
Definition int64 (z : Z) : Prop := - 2 ^ 63 <= z < 2 ^ 63.

(** The [int] an arithmetic result comes to: two's complement, modulo 2^64. *)
Definition wrap64 (z : Z) : Z := (z + 2 ^ 63) mod 2 ^ 64 - 2 ^ 63.

(** ** float64 *)

Module F64.

Local Open Scope float_scope.

Definition isNaN (x : float) : bool := negb (x =? x).

(** [float64(n)] for an [int] n: correctly rounded (exact below 2^53).
    The magnitude of every [int] but the smallest fits the 63 bits of the
    kernel's unsigned integers; the smallest one is -2^63 itself. *)
Definition of_int (z : Z) : float :=
  if (z =? - 2 ^ 63)%Z then - 0x1p+63
  else if (z <? 0)%Z then - of_uint63 (Uint63.of_Z (- z))
  else of_uint63 (Uint63.of_Z z).

(** The integer part, towards zero, of a finite value. *)
Definition SFtrunc (f : spec_float) : option Z :=
  match f with
  | S754_zero _ => Some 0%Z
  | S754_finite s m e =>
      let v := match e with
               | Zneg p => Z.shiftr (Zpos m) (Zpos p)
               | _ => (Zpos m * 2 ^ e)%Z
               end in
      Some (if s then (- v)%Z else v)
  | _ => None
  end.

(** Whether a finite value has a fractional part. *)
Definition SFhas_fract (f : spec_float) : bool :=
  match f with
  | S754_finite _ m (Zneg p) =>
      negb (Z.shiftl (Z.shiftr (Zpos m) (Zpos p)) (Zpos p) =? Zpos m)%Z
  | _ => false
  end.

Definition min_int64 : Z := (- 2 ^ 63)%Z.

(** [int(x)] for a [float64] x: the fraction is discarded; a value that
    does not fit (also NaN and the infinities) gives the smallest [int64],
    as the amd64 conversion does (the language leaves it open). *)
Definition to_int (x : float) : Z :=
  match SFtrunc (Prim2SF x) with
  | Some z => if ((min_int64 <=? z) && (z <? 2 ^ 63))%Z then z else min_int64
  | None => min_int64
  end.

(** [math.Modf]'s integer part of a positive finite value, as a float. *)
Definition int_part (x : float) : float :=
  match SFtrunc (Prim2SF x) with
  | Some z => if (Z.abs z <? 2 ^ 53)%Z then of_int z else x
  | None => x
  end.

(** [math.Floor]. *)
Definition Floor (x : float) : float :=
  if (x =? 0) || isNaN x || is_infinity x then x
  else if x <? 0 then
    let d := int_part (- x) in
    let d := if SFhas_fract (Prim2SF x) then d + 1 else d in
    - d
  else int_part x.

(** [math.Ceil]. *)
Definition Ceil (x : float) : float := - Floor (- x).

(** [2 * math.Pi], the constant rounded to float64. *)
Definition two_pi : float := 0x1.921fb54442d18p+2.

(** [math.MaxFloat64]. *)
Definition MaxFloat64 : float := 0x1.fffffffffffffp+1023.

End F64.


(** ** angleInSweep

  [norm] adds or subtracts full turns in two loops.  On float64 a loop may
  not end (an angle so large that adding 2π does not change it), so the
  loops take a fuel and the function returns when the fuel suffices. *)

Module Sweep.

Local Open Scope float_scope.
Import F64.

(** [for a < 0 { a += 2 * math.Pi }] *)
Fixpoint norm_neg (fuel : nat) (a : float) : option float :=
  if a <? 0 then
    match fuel with
    | O => None
    | S k => norm_neg k (a + two_pi)
    end
  else Some a.

(** [for a >= 2*math.Pi { a -= 2 * math.Pi }] *)
Fixpoint norm_pos (fuel : nat) (a : float) : option float :=
  if two_pi <=? a then
    match fuel with
    | O => None
    | S k => norm_pos k (a - two_pi)
    end
  else Some a.

Definition norm (fuel : nat) (a : float) : option float :=
  a' ← norm_neg fuel a; norm_pos fuel a'.

Definition angleInSweep (fuel : nat) (angle start end_ : float) : option bool :=
  a ← norm fuel angle;
  s ← norm fuel start;
  e ← norm fuel end_;
  Some (if s <=? e then (s <=? a) && (a <=? e)
        else (s <=? a) || (a <=? e)).

(** The call returns [b]. *)
Definition returns (angle start end_ : float) (b : bool) : Prop :=
  exists fuel, angleInSweep fuel angle start end_ = Some b.

End Sweep.

(** ** The standard library's [image] and [color] packages

    Only what the renderer uses: points, rectangles with their
    canonicalising constructor, and the RGBA image with its byte buffer. *)

Module image.

Record Point := Pt { X : Z; Y : Z }.

Record Rectangle := Rectangle_ { Min : Point; Max : Point }.

(** [image.Rect]: the corners are swapped when needed, so that the result
    is well-formed. *)
Definition Rect (x0 y0 x1 y1 : Z) : Rectangle :=
  let '(x0, x1) := if x0 >? x1 then (x1, x0) else (x0, x1) in
  let '(y0, y1) := if y0 >? y1 then (y1, y0) else (y0, y1) in
  Rectangle_ (Pt x0 y0) (Pt x1 y1).

Definition Dx (r : Rectangle) : Z := X (Max r) - X (Min r).
Definition Dy (r : Rectangle) : Z := Y (Max r) - Y (Min r).

Definition Empty (r : Rectangle) : bool :=
  (X (Min r) >=? X (Max r)) || (Y (Min r) >=? Y (Max r)).

Definition ZR : Rectangle := Rectangle_ (Pt 0 0) (Pt 0 0).

(** [r.Intersect(s)]: the largest rectangle contained in both, the zero
    rectangle when they do not overlap. *)
Definition Intersect (r s : Rectangle) : Rectangle :=
  let minx := if X (Min r) <? X (Min s) then X (Min s) else X (Min r) in
  let miny := if Y (Min r) <? Y (Min s) then Y (Min s) else Y (Min r) in
  let maxx := if X (Max r) >? X (Max s) then X (Max s) else X (Max r) in
  let maxy := if Y (Max r) >? Y (Max s) then Y (Max s) else Y (Max r) in
  let r' := Rectangle_ (Pt minx miny) (Pt maxx maxy) in
  if Empty r' then ZR else r'.

(** [r.Add(p)] *)
Definition Add (r : Rectangle) (p : Point) : Rectangle :=
  Rectangle_ (Pt (X (Min r) + X p) (Y (Min r) + Y p))
             (Pt (X (Max r) + X p) (Y (Max r) + Y p)).

(** [p.In(r)] *)
Definition In (x y : Z) (r : Rectangle) : bool :=
  (X (Min r) <=? x) && (x <? X (Max r)) && (Y (Min r) <=? y) && (y <? Y (Max r)).

(** [image.RGBA]: four bytes a pixel, rows [Stride] bytes apart. *)
Record RGBA := RGBA_ { Pix : list Z; Stride : Z; Bounds : Rectangle }.

(** [image.NewRGBA]: a zeroed buffer of [4 * Dx * Dy] bytes; it panics when
    a dimension is negative or the length does not fit an [int]. *)
Definition NewRGBA (r : Rectangle) : option RGBA :=
  if (0 <=? Dx r) && (0 <=? Dy r) && (4 * Dx r * Dy r <? 2 ^ 63)
  then Some (RGBA_ (replicate (Z.to_nat (4 * Dx r * Dy r)) 0) (4 * Dx r) r)
  else None.

(** The canvas with another byte buffer: the renderer writes the bytes of
    [Pix] and never replaces the image, its stride or its bounds. *)
Definition with_pix (img : RGBA) (pix : list Z) : RGBA :=
  RGBA_ pix (Stride img) (Bounds img).

(** [img.PixOffset(x, y)] *)
Definition PixOffset (img : RGBA) (x y : Z) : Z :=
  (y - Y (Min (Bounds img))) * Stride img + (x - X (Min (Bounds img))) * 4.

End image.

Module color.

(** [color.RGBA], each channel a [uint8]. *)
Record RGBA := RGBA_ { R : Z; G : Z; B : Z; A : Z }.

End color.

(** ** Pixel operations *)

Definition u8 (x : Z) : Z := x mod 256.
Definition u32 (x : Z) : Z := x mod 2 ^ 32.

(** [pix[i]] read and written; an index outside the slice panics. *)
Definition load (pix : list Z) (i : Z) : option Z :=
  if (0 <=? i) && (i <? Z.of_nat (length pix)) then pix !! Z.to_nat i else None.

Definition store (pix : list Z) (i : Z) (v : Z) : option (list Z) :=
  if (0 <=? i) && (i <? Z.of_nat (length pix)) then Some (<[Z.to_nat i := v]> pix)
  else None.

(** [uint8((uint32(c)*a + uint32(d)*ia) / 255)] *)
Definition blend_channel (c a ia d : Z) : Z :=
  u8 (u32 (u32 (u32 c * a) + u32 (u32 d * ia)) / 255).

(** [uint8(uint32(d) + (255-uint32(d))*a/255)] *)
Definition blend_alpha (a d : Z) : Z :=
  u8 (u32 (u32 d + u32 (u32 (u32 (255 - u32 d) * a) / 255))).

(** blendPixel alpha-blends color c over the existing pixel at (x, y). *)
Definition blendPixel (img : image.RGBA) (x y : Z) (c : color.RGBA) : option image.RGBA :=
  let b := image.Bounds img in
  if (x <? image.X (image.Min b)) || (x >=? image.X (image.Max b))
     || (y <? image.Y (image.Min b)) || (y >=? image.Y (image.Max b))
  then Some img
  else if color.A c =? 0 then Some img
  else
    let off := (y - image.Y (image.Min b)) * image.Stride img
               + (x - image.X (image.Min b)) * 4 in
    let pix := image.Pix img in
    if color.A c =? 255 then
      pix ← store pix off (color.R c);
      pix ← store pix (off + 1) (color.G c);
      pix ← store pix (off + 2) (color.B c);
      pix ← store pix (off + 3) 255;
      Some (image.with_pix img pix)
    else
      let a := u32 (color.A c) in
      let ia := u32 (255 - a) in
      d ← load pix off;
      pix ← store pix off (blend_channel (color.R c) a ia d);
      d ← load pix (off + 1);
      pix ← store pix (off + 1) (blend_channel (color.G c) a ia d);
      d ← load pix (off + 2);
      pix ← store pix (off + 2) (blend_channel (color.B c) a ia d);
      d ← load pix (off + 3);
      pix ← store pix (off + 3) (blend_alpha a d);
      Some (image.with_pix img pix).

(** [uint8(x)] of a float64. *)
Definition to_uint8 (x : float) : Z := u8 (F64.to_int x).

(** blendPixelF blends with fractional coverage (0.0–1.0) for anti-aliasing. *)
Definition blendPixelF (img : image.RGBA) (x y : Z) (c : color.RGBA)
    (coverage : float) : option image.RGBA :=
  if (coverage <=? 0)%float then Some img
  else if (1 <=? coverage)%float then blendPixel img x y c
  else blendPixel img x y
         (color.RGBA_ (color.R c) (color.G c) (color.B c)
            (to_uint8 (F64.of_int (color.A c) * coverage)%float)).

(** The four bytes of the pixel at [off], each read and replaced:
    [pix[off+ch] = f ch pix[off+ch]] for ch = 0, 1, 2, 3. *)
Definition update_px (f : Z -> Z -> Z) (pix : list Z) (off : Z) : option (list Z) :=
  d ← load pix off;
  pix ← store pix off (f 0 d);
  d ← load pix (off + 1);
  pix ← store pix (off + 1) (f 1 d);
  d ← load pix (off + 2);
  pix ← store pix (off + 2) (f 2 d);
  d ← load pix (off + 3);
  store pix (off + 3) (f 3 d).

(** [n] pixels of a row from [off] on, four bytes further each time. *)
Fixpoint update_row (f : Z -> Z -> Z) (n : nat) (pix : list Z) (off : Z) : option (list Z) :=
  match n with
  | O => Some pix
  | S k => pix ← update_px f pix off; update_row f k pix (off + 4)
  end.

(** [rows] rows of [w] pixels, the first one at [off], [stride] bytes apart. *)
Fixpoint update_rows (f : Z -> Z -> Z) (rows w : nat) (stride : Z) (pix : list Z) (off : Z)
    : option (list Z) :=
  match rows with
  | O => Some pix
  | S k => pix ← update_row f w pix off; update_rows f k w stride pix (off + stride)
  end.

(** *** image/draw

    [draw.Draw(dst, r, &image.Uniform{c}, image.Point{}, draw.Over)] on an
    RGBA destination, as the standard library's fast paths do it: the
    rectangle is clipped to the destination and to the bounds of the uniform
    source, an opaque colour is stored, another one is composed as a
    premultiplied colour. *)

Module draw.

Definition m : Z := 2 ^ 16 - 1.

(** [color.RGBA.RGBA()]: a channel widened to 16 bits. *)
Definition widen (v : Z) : Z := Z.lor (u32 v) (u32 (Z.shiftl (u32 v) 8)).

Definition uniform_bounds : image.Rectangle :=
  image.Rectangle_ (image.Pt (- 10 ^ 9) (- 10 ^ 9)) (image.Pt (10 ^ 9) (10 ^ 9)).

Definition clip (dst : image.RGBA) (r : image.Rectangle) : image.Rectangle :=
  let orig := image.Min r in
  let r := image.Intersect r (image.Bounds dst) in
  image.Intersect r (image.Add uniform_bounds orig).

(** drawFillSrc *)
Definition fill_src (c : color.RGBA) (ch d : Z) : Z :=
  match ch with
  | 0 => u8 (Z.shiftr (widen (color.R c)) 8)
  | 1 => u8 (Z.shiftr (widen (color.G c)) 8)
  | 2 => u8 (Z.shiftr (widen (color.B c)) 8)
  | _ => u8 (Z.shiftr (widen (color.A c)) 8)
  end.

(** drawFillOver *)
Definition fill_over (c : color.RGBA) (ch d : Z) : Z :=
  let a := u32 (u32 (m - widen (color.A c)) * 257) in
  let s := match ch with
           | 0 => widen (color.R c)
           | 1 => widen (color.G c)
           | 2 => widen (color.B c)
           | _ => widen (color.A c)
           end in
  u8 (Z.shiftr (u32 (u32 (u32 d * a) / m + s)) 8).

Definition DrawUniformOver (dst : image.RGBA) (r : image.Rectangle) (c : color.RGBA)
    : option image.RGBA :=
  let r := clip dst r in
  if image.Empty r then Some dst
  else
    let b := image.Bounds dst in
    let i0 := (image.Y (image.Min r) - image.Y (image.Min b)) * image.Stride dst
              + (image.X (image.Min r) - image.X (image.Min b)) * 4 in
    let f := if widen (color.A c) =? m then fill_src c else fill_over c in
    pix ← update_rows f (Z.to_nat (image.Dy r)) (Z.to_nat (image.Dx r))
            (image.Stride dst) (image.Pix dst) i0;
    Some (image.with_pix dst pix).

End draw.

(** fillRectFast fills a rectangle with an opaque color using draw.Draw. *)
Definition fillRectFast (img : image.RGBA) (rect : image.Rectangle) (c : color.RGBA)
    : option image.RGBA :=
  draw.DrawUniformOver img rect c.

(** The blended value of channel [ch] over the byte [d]. *)
Definition blend_over (c : color.RGBA) (ch d : Z) : Z :=
  let a := u32 (color.A c) in
  let ia := u32 (255 - a) in
  match ch with
  | 0 => blend_channel (color.R c) a ia d
  | 1 => blend_channel (color.G c) a ia d
  | 2 => blend_channel (color.B c) a ia d
  | _ => blend_alpha a d
  end.

(** The row loop of fillRectBlend: [for dy := 0; dy < rect.Dy(); dy++]. *)
Fixpoint fillRectBlend_rows (c : color.RGBA) (rows : nat) (dy : Z)
    (minX minY stride : Z) (w : nat) (pix : list Z) : option (list Z) :=
  match rows with
  | O => Some pix
  | S k =>
      let off := (minY + dy) * stride + minX * 4 in
      pix ← update_row (blend_over c) w pix off;
      fillRectBlend_rows c k (dy + 1) minX minY stride w pix
  end.

(** fillRectBlend fills a rectangle with alpha blending, using row-based
    direct Pix access. *)
Definition fillRectBlend (img : image.RGBA) (rect : image.Rectangle) (c : color.RGBA)
    : option image.RGBA :=
  let b := image.Bounds img in
  let rect := image.Intersect rect b in
  if image.Empty rect then Some img
  else if color.A c =? 0 then Some img
  else if color.A c =? 255 then fillRectFast img rect c
  else
    let minX := image.X (image.Min rect) - image.X (image.Min b) in
    let minY := image.Y (image.Min rect) - image.Y (image.Min b) in
    pix ← fillRectBlend_rows c (Z.to_nat (image.Dy rect)) 0 minX minY
            (image.Stride img) (Z.to_nat (image.Dx rect)) (image.Pix img);
    Some (image.with_pix img pix).

(** The column loop of drawRect: [for y := rect.Min.Y; y < rect.Max.Y; y++]. *)
Fixpoint drawRect_sides (n : nat) (y : Z) (xl xr : Z) (c : color.RGBA)
    (img : image.RGBA) : option image.RGBA :=
  match n with
  | O => Some img
  | S k =>
      img ← blendPixel img xl y c;
      img ← blendPixel img xr y c;
      drawRect_sides k (y + 1) xl xr c img
  end.

(** The loop of drawRect: [for i := 0; i < width; i++]. *)
Fixpoint drawRect_loop (n : nat) (i : Z) (rect : image.Rectangle) (c : color.RGBA)
    (img : image.RGBA) : option image.RGBA :=
  match n with
  | O => Some img
  | S k =>
      let x0 := image.X (image.Min rect) in
      let y0 := image.Y (image.Min rect) in
      let x1 := image.X (image.Max rect) in
      let y1 := image.Y (image.Max rect) in
      img ← fillRectBlend img (image.Rect x0 (y0 + i) x1 (y0 + i + 1)) c;
      img ← fillRectBlend img (image.Rect x0 (y1 - 1 - i) x1 (y1 - i)) c;
      img ← drawRect_sides (Z.to_nat (y1 - y0)) y0 (x0 + i) (x1 - 1 - i) c img;
      drawRect_loop k (i + 1) rect c img
  end.

Definition drawRect (img : image.RGBA) (rect : image.Rectangle) (c : color.RGBA)
    (width : Z) : option image.RGBA :=
  drawRect_loop (Z.to_nat width) 0 rect c img.

(** ** Polygons *)

Record fpoint := fpoint_ { pt_x : float; pt_y : float }.

(** The smallest and largest y of the vertices after the first:
    [for _, p := range pts[1:]]. *)
Fixpoint minmaxY (pts : list fpoint) (minY maxY : float) : float * float :=
  match pts with
  | [] => (minY, maxY)
  | p :: pts =>
      let minY := if (pt_y p <? minY)%float then pt_y p else minY in
      let maxY := if (maxY <? pt_y p)%float then pt_y p else maxY in
      minmaxY pts minY maxY
  end.

(** The body of the edge loop for the edge from [pi] to [pj]: the x at
    which the edge crosses the scanline [fy], when it does. *)
Definition edge_crossing (fy : float) (pi pj : fpoint) : option float :=
  let '(py1, py2) := if (pt_y pj <? pt_y pi)%float then (pt_y pj, pt_y pi)
                     else (pt_y pi, pt_y pj) in
  if (fy <? py1)%float || (py2 <=? fy)%float then None
  else
    let dy := (pt_y pj - pt_y pi)%float in
    if (dy =? 0)%float then None
    else
      let t := ((fy - pt_y pi) / dy)%float in
      Some (pt_x pi + t * (pt_x pj - pt_x pi))%float.

(** [for i := 0; i < n; i++ { j := (i + 1) % n; ... }], [k] edges from [i] on. *)
Fixpoint intersections (pts : list fpoint) (fy : float) (k i : nat) : list float :=
  match k with
  | O => []
  | S k' =>
      let j := ((i + 1) mod length pts)%nat in
      match pts !! i, pts !! j with
      | Some pi, Some pj =>
          match edge_crossing fy pi pj with
          | Some x => x :: intersections pts fy k' (S i)
          | None => intersections pts fy k' (S i)
          end
      | _, _ => intersections pts fy k' (S i)
      end
  end.

(** The order of [sort.Float64s]: ascending, a NaN before the numbers. *)
Definition float_less (x y : float) : bool :=
  (x <? y)%float || (F64.isNaN x && negb (F64.isNaN y)).

Fixpoint insert_sorted (x : float) (l : list float) : list float :=
  match l with
  | [] => [x]
  | y :: l' => if float_less y x then y :: insert_sorted x l' else x :: l
  end.

(** [sort.Float64s] *)
Fixpoint Float64s (l : list float) : list float :=
  match l with
  | [] => []
  | x :: l' => insert_sorted x (Float64s l')
  end.

(** One span of a scanline: the pixels from [ceil] of the left crossing
    to [floor] of the right one. *)
Definition fill_span (img : image.RGBA) (y : Z) (c : color.RGBA) (xa xb : float)
    : option image.RGBA :=
  let x1 := F64.to_int (F64.Ceil xa) in
  let x2 := F64.to_int (F64.Floor xb) in
  if x1 <=? x2 then
    if color.A c =? 255 then fillRectFast img (image.Rect x1 y (x2 + 1) (y + 1)) c
    else fillRectBlend img (image.Rect x1 y (x2 + 1) (y + 1)) c
  else Some img.

(** [for i := 0; i+1 < len(intersections); i += 2] *)
Fixpoint fill_spans (img : image.RGBA) (y : Z) (c : color.RGBA) (xs : list float)
    : option image.RGBA :=
  match xs with
  | xa :: xb :: xs => img ← fill_span img y c xa xb; fill_spans img y c xs
  | _ => Some img
  end.

(** [for y := int(minY); y <= int(maxY); y++], [k] scanlines from [y] on. *)
Fixpoint fillPolygon_rows (k : nat) (y : Z) (pts : list fpoint) (c : color.RGBA)
    (img : image.RGBA) : option image.RGBA :=
  match k with
  | O => Some img
  | S k' =>
      let fy := (F64.of_int y + 0.5)%float in
      let xs := Float64s (intersections pts fy (length pts) 0) in
      img ← fill_spans img y c xs;
      fillPolygon_rows k' (y + 1) pts c img
  end.

(** fillPolygon fills a polygon using scanline algorithm with sort.Float64s. *)
Definition fillPolygon (img : image.RGBA) (pts : list fpoint) (c : color.RGBA)
    : option image.RGBA :=
  match pts with
  | p0 :: rest =>
      if (length pts <? 3)%nat then Some img
      else
        let '(minY, maxY) := minmaxY rest (pt_y p0) (pt_y p0) in
        fillPolygon_rows (Z.to_nat (F64.to_int maxY - F64.to_int minY + 1))
          (F64.to_int minY) pts c img
  | [] => Some img
  end.

(** ** Charts: value ranges and pie totals *)

(** A series: its categories in order and the value of each ([Values] is a
    Go map, a missing key reads as 0). *)
Record ChartSeries := ChartSeries_ {
  Categories : list string;
  Values : gmap string float
}.

(** [s.Values[cat]] *)
Definition value (s : ChartSeries) (cat : string) : float :=
  default 0%float (Values s !! cat).

(** The end of every range computation:
    [if minVal > 0 { minVal = 0 }; if maxVal <= minVal { maxVal = minVal + 1 }]. *)
Definition clamp_range (minVal maxVal : float) : float * float :=
  let minVal := if (0 <? minVal)%float then 0%float else minVal in
  let maxVal := if (maxVal <=? minVal)%float then (minVal + 1)%float else maxVal in
  (minVal, maxVal).

(** renderBarChart: one step of the scan over [s.Values[cat]], with the
    [first] flag. *)
Definition bar_scan (st : float * float * bool) (v : float) : float * float * bool :=
  let '(minVal, maxVal, first) := st in
  if first then (v, v, false)
  else (if (v <? minVal)%float then v else minVal,
        if (maxVal <? v)%float then v else maxVal,
        false).

(** The values a bar chart reads from a series: one per category. *)
Definition category_values (s : ChartSeries) : list float :=
  map (value s) (Categories s).

(** renderBarChart: [minVal] and [maxVal] as used for scaling. *)
Definition barChartRange (series : list ChartSeries) : float * float :=
  let '(minVal, maxVal, _) :=
    fold_left (fun st s => fold_left bar_scan (category_values s) st) series
      (0%float, 0%float, true) in
  clamp_range minVal maxVal.

(** renderLineChart, renderAreaChart, renderScatterChart: one step of the
    scan [for _, v := range s.Values]. *)
Definition values_scan (st : float * float) (v : float) : float * float :=
  let '(minVal, maxVal) := st in
  (if (v <? minVal)%float then v else minVal,
   if (maxVal <? v)%float then v else maxVal).

(** The range of the line, area and scatter charts, given the values of
    each series in the order the map iteration yields them. *)
Definition valuesRange (vals : list (list float)) : float * float :=
  let '(minVal, maxVal) :=
    fold_left (fun st vs => fold_left values_scan vs st) vals
      (F64.MaxFloat64, (- F64.MaxFloat64)%float) in
  clamp_range minVal maxVal.

(** The values of the map, in one of the orders an iteration can take. *)
Definition map_values (s : ChartSeries) : list float :=
  map snd (map_to_list (Values s)).

Definition lineChartRange (series : list ChartSeries) : float * float :=
  valuesRange (map map_values series).

(** defaultChartPalette is the default color palette for chart series. *)
Definition defaultChartPalette : list color.RGBA :=
  [color.RGBA_ 79 129 189 255; color.RGBA_ 192 80 77 255; color.RGBA_ 155 187 89 255;
   color.RGBA_ 128 100 162 255; color.RGBA_ 75 172 198 255; color.RGBA_ 247 150 70 255;
   color.RGBA_ 119 44 42 255; color.RGBA_ 77 93 58 255].

Definition minInt (a b : Z) : Z := if a <? b then a else b.

(** The sum of the positive values:
    [for _, cat := range s.Categories { v := s.Values[cat]; if v > 0 { total += v } }]. *)
Definition pie_total (s : ChartSeries) : float :=
  fold_left (fun total cat => if (0 <? value s cat)%float then (total + value s cat)%float
                              else total)
    (Categories s) 0%float.

(** [-math.Pi / 2] *)
Definition minus_half_pi : float := (-0x1.921fb54442d18p+0)%float.

Section Slices.

(** fillPieSlice and fillDoughnutSlice (they need [math.Atan2]) are taken
    as given. *)
Variable fillPieSlice :
  image.RGBA -> Z -> Z -> Z -> float -> float -> color.RGBA -> option image.RGBA.
Variable fillDoughnutSlice :
  image.RGBA -> Z -> Z -> Z -> Z -> float -> float -> color.RGBA -> option image.RGBA.

(** The slice loop of renderPieChart: [for i, cat := range s.Categories]. *)
Fixpoint pie_slices (s : ChartSeries) (total : float) (cx cy radius : Z)
    (cats : list string) (i : nat) (startAngle : float) (img : image.RGBA)
    : option image.RGBA :=
  match cats with
  | [] => Some img
  | cat :: cats =>
      let v := value s cat in
      if (v <=? 0)%float then pie_slices s total cx cy radius cats (S i) startAngle img
      else
        let sweep := (F64.two_pi * v / total)%float in
        let endAngle := (startAngle + sweep)%float in
        sc ← defaultChartPalette !! (i mod length defaultChartPalette)%nat;
        img ← fillPieSlice img cx cy radius startAngle endAngle sc;
        pie_slices s total cx cy radius cats (S i) endAngle img
  end.

Definition renderPieChart (img : image.RGBA) (series : list ChartSeries)
    (px py pw ph : Z) : option image.RGBA :=
  match series with
  | [] => Some img
  | s :: _ =>
      if Nat.eqb (length (Categories s)) 0 then Some img
      else
        let total := pie_total s in
        if (total =? 0)%float then Some img
        else
          let cx := px + Z.quot pw 2 in
          let cy := py + Z.quot ph 2 in
          let radius := Z.quot (minInt pw ph) 2 in
          if radius <? 5 then Some img
          else pie_slices s total cx cy radius (Categories s) 0 minus_half_pi img
  end.

(** The slice loop of renderDoughnutChart. *)
Fixpoint doughnut_slices (s : ChartSeries) (total : float) (cx cy innerR outerR : Z)
    (cats : list string) (i : nat) (startAngle : float) (img : image.RGBA)
    : option image.RGBA :=
  match cats with
  | [] => Some img
  | cat :: cats =>
      let v := value s cat in
      if (v <=? 0)%float
      then doughnut_slices s total cx cy innerR outerR cats (S i) startAngle img
      else
        let sweep := (F64.two_pi * v / total)%float in
        let endAngle := (startAngle + sweep)%float in
        sc ← defaultChartPalette !! (i mod length defaultChartPalette)%nat;
        img ← fillDoughnutSlice img cx cy innerR outerR startAngle endAngle sc;
        doughnut_slices s total cx cy innerR outerR cats (S i) endAngle img
  end.

Definition renderDoughnutChart (img : image.RGBA) (series : list ChartSeries)
    (HoleSize : Z) (px py pw ph : Z) : option image.RGBA :=
  match series with
  | [] => Some img
  | s :: _ =>
      if Nat.eqb (length (Categories s)) 0 then Some img
      else
        let total := pie_total s in
        if (total =? 0)%float then Some img
        else
          let cx := px + Z.quot pw 2 in
          let cy := py + Z.quot ph 2 in
          let outerR := Z.quot (minInt pw ph) 2 in
          let innerR := Z.quot (outerR * HoleSize) 100 in
          if outerR <? 5 then Some img
          else doughnut_slices s total cx cy innerR outerR (Categories s) 0
                 minus_half_pi img
  end.

End Slices.

(** ** Shapes, slides and the presentation

    The structures are declared outside [renderer.go]; their fields are the
    ones the renderer reads.  What the renderer does with the other shape
    kinds, with gradients, with a decoded picture and with the rotation of an
    offscreen layer is not modelled: these parts, and the operating system
    and decoder the renderer calls, are the fields of [External]. *)

Inductive FillType : Type := FillNone | FillSolid | FillGradientLinear | FillGradientPath.

(** [Color], an ARGB string. *)
Record Color := Color_ { ARGB : string }.

Record Fill := Fill_ {
  fill_Type : FillType;
  fill_Color : Color;
  fill_EndColor : Color;
  fill_Rotation : Z
}.

Record DrawingShape := DrawingShape_ {
  offsetX : Z;
  offsetY : Z;
  width : Z;
  height : Z;
  rotation : Z;
  flipHorizontal : bool;
  flipVertical : bool;
  data : list Z;
  path : string
}.

(** The envelope of a group. *)
Record GroupShape := GroupShape_ {
  g_offsetX : Z;
  g_offsetY : Z;
  g_width : Z;
  g_height : Z;
  g_rotation : Z;
  g_flipHorizontal : bool;
  g_flipVertical : bool
}.

Inductive ImageFormat : Type := ImageFormatPNG | ImageFormatJPEG.

Inductive result (A : Type) : Type :=
| Ok (a : A)
| Err (msg : string).

Arguments Ok {A} a.
Arguments Err {A} msg.

Section Rendering.

Context {OtherShape SrcImage FontCache : Type}.

(** A shape of the slide: a picture, a group with its children, or one of
    the other kinds (rich text, placeholder, auto shape, line, table, chart). *)
#[warnings="-register-all"]
Inductive Shape : Type :=
| ShapeDrawing (s : DrawingShape)
| ShapeGroup (g : GroupShape) (shapes : list Shape)
| ShapeOther (s : OtherShape).

Record Slide := Slide_ {
  shapes : list Shape;
  background : option Fill
}.

Record DocumentLayout := DocumentLayout_ { CX : Z; CY : Z }.

Record Presentation := Presentation_ {
  slides : list Slide;
  layout : option DocumentLayout
}.

(** RenderOptions configures slide-to-image rendering. *)
Record RenderOptions := RenderOptions_ {
  Width : Z;
  Format : ImageFormat;
  JPEGQuality : Z;
  BackgroundColor : option color.RGBA;
  DPI : float;
  FontDirs : list string;
  opt_FontCache : option FontCache
}.

Record renderer := renderer_ {
  img : image.RGBA;
  scaleX : float;
  scaleY : float;
  fontCache : FontCache;
  dpi : float
}.

Definition with_img (r : renderer) (i : image.RGBA) : renderer :=
  renderer_ i (scaleX r) (scaleY r) (fontCache r) (dpi r).

Record External := External_ {
  (** [os.ReadFile]: the bytes of the file, or an error *)
  ReadFile : string -> option (list Z);
  (** [image.Decode]: the decoded picture, or an error *)
  Decode : list Z -> option SrcImage;
  (** [NewFontCache(dirs...)] *)
  NewFontCache : list string -> FontCache;
  (** the channels of a [Color] *)
  colorRGBA : Color -> color.RGBA;
  (** [scaleImageBilinear] and [draw.Draw] of the scaled picture at (ox, oy) *)
  drawScaled : image.RGBA -> SrcImage -> Z -> Z -> Z -> Z -> option image.RGBA;
  (** the flips and the rotation of the offscreen layer onto the canvas *)
  composite : image.RGBA -> image.RGBA -> Z -> Z -> Z -> Z -> Z -> bool -> bool
              -> option image.RGBA;
  (** the rendering of the other shape kinds *)
  renderOther : renderer -> OtherShape -> option image.RGBA;
  fillGradientLinear : image.RGBA -> image.Rectangle -> Fill -> option image.RGBA;
  fillGradientPath : image.RGBA -> image.Rectangle -> Fill -> option image.RGBA
}.

Variable ext : External.

Definition argbToRGBA (c : Color) : color.RGBA := colorRGBA ext c.

Definition emuToPixelX (r : renderer) (emu : Z) : Z :=
  F64.to_int (F64.of_int emu * scaleX r)%float.

Definition emuToPixelY (r : renderer) (emu : Z) : Z :=
  F64.to_int (F64.of_int emu * scaleY r)%float.

(** renderRotated: the callback draws into a fresh transparent offscreen
    layer of the unrotated size, which is then composed onto the canvas. *)
Definition renderRotated (r : renderer) (x y w h rotation : Z) (flipH flipV : bool)
    (drawFn : renderer -> option image.RGBA) : option image.RGBA :=
  if (w <=? 0) || (h <=? 0) then Some (img r)
  else
    tmp ← image.NewRGBA (image.Rect 0 0 w h);
    tmp ← drawFn (with_img r tmp);
    composite ext (img r) tmp x y w h rotation flipH flipV.

Definition placeholder_grey : color.RGBA := color.RGBA_ 200 200 200 255.

Definition renderDrawing (r : renderer) (s : DrawingShape) : option image.RGBA :=
  let x := emuToPixelX r (offsetX s) in
  let y := emuToPixelY r (offsetY s) in
  let w := emuToPixelX r (width s) in
  let h := emuToPixelY r (height s) in
  let imgData := data s in
  let imgData :=
    if (Nat.eqb (length imgData) 0) && negb (String.eqb (path s) "")
    then match ReadFile ext (path s) with
         | Some data => data
         | None => imgData
         end
    else imgData in
  if Nat.eqb (length imgData) 0 then Some (img r)
  else
    match Decode ext imgData with
    | None =>
        drawRect (img r) (image.Rect x y (wrap64 (x + w)) (wrap64 (y + h))) placeholder_grey 1
    | Some srcImg =>
        if negb (rotation s =? 0) || flipHorizontal s || flipVertical s
        then renderRotated r x y w h (rotation s) (flipHorizontal s) (flipVertical s)
               (fun tr => drawScaled ext (img tr) srcImg 0 0 w h)
        else drawScaled ext (img r) srcImg x y w h
    end.

(** renderShape, with renderGroup unfolded in the group case: the children
    are rendered in order, onto the canvas or onto the offscreen layer. *)
Fixpoint renderShape (r : renderer) (shape : Shape) {struct shape} : option image.RGBA :=
  match shape with
  | ShapeDrawing s => renderDrawing r s
  | ShapeGroup g shapes =>
      let each :=
        fix each (r : renderer) (l : list Shape) {struct l} : option image.RGBA :=
          match l with
          | [] => Some (img r)
          | gs :: l => i ← renderShape r gs; each (with_img r i) l
          end in
      if (g_rotation g =? 0) && negb (g_flipHorizontal g) && negb (g_flipVertical g)
      then each r shapes
      else renderRotated r (emuToPixelX r (g_offsetX g)) (emuToPixelY r (g_offsetY g))
             (emuToPixelX r (g_width g)) (emuToPixelY r (g_height g))
             (g_rotation g) (g_flipHorizontal g) (g_flipVertical g)
             (fun tmp => each tmp shapes)
  | ShapeOther s => renderOther ext r s
  end.

(** [for _, shape := range slide.shapes { r.renderShape(shape) }] *)
Fixpoint renderShapes (r : renderer) (l : list Shape) : option image.RGBA :=
  match l with
  | [] => Some (img r)
  | shape :: l => i ← renderShape r shape; renderShapes (with_img r i) l
  end.

(** DefaultRenderOptions returns default rendering options. *)
Definition DefaultRenderOptions : RenderOptions :=
  RenderOptions_ 960 ImageFormatPNG 90 None 96%float [] None.

(** The options objects that exist, by address; a [*RenderOptions] is an
    address or nil. *)
Definition heap : Type := gmap positive RenderOptions.

Definition alloc (h : heap) (o : RenderOptions) : positive * heap :=
  let l := fresh (dom h) in (l, <[l := o]> h).

Definition set_Width (o : RenderOptions) (w : Z) : RenderOptions :=
  RenderOptions_ w (Format o) (JPEGQuality o) (BackgroundColor o) (DPI o) (FontDirs o)
    (opt_FontCache o).

Definition set_FontCache (o : RenderOptions) (fc : FontCache) : RenderOptions :=
  RenderOptions_ (Width o) (Format o) (JPEGQuality o) (BackgroundColor o) (DPI o)
    (FontDirs o) (Some fc).

(** [%d] *)
Definition fmt_d (z : Z) : string := NilEmpty.string_of_int (Z.to_int z).

Definition white : color.RGBA := color.RGBA_ 255 255 255 255.

(** SlideToImage renders a single slide to an image.  The result is what
    the call returns ([None] when it panics) and the heap it leaves. *)
Definition SlideToImage (p : Presentation) (slideIndex : Z) (opts : option positive)
    (h : heap) : option (result image.RGBA) * heap :=
  if (slideIndex <? 0) || (slideIndex >=? Z.of_nat (length (slides p)))
  then (Some (Err ("slide index " ++ fmt_d slideIndex ++ " out of range (0-"
                   ++ fmt_d (Z.of_nat (length (slides p)) - 1) ++ ")")), h)
  else
    let '(l, h) := match opts with
                   | None => alloc h DefaultRenderOptions
                   | Some l => (l, h)
                   end in
    match h !! l with
    | None => (None, h)
    | Some o =>
        let '(o, h) := if Width o <=? 0
                       then (set_Width o 960, <[l := set_Width o 960]> h)
                       else (o, h) in
        (slide ← slides p !! Z.to_nat slideIndex;
         layout ← layout p;
         let slideW := F64.of_int (CX layout) in
         let slideH := F64.of_int (CY layout) in
         let imgW := Width o in
         let imgH := F64.to_int (F64.of_int imgW * slideH / slideW)%float in
         let scaleX := (F64.of_int imgW / slideW)%float in
         let scaleY := (F64.of_int imgH / slideH)%float in
         img ← image.NewRGBA (image.Rect 0 0 imgW imgH);
         let fc := match opt_FontCache o with
                   | Some fc => fc
                   | None => NewFontCache ext (FontDirs o)
                   end in
         let dpi := if (DPI o <=? 0)%float then 96%float else DPI o in
         let r := renderer_ img scaleX scaleY fc dpi in
         let fill_bg := fun bgColor => fillRectFast img (image.Bounds img) bgColor in
         img ← match BackgroundColor o with
               | Some bgColor => fill_bg bgColor
               | None =>
                   match background slide with
                   | None => fill_bg white
                   | Some bg =>
                       match fill_Type bg with
                       | FillSolid => fill_bg (argbToRGBA (fill_Color bg))
                       | FillGradientLinear => fillGradientLinear ext img (image.Bounds img) bg
                       | FillGradientPath => fillGradientPath ext img (image.Bounds img) bg
                       | FillNone => fill_bg white
                       end
                   end
               end;
         img ← renderShapes (with_img r img) (shapes slide);
         Some (Ok img), h)
    end.

(** The loop of SlidesToImages: [for i := range p.slides]. *)
Fixpoint SlidesToImages_loop (p : Presentation) (n : nat) (i : Z) (opts : positive)
    (images : list image.RGBA) (h : heap) : option (result (list image.RGBA)) * heap :=
  match n with
  | O => (Some (Ok images), h)
  | S k =>
      match SlideToImage p i (Some opts) h with
      | (None, h) => (None, h)
      | (Some (Err msg), h) => (Some (Err ("slide " ++ fmt_d i ++ ": " ++ msg)), h)
      | (Some (Ok img), h) => SlidesToImages_loop p k (i + 1) opts (images ++ [img]) h
      end
  end.

(** SlidesToImages renders all slides to images. *)
Definition SlidesToImages (p : Presentation) (opts : option positive) (h : heap)
    : option (result (list image.RGBA)) * heap :=
  let '(l, h) := match opts with
                 | None => alloc h DefaultRenderOptions
                 | Some l => (l, h)
                 end in
  match h !! l with
  | None => (None, h)
  | Some o =>
      let h := match opt_FontCache o with
               | None => <[l := set_FontCache o (NewFontCache ext (FontDirs o))]> h
               | Some _ => h
               end in
      SlidesToImages_loop p (length (slides p)) 0 l [] h
  end.

End Rendering.

Arguments Shape : clear implicits.
Arguments Slide : clear implicits.
Arguments Presentation : clear implicits.
Arguments RenderOptions : clear implicits.
Arguments renderer : clear implicits.
Arguments External : clear implicits.
Arguments heap : clear implicits.

(** ** Vocabulary of the statements *)

(** The pixel stored at byte offset [off]. *)
Definition get_px (pix : list Z) (off : Z) : option (Z * Z * Z * Z) :=
  r ← load pix off;
  g ← load pix (off + 1);
  b ← load pix (off + 2);
  a ← load pix (off + 3);
  Some (r, g, b, a).

Definition px_map (f : Z -> Z -> Z) (p : Z * Z * Z * Z) : Z * Z * Z * Z :=
  let '(r, g, b, a) := p in (f 0 r, f 1 g, f 2 b, f 3 a).

(** The pixel of the canvas at (x, y). *)
Definition pixel_at (img : image.RGBA) (x y : Z) : option (Z * Z * Z * Z) :=
  get_px (image.Pix img) (image.PixOffset img x y).

(** What [image.NewRGBA] establishes and the renderer keeps: rows of
    [4 * Dx] bytes, [Dy] of them. *)
Definition wf_img (img : image.RGBA) : Prop :=
  0 <= image.Dx (image.Bounds img) /\ 0 <= image.Dy (image.Bounds img)
  /\ image.Stride img = 4 * image.Dx (image.Bounds img)
  /\ Z.of_nat (length (image.Pix img)) = image.Stride img * image.Dy (image.Bounds img).

Definition is_byte (v : Z) : Prop := 0 <= v <= 255.

Definition bytes_ok (pix : list Z) : Prop := Forall is_byte pix.

Definition color_ok (c : color.RGBA) : Prop :=
  is_byte (color.R c) /\ is_byte (color.G c) /\ is_byte (color.B c) /\ is_byte (color.A c).

(** Two canvases of the same shape: same bounds, stride and buffer length. *)
Definition same_shape (img img' : image.RGBA) : Prop :=
  image.Bounds img' = image.Bounds img /\ image.Stride img' = image.Stride img
  /\ length (image.Pix img') = length (image.Pix img).

(** Whether the byte offset [o] is the start of one of the pixels that
    [update_rows] rewrites. *)
Fixpoint in_rows (rows : nat) (w stride off o : Z) : bool :=
  match rows with
  | O => false
  | S k => ((off <=? o) && (o <? off + 4 * w)) || in_rows k w stride (off + stride) o
  end.

(** The canvas [img'] is [img] with the pixels selected by [P] rewritten by
    [f] and every other pixel kept. *)
Definition paints (img img' : image.RGBA) (P : Z -> Z -> bool) (f : Z -> Z -> Z) : Prop :=
  same_shape img img'
  /\ forall x y, image.In x y (image.Bounds img) = true ->
       pixel_at img' x y =
         if P x y then px_map f <$> pixel_at img x y else pixel_at img x y.

(** The same with one value [v] for every selected pixel. *)
Definition paints_const (img img' : image.RGBA) (P : Z -> Z -> bool) (v : Z * Z * Z * Z) : Prop :=
  same_shape img img'
  /\ forall x y, image.In x y (image.Bounds img) = true ->
       pixel_at img' x y = if P x y then Some v else pixel_at img x y.

(** The pixels that [fillRectBlend img rect c] rewrites, and how. *)
Definition fill_region (img : image.RGBA) (rect : image.Rectangle) (c : color.RGBA)
    (x y : Z) : bool :=
  if color.A c =? 0 then false
  else if color.A c =? 255
       then image.In x y (draw.clip img (image.Intersect rect (image.Bounds img)))
       else image.In x y (image.Intersect rect (image.Bounds img)).

Definition fill_fn (c : color.RGBA) : Z -> Z -> Z :=
  if color.A c =? 255
  then (if draw.widen (color.A c) =? draw.m then draw.fill_src c else draw.fill_over c)
  else blend_over c.

(** The bytes that [blendPixel] stores for an opaque colour. *)
Definition opaque_px (c : color.RGBA) (ch d : Z) : Z :=
  match ch with
  | 0 => color.R c
  | 1 => color.G c
  | 2 => color.B c
  | _ => 255
  end.

Definition pixel_fn (c : color.RGBA) : Z -> Z -> Z :=
  if color.A c =? 255 then opaque_px c else blend_over c.

(** The pixel-writing operations the primitives are built from, as calls. *)
Inductive pixel_op : Type :=
| OpBlendPixel (x y : Z) (c : color.RGBA)
| OpBlendPixelF (x y : Z) (c : color.RGBA) (coverage : float)
| OpFillRectBlend (rect : image.Rectangle) (c : color.RGBA).

Definition run_op (img : image.RGBA) (op : pixel_op) : option image.RGBA :=
  match op with
  | OpBlendPixel x y c => blendPixel img x y c
  | OpBlendPixelF x y c coverage => blendPixelF img x y c coverage
  | OpFillRectBlend rect c => fillRectBlend img rect c
  end.

(** A primitive built on them: its calls, one after the other. *)
Fixpoint run_ops (ops : list pixel_op) (img : image.RGBA) : option image.RGBA :=
  match ops with
  | [] => Some img
  | op :: ops => img ← run_op img op; run_ops ops img
  end.

(** Whether the call targets the pixel (x, y). *)
Definition targets (op : pixel_op) (x y : Z) : bool :=
  match op with
  | OpBlendPixel x0 y0 _ | OpBlendPixelF x0 y0 _ _ => (x =? x0) && (y =? y0)
  | OpFillRectBlend rect _ => image.In x y rect
  end.


(** A canvas no larger than the uniform source of image/draw. *)
Definition drawable (img : image.RGBA) : Prop :=
  image.Dx (image.Bounds img) <= 10 ^ 9 /\ image.Dy (image.Bounds img) <= 10 ^ 9.

Section RenderingVocabulary.

Context {OtherShape SrcImage FontCache : Type}.
Variable ext : External OtherShape SrcImage FontCache.

(** The bytes renderDrawing hands to the decoder: the embedded data, or,
    without embedded data, the contents of the file when it can be read. *)
Definition imageBytes (s : DrawingShape) : list Z :=
  match data s with
  | [] => if String.eqb (path s) "" then []
          else match ReadFile ext (path s) with
               | Some bytes => bytes
               | None => []
               end
  | _ => data s
  end.

(** The pixel box of a picture, as renderDrawing computes it:
    [image.Rect(x, y, x+w, y+h)]. *)
Definition pixelBox (r : renderer FontCache) (s : DrawingShape) : image.Rectangle :=
  image.Rect (emuToPixelX r (offsetX s)) (emuToPixelY r (offsetY s))
    (wrap64 (emuToPixelX r (offsetX s) + emuToPixelX r (width s)))
    (wrap64 (emuToPixelY r (offsetY s) + emuToPixelY r (height s))).

End RenderingVocabulary.


(** The height SlideToImage gives to an image of width [imgW]:
    [int(float64(imgW) * slideH / slideW)]. *)
Definition imageHeight (imgW cx cy : Z) : Z :=
  F64.to_int (F64.of_int imgW * F64.of_int cy / F64.of_int cx)%float.



Section RenderingAssumptions.

Context {OtherShape SrcImage FontCache : Type}.
Variable ext : External OtherShape SrcImage FontCache.




Definition out_of_range_message (p : Presentation OtherShape) (slideIndex : Z) : string :=
  "slide index " ++ fmt_d slideIndex ++ " out of range (0-"
  ++ fmt_d (Z.of_nat (length (slides p)) - 1) ++ ")".

End RenderingAssumptions.

(** An environment without files, decoder or further drawing code. *)
Definition bare : External unit unit unit :=
  @External_ unit unit unit
    (fun _ => None) (fun _ => None) (fun _ => tt) (fun _ => white)
    (fun i _ _ _ _ _ => Some i) (fun i _ _ _ _ _ _ _ _ => Some i)
    (fun r _ => Some (img r)) (fun i _ _ => Some i) (fun i _ _ => Some i).

(** ** The order of float64 values

    A value that is not a NaN is placed by a key: its class (infinite,
    finite, zero, with the sign), then exponent and mantissa.  The
    comparisons of float64 are the lexicographic comparisons of the keys;
    the two zeros share a key. *)

Definition SFkey (f : spec_float) : Z * Z * Z :=
  match f with
  | S754_infinity true => (-2, 0, 0)
  | S754_finite true m e => (-1, - e, - Zpos m)
  | S754_zero _ => (0, 0, 0)
  | S754_finite false m e => (1, e, Zpos m)
  | S754_infinity false => (2, 0, 0)
  | S754_nan => (3, 0, 0)
  end.

Definition key_lt (a b : Z * Z * Z) : Prop :=
  let '(a1, a2, a3) := a in
  let '(b1, b2, b3) := b in
  a1 < b1 \/ (a1 = b1 /\ (a2 < b2 \/ (a2 = b2 /\ a3 < b3))).

Definition key_eq (a b : Z * Z * Z) : Prop :=
  let '(a1, a2, a3) := a in
  let '(b1, b2, b3) := b in
  a1 = b1 /\ a2 = b2 /\ a3 = b3.

Definition key_le (a b : Z * Z * Z) : Prop := key_lt a b \/ key_eq a b.

Definition fkey (x : float) : Z * Z * Z := SFkey (Prim2SF x).

(** [x <= y] and [x < y] on float64 values, as propositions. *)
Definition fle (x y : float) : Prop := (x <=? y)%float = true.
Definition flt (x y : float) : Prop := (x <? y)%float = true.
Definition notNaN (x : float) : Prop := F64.isNaN x = false.

(** [x == y] on float64 values. *)
Definition feq (x y : float) : Prop := (x =? y)%float = true.

(** A finite float64: neither a NaN nor an infinity. *)
Definition finite64 (x : float) : Prop :=
  notNaN x /\ fle x F64.MaxFloat64 /\ fle (- F64.MaxFloat64)%float x.

(** [m] is the least (the greatest) of the values [l]. *)
Definition is_min (m : float) (l : list float) : Prop :=
  (exists v, v ∈ l /\ feq m v) /\ forall v, v ∈ l -> fle m v.

Definition is_max (m : float) (l : list float) : Prop :=
  (exists v, v ∈ l /\ feq m v) /\ forall v, v ∈ l -> fle v m.

(** A series whose categories are the keys of its values. *)
Definition consistent (s : ChartSeries) : Prop :=
  forall cat, cat ∈ Categories s <-> is_Some (Values s !! cat).

(** All the values of the series of a chart. *)
Definition all_values (series : list ChartSeries) : list float :=
  concat (map map_values series).

(** The sum of the positive values of a list, the others discarded. *)
Definition positive_sum (l : list float) : float :=
  fold_left PrimFloat.add (filter (fun v => (0 <? v)%float = true) l) 0%float.

(** *** The scanline rule of the polygon fill, as the specification words it *)









(** The crossings taken two by two. *)
Fixpoint adjacent_pairs (xs : list float) : list (float * float) :=
  match xs with
  | xa :: xb :: xs => (xa, xb) :: adjacent_pairs xs
  | _ => []
  end.



(** Spans filled one after the other. *)
Fixpoint fill_pairs (img : image.RGBA) (y : Z) (c : color.RGBA) (ps : list (float * float))
    : option image.RGBA :=
  match ps with
  | [] => Some img
  | (xa, xb) :: ps => img ← fill_span img y c xa xb; fill_pairs img y c ps
  end.




(** *** Sample inputs *)

Definition sample_series : ChartSeries :=
  ChartSeries_ ["Q1"; "Q2"] (<["Q1" := 3%float]> (<["Q2" := 5%float]> ∅)).

Definition sample_triangle : list fpoint :=
  [fpoint_ 0 0; fpoint_ 4 0; fpoint_ 0 4]%float.

Definition sample_canvas : image.RGBA :=
  image.RGBA_ (replicate 64 0) 16 (image.Rect 0 0 4 4).

(** *** float64 values of integers *)

(** The number of binary digits of a positive integer. *)
Definition digits (z : Z) : Z := Z.log2 z + 1.

(** The binary64 form of an integer [0 < z < 2^53]: a mantissa of 53 digits. *)
Definition canonical (z : Z) : spec_float :=
  S754_finite false (Z.to_pos (z * 2 ^ (53 - digits z))) (digits z - 53).

(** The integer part of [m * 2^e], for [0 <= m]. *)
Definition trunc_value (m e : Z) : Z := if e <? 0 then m / 2 ^ (- e) else m * 2 ^ e.

(** A presentation of one empty slide in the default 4:3 layout, and
    options that ask for the width [w]. *)
Definition sample_presentation : Presentation unit :=
  Presentation_ [Slide_ [] None] (Some (DocumentLayout_ 9144000 6858000)).

Definition sample_options (w : Z) : RenderOptions unit :=
  RenderOptions_ w ImageFormatPNG 90 None 96%float [] None.

(** The options objects of the caller: one, at address 1. *)
Definition sample_heap (w : Z) : heap unit :=
  <[1%positive := sample_options w]> (∅ : gmap positive (RenderOptions unit)).

(** A renderer on the small canvas, one pixel per unit, and two pictures
    over the whole canvas: one with bytes (that [bare] cannot decode), one
    without bytes or path. *)
Definition sample_renderer : renderer unit :=
  renderer_ sample_canvas 1%float 1%float tt 96%float.

Definition sample_picture : DrawingShape :=
  DrawingShape_ 0 0 4 4 0 false false [137; 80; 78; 71] "".

Definition sample_empty_picture : DrawingShape :=
  DrawingShape_ 0 0 4 4 0 false false [] "".

(** A slide with a group turned by a quarter, which holds a picture whose
    bytes [bare] cannot decode and a shape of another kind; the group is
    drawn on an offscreen layer of its own. *)
Definition sample_group : GroupShape :=
  GroupShape_ 0 0 4572000 3429000 90 false false.

Definition sample_deck : Presentation unit :=
  Presentation_ [Slide_ [ShapeGroup sample_group [ShapeDrawing sample_picture; ShapeOther tt]]
                   None]
    (Some (DocumentLayout_ 9144000 6858000)).

(** A picture whose offset and width add up to 2^63. *)
Definition far_picture : DrawingShape :=
  DrawingShape_ (2 ^ 62) 0 (2 ^ 62) 4 0 false false [137; 80; 78; 71] "".

(** A triangle that reaches three thousand million pixels to the left of
    the canvas, and a polygon with a NaN among its y coordinates. *)
Definition far_triangle : list fpoint :=
  [fpoint_ (- 3000000000) 0; fpoint_ 4 0; fpoint_ 4 4]%float.


(** A series with a value under a key that is not among its categories, and
    a series whose only value is -Inf. *)
Definition stray_series : ChartSeries :=
  ChartSeries_ ["A"] (<["A" := 5%float]> (<["B" := 100%float]> ∅)).

Definition sunk_series : ChartSeries :=
  ChartSeries_ ["A"] (<["A" := neg_infinity]> ∅).

(** A series whose first value is a NaN. *)
Definition nan_series : ChartSeries :=
  ChartSeries_ ["A"; "B"] (<["A" := nan]> (<["B" := 1%float]> ∅)).

(** *** Angles on a grid

    The float64 values [k * 2^-49] with |k| < 2^53 are the multiples of 2^-49
    between -16 and 16; sums and differences of two of them that stay in
    this range are exact.  [2 * math.Pi], as float64, is [turn * 2^-49]. *)

Definition fixed (k : Z) : float := (F64.of_int k * 0x1p-49)%float.

Definition turn : Z := 3537118876014220.

Definition on_grid (k : Z) : Prop := - 2 ^ 53 < k < 2 ^ 53.

(** The binary64 form of [k * 2^E] for |k| < 2^53. *)
Definition dyadic (E k : Z) : spec_float :=
  match k with
  | 0 => S754_zero false
  | Zpos _ => S754_finite false (Z.to_pos (k * 2 ^ (53 - digits k))) (digits k - 53 + E)
  | Zneg _ =>
      S754_finite true (Z.to_pos (- k * 2 ^ (53 - digits (- k)))) (digits (- k) - 53 + E)
  end.

(** The test of angleInSweep on angles counted in steps of 2^-49, each one
    brought into [0, turn) by whole turns. *)
Definition in_sweep (a s e : Z) : bool :=
  let a := a mod turn in
  let s := s mod turn in
  let e := e mod turn in
  if s <=? e then (s <=? a) && (a <=? e) else (s <=? a) || (a <=? e).

From Stdlib Require Import DecimalZ.

(** ** Bullet numbers *)

(** Numeric format constants (bullet.go). *)
Definition NumFormatArabicPeriod : string := "arabicPeriod".
Definition NumFormatArabicParen : string := "arabicParenR".
Definition NumFormatRomanUcPeriod : string := "romanUcPeriod".
Definition NumFormatRomanLcPeriod : string := "romanLcPeriod".
Definition NumFormatAlphaUcPeriod : string := "alphaUcPeriod".
Definition NumFormatAlphaLcPeriod : string := "alphaLcPeriod".
Definition NumFormatAlphaLcParen : string := "alphaLcParenR".

(** The values and symbols of toRoman, side by side. *)
Definition roman_table : list (Z * string) :=
  [(1000, "M"); (900, "CM"); (500, "D"); (400, "CD"); (100, "C"); (90, "XC");
   (50, "L"); (40, "XL"); (10, "X"); (9, "IX"); (5, "V"); (4, "IV"); (1, "I")]%string.

(** [for num >= v { buf.WriteString(syms[i]); num -= v }]; the loop takes a
    fuel, and the call returns when the fuel suffices. *)
Fixpoint roman_symbol (fuel : nat) (v : Z) (sym : string) (num : Z) (buf : string)
    : option (Z * string) :=
  if v <=? num then
    match fuel with
    | O => None
    | S k => roman_symbol k v sym (num - v) (buf ++ sym)
    end
  else Some (num, buf).

(** [for i, v := range vals] *)
Fixpoint roman_symbols (fuel : nat) (table : list (Z * string)) (num : Z) (buf : string)
    : option string :=
  match table with
  | [] => Some buf
  | (v, sym) :: table =>
      '(num, buf) ← roman_symbol fuel v sym num buf;
      roman_symbols fuel table num buf
  end.

(** toRoman converts an integer to a Roman numeral string. *)
Definition toRoman (fuel : nat) (num : Z) : option string :=
  if (num <=? 0) || (num >? 3999) then Some (fmt_d num)
  else roman_symbols fuel roman_table num "".

(** [strings.ToLower] on a string of ASCII characters. *)
Definition lower_ascii (c : ascii) : ascii :=
  let n := nat_of_ascii c in
  if (65 <=? n)%nat && (n <=? 90)%nat then ascii_of_nat (n + 32) else c.

Fixpoint ToLower (s : string) : string :=
  match s with
  | EmptyString => EmptyString
  | String c s => String (lower_ascii c) (ToLower s)
  end.

(** [string(rune(base + num - 1))], a letter. *)
Definition letter (base : Z) (num : Z) : string :=
  String (ascii_of_nat (Z.to_nat (base + num - 1))) EmptyString.

(** formatBulletNumber formats a number according to the bullet format. *)
Definition formatBulletNumber (fuel : nat) (num : Z) (format : string) : option string :=
  if String.eqb format NumFormatRomanUcPeriod then
    r ← toRoman fuel num; Some (r ++ ".")%string
  else if String.eqb format NumFormatRomanLcPeriod then
    r ← toRoman fuel num; Some (ToLower r ++ ".")%string
  else if String.eqb format NumFormatAlphaUcPeriod then
    if (1 <=? num) && (num <=? 26) then Some (letter 65 num ++ ".")%string
    else Some (fmt_d num ++ ".")%string
  else if String.eqb format NumFormatAlphaLcPeriod then
    if (1 <=? num) && (num <=? 26) then Some (letter 97 num ++ ".")%string
    else Some (fmt_d num ++ ".")%string
  else if String.eqb format NumFormatAlphaLcParen then
    if (1 <=? num) && (num <=? 26) then Some (letter 97 num ++ ")")%string
    else Some (fmt_d num ++ ")")%string
  else if String.eqb format NumFormatArabicParen then Some (fmt_d num ++ ")")%string
  else Some (fmt_d num ++ ".")%string.

(** *** Vocabulary: reading the labels back *)

(** The value of a Roman digit, in either case. *)
Definition roman_digit (c : ascii) : option Z :=
  match lower_ascii c with
  | "i"%char => Some 1
  | "v"%char => Some 5
  | "x"%char => Some 10
  | "l"%char => Some 50
  | "c"%char => Some 100
  | "d"%char => Some 500
  | "m"%char => Some 1000
  | _ => None
  end.

(** The value of a Roman numeral: a digit counts negatively when a larger
    one follows it. *)
Fixpoint roman_value (s : string) : option Z :=
  match s with
  | EmptyString => Some 0
  | String c s' =>
      d ← roman_digit c;
      rest ← roman_value s';
      match s' with
      | EmptyString => Some d
      | String c' _ =>
          d' ← roman_digit c';
          Some (if d <? d' then rest - d else rest + d)
      end
  end.

(** The integer a decimal string denotes. *)
Definition parse_d (s : string) : option Z :=
  Z.of_int <$> NilEmpty.int_of_string s.

(** A label of toRoman reads back as the number, in both cases, and is not
    a decimal string. *)
Definition roman_reads_back (n : Z) : bool :=
  match toRoman 3 n with
  | Some s =>
      bool_decide (roman_value s = Some n)
      && bool_decide (roman_value (ToLower s) = Some n)
      && bool_decide (parse_d s = None)
      && bool_decide (parse_d (ToLower s) = None)
  | None => false
  end.

(** A letter label is not a decimal string. *)
Definition letter_not_decimal (n : Z) : bool :=
  bool_decide (parse_d (letter 65 n) = None) && bool_decide (parse_d (letter 97 n) = None).

(** ** Lines *)

Definition abs (x : Z) : Z := if x <? 0 then - x else x.

Definition maxInt (a b : Z) : Z := if a >? b then a else b.

(** The loop of drawLine: [for { blendPixel; if at the end { break }; ... }].
    The loop takes a fuel; the call returns when the fuel suffices.  [err]
    stays within 3/2 * (dx + dy) of zero, so that for end points less than
    2^61 apart [2 * err] and every other value of the loop is an [int]. *)
Fixpoint drawLine_loop (fuel : nat) (x1 y1 x2 y2 dx dy sx sy err : Z) (c : color.RGBA)
    (img : image.RGBA) : option image.RGBA :=
  match fuel with
  | O => None
  | S k =>
      img ← blendPixel img x1 y1 c;
      if (x1 =? x2) && (y1 =? y2) then Some img
      else
        let e2 := 2 * err in
        let '(err, x1) := if e2 >? - dy then (err - dy, x1 + sx) else (err, x1) in
        let '(err, y1) := if e2 <? dx then (err + dx, y1 + sy) else (err, y1) in
        drawLine_loop k x1 y1 x2 y2 dx dy sx sy err c img
  end.

Definition drawLine (fuel : nat) (img : image.RGBA) (x1 y1 x2 y2 : Z) (c : color.RGBA)
    : option image.RGBA :=
  let dx := abs (x2 - x1) in
  let dy := abs (y2 - y1) in
  let sx := if x1 >? x2 then -1 else 1 in
  let sy := if y1 >? y2 then -1 else 1 in
  drawLine_loop fuel x1 y1 x2 y2 dx dy sx sy (dx - dy) c img.

(** [for x := x1; x < x2; x++ { if (x-x1)%period < dashLen { blendPixel(x, y, c) } }],
    [n] steps from [x] on.  An integer division by zero panics.  The
    difference [x - x1] is an [int] when the ends are less than 2^63 apart. *)
Fixpoint drawDashedHLine_loop (n : nat) (x x1 y : Z) (c : color.RGBA) (dashLen period : Z)
    (img : image.RGBA) : option image.RGBA :=
  match n with
  | O => Some img
  | S k =>
      if period =? 0 then None
      else
        img ← (if Z.rem (x - x1) period <? dashLen then blendPixel img x y c else Some img);
        drawDashedHLine_loop k (x + 1) x1 y c dashLen period img
  end.

Definition drawDashedHLine (img : image.RGBA) (x1 x2 y : Z) (c : color.RGBA)
    (dashLen gapLen : Z) : option image.RGBA :=
  drawDashedHLine_loop (Z.to_nat (x2 - x1)) x1 x1 y c dashLen (dashLen + gapLen) img.

Fixpoint drawDashedVLine_loop (n : nat) (y y1 x : Z) (c : color.RGBA) (dashLen period : Z)
    (img : image.RGBA) : option image.RGBA :=
  match n with
  | O => Some img
  | S k =>
      if period =? 0 then None
      else
        img ← (if Z.rem (y - y1) period <? dashLen then blendPixel img x y c else Some img);
        drawDashedVLine_loop k (y + 1) y1 x c dashLen period img
  end.

Definition drawDashedVLine (img : image.RGBA) (x y1 y2 : Z) (c : color.RGBA)
    (dashLen gapLen : Z) : option image.RGBA :=
  drawDashedVLine_loop (Z.to_nat (y2 - y1)) y1 y1 x c dashLen (dashLen + gapLen) img.

(** [type BorderStyle string] with its four constants. *)
Definition BorderStyle : Type := string.
Definition BorderNone : BorderStyle := "none".
Definition BorderSolid : BorderStyle := "solid".
Definition BorderDash : BorderStyle := "dash".
Definition BorderDot : BorderStyle := "dot".

(** The loop of drawRectBorder for the dashed styles: [for i := 0; i < width; i++]. *)
Fixpoint drawRectBorder_loop (n : nat) (i : Z) (rect : image.Rectangle) (c : color.RGBA)
    (dashLen gapLen : Z) (img : image.RGBA) : option image.RGBA :=
  match n with
  | O => Some img
  | S k =>
      let x0 := image.X (image.Min rect) in
      let y0 := image.Y (image.Min rect) in
      let x1 := image.X (image.Max rect) in
      let y1 := image.Y (image.Max rect) in
      img ← drawDashedHLine img x0 x1 (y0 + i) c dashLen gapLen;
      img ← drawDashedHLine img x0 x1 (y1 - 1 - i) c dashLen gapLen;
      img ← drawDashedVLine img (x0 + i) y0 y1 c dashLen gapLen;
      img ← drawDashedVLine img (x1 - 1 - i) y0 y1 c dashLen gapLen;
      drawRectBorder_loop k (i + 1) rect c dashLen gapLen img
  end.

Definition drawRectBorder (img : image.RGBA) (rect : image.Rectangle) (c : color.RGBA)
    (width : Z) (style : BorderStyle) : option image.RGBA :=
  if String.eqb style BorderSolid || String.eqb style BorderNone
  then drawRect img rect c width
  else
    let '(dashLen, gapLen) := if String.eqb style BorderDot then (2, 2) else (6, 4) in
    drawRectBorder_loop (Z.to_nat width) 0 rect c dashLen gapLen img.

(** *** Vocabulary: the pixels of a line *)

(** The pixels drawLine visits, in order. *)
Fixpoint line_points (fuel : nat) (x1 y1 x2 y2 dx dy sx sy err : Z)
    : option (list (Z * Z)) :=
  match fuel with
  | O => None
  | S k =>
      if (x1 =? x2) && (y1 =? y2) then Some [(x1, y1)]
      else
        let e2 := 2 * err in
        let '(err, x1') := if e2 >? - dy then (err - dy, x1 + sx) else (err, x1) in
        let '(err, y1') := if e2 <? dx then (err + dx, y1 + sy) else (err, y1) in
        cons (x1, y1) <$> line_points k x1' y1' x2 y2 dx dy sx sy err
  end.

(** blendPixel at each point, one after the other. *)
Fixpoint blend_points (pts : list (Z * Z)) (c : color.RGBA) (img : image.RGBA)
    : option image.RGBA :=
  match pts with
  | [] => Some img
  | (x, y) :: pts => img ← blendPixel img x y c; blend_points pts c img
  end.

Definition on_points (pts : list (Z * Z)) (x y : Z) : bool :=
  existsb (fun p => (x =? fst p) && (y =? snd p)) pts.

(** Two pixels next to each other, diagonals included. *)
Definition adjacent (p q : Z * Z) : Prop :=
  Z.abs (fst q - fst p) <= 1 /\ Z.abs (snd q - snd p) <= 1 /\ p <> q.

(** The pixels of a dash pattern: [dashLen] on, [gapLen] off, from [start]. *)
Definition on_dash (start dashLen gapLen : Z) (t : Z) : bool :=
  (t - start) mod (dashLen + gapLen) <? dashLen.

(** The pixels of a dashed outline [width] pixels wide: on each of the
    [width] nested outlines the dashes of the top and bottom rows start at
    the left edge of [rect], those of the left and right columns at its top
    edge. *)
Definition on_dashed_border (rect : image.Rectangle) (width dashLen gapLen : Z)
    (x y : Z) : bool :=
  let x0 := image.X (image.Min rect) in
  let y0 := image.Y (image.Min rect) in
  let x1 := image.X (image.Max rect) in
  let y1 := image.Y (image.Max rect) in
  existsb (fun i =>
             ((x0 <=? x) && (x <? x1) && on_dash x0 dashLen gapLen x
              && ((y =? y0 + i) || (y =? y1 - 1 - i)))
             || ((y0 <=? y) && (y <? y1) && on_dash y0 dashLen gapLen y
                 && ((x =? x0 + i) || (x =? x1 - 1 - i))))
          (seqZ 0 width).

(** ** Underlines *)

(** [type UnderlineType string] with its constants. *)
Definition UnderlineType : Type := string.
Definition UnderlineNone : UnderlineType := "none".
Definition UnderlineSingle : UnderlineType := "sng".
Definition UnderlineDouble : UnderlineType := "dbl".
Definition UnderlineHeavy : UnderlineType := "heavy".
Definition UnderlineDash : UnderlineType := "dash".
Definition UnderlineWavy : UnderlineType := "wavy".

Section Underline.

(** math.Sin, which the wavy underline alone uses. *)
Variable Sin : float -> float.

(** The loop of the wavy underline: [for px := x1; px < x2; px++]. *)
Fixpoint drawUnderline_wavy (n : nat) (px x1 y : Z) (c : color.RGBA) (img : image.RGBA)
    : option image.RGBA :=
  match n with
  | O => Some img
  | S k =>
      let wy := y + F64.to_int (Sin (F64.of_int (px - x1) * 0.5) * 2)%float in
      img ← blendPixel img px wy c;
      drawUnderline_wavy k (px + 1) x1 y c img
  end.

Definition drawUnderline (fuel : nat) (img : image.RGBA) (x1 x2 y : Z) (c : color.RGBA)
    (style : UnderlineType) : option image.RGBA :=
  if String.eqb style UnderlineSingle then drawLine fuel img x1 y x2 y c
  else if String.eqb style UnderlineDouble then
    img ← drawLine fuel img x1 (y - 1) x2 (y - 1) c;
    drawLine fuel img x1 (y + 1) x2 (y + 1) c
  else if String.eqb style UnderlineHeavy then
    img ← drawLine fuel img x1 (y - 1) x2 (y - 1) c;
    img ← drawLine fuel img x1 y x2 y c;
    drawLine fuel img x1 (y + 1) x2 (y + 1) c
  else if String.eqb style UnderlineDash then drawDashedHLine img x1 x2 y c 6 3
  else if String.eqb style UnderlineWavy then
    drawUnderline_wavy (Z.to_nat (x2 - x1)) x1 x1 y c img
  else drawLine fuel img x1 y x2 y c.

End Underline.

(** *** Vocabulary: the pixels of an underline *)

(** The rows an underline of a solid style occupies, relative to [y]. *)
Definition underline_rows (style : UnderlineType) : list Z :=
  if String.eqb style UnderlineDouble then [-1; 1]
  else if String.eqb style UnderlineHeavy then [-1; 0; 1]
  else [0].

(** The pixels of an underline from [x1] to [x2] at height [y]: a dashed
    one runs from [x1] up to, but not including, [x2]; the solid ones run
    between the two ends, both included, in either direction. *)
Definition underline_pixels (style : UnderlineType) (x1 x2 y : Z) (x' y' : Z) : bool :=
  if String.eqb style UnderlineDash
  then (y' =? y) && (x1 <=? x') && (x' <? x2) && on_dash x1 6 3 x'
  else (Z.min x1 x2 <=? x') && (x' <=? Z.max x1 x2)
       && existsb (fun d => y' =? y + d) (underline_rows style).

(** ** Frames, crosses and rounded rectangles *)

(** One outline of drawRect, [i] pixels inside the rectangle. *)
Definition outline_at (rect : image.Rectangle) (i : Z) (x y : Z) : bool :=
  ((image.X (image.Min rect) <=? x) && (x <? image.X (image.Max rect))
   && ((y =? image.Y (image.Min rect) + i) || (y =? image.Y (image.Max rect) - 1 - i)))
  || ((image.Y (image.Min rect) <=? y) && (y <? image.Y (image.Max rect))
      && ((x =? image.X (image.Min rect) + i) || (x =? image.X (image.Max rect) - 1 - i))).

(** The frame [width] pixels wide along the inside of [rect]: the pixels
    of [rect] that are not in the rectangle left when [width] pixels are
    taken off each side. *)
Definition on_frame (rect : image.Rectangle) (width : Z) (x y : Z) : bool :=
  image.In x y rect
  && negb ((image.X (image.Min rect) + width <=? x) && (x <? image.X (image.Max rect) - width)
           && (image.Y (image.Min rect) + width <=? y)
           && (y <? image.Y (image.Max rect) - width)).

(** fillPlus and fillRoundedRect add the sides of the box to its corner:
    the sums are those of the code when [x + w] and [y + h] are [int]s. *)
Definition fillPlus (img : image.RGBA) (x y w h : Z) (c : color.RGBA) : option image.RGBA :=
  let armW := w ÷ 3 in
  let armH := h ÷ 3 in
  img ← fillRectBlend img (image.Rect x (y + armH) (x + w) (y + h - armH)) c;
  fillRectBlend img (image.Rect (x + armW) y (x + w - armW) (y + h)) c.

(** The row loop of a corner: [for px := cr.Min.X; px < cr.Max.X; px++]. *)
Fixpoint fillRoundedRect_row (n : nat) (px py ccx : Z) (dy r2 : float) (c : color.RGBA)
    (img : image.RGBA) : option image.RGBA :=
  match n with
  | O => Some img
  | S k =>
      let dx := F64.of_int (px - ccx) in
      img ← (if (dx * dx + dy * dy <=? r2)%float then blendPixel img px py c else Some img);
      fillRoundedRect_row k (px + 1) py ccx dy r2 c img
  end.

(** The loop over the rows of a corner: [for py := cr.Min.Y; py < cr.Max.Y; py++]. *)
Fixpoint fillRoundedRect_rows (n : nat) (py : Z) (cr : image.Rectangle) (ccx ccy : Z)
    (r2 : float) (c : color.RGBA) (img : image.RGBA) : option image.RGBA :=
  match n with
  | O => Some img
  | S k =>
      let dy := F64.of_int (py - ccy) in
      img ← fillRoundedRect_row (Z.to_nat (image.X (image.Max cr) - image.X (image.Min cr)))
              (image.X (image.Min cr)) py ccx dy r2 c img;
      fillRoundedRect_rows k (py + 1) cr ccx ccy r2 c img
  end.

(** The loop over the four corners: [for ci := 0; ci < 4; ci++]. *)
Fixpoint fillRoundedRect_corners (corners : list (Z * Z * image.Rectangle)) (r2 : float)
    (c : color.RGBA) (img : image.RGBA) : option image.RGBA :=
  match corners with
  | [] => Some img
  | (ccx, ccy, cr) :: rest =>
      img ← fillRoundedRect_rows (Z.to_nat (image.Y (image.Max cr) - image.Y (image.Min cr)))
              (image.Y (image.Min cr)) cr ccx ccy r2 c img;
      fillRoundedRect_corners rest r2 c img
  end.

Definition fillRoundedRect (img : image.RGBA) (x y w h radius : Z) (c : color.RGBA)
    : option image.RGBA :=
  if radius <=? 0 then fillRectBlend img (image.Rect x y (x + w) (y + h)) c
  else
    let radius := minInt radius (minInt (w ÷ 2) (h ÷ 2)) in
    let r2 := F64.of_int (radius * radius) in
    img ← fillRectBlend img (image.Rect (x + radius) y (x + w - radius) (y + h)) c;
    img ← fillRectBlend img (image.Rect x (y + radius) (x + radius) (y + h - radius)) c;
    img ← fillRectBlend img (image.Rect (x + w - radius) (y + radius) (x + w) (y + h - radius)) c;
    fillRoundedRect_corners
      [ (x + radius, y + radius,
         image.Rectangle_ (image.Pt x y) (image.Pt (x + radius) (y + radius)));
        (x + w - radius, y + radius,
         image.Rectangle_ (image.Pt (x + w - radius) y) (image.Pt (x + w) (y + radius)));
        (x + radius, y + h - radius,
         image.Rectangle_ (image.Pt x (y + h - radius)) (image.Pt (x + radius) (y + h)));
        (x + w - radius, y + h - radius,
         image.Rectangle_ (image.Pt (x + w - radius) (y + h - radius))
                          (image.Pt (x + w) (y + h))) ]
      r2 c img.

(** *** Vocabulary: the pixels of a cross and of a rounded rectangle *)

(** The cross in the box [w] by [h] at [(x, y)]: a horizontal bar and a
    vertical bar, each a third of the box away from its sides. *)
Definition plus_pixels (x y w h : Z) (x' y' : Z) : bool :=
  ((x <=? x') && (x' <? x + w) && (y + h ÷ 3 <=? y') && (y' <? y + h - h ÷ 3))
  || ((x + w ÷ 3 <=? x') && (x' <? x + w - w ÷ 3) && (y <=? y') && (y' <? y + h)).

(** The corner radius in use: no more than half the width and half the height. *)
Definition corner_radius (w h radius : Z) : Z :=
  if radius <=? 0 then 0 else Z.min radius (Z.min (w ÷ 2) (h ÷ 2)).

(** The pixels of the rounded rectangle [w] by [h] at [(x, y)]: those of
    the box, except that a pixel in one of the four corner squares of side
    [r] belongs to it only when it is no farther than [r] from the inner
    corner of its square (distances taken between pixel coordinates). *)
Definition rounded_pixels (x y w h radius : Z) (x' y' : Z) : bool :=
  let r := corner_radius w h radius in
  let ccx := if x' <? x + r then x + r else x + w - r in
  let ccy := if y' <? y + r then y + r else y + h - r in
  (x <=? x') && (x' <? x + w) && (y <=? y') && (y' <? y + h)
  && (negb (((x' <? x + r) || (x + w - r <=? x')) && ((y' <? y + r) || (y + h - r <=? y')))
      || ((x' - ccx) * (x' - ccx) + (y' - ccy) * (y' - ccy) <=? r * r)).

(** ** The flips of renderRotated *)

(** [copy(dst[dOff:dOff+n], src[sOff:sOff+n])]: a slice expression whose
    bounds leave the buffer panics. *)
Definition copy_bytes (dst : list Z) (dOff : Z) (src : list Z) (sOff n : Z)
    : option (list Z) :=
  if (0 <=? dOff) && (0 <=? n) && (dOff + n <=? Z.of_nat (length dst))
     && (0 <=? sOff) && (sOff + n <=? Z.of_nat (length src))
  then Some (take (Z.to_nat dOff) dst
             ++ take (Z.to_nat n) (drop (Z.to_nat sOff) src)
             ++ drop (Z.to_nat (dOff + n)) dst)
  else None.

(** The loop over the pixels of a mirrored row: [for px := 0; px < w; px++]. *)
Fixpoint flip_row (n : nat) (px w srcRow dstRow : Z) (src dst : list Z)
    : option (list Z) :=
  match n with
  | O => Some dst
  | S k =>
      let sx := w - 1 - px in
      let sOff := srcRow + sx * 4 in
      let dOff := dstRow + px * 4 in
      dst ← copy_bytes dst dOff src sOff 4;
      flip_row k (px + 1) w srcRow dstRow src dst
  end.

(** The loop over the rows: [for py := 0; py < h; py++]. *)
Fixpoint flip_rows (n : nat) (py w h : Z) (flipH flipV : bool) (stride fstride : Z)
    (src dst : list Z) : option (list Z) :=
  match n with
  | O => Some dst
  | S k =>
      let sy := if flipV then h - 1 - py else py in
      let srcRow := sy * stride in
      let dstRow := py * fstride in
      dst ← (if flipH then flip_row (Z.to_nat w) 0 w srcRow dstRow src dst
             else copy_bytes dst dstRow src srcRow (w * 4));
      flip_rows k (py + 1) w h flipH flipV stride fstride src dst
  end.

(** The flip step of renderRotated: the offscreen layer [tmp], [w] by [h],
    is replaced by its mirror image when a flip is asked for. *)
Definition renderRotated_flip (tmp : image.RGBA) (w h : Z) (flipH flipV : bool)
    : option image.RGBA :=
  if flipH || flipV then
    flipped ← image.NewRGBA (image.Bounds tmp);
    pix ← flip_rows (Z.to_nat h) 0 w h flipH flipV (image.Stride tmp)
            (image.Stride flipped) (image.Pix tmp) (image.Pix flipped);
    Some (image.with_pix flipped pix)
  else Some tmp.

(** *** Vocabulary: an offscreen layer and its mirror image *)

(** What renderRotated's offscreen layer is: a well-formed image with the
    bounds (0, 0) - (w, h). *)
Definition layer (tmp : image.RGBA) (w h : Z) : Prop :=
  0 < w /\ 0 < h /\ 4 * w * h < 2 ^ 63
  /\ image.Bounds tmp = image.Rect 0 0 w h
  /\ image.Stride tmp = 4 * w
  /\ Z.of_nat (length (image.Pix tmp)) = 4 * w * h.

(** The column and the row a pixel of the flipped layer is taken from. *)
Definition mirror (flip : bool) (size i : Z) : Z := if flip then size - 1 - i else i.

(** Where the byte at offset [k] of a row comes from in the source row. *)
Definition row_source (flipH : bool) (w k : Z) : Z :=
  if flipH then (w - 1 - k / 4) * 4 + k mod 4 else k.

(** ** Text lines: buildTextLine and wrapRunLine

    The fonts are outside the model: a face is a value of a type [Face]
    with its metrics, [font.MeasureString] and [strings.Fields] are functions
    the section takes.  A nil face is [None]. *)

Module text.

Section Wrap.

Context {Font Face : Type}.

(** [face.Metrics()]: the ascent and the descent, each rounded up. *)
Variable Metrics : Face -> Z * Z.
(** [font.MeasureString(face, s).Ceil()] *)
Variable MeasureString : Face -> string -> Z.
(** [strings.Fields] *)
Variable Fields : string -> list string.

(** textRun holds a measured run of text with its formatting. *)
Record textRun := textRun_ {
  text : string;
  font : Font;
  face : option Face;
  width : Z
}.

(** textLine holds a line of text runs with total metrics. *)
Record textLine := textLine_ {
  runs : list textRun;
  line_width : Z;
  ascent : Z;
  descent : Z;
  lineHeight : Z
}.

(** One turn of the loop of buildTextLine. *)
Definition buildTextLine_step (tl : textLine) (run : textRun) : textLine :=
  let tl := textLine_ (runs tl) (line_width tl + width run) (ascent tl) (descent tl)
              (lineHeight tl) in
  match face run with
  | None => tl
  | Some f =>
      let '(asc, desc) := Metrics f in
      let tl := if asc >? ascent tl
                then textLine_ (runs tl) (line_width tl) asc (descent tl) (lineHeight tl)
                else tl in
      if desc >? descent tl
      then textLine_ (runs tl) (line_width tl) (ascent tl) desc (lineHeight tl)
      else tl
  end.

(** buildTextLine measures a slice of textRuns and returns a textLine. *)
Definition buildTextLine (rs : list textRun) : textLine :=
  let tl := fold_left buildTextLine_step rs (textLine_ rs 0 0 0 0) in
  let lh := ascent tl + descent tl in
  textLine_ (runs tl) (line_width tl) (ascent tl) (descent tl) (if lh <? 1 then 14 else lh).

Definition newline : string := String (ascii_of_nat 10) EmptyString.

Definition nonempty (s : string) : bool := negb (String.eqb s "").

(** What the loops of wrapRunLine carry: the lines so far, the runs of
    the line under way and their width. *)
Definition wrap_state : Type := list textLine * list textRun * Z.

(** The loop over the words of a run that has to be split:
    [for i, word := range words], with the builder [partial]. *)
Fixpoint wrap_words (run : textRun) (f : Face) (maxWidth : Z) (words : list string)
    (first : bool) (st : wrap_state) (partial : string) : wrap_state * string :=
  match words with
  | [] => (st, partial)
  | word :: rest =>
      let '(lines, currentRuns, currentWidth) := st in
      let test := partial in
      let test := if first then test else (test ++ " ")%string in
      let test := (test ++ word)%string in
      let tw := MeasureString f test in
      if (currentWidth + tw >? maxWidth)
         && ((0 <? Z.of_nat (length currentRuns)) || nonempty partial)
      then
        let currentRuns :=
          if nonempty partial
          then currentRuns ++ [textRun_ partial (font run) (Some f) (MeasureString f partial)]
          else currentRuns in
        wrap_words run f maxWidth rest false
          (lines ++ [buildTextLine currentRuns], [], 0) word
      else
        let partial := if nonempty partial then (partial ++ " ")%string else partial in
        wrap_words run f maxWidth rest false st (partial ++ word)%string
  end.

(** One turn of the loop over the runs. *)
Definition wrap_run (maxWidth : Z) (st : wrap_state) (run : textRun) : wrap_state :=
  let '(lines, currentRuns, currentWidth) := st in
  if String.eqb (text run) newline then (lines ++ [buildTextLine currentRuns], [], 0)
  else
    match face run with
    | None => st
    | Some f =>
        if (currentWidth + width run <=? maxWidth) || (length currentRuns =? 0)%nat
        then (lines, currentRuns ++ [run], currentWidth + width run)
        else
          let words := Fields (text run) in
          if (length words <=? 1)%nat then
            let '(lines, currentRuns) :=
              if (0 <? length currentRuns)%nat
              then (lines ++ [buildTextLine currentRuns], [])
              else (lines, currentRuns) in
            (lines, currentRuns ++ [run], width run)
          else
            let '(lines, currentRuns, currentWidth, partial) :=
              wrap_words run f maxWidth words true st "" in
            if nonempty partial then
              let wr := textRun_ partial (font run) (Some f) (MeasureString f partial) in
              (lines, currentRuns ++ [wr], currentWidth + width wr)
            else (lines, currentRuns, currentWidth)
    end.

(** wrapRunLine wraps text runs into multiple lines that fit within maxWidth. *)
Definition wrapRunLine (rs : list textRun) (maxWidth : Z) : list textLine :=
  if (length rs =? 0)%nat then []
  else
    let maxWidth := if maxWidth <=? 0 then 1 else maxWidth in
    let '(lines, currentRuns, _) := fold_left (wrap_run maxWidth) rs ([], [], 0) in
    if (0 <? length currentRuns)%nat then lines ++ [buildTextLine currentRuns] else lines.

(** *** Vocabulary *)

(** The sum of the widths of some runs. *)
Definition total_width (rs : list textRun) : Z := fold_right (fun r acc => width r + acc) 0 rs.

(** The width in use: at least 1. *)
Definition wrap_width (maxWidth : Z) : Z := if maxWidth <=? 0 then 1 else maxWidth.

(** A line of the result is in order for the width [maxW]: its width is the
    sum of the widths of its runs, it fits unless it holds a single run, and
    each of its runs has a face. *)
Definition line_ok (maxW : Z) (l : textLine) : Prop :=
  line_width l = total_width (runs l)
  /\ ((2 <= length (runs l))%nat -> line_width l <= maxW)
  /\ Forall (fun r => face r <> None) (runs l).

(** What holds of the runs of the line under way. *)
Definition current_ok (maxW : Z) (cur : list textRun) (cw : Z) : Prop :=
  cw = total_width cur
  /\ ((2 <= length cur)%nat -> cw <= maxW)
  /\ Forall (fun r => face r <> None) cur.

End Wrap.

(** A sample of [strings.Fields], for spaces only: the words between them. *)
Fixpoint sample_fields_from (s : string) (cur : string) : list string :=
  match s with
  | EmptyString => if String.eqb cur "" then [] else [cur]
  | String c s =>
      if Ascii.eqb c " "
      then (if String.eqb cur "" then [] else [cur]) ++ sample_fields_from s ""
      else sample_fields_from s (cur ++ String c EmptyString)
  end.

Definition sample_fields (s : string) : list string := sample_fields_from s "".

(** Sample runs in a face seven pixels a character wide. *)
Definition sample_measure (f : unit) (s : string) : Z := 7 * Z.of_nat (String.length s).

Definition sample_run (s : string) : @textRun unit unit :=
  textRun_ s tt (Some tt) (sample_measure tt s).

End text.

(** ** scaleImageBilinear, for a source that is an [*image.RGBA]

    The function takes the fast path when the source is an [*image.RGBA];
    this is the path modelled here.  [bounds] is the source's own rectangle,
    so the differences [bounds.Min - srcRGBA.Rect.Min] are written as they
    stand in the code. *)

Module scale.

(** The loop over the channels: [for ch := 0; ch < 4; ch++]. *)
Fixpoint channels (n : nat) (ch : Z) (sp : list Z) (o00 o10 o01 o11 : Z)
    (fx ifx fy ify : float) (dstOff : Z) (pix : list Z) : option (list Z) :=
  match n with
  | O => Some pix
  | S k =>
      v00 ← load sp (o00 + ch);
      v10 ← load sp (o10 + ch);
      v01 ← load sp (o01 + ch);
      v11 ← load sp (o11 + ch);
      let top := (F64.of_int v00 * ifx + F64.of_int v10 * fx)%float in
      let bot := (F64.of_int v01 * ifx + F64.of_int v11 * fx)%float in
      pix ← store pix (dstOff + ch) (to_uint8 (top * ify + bot * fy)%float);
      channels k (ch + 1) sp o00 o10 o01 o11 fx ifx fy ify dstOff pix
  end.

(** The loop over the columns: [for dx := 0; dx < dstW; dx++]. *)
Fixpoint columns (n : nat) (dx : Z) (sp : list Z) (xRatio : float) (srcW : Z)
    (srcOff0 srcOff1 : Z) (fy ify : float) (dstOff : Z) (pix : list Z)
    : option (list Z) :=
  match n with
  | O => Some pix
  | S k =>
      let sx := (F64.of_int dx * xRatio)%float in
      let sx0 := F64.to_int sx in
      let sx1 := sx0 + 1 in
      let sx1 := if sx1 >=? srcW then srcW - 1 else sx1 in
      let fx := (sx - F64.of_int sx0)%float in
      let ifx := (1 - fx)%float in
      let o00 := srcOff0 + sx0 * 4 in
      let o10 := srcOff0 + sx1 * 4 in
      let o01 := srcOff1 + sx0 * 4 in
      let o11 := srcOff1 + sx1 * 4 in
      pix ← channels 4 0 sp o00 o10 o01 o11 fx ifx fy ify dstOff pix;
      columns k (dx + 1) sp xRatio srcW srcOff0 srcOff1 fy ify (dstOff + 4) pix
  end.

(** The loop over the rows: [for dy := 0; dy < dstH; dy++]. *)
Fixpoint rows (n : nat) (dy : Z) (src : image.RGBA) (xRatio yRatio : float)
    (srcW srcH dstW dstStride : Z) (pix : list Z) : option (list Z) :=
  match n with
  | O => Some pix
  | S k =>
      let bounds := image.Bounds src in
      let sy := (F64.of_int dy * yRatio)%float in
      let sy0 := F64.to_int sy in
      let sy1 := sy0 + 1 in
      let sy1 := if sy1 >=? srcH then srcH - 1 else sy1 in
      let fy := (sy - F64.of_int sy0)%float in
      let ify := (1 - fy)%float in
      let srcOff0 :=
        (sy0 + image.Y (image.Min bounds) - image.Y (image.Min (image.Bounds src)))
          * image.Stride src
        + (image.X (image.Min bounds) - image.X (image.Min (image.Bounds src))) * 4 in
      let srcOff1 :=
        (sy1 + image.Y (image.Min bounds) - image.Y (image.Min (image.Bounds src)))
          * image.Stride src
        + (image.X (image.Min bounds) - image.X (image.Min (image.Bounds src))) * 4 in
      let dstOff := dy * dstStride in
      pix ← columns (Z.to_nat dstW) 0 (image.Pix src) xRatio srcW srcOff0 srcOff1 fy ify
              dstOff pix;
      rows k (dy + 1) src xRatio yRatio srcW srcH dstW dstStride pix
  end.

(** scaleImageBilinear scales an image to the target width and height
    using bilinear interpolation. *)
Definition scaleImageBilinear (src : image.RGBA) (dstW dstH : Z) : option image.RGBA :=
  if (dstW <=? 0) || (dstH <=? 0) then image.NewRGBA (image.Rect 0 0 1 1)
  else
    let bounds := image.Bounds src in
    let srcW := image.Dx bounds in
    let srcH := image.Dy bounds in
    if (srcW <=? 0) || (srcH <=? 0) then image.NewRGBA (image.Rect 0 0 dstW dstH)
    else
      dst ← image.NewRGBA (image.Rect 0 0 dstW dstH);
      let xRatio := (F64.of_int srcW / F64.of_int dstW)%float in
      let yRatio := (F64.of_int srcH / F64.of_int dstH)%float in
      pix ← rows (Z.to_nat dstH) 0 src xRatio yRatio srcW srcH dstW (image.Stride dst)
              (image.Pix dst);
      Some (image.with_pix dst pix).

(** scaleImage scales an image using nearest-neighbor (fast fallback). *)
Definition scaleImage (src : image.RGBA) (dstW dstH : Z) : option image.RGBA :=
  scaleImageBilinear src dstW dstH.

End scale.

(** ** Anti-aliased lines: drawLineAA and drawLineWu *)

Module wu.

Local Open Scope float_scope.

(** [math.Round]: the nearest integer, halves away from zero; the sign is
    kept, also on a zero result. *)
Definition Round (x : float) : float :=
  match Prim2SF x with
  | S754_finite s m e =>
      if (0 <=? e)%Z then x
      else
        let v := ((Zpos m + 2 ^ (- e - 1)) / 2 ^ (- e))%Z in
        if (v =? 0)%Z then (if s then (- 0) else 0)
        else if s then - F64.of_int v else F64.of_int v
  | _ => x
  end.

Definition fpart (x : float) : float := x - F64.Floor x.

(** The two pixels of a column of the line ([steep]: of a row), with the
    coverages [cov] and [cov']. *)
Definition plot2 (img : image.RGBA) (steep : bool) (x y : Z) (c : color.RGBA)
    (cov cov' : float) : option image.RGBA :=
  if steep then
    img ← blendPixelF img y x c cov;
    blendPixelF img (y + 1) x c cov'
  else
    img ← blendPixelF img x y c cov;
    blendPixelF img x (y + 1) c cov'.

(** The main loop: [for x := xpxl1 + 1; x < xpxl2; x++]. *)
Fixpoint drawLineWu_loop (n : nat) (x : Z) (intery gradient : float) (steep : bool)
    (c : color.RGBA) (img : image.RGBA) : option image.RGBA :=
  match n with
  | O => Some img
  | S k =>
      let iy := F64.to_int (F64.Floor intery) in
      let f := fpart intery in
      img ← plot2 img steep x iy c (1 - f) f;
      drawLineWu_loop k (x + 1) (intery + gradient) gradient steep c img
  end.

(** drawLineWu once [steep] is known and the end points are in order. *)
Definition drawLineWu_span (img : image.RGBA) (steep : bool) (x0 y0 x1 y1 : float)
    (c : color.RGBA) : option image.RGBA :=
  let dx := x1 - x0 in
  let dy := y1 - y0 in
  let gradient := if negb (dx =? 0) then dy / dx else 0 in
  (* first endpoint *)
  let xend := Round x0 in
  let yend := y0 + gradient * (xend - x0) in
  let xgap := 1 - fpart (x0 + 0.5) in
  let xpxl1 := F64.to_int xend in
  let ypxl1 := F64.to_int (F64.Floor yend) in
  img ← plot2 img steep xpxl1 ypxl1 c ((1 - fpart yend) * xgap) (fpart yend * xgap);
  let intery := yend + gradient in
  (* second endpoint *)
  let xend := Round x1 in
  let yend := y1 + gradient * (xend - x1) in
  let xgap := fpart (x1 + 0.5) in
  let xpxl2 := F64.to_int xend in
  let ypxl2 := F64.to_int (F64.Floor yend) in
  img ← plot2 img steep xpxl2 ypxl2 c ((1 - fpart yend) * xgap) (fpart yend * xgap);
  drawLineWu_loop (Z.to_nat (xpxl2 - (xpxl1 + 1))) (xpxl1 + 1) intery gradient steep c img.

Definition drawLineWu (img : image.RGBA) (x0 y0 x1 y1 : float) (c : color.RGBA)
    : option image.RGBA :=
  let steep := PrimFloat.abs (x1 - x0) <? PrimFloat.abs (y1 - y0) in
  let '(x0, y0, x1, y1) := if steep then (y0, x0, y1, x1) else (x0, y0, x1, y1) in
  let '(x0, y0, x1, y1) := if x1 <? x0 then (x1, y1, x0, y0) else (x0, y0, x1, y1) in
  drawLineWu_span img steep x0 y0 x1 y1 c.

(** The loop of drawLineAA for a wide line: [for i := 0; i < width; i++]. *)
Fixpoint drawLineAA_loop (n : nat) (i : Z) (x1 y1 x2 y2 : Z) (nx ny hw : float)
    (c : color.RGBA) (img : image.RGBA) : option image.RGBA :=
  match n with
  | O => Some img
  | S k =>
      let offset := - hw + F64.of_int i + 0.5 in
      let ox := offset * nx in
      let oy := offset * ny in
      img ← drawLineWu img (F64.of_int x1 + ox) (F64.of_int y1 + oy)
              (F64.of_int x2 + ox) (F64.of_int y2 + oy) c;
      drawLineAA_loop k (i + 1)%Z x1 y1 x2 y2 nx ny hw c img
  end.

Definition drawLineAA (img : image.RGBA) (x1 y1 x2 y2 : Z) (c : color.RGBA) (width : Z)
    : option image.RGBA :=
  if (width <=? 1)%Z
  then drawLineWu img (F64.of_int x1) (F64.of_int y1) (F64.of_int x2) (F64.of_int y2) c
  else
    let dx := F64.of_int (x2 - x1) in
    let dy := F64.of_int (y2 - y1) in
    let length := PrimFloat.sqrt (dx * dx + dy * dy) in
    if length <? 0.5 then blendPixel img x1 y1 c
    else
      let nx := - dy / length in
      let ny := dx / length in
      let hw := F64.of_int width / 2 in
      drawLineAA_loop (Z.to_nat width) 0 x1 y1 x2 y2 nx ny hw c img.

End wu.

(** *** Vocabulary: an axis-parallel line *)

(** The colour at half its alpha: what a coverage of one half blends. *)
Definition half_alpha (c : color.RGBA) : color.RGBA :=
  color.RGBA_ (color.R c) (color.G c) (color.B c) (color.A c / 2).

(** The pixel at position [t] along a line that runs in x ([steep] false)
    or in y ([steep] true) at the fixed coordinate [k]. *)
Definition along (steep : bool) (k t : Z) : Z * Z := if steep then (k, t) else (t, k).

(** The pixels strictly between the positions [lo] and [hi], in order. *)
Definition inner_run (steep : bool) (k lo hi : Z) : list (Z * Z) :=
  map (along steep k) (seqZ (lo + 1) (hi - lo - 1)).

(** An axis-parallel line as the anti-aliased code draws it: its two end
    pixels at half alpha, the smaller coordinate first, then the pixels
    between them in full. *)
Definition axis_line (img : image.RGBA) (steep : bool) (k lo hi : Z) (c : color.RGBA)
    : option image.RGBA :=
  img ← blendPixel img (fst (along steep k lo)) (snd (along steep k lo)) (half_alpha c);
  img ← blendPixel img (fst (along steep k hi)) (snd (along steep k hi)) (half_alpha c);
  blend_points (inner_run steep k lo hi) c img.

(** * Part II: properties *)

(** Linear arithmetic that also sees through boolean comparisons of
    converted naturals. *)
Ltac nat_pos :=
  repeat match goal with
         | |- context [Z.of_nat ?n] =>
             match goal with
             | H : (0 <= Z.of_nat n) |- _ => fail 1
             | _ => pose proof (Nat2Z.is_nonneg n)
             end
         end.

Ltac blia := nat_pos; lia.

(** ** Bytes read and written by index *)

Lemma store_Some (pix : list Z) (i v : Z) (pix' : list Z) :
  store pix i v = Some pix' <->
  0 <= i < Z.of_nat (length pix) /\ pix' = <[Z.to_nat i := v]> pix.
Proof.
  unfold store. destruct (0 <=? i) eqn:H0; destruct (i <? Z.of_nat (length pix)) eqn:H1;
    simpl; split; intros H; try discriminate; try lia.
  - inversion H; subst. split; [lia | reflexivity].
  - destruct H as [_ ->]. reflexivity.
Qed.

Lemma load_Some (pix : list Z) (i : Z) :
  0 <= i < Z.of_nat (length pix) -> exists d, load pix i = Some d.
Proof.
  intros H. unfold load.
  replace (0 <=? i) with true by lia. replace (i <? Z.of_nat (length pix)) with true by lia.
  simpl. destruct (lookup_lt_is_Some_2 pix (Z.to_nat i)) as [d Hd]; [lia | eauto].
Qed.

Lemma load_None (pix : list Z) (i : Z) :
  ~ (0 <= i < Z.of_nat (length pix)) -> load pix i = None.
Proof.
  intros H. unfold load.
  destruct (0 <=? i) eqn:H0; destruct (i <? Z.of_nat (length pix)) eqn:H1; simpl; auto; lia.
Qed.

Lemma load_store (pix : list Z) (i v : Z) (pix' : list Z) (j : Z) :
  store pix i v = Some pix' ->
  load pix' j = if j =? i then Some v else load pix j.
Proof.
  intros [Hi ->]%store_Some. unfold load. rewrite length_insert.
  destruct (j =? i) eqn:E.
  - apply Z.eqb_eq in E; subst j.
    replace (0 <=? i) with true by lia. replace (i <? Z.of_nat (length pix)) with true by lia.
    simpl. apply list_lookup_insert_eq. lia.
  - apply Z.eqb_neq in E.
    destruct ((0 <=? j) && (j <? Z.of_nat (length pix))) eqn:Hj; [|reflexivity].
    apply list_lookup_insert_ne. lia.
Qed.

Lemma length_store (pix : list Z) (i v : Z) (pix' : list Z) :
  store pix i v = Some pix' -> length pix' = length pix.
Proof. intros [_ ->]%store_Some. apply length_insert. Qed.

Lemma store_in_range (pix : list Z) (i v : Z) :
  0 <= i < Z.of_nat (length pix) -> exists pix', store pix i v = Some pix'.
Proof. intros H. eexists. apply store_Some. split; [exact H | reflexivity]. Qed.

(** ** One pixel, a row, a block of rows *)

Lemma update_px_spec (f : Z -> Z -> Z) (pix : list Z) (off : Z) :
  0 <= off -> off + 4 <= Z.of_nat (length pix) ->
  exists pix', update_px f pix off = Some pix'
    /\ length pix' = length pix
    /\ forall j, load pix' j =
         if (off <=? j) && (j <? off + 4) then f (j - off) <$> load pix j
         else load pix j.
Proof.
  intros H0 H4. unfold update_px.
  destruct (load_Some pix off) as [d0 E0]; [lia|]. rewrite E0; simpl.
  destruct (store_in_range pix off (f 0 d0)) as [p1 S1]; [lia|]. rewrite S1; simpl.
  pose proof (length_store _ _ _ _ S1) as L1.
  pose proof (load_store _ _ _ _ (off + 1) S1) as E1.
  replace (off + 1 =? off) with false in E1 by lia.
  destruct (load_Some pix (off + 1)) as [d1 E1']; [lia|]. rewrite E1' in E1. rewrite E1; simpl.
  destruct (store_in_range p1 (off + 1) (f 1 d1)) as [p2 S2]; [lia|]. rewrite S2; simpl.
  pose proof (length_store _ _ _ _ S2) as L2.
  pose proof (load_store _ _ _ _ (off + 2) S2) as E2.
  replace (off + 2 =? off + 1) with false in E2 by lia.
  rewrite (load_store _ _ _ _ (off + 2) S1) in E2.
  replace (off + 2 =? off) with false in E2 by lia.
  destruct (load_Some pix (off + 2)) as [d2 E2']; [lia|]. rewrite E2' in E2. rewrite E2; simpl.
  destruct (store_in_range p2 (off + 2) (f 2 d2)) as [p3 S3]; [lia|]. rewrite S3; simpl.
  pose proof (length_store _ _ _ _ S3) as L3.
  pose proof (load_store _ _ _ _ (off + 3) S3) as E3.
  replace (off + 3 =? off + 2) with false in E3 by lia.
  rewrite (load_store _ _ _ _ (off + 3) S2) in E3.
  replace (off + 3 =? off + 1) with false in E3 by lia.
  rewrite (load_store _ _ _ _ (off + 3) S1) in E3.
  replace (off + 3 =? off) with false in E3 by lia.
  destruct (load_Some pix (off + 3)) as [d3 E3']; [lia|]. rewrite E3' in E3. rewrite E3; simpl.
  destruct (store_in_range p3 (off + 3) (f 3 d3)) as [p4 S4]; [lia|].
  exists p4. split; [exact S4|]. split; [rewrite (length_store _ _ _ _ S4); lia|].
  intros j.
  rewrite (load_store _ _ _ _ j S4), (load_store _ _ _ _ j S3),
    (load_store _ _ _ _ j S2), (load_store _ _ _ _ j S1).
  destruct (j =? off + 3) eqn:J3.
  { apply Z.eqb_eq in J3; subst j. replace (off + 3 - off) with 3 by lia.
    rewrite E3'. simpl. replace ((off <=? off + 3) && (off + 3 <? off + 4)) with true by lia.
    reflexivity. }
  destruct (j =? off + 2) eqn:J2.
  { apply Z.eqb_eq in J2; subst j. replace (off + 2 - off) with 2 by lia.
    rewrite E2'. simpl. replace ((off <=? off + 2) && (off + 2 <? off + 4)) with true by lia.
    reflexivity. }
  destruct (j =? off + 1) eqn:J1.
  { apply Z.eqb_eq in J1; subst j. replace (off + 1 - off) with 1 by lia.
    rewrite E1'. simpl. replace ((off <=? off + 1) && (off + 1 <? off + 4)) with true by lia.
    reflexivity. }
  destruct (j =? off) eqn:J0.
  { apply Z.eqb_eq in J0; subst j. replace (off - off) with 0 by lia.
    rewrite E0. simpl. replace ((off <=? off) && (off <? off + 4)) with true by lia.
    reflexivity. }
  replace ((off <=? j) && (j <? off + 4)) with false by lia. reflexivity.
Qed.

Lemma get_px_ext (pix pix' : list Z) (o : Z) :
  (forall j, o <= j < o + 4 -> load pix' j = load pix j) ->
  get_px pix' o = get_px pix o.
Proof.
  intros H. unfold get_px.
  rewrite (H o), (H (o + 1)), (H (o + 2)), (H (o + 3)) by lia. reflexivity.
Qed.

Lemma get_px_in_range (pix : list Z) (o : Z) :
  0 <= o -> o + 4 <= Z.of_nat (length pix) -> exists p, get_px pix o = Some p.
Proof.
  intros H0 H4. unfold get_px.
  destruct (load_Some pix o) as [r ->]; [lia|].
  destruct (load_Some pix (o + 1)) as [g ->]; [lia|].
  destruct (load_Some pix (o + 2)) as [b ->]; [lia|].
  destruct (load_Some pix (o + 3)) as [a ->]; [lia|].
  simpl. eauto.
Qed.

(** The pixel at [off] is mapped, the pixels that do not overlap it are kept. *)
Lemma update_px_get (f : Z -> Z -> Z) (pix : list Z) (off : Z) :
  0 <= off -> off + 4 <= Z.of_nat (length pix) ->
  exists pix', update_px f pix off = Some pix'
    /\ length pix' = length pix
    /\ get_px pix' off = px_map f <$> get_px pix off
    /\ (forall o, o + 4 <= off \/ off + 4 <= o -> get_px pix' o = get_px pix o)
    /\ (forall j, ~ (off <= j < off + 4) -> load pix' j = load pix j).
Proof.
  intros H0 H4. destruct (update_px_spec f pix off H0 H4) as (pix' & E & L & Hl).
  exists pix'. split; [exact E|]. split; [exact L|]. split; [|split].
  - unfold get_px. rewrite !Hl.
    replace ((off <=? off) && (off <? off + 4)) with true by lia.
    replace ((off <=? off + 1) && (off + 1 <? off + 4)) with true by lia.
    replace ((off <=? off + 2) && (off + 2 <? off + 4)) with true by lia.
    replace ((off <=? off + 3) && (off + 3 <? off + 4)) with true by lia.
    replace (off - off) with 0 by lia. replace (off + 1 - off) with 1 by lia.
    replace (off + 2 - off) with 2 by lia. replace (off + 3 - off) with 3 by lia.
    destruct (load pix off); simpl; [|reflexivity].
    destruct (load pix (off + 1)); simpl; [|reflexivity].
    destruct (load pix (off + 2)); simpl; [|reflexivity].
    destruct (load pix (off + 3)); simpl; reflexivity.
  - intros o Ho. apply get_px_ext. intros j Hj. rewrite Hl.
    replace ((off <=? j) && (j <? off + 4)) with false by lia. reflexivity.
  - intros j Hj. rewrite Hl.
    replace ((off <=? j) && (j <? off + 4)) with false by lia. reflexivity.
Qed.

Lemma update_row_spec (f : Z -> Z -> Z) (n : nat) (pix : list Z) (off : Z) :
  0 <= off -> off + 4 * Z.of_nat n <= Z.of_nat (length pix) ->
  exists pix', update_row f n pix off = Some pix'
    /\ length pix' = length pix
    /\ (forall o, (o - off) mod 4 = 0 ->
          get_px pix' o =
            if (off <=? o) && (o <? off + 4 * Z.of_nat n) then px_map f <$> get_px pix o
            else get_px pix o)
    /\ (forall j, ~ (off <= j < off + 4 * Z.of_nat n) -> load pix' j = load pix j).
Proof.
  revert pix off. induction n as [|n IH]; intros pix off H0 Hn.
  - exists pix. simpl. repeat split; auto.
    intros o _. destruct ((off <=? o) && (o <? off + 4 * Z.of_nat 0)) eqn:E; [change (Z.of_nat 0) with 0 in E; lia | reflexivity].
  - replace (Z.of_nat (S n)) with (Z.of_nat n + 1) in * by lia.
    destruct (update_px_get f pix off) as (p1 & E1 & L1 & G1 & K1 & B1); [lia | lia |].
    destruct (IH p1 (off + 4)) as (p2 & E2 & L2 & G2 & B2); [lia | lia |].
    exists p2. simpl. rewrite E1. simpl. split; [exact E2|]. split; [lia|]. split.
    + intros o Ho.
      assert ((o - (off + 4)) mod 4 = 0) as Ho'.
      { replace (o - (off + 4)) with (o - off + (-1) * 4) by lia. rewrite Z_mod_plus_full. exact Ho. }
      rewrite (G2 o Ho').
      destruct (Z.eq_dec o off) as [->|Hne].
      * replace ((off + 4 <=? off) && (off <? off + 4 + 4 * Z.of_nat n)) with false by lia.
        replace ((off <=? off) && (off <? off + 4 * (Z.of_nat n + 1))) with true by lia.
        exact G1.
      * assert (o + 4 <= off \/ off + 4 <= o) as Hd.
        { revert Ho Hne. clear. intros. Z.div_mod_to_equations. lia. }
        rewrite (K1 o Hd).
        replace ((off + 4 <=? o) && (o <? off + 4 + 4 * Z.of_nat n))
          with ((off <=? o) && (o <? off + 4 * (Z.of_nat n + 1))) by lia.
        reflexivity.
    + intros j Hj. rewrite B2 by lia. apply B1. lia.
Qed.

Lemma in_rows_below (rows : nat) (w stride off o : Z) :
  0 <= stride -> o < off -> in_rows rows w stride off o = false.
Proof.
  revert off. induction rows as [|k IH]; intros off Hs Ho; simpl; [reflexivity|].
  rewrite IH by lia. replace (off <=? o) with false by lia. reflexivity.
Qed.

Lemma update_rows_spec (f : Z -> Z -> Z) (rows w : nat) (stride : Z) (pix : list Z) (off : Z) :
  0 <= off -> 4 * Z.of_nat w <= stride -> stride mod 4 = 0 ->
  (rows = 0%nat \/ off + (Z.of_nat rows - 1) * stride + 4 * Z.of_nat w <= Z.of_nat (length pix)) ->
  exists pix', update_rows f rows w stride pix off = Some pix'
    /\ length pix' = length pix
    /\ (forall o, (o - off) mod 4 = 0 ->
          get_px pix' o =
            if in_rows rows (Z.of_nat w) stride off o then px_map f <$> get_px pix o
            else get_px pix o)
    /\ (forall j, j < off -> load pix' j = load pix j).
Proof.
  revert pix off. induction rows as [|k IH]; intros pix off H0 Hw Hs Hlen.
  - exists pix. simpl. auto.
  - destruct Hlen as [Hlen|Hlen]; [discriminate|].
    replace (Z.of_nat (S k)) with (Z.of_nat k + 1) in * by lia.
    destruct (update_row_spec f w pix off) as (p1 & E1 & L1 & G1 & B1); [lia | nia |].
    destruct (IH p1 (off + stride)) as (p2 & E2 & L2 & G2 & B2); [lia | lia | exact Hs | |].
    { destruct k; [left; reflexivity | right]. rewrite L1. nia. }
    exists p2. simpl. rewrite E1. simpl. split; [exact E2|]. split; [lia|]. split.
    + intros o Ho.
      assert ((o - (off + stride)) mod 4 = 0) as Ho'.
      { revert Ho Hs. clear. intros. Z.div_mod_to_equations. lia. }
      rewrite (G2 o Ho'), (G1 o Ho).
      destruct ((off <=? o) && (o <? off + 4 * Z.of_nat w)) eqn:Hin; simpl.
      * rewrite in_rows_below by lia. reflexivity.
      * reflexivity.
    + intros j Hj. rewrite B2 by lia. apply B1. lia.
Qed.

(** ** Rectangles *)

Ltac rect_cases :=
  rewrite ?Z.geb_leb, ?Z.gtb_ltb;
  repeat match goal with
         | |- context [if (?a <? ?b) then _ else _] => destruct (a <? b) eqn:?; simpl
         end;
  repeat match goal with
         | |- context [if ?b then _ else _] => destruct b eqn:?; simpl
         end;
  rewrite ?Z.geb_leb, ?Z.gtb_ltb in *; lia.

Lemma In_Intersect (r s : image.Rectangle) (x y : Z) :
  image.In x y (image.Intersect r s) = image.In x y r && image.In x y s.
Proof.
  destruct r as [[rx0 ry0] [rx1 ry1]], s as [[sx0 sy0] [sx1 sy1]].
  unfold image.Intersect, image.Empty, image.In, image.ZR; simpl.
  rect_cases.
Qed.

Lemma Intersect_within (r s : image.Rectangle) :
  image.Empty (image.Intersect r s) = false ->
  let i := image.Intersect r s in
  image.X (image.Min s) <= image.X (image.Min i) /\ image.Y (image.Min s) <= image.Y (image.Min i)
  /\ image.X (image.Max i) <= image.X (image.Max s) /\ image.Y (image.Max i) <= image.Y (image.Max s)
  /\ image.X (image.Min i) < image.X (image.Max i) /\ image.Y (image.Min i) < image.Y (image.Max i).
Proof.
  destruct r as [[rx0 ry0] [rx1 ry1]], s as [[sx0 sy0] [sx1 sy1]].
  unfold image.Intersect, image.Empty, image.ZR; simpl.
  rect_cases.
Qed.

Lemma Intersect_within_l (r s : image.Rectangle) :
  image.Empty (image.Intersect r s) = false ->
  let i := image.Intersect r s in
  image.X (image.Min r) <= image.X (image.Min i) /\ image.Y (image.Min r) <= image.Y (image.Min i)
  /\ image.X (image.Max i) <= image.X (image.Max r) /\ image.Y (image.Max i) <= image.Y (image.Max r).
Proof.
  destruct r as [[rx0 ry0] [rx1 ry1]], s as [[sx0 sy0] [sx1 sy1]].
  unfold image.Intersect, image.Empty, image.ZR; simpl.
  rect_cases.
Qed.

Lemma In_Empty (r : image.Rectangle) (x y : Z) :
  image.Empty r = true -> image.In x y r = false.
Proof.
  destruct r as [[x0 y0] [x1 y1]]. unfold image.Empty, image.In; simpl.
  rewrite !Z.geb_leb. lia.
Qed.

(** ** The pixel grid of a well-formed canvas *)

Lemma in_rows_pixel (rows : nat) (w dx bx0 by0 rx ry x y : Z) :
  0 <= w -> bx0 <= rx -> rx + w <= bx0 + dx -> bx0 <= x < bx0 + dx ->
  in_rows rows w (4 * dx) ((ry - by0) * (4 * dx) + (rx - bx0) * 4)
                          ((y - by0) * (4 * dx) + (x - bx0) * 4)
  = (rx <=? x) && (x <? rx + w) && (ry <=? y) && (y <? ry + Z.of_nat rows).
Proof.
  intros Hw Hrx Hrw Hx. revert ry. induction rows as [|k IH]; intros ry.
  - simpl. change (Z.of_nat 0) with 0. lia.
  - replace (Z.of_nat (S k)) with (Z.of_nat k + 1) by lia. simpl.
    replace ((ry - by0) * (4 * dx) + (rx - bx0) * 4 + 4 * dx)
      with ((ry + 1 - by0) * (4 * dx) + (rx - bx0) * 4) by ring.
    rewrite IH.
    assert (y = ry \/ y <= ry - 1 \/ ry + 1 <= y) as [->|[Hy|Hy]] by lia.
    + replace ((ry - by0) * (4 * dx) + (rx - bx0) * 4 <=? (ry - by0) * (4 * dx) + (x - bx0) * 4)
        with (rx <=? x) by lia.
      replace ((ry - by0) * (4 * dx) + (x - bx0) * 4 <? (ry - by0) * (4 * dx) + (rx - bx0) * 4 + 4 * w)
        with (x <? rx + w) by lia.
      blia.
    + assert ((y - by0) * (4 * dx) + (x - bx0) * 4 < (ry - by0) * (4 * dx) + (rx - bx0) * 4) by nia.
      replace ((ry - by0) * (4 * dx) + (rx - bx0) * 4 <=? (y - by0) * (4 * dx) + (x - bx0) * 4)
        with false by lia.
      blia.
    + assert ((ry - by0) * (4 * dx) + (rx - bx0) * 4 + 4 * w <= (y - by0) * (4 * dx) + (x - bx0) * 4) by nia.
      replace ((y - by0) * (4 * dx) + (x - bx0) * 4 <? (ry - by0) * (4 * dx) + (rx - bx0) * 4 + 4 * w)
        with false by lia.
      blia.
Qed.

Lemma wf_same_shape (img img' : image.RGBA) :
  wf_img img -> same_shape img img' -> wf_img img'.
Proof.
  unfold wf_img, same_shape. intros (H1 & H2 & H3 & H4) (Hb & Hs & Hl).
  rewrite Hb, Hs, Hl. auto.
Qed.

Lemma same_shape_refl (img : image.RGBA) : same_shape img img.
Proof. unfold same_shape. auto. Qed.

Lemma same_shape_trans (a b c : image.RGBA) :
  same_shape a b -> same_shape b c -> same_shape a c.
Proof.
  unfold same_shape. intros (H1 & H2 & H3) (H4 & H5 & H6).
  rewrite H4, H5, H6. auto.
Qed.

Lemma same_shape_with_pix (img : image.RGBA) (pix : list Z) :
  length pix = length (image.Pix img) -> same_shape img (image.with_pix img pix).
Proof. unfold same_shape, image.with_pix. simpl. auto. Qed.

(** Inside a well-formed canvas every pixel lies in the buffer. *)
Lemma pixel_in_buffer (img : image.RGBA) (x y : Z) :
  wf_img img -> image.In x y (image.Bounds img) = true ->
  0 <= image.PixOffset img x y
  /\ image.PixOffset img x y + 4 <= Z.of_nat (length (image.Pix img)).
Proof.
  unfold wf_img, image.PixOffset, image.In, image.Dx, image.Dy.
  destruct img as [pix stride [[bx0 by0] [bx1 by1]]]; simpl.
  intros (Hdx & Hdy & -> & Hl) Hin. rewrite Hl. nia.
Qed.

Lemma pixel_at_Some (img : image.RGBA) (x y : Z) :
  wf_img img -> image.In x y (image.Bounds img) = true ->
  exists p, pixel_at img x y = Some p.
Proof.
  intros Hwf Hin. destruct (pixel_in_buffer img x y Hwf Hin).
  apply get_px_in_range; assumption.
Qed.

(** A block of rows inside a well-formed canvas rewrites exactly the pixels
    of its rectangle. *)
Lemma update_rect_paints (f : Z -> Z -> Z) (img : image.RGBA) (r : image.Rectangle) :
  wf_img img ->
  image.X (image.Min (image.Bounds img)) <= image.X (image.Min r) ->
  image.Y (image.Min (image.Bounds img)) <= image.Y (image.Min r) ->
  image.X (image.Max r) <= image.X (image.Max (image.Bounds img)) ->
  image.Y (image.Max r) <= image.Y (image.Max (image.Bounds img)) ->
  image.X (image.Min r) <= image.X (image.Max r) ->
  image.Y (image.Min r) <= image.Y (image.Max r) ->
  exists pix',
    update_rows f (Z.to_nat (image.Dy r)) (Z.to_nat (image.Dx r)) (image.Stride img)
      (image.Pix img) (image.PixOffset img (image.X (image.Min r)) (image.Y (image.Min r)))
    = Some pix'
    /\ paints img (image.with_pix img pix') (fun x y => image.In x y r) f.
Proof.
  destruct img as [pix stride [[bx0 by0] [bx1 by1]]], r as [[rx0 ry0] [rx1 ry1]].
  unfold wf_img, image.PixOffset, image.Dx, image.Dy; simpl.
  intros (Hdx & Hdy & -> & Hl) Hx0 Hy0 Hx1 Hy1 Hrx Hry.
  destruct (update_rows_spec f (Z.to_nat (ry1 - ry0)) (Z.to_nat (rx1 - rx0))
              (4 * (bx1 - bx0)) pix ((ry0 - by0) * (4 * (bx1 - bx0)) + (rx0 - bx0) * 4))
    as (pix' & E & L & G & _).
  - nia.
  - lia.
  - rewrite Z.mul_comm. apply Z_mod_mult.
  - destruct (Z.eq_dec ry1 ry0) as [->|Hne].
    + left. rewrite Z.sub_diag. reflexivity.
    + right. rewrite Hl, !Z2Nat.id by lia. nia.
  - exists pix'. split; [exact E|]. split.
    + apply same_shape_with_pix. exact L.
    + intros x y Hin. unfold pixel_at, image.PixOffset, image.with_pix; simpl.
      unfold image.In in Hin; simpl in Hin.
      rewrite G.
      * rewrite Z2Nat.id by lia.
        rewrite (in_rows_pixel _ (rx1 - rx0) (bx1 - bx0) bx0 by0 rx0 ry0 x y) by lia.
        rewrite Z2Nat.id by lia. unfold image.In; simpl.
        replace (rx0 + (rx1 - rx0)) with rx1 by lia.
        replace (ry0 + (ry1 - ry0)) with ry1 by lia.
        reflexivity.
      * replace ((y - by0) * (4 * (bx1 - bx0)) + (x - bx0) * 4
                 - ((ry0 - by0) * (4 * (bx1 - bx0)) + (rx0 - bx0) * 4))
          with (((y - ry0) * (bx1 - bx0) + (x - rx0)) * 4) by ring.
        apply Z_mod_mult.
Qed.

Lemma paints_wf (img img' : image.RGBA) (P : Z -> Z -> bool) (f : Z -> Z -> Z) :
  wf_img img -> paints img img' P f -> wf_img img'.
Proof. intros Hwf [Hs _]. eapply wf_same_shape; eauto. Qed.

Lemma paints_none (img : image.RGBA) (f : Z -> Z -> Z) :
  paints img img (fun _ _ => false) f.
Proof. split; [apply same_shape_refl | intros; reflexivity]. Qed.

Lemma paints_ext (img img' : image.RGBA) (P Q : Z -> Z -> bool) (f : Z -> Z -> Z) :
  (forall x y, image.In x y (image.Bounds img) = true -> P x y = Q x y) ->
  paints img img' P f -> paints img img' Q f.
Proof.
  intros HPQ [Hs Hp]. split; [exact Hs|].
  intros x y Hin. rewrite (Hp x y Hin), (HPQ x y Hin). reflexivity.
Qed.

(** ** image/draw *)

Lemma clip_within (dst : image.RGBA) (r : image.Rectangle) (x y : Z) :
  image.In x y (draw.clip dst r) = true ->
  image.In x y r = true /\ image.In x y (image.Bounds dst) = true.
Proof.
  unfold draw.clip. rewrite !In_Intersect. intros H.
  apply andb_true_iff in H as [H _]. apply andb_true_iff in H. exact H.
Qed.

Lemma DrawUniformOver_paints (dst : image.RGBA) (r : image.Rectangle) (c : color.RGBA) :
  wf_img dst ->
  exists dst', draw.DrawUniformOver dst r c = Some dst'
    /\ paints dst dst' (fun x y => image.In x y (draw.clip dst r))
         (if draw.widen (color.A c) =? draw.m then draw.fill_src c else draw.fill_over c).
Proof.
  intros Hwf. unfold draw.DrawUniformOver.
  destruct (image.Empty (draw.clip dst r)) eqn:HE.
  - exists dst. split; [reflexivity|].
    eapply paints_ext; [|apply paints_none].
    intros x y _. symmetry. apply In_Empty. exact HE.
  - set (f := if draw.widen (color.A c) =? draw.m then draw.fill_src c else draw.fill_over c).
    unfold draw.clip in HE |- *.
    set (r1 := image.Intersect r (image.Bounds dst)) in *.
    set (r2 := image.Intersect r1 (image.Add draw.uniform_bounds (image.Min r))) in *.
    pose proof (Intersect_within_l r1 _ HE) as (A1 & A2 & A3 & A4).
    pose proof (Intersect_within r1 _ HE) as (_ & _ & _ & _ & A5 & A6).
    fold r2 in A1, A2, A3, A4, A5, A6.
    assert (image.Empty r1 = false) as HE1.
    { revert A1 A2 A3 A4 A5 A6. generalize r2. intros [[a b] [a' b']].
      destruct r1 as [[u v] [u' v']]. unfold image.Empty; simpl. rewrite !Z.geb_leb. lia. }
    pose proof (Intersect_within r _ HE1) as (B1 & B2 & B3 & B4 & _).
    fold r1 in B1, B2, B3, B4.
    destruct (update_rect_paints f dst r2 Hwf) as (pix' & E & Hp); try lia.
    fold (image.PixOffset dst (image.X (image.Min r2)) (image.Y (image.Min r2))).
    rewrite E. simpl. eexists. split; [reflexivity|]. exact Hp.
Qed.

(** ** fillRectBlend and blendPixel as painters *)

Lemma fillRectBlend_rows_eq (c : color.RGBA) (rows : nat) (dy minX minY stride : Z)
    (w : nat) (pix : list Z) :
  fillRectBlend_rows c rows dy minX minY stride w pix
  = update_rows (blend_over c) rows w stride pix ((minY + dy) * stride + minX * 4).
Proof.
  revert dy pix. induction rows as [|k IH]; intros dy pix; simpl; [reflexivity|].
  destruct (update_row (blend_over c) w pix ((minY + dy) * stride + minX * 4)); simpl;
    [|reflexivity].
  rewrite IH. f_equal. ring.
Qed.

Lemma fillRectBlend_paints (img : image.RGBA) (rect : image.Rectangle) (c : color.RGBA) :
  wf_img img ->
  exists img', fillRectBlend img rect c = Some img'
    /\ paints img img' (fill_region img rect c) (fill_fn c).
Proof.
  intros Hwf. unfold fillRectBlend, fill_region, fill_fn.
  set (r := image.Intersect rect (image.Bounds img)).
  destruct (image.Empty r) eqn:HE.
  { exists img. split; [reflexivity|].
    eapply paints_ext; [|apply paints_none].
    intros x y _. simpl.
    destruct (color.A c =? 0); [reflexivity|].
    destruct (color.A c =? 255).
    - symmetry. destruct (image.In x y (draw.clip img r)) eqn:Hc; [|reflexivity].
      apply clip_within in Hc as [Hc _]. rewrite (In_Empty r x y HE) in Hc. discriminate.
    - symmetry. apply In_Empty. exact HE. }
  destruct (color.A c =? 0) eqn:HA0.
  { exists img. split; [reflexivity|]. apply paints_none. }
  destruct (color.A c =? 255) eqn:HA255.
  { unfold fillRectFast. apply DrawUniformOver_paints. exact Hwf. }
  rewrite fillRectBlend_rows_eq.
  pose proof (Intersect_within rect _ HE) as (B1 & B2 & B3 & B4 & B5 & B6). fold r in B1, B2, B3, B4, B5, B6.
  destruct (update_rect_paints (blend_over c) img r Hwf) as (pix' & E & Hp); try lia.
  unfold image.PixOffset in E.
  replace ((image.Y (image.Min r) - image.Y (image.Min (image.Bounds img)) + 0) * image.Stride img
           + (image.X (image.Min r) - image.X (image.Min (image.Bounds img))) * 4)
    with ((image.Y (image.Min r) - image.Y (image.Min (image.Bounds img))) * image.Stride img
          + (image.X (image.Min r) - image.X (image.Min (image.Bounds img))) * 4) by ring.
  rewrite E. simpl. eexists. split; [reflexivity|]. exact Hp.
Qed.

Lemma blendPixel_outside (img : image.RGBA) (x y : Z) (c : color.RGBA) :
  image.In x y (image.Bounds img) = false -> blendPixel img x y c = Some img.
Proof.
  unfold blendPixel, image.In. intros H.
  destruct ((x <? image.X (image.Min (image.Bounds img)))
            || (x >=? image.X (image.Max (image.Bounds img)))
            || (y <? image.Y (image.Min (image.Bounds img)))
            || (y >=? image.Y (image.Max (image.Bounds img)))) eqn:E; [reflexivity|].
  rewrite !Z.geb_leb in E. lia.
Qed.

Lemma blendPixel_inside (img : image.RGBA) (x y : Z) (c : color.RGBA) :
  image.In x y (image.Bounds img) = true ->
  blendPixel img x y c =
    if color.A c =? 0 then Some img
    else pix ← update_px (pixel_fn c) (image.Pix img) (image.PixOffset img x y);
         Some (image.with_pix img pix).
Proof.
  unfold blendPixel, image.In, pixel_fn. intros H.
  destruct ((x <? image.X (image.Min (image.Bounds img)))
            || (x >=? image.X (image.Max (image.Bounds img)))
            || (y <? image.Y (image.Min (image.Bounds img)))
            || (y >=? image.Y (image.Max (image.Bounds img)))) eqn:E.
  { rewrite !Z.geb_leb in E. lia. }
  destruct (color.A c =? 0); [reflexivity|].
  fold (image.PixOffset img x y). set (off := image.PixOffset img x y).
  set (pix := image.Pix img).
  destruct (color.A c =? 255).
  - unfold update_px, load, store. simpl.
    destruct ((0 <=? off) && (off <? Z.of_nat (length pix))) eqn:R0; simpl.
    2:{ reflexivity. }
    destruct (lookup_lt_is_Some_2 pix (Z.to_nat off)) as [d0 ->]; [lia|]. simpl.
    rewrite !length_insert.
    destruct ((0 <=? off + 1) && (off + 1 <? Z.of_nat (length pix))) eqn:R1; simpl.
    2:{ reflexivity. }
    destruct (lookup_lt_is_Some_2 (<[Z.to_nat off:=color.R c]> pix) (Z.to_nat (off + 1)))
      as [d1 ->]; [rewrite length_insert; lia|]. simpl.
    rewrite !length_insert.
    destruct ((0 <=? off + 2) && (off + 2 <? Z.of_nat (length pix))) eqn:R2; simpl.
    2:{ reflexivity. }
    destruct (lookup_lt_is_Some_2
                (<[Z.to_nat (off + 1):=color.G c]> (<[Z.to_nat off:=color.R c]> pix))
                (Z.to_nat (off + 2))) as [d2 ->]; [rewrite !length_insert; lia|]. simpl.
    rewrite !length_insert.
    destruct ((0 <=? off + 3) && (off + 3 <? Z.of_nat (length pix))) eqn:R3; simpl.
    2:{ reflexivity. }
    destruct (lookup_lt_is_Some_2
                (<[Z.to_nat (off + 2):=color.B c]>
                   (<[Z.to_nat (off + 1):=color.G c]> (<[Z.to_nat off:=color.R c]> pix)))
                (Z.to_nat (off + 3))) as [d3 ->]; [rewrite !length_insert; lia|]. simpl.
    reflexivity.
  - unfold update_px, blend_over.
    destruct (load pix off); simpl; [|reflexivity].
    destruct (store pix off _); simpl; [|reflexivity].
    destruct (load l (off + 1)); simpl; [|reflexivity].
    destruct (store l (off + 1) _); simpl; [|reflexivity].
    destruct (load l0 (off + 2)); simpl; [|reflexivity].
    destruct (store l0 (off + 2) _); simpl; [|reflexivity].
    destruct (load l1 (off + 3)); simpl; [|reflexivity].
    destruct (store l1 (off + 3) _); simpl; reflexivity.
Qed.

(** Two different pixels of a well-formed canvas do not overlap in the buffer. *)
Lemma pixel_offsets_apart (img : image.RGBA) (x y x' y' : Z) :
  wf_img img ->
  image.In x y (image.Bounds img) = true -> image.In x' y' (image.Bounds img) = true ->
  (x', y') <> (x, y) ->
  image.PixOffset img x' y' + 4 <= image.PixOffset img x y
  \/ image.PixOffset img x y + 4 <= image.PixOffset img x' y'.
Proof.
  unfold wf_img, image.PixOffset, image.In, image.Dx, image.Dy.
  destruct img as [pix stride [[bx0 by0] [bx1 by1]]]; simpl.
  intros (Hdx & Hdy & -> & Hl) Hin Hin' Hne.
  assert (y' = y \/ y' <= y - 1 \/ y + 1 <= y') as [->|[Hy|Hy]] by lia.
  - assert (x' <> x) by congruence. lia.
  - left. nia.
  - right. nia.
Qed.

Lemma blendPixel_paints (img : image.RGBA) (x y : Z) (c : color.RGBA) :
  wf_img img ->
  exists img', blendPixel img x y c = Some img'
    /\ paints img img'
         (fun x' y' => image.In x y (image.Bounds img) && negb (color.A c =? 0)
                       && (x' =? x) && (y' =? y))
         (pixel_fn c).
Proof.
  intros Hwf. destruct (image.In x y (image.Bounds img)) eqn:Hin.
  2:{ exists img. split; [apply blendPixel_outside; exact Hin | apply paints_none]. }
  rewrite (blendPixel_inside img x y c Hin).
  destruct (color.A c =? 0) eqn:HA.
  { exists img. split; [reflexivity | apply paints_none]. }
  destruct (pixel_in_buffer img x y Hwf Hin) as [H0 H4].
  destruct (update_px_get (pixel_fn c) (image.Pix img) (image.PixOffset img x y) H0 H4)
    as (pix' & E & L & G & K & _).
  rewrite E. simpl. eexists. split; [reflexivity|]. split.
  - apply same_shape_with_pix. exact L.
  - intros x' y' Hin'. unfold pixel_at. simpl.
    change (image.PixOffset (image.with_pix img pix') x' y') with (image.PixOffset img x' y').
    destruct ((x' =? x) && (y' =? y)) eqn:Exy.
    + assert (x' = x /\ y' = y) as [-> ->] by lia. exact G.
    + apply K.
      destruct (pixel_offsets_apart img x y x' y' Hwf Hin Hin') as [H|H]; [|lia|lia].
      intros [= -> ->]. lia.
Qed.

(** ** Blending arithmetic on bytes *)

Lemma u8_byte (v : Z) : is_byte v -> u8 v = v.
Proof. unfold is_byte, u8. intros H. apply Z.mod_small. lia. Qed.

Lemma u32_small (v : Z) : 0 <= v < 2 ^ 32 -> u32 v = v.
Proof. unfold u32. intros H. apply Z.mod_small. lia. Qed.

Lemma u8_is_byte (v : Z) : is_byte (u8 v).
Proof. unfold is_byte, u8. pose proof (Z.mod_pos_bound v 256). lia. Qed.

Lemma blend_channel_bytes (c a d : Z) :
  is_byte c -> is_byte a -> is_byte d ->
  blend_channel c (u32 a) (u32 (255 - u32 a)) d = (c * a + d * (255 - a)) / 255.
Proof.
  unfold is_byte, blend_channel. intros Hc Ha Hd.
  rewrite (u32_small a) by lia. rewrite (u32_small (255 - a)) by lia.
  rewrite (u32_small c), (u32_small d) by lia.
  rewrite (u32_small (c * a)), (u32_small (d * (255 - a))) by nia.
  rewrite (u32_small (c * a + d * (255 - a))) by nia.
  apply u8_byte. unfold is_byte.
  split; [apply Z.div_pos; nia | apply Z.div_le_upper_bound; nia].
Qed.

Lemma blend_alpha_bytes (a d : Z) :
  is_byte a -> is_byte d ->
  blend_alpha (u32 a) d = d + (255 - d) * a / 255.
Proof.
  unfold is_byte, blend_alpha. intros Ha Hd.
  rewrite (u32_small a), (u32_small d) by lia.
  rewrite (u32_small (255 - d)) by lia.
  rewrite (u32_small ((255 - d) * a)) by nia.
  assert (0 <= (255 - d) * a / 255 <= 255 - d) as Hq.
  { split; [apply Z.div_pos; nia | apply Z.div_le_upper_bound; nia]. }
  rewrite (u32_small ((255 - d) * a / 255)) by lia.
  rewrite (u32_small (d + (255 - d) * a / 255)) by lia.
  apply u8_byte. unfold is_byte. lia.
Qed.

Lemma load_is_byte (pix : list Z) (i d : Z) :
  bytes_ok pix -> load pix i = Some d -> is_byte d.
Proof.
  unfold bytes_ok, load. intros Hb H.
  destruct ((0 <=? i) && (i <? Z.of_nat (length pix))); [|discriminate].
  rewrite Forall_lookup in Hb. eapply Hb. exact H.
Qed.

Lemma get_px_is_byte (pix : list Z) (o r g b a : Z) :
  bytes_ok pix -> get_px pix o = Some (r, g, b, a) ->
  is_byte r /\ is_byte g /\ is_byte b /\ is_byte a.
Proof.
  unfold get_px. intros Hb H.
  destruct (load pix o) as [r'|] eqn:E0; simpl in H; [|discriminate].
  destruct (load pix (o + 1)) as [g'|] eqn:E1; simpl in H; [|discriminate].
  destruct (load pix (o + 2)) as [b'|] eqn:E2; simpl in H; [|discriminate].
  destruct (load pix (o + 3)) as [a'|] eqn:E3; simpl in H; [|discriminate].
  inversion H; subst. repeat split; eapply load_is_byte; eauto.
Qed.

(** ** blendPixel (claim C2) *)

(** C2.  For a pixel (x, y) inside the canvas and a colour c, blendPixel
    returns; the other pixels, the bounds and the stride are kept; the call
    leaves the canvas as it is when c.A = 0, stores (c.R, c.G, c.B, 255) when
    c.A = 255, and otherwise sets each colour channel to
    (src*a + dst*(255-a))/255 and the alpha channel to
    dst_a + (255-dst_a)*a/255, with a = c.A and dst the pixel before. *)
Theorem blendPixel_blend (img : image.RGBA) (x y : Z) (c : color.RGBA) :
  wf_img img -> bytes_ok (image.Pix img) -> color_ok c ->
  image.In x y (image.Bounds img) = true ->
  exists img' dr dg db da,
    blendPixel img x y c = Some img'
    /\ pixel_at img x y = Some (dr, dg, db, da)
    /\ same_shape img img'
    /\ (forall x' y', image.In x' y' (image.Bounds img) = true -> (x', y') <> (x, y) ->
          pixel_at img' x' y' = pixel_at img x' y')
    /\ (color.A c = 0 -> img' = img)
    /\ (color.A c = 255 ->
          pixel_at img' x y = Some (color.R c, color.G c, color.B c, 255))
    /\ (0 < color.A c < 255 ->
          let a := color.A c in
          pixel_at img' x y =
            Some ((color.R c * a + dr * (255 - a)) / 255,
                  (color.G c * a + dg * (255 - a)) / 255,
                  (color.B c * a + db * (255 - a)) / 255,
                  da + (255 - da) * a / 255)).
Proof.
  intros Hwf Hb (HR & HG & HB & HA) Hin.
  destruct (pixel_at_Some img x y Hwf Hin) as ([[[dr dg] db] da] & Hpx).
  destruct (get_px_is_byte _ _ _ _ _ _ Hb Hpx) as (Hdr & Hdg & Hdb & Hda).
  destruct (blendPixel_paints img x y c Hwf) as (img' & E & Hs & Hp).
  exists img', dr, dg, db, da.
  split; [exact E|]. split; [exact Hpx|]. split; [exact Hs|]. split; [|split; [|split]].
  - intros x' y' Hin' Hne. rewrite (Hp x' y' Hin').
    destruct ((x' =? x) && (y' =? y)) eqn:Exy.
    + exfalso. apply Hne. f_equal; lia.
    + rewrite <- !andb_assoc, Exy, !andb_false_r. reflexivity.
  - intros HA0. rewrite (blendPixel_inside img x y c Hin), HA0 in E. simpl in E. congruence.
  - intros HA255. rewrite (Hp x y Hin), Hin, HA255, !Z.eqb_refl, Hpx. simpl.
    unfold pixel_fn. rewrite HA255. reflexivity.
  - intros HAm a. rewrite (Hp x y Hin), Hin, !Z.eqb_refl, Hpx.
    replace (color.A c =? 0) with false by lia. simpl.
    unfold pixel_fn. replace (color.A c =? 255) with false by lia.
    unfold blend_over. fold a.
    rewrite !blend_channel_bytes, blend_alpha_bytes by (unfold is_byte in *; unfold a; lia).
    reflexivity.
Qed.

(** An instance: mid-grey at half opacity over an opaque white pixel. *)
Lemma blendPixel_blend_witness :
  exists img' dr dg db da,
    blendPixel (image.RGBA_ [255; 255; 255; 255; 0; 0; 0; 0] 8 (image.Rect 0 0 2 1)) 0 0
      (color.RGBA_ 10 20 30 128) = Some img'
    /\ pixel_at (image.RGBA_ [255; 255; 255; 255; 0; 0; 0; 0] 8 (image.Rect 0 0 2 1)) 0 0
       = Some (dr, dg, db, da)
    /\ same_shape (image.RGBA_ [255; 255; 255; 255; 0; 0; 0; 0] 8 (image.Rect 0 0 2 1)) img'
    /\ (forall x' y', image.In x' y' (image.Rect 0 0 2 1) = true -> (x', y') <> (0, 0) ->
          pixel_at img' x' y'
          = pixel_at (image.RGBA_ [255; 255; 255; 255; 0; 0; 0; 0] 8 (image.Rect 0 0 2 1)) x' y')
    /\ (128 = 0 -> img' = image.RGBA_ [255; 255; 255; 255; 0; 0; 0; 0] 8 (image.Rect 0 0 2 1))
    /\ (128 = 255 -> pixel_at img' 0 0 = Some (10, 20, 30, 255))
    /\ (0 < 128 < 255 ->
          pixel_at img' 0 0 =
            Some ((10 * 128 + dr * (255 - 128)) / 255, (20 * 128 + dg * (255 - 128)) / 255,
                  (30 * 128 + db * (255 - 128)) / 255, da + (255 - da) * 128 / 255)).
Proof.
  apply (blendPixel_blend (image.RGBA_ [255; 255; 255; 255; 0; 0; 0; 0] 8 (image.Rect 0 0 2 1))
           0 0 (color.RGBA_ 10 20 30 128)).
  - unfold wf_img; repeat split; vm_compute; congruence.
  - unfold bytes_ok, is_byte. repeat constructor; lia.
  - unfold color_ok, is_byte; simpl; lia.
  - reflexivity.
Defined.

(** ** Clipping to the canvas (claim C3) *)

Lemma paints_frame (img img' : image.RGBA) (P : Z -> Z -> bool) (f : Z -> Z -> Z) (x y : Z) :
  paints img img' P f -> image.In x y (image.Bounds img) = true -> P x y = false ->
  pixel_at img' x y = pixel_at img x y.
Proof. intros [_ Hp] Hin HP. rewrite (Hp x y Hin), HP. reflexivity. Qed.

Lemma blendPixelF_outside (img : image.RGBA) (x y : Z) (c : color.RGBA) (coverage : float) :
  image.In x y (image.Bounds img) = false -> blendPixelF img x y c coverage = Some img.
Proof.
  intros H. unfold blendPixelF.
  destruct (PrimFloat.leb coverage 0); [reflexivity|].
  destruct (PrimFloat.leb 1 coverage); apply blendPixel_outside; exact H.
Qed.

Lemma fillRectBlend_outside (img : image.RGBA) (rect : image.Rectangle) (c : color.RGBA) :
  (forall x y, image.In x y rect = true -> image.In x y (image.Bounds img) = false) ->
  fillRectBlend img rect c = Some img.
Proof.
  intros H. unfold fillRectBlend.
  destruct (image.Empty (image.Intersect rect (image.Bounds img))) eqn:HE; [reflexivity|].
  exfalso.
  pose proof (Intersect_within rect _ HE) as (_ & _ & _ & _ & A5 & A6).
  set (i := image.Intersect rect (image.Bounds img)) in *.
  assert (image.In (image.X (image.Min i)) (image.Y (image.Min i)) i = true) as Hi.
  { unfold image.In. lia. }
  unfold i in Hi. rewrite In_Intersect in Hi. apply andb_true_iff in Hi as [H1 H2].
  rewrite (H _ _ H1) in H2. discriminate.
Qed.

Lemma fill_region_targets (img : image.RGBA) (rect : image.Rectangle) (c : color.RGBA) (x y : Z) :
  fill_region img rect c x y = true -> image.In x y rect = true.
Proof.
  unfold fill_region. destruct (color.A c =? 0); [discriminate|].
  destruct (color.A c =? 255); intros H.
  - apply clip_within in H as [H _]. rewrite In_Intersect in H.
    apply andb_true_iff in H. tauto.
  - rewrite In_Intersect in H. apply andb_true_iff in H. tauto.
Qed.

(** Every call returns on a well-formed canvas, keeps its shape and keeps
    the pixels it does not target. *)
Lemma run_op_frame (img : image.RGBA) (op : pixel_op) :
  wf_img img ->
  exists img', run_op img op = Some img'
    /\ same_shape img img'
    /\ forall x y, image.In x y (image.Bounds img) = true -> targets op x y = false ->
         pixel_at img' x y = pixel_at img x y.
Proof.
  intros Hwf. destruct op as [x0 y0 c|x0 y0 c cov|rect c]; simpl.
  - destruct (blendPixel_paints img x0 y0 c Hwf) as (img' & E & Hp).
    exists img'. split; [exact E|]. split; [apply Hp|].
    intros x y Hin Ht. eapply paints_frame; eauto. simpl.
    rewrite <- !andb_assoc, Ht, !andb_false_r. reflexivity.
  - unfold blendPixelF.
    destruct (PrimFloat.leb cov 0).
    { exists img. split; [reflexivity|]. split; [apply same_shape_refl | reflexivity]. }
    destruct (PrimFloat.leb 1 cov).
    + destruct (blendPixel_paints img x0 y0 c Hwf) as (img' & E & Hp).
      exists img'. split; [exact E|]. split; [apply Hp|].
      intros x y Hin Ht. eapply paints_frame; eauto. simpl.
      rewrite <- !andb_assoc, Ht, !andb_false_r. reflexivity.
    + match goal with |- context [blendPixel img x0 y0 ?c'] =>
        destruct (blendPixel_paints img x0 y0 c' Hwf) as (img' & E & Hp) end.
      exists img'. split; [exact E|]. split; [apply Hp|].
      intros x y Hin Ht. eapply paints_frame; eauto. simpl.
      rewrite <- !andb_assoc, Ht, !andb_false_r. reflexivity.
  - destruct (fillRectBlend_paints img rect c Hwf) as (img' & E & Hp).
    exists img'. split; [exact E|]. split; [apply Hp|].
    intros x y Hin Ht. eapply paints_frame; eauto.
    destruct (fill_region img rect c x y) eqn:HF; [|reflexivity].
    apply fill_region_targets in HF. congruence.
Qed.

Lemma run_op_outside (img : image.RGBA) (op : pixel_op) :
  (forall x y, targets op x y = true -> image.In x y (image.Bounds img) = false) ->
  run_op img op = Some img.
Proof.
  destruct op as [x0 y0 c|x0 y0 c cov|rect c]; simpl; intros H.
  - apply blendPixel_outside, H. rewrite !Z.eqb_refl. reflexivity.
  - apply blendPixelF_outside, H. rewrite !Z.eqb_refl. reflexivity.
  - apply fillRectBlend_outside, H.
Qed.

(** C3.  A primitive is a sequence of blendPixel, blendPixelF and
    fillRectBlend calls.  When every pixel the calls target lies outside the
    canvas, the canvas is returned as it was; and on every well-formed canvas
    the calls all return (no index leaves the buffer), the buffer keeps its
    length, and a pixel that no call targets keeps its value. *)
Theorem pixel_ops_clipped (img : image.RGBA) (ops : list pixel_op) :
  (Forall (fun op => forall x y, targets op x y = true ->
                                 image.In x y (image.Bounds img) = false) ops ->
   run_ops ops img = Some img)
  /\ (wf_img img ->
      exists img', run_ops ops img = Some img'
        /\ same_shape img img'
        /\ forall x y, image.In x y (image.Bounds img) = true ->
             Forall (fun op => targets op x y = false) ops ->
             pixel_at img' x y = pixel_at img x y).
Proof.
  split.
  - induction 1 as [|op ops Hop _ IH]; simpl; [reflexivity|].
    rewrite (run_op_outside img op Hop). simpl. exact IH.
  - revert img. induction ops as [|op ops IH]; intros img Hwf; simpl.
    + exists img. split; [reflexivity|]. split; [apply same_shape_refl | reflexivity].
    + destruct (run_op_frame img op Hwf) as (img1 & E1 & S1 & F1).
      destruct (IH img1 (wf_same_shape _ _ Hwf S1)) as (img2 & E2 & S2 & F2).
      exists img2. rewrite E1. simpl. split; [exact E2|].
      split; [eapply same_shape_trans; eauto|].
      intros x y Hin Hall. inversion Hall as [|? ? Ht Hts]; subst.
      destruct S1 as (Hb1 & _). rewrite F2 by (rewrite ?Hb1; assumption).
      apply F1; assumption.
Qed.

(** An instance: a point and a rectangle left of a 2 x 2 canvas, and a
    point inside it. *)
Lemma pixel_ops_clipped_witness :
  run_ops [OpBlendPixel (-1) 0 (color.RGBA_ 1 2 3 255);
           OpFillRectBlend (image.Rect (-5) 0 0 2) (color.RGBA_ 1 2 3 100)]
          (image.RGBA_ (replicate 16 0) 8 (image.Rect 0 0 2 2))
  = Some (image.RGBA_ (replicate 16 0) 8 (image.Rect 0 0 2 2))
  /\ exists img', run_ops [OpBlendPixel 1 1 (color.RGBA_ 1 2 3 255)]
                    (image.RGBA_ (replicate 16 0) 8 (image.Rect 0 0 2 2)) = Some img'
       /\ same_shape (image.RGBA_ (replicate 16 0) 8 (image.Rect 0 0 2 2)) img'
       /\ forall x y, image.In x y (image.Rect 0 0 2 2) = true ->
            Forall (fun op => targets op x y = false) [OpBlendPixel 1 1 (color.RGBA_ 1 2 3 255)] ->
            pixel_at img' x y = pixel_at (image.RGBA_ (replicate 16 0) 8 (image.Rect 0 0 2 2)) x y.
Proof.
  split.
  - apply (pixel_ops_clipped (image.RGBA_ (replicate 16 0) 8 (image.Rect 0 0 2 2))).
    repeat constructor; simpl; unfold image.In; simpl; intros; lia.
  - apply (pixel_ops_clipped (image.RGBA_ (replicate 16 0) 8 (image.Rect 0 0 2 2))).
    unfold wf_img; repeat split; vm_compute; congruence.
Defined.

(** ** Opaque colours paint constants *)

Lemma paints_const_refl (img : image.RGBA) (v : Z * Z * Z * Z) :
  paints_const img img (fun _ _ => false) v.
Proof. split; [apply same_shape_refl | reflexivity]. Qed.

Lemma paints_const_ext (img img' : image.RGBA) (P Q : Z -> Z -> bool) (v : Z * Z * Z * Z) :
  (forall x y, image.In x y (image.Bounds img) = true -> P x y = Q x y) ->
  paints_const img img' P v -> paints_const img img' Q v.
Proof.
  intros HPQ [Hs Hp]. split; [exact Hs|].
  intros x y Hin. rewrite (Hp x y Hin), (HPQ x y Hin). reflexivity.
Qed.

Lemma paints_const_trans (a b c : image.RGBA) (P Q : Z -> Z -> bool) (v : Z * Z * Z * Z) :
  paints_const a b P v -> paints_const b c Q v ->
  paints_const a c (fun x y => P x y || Q x y) v.
Proof.
  intros [S1 H1] [S2 H2]. split; [eapply same_shape_trans; eauto|].
  intros x y Hin. destruct S1 as (Hb & _).
  rewrite H2 by (rewrite Hb; exact Hin). rewrite (H1 x y Hin).
  destruct (P x y), (Q x y); reflexivity.
Qed.

Lemma paints_to_const (img img' : image.RGBA) (P : Z -> Z -> bool) (f : Z -> Z -> Z)
    (v : Z * Z * Z * Z) :
  wf_img img -> (forall p, px_map f p = v) ->
  paints img img' P f -> paints_const img img' P v.
Proof.
  intros Hwf Hf [Hs Hp]. split; [exact Hs|].
  intros x y Hin. rewrite (Hp x y Hin).
  destruct (pixel_at_Some img x y Hwf Hin) as [p ->]. simpl. rewrite Hf. reflexivity.
Qed.

Lemma widen_255 : draw.widen 255 = draw.m.
Proof. reflexivity. Qed.

Lemma fill_src_const (c : color.RGBA) (p : Z * Z * Z * Z) :
  color_ok c -> color.A c = 255 ->
  px_map (fill_fn c) p = (color.R c, color.G c, color.B c, 255).
Proof.
  intros (HR & HG & HB & _) HA. destruct p as [[[r g] b] a].
  unfold fill_fn, px_map. rewrite HA. simpl.
  unfold draw.fill_src. rewrite HA.
  assert (forall v, is_byte v -> u8 (Z.shiftr (draw.widen v) 8) = v) as Hw.
  { intros v Hv. unfold draw.widen. rewrite (u32_small v) by (unfold is_byte in Hv; lia).
    rewrite Z.shiftl_mul_pow2 by lia.
    rewrite (u32_small (v * 2 ^ 8)) by (unfold is_byte in Hv; lia).
    rewrite Z.shiftr_lor. rewrite <- Z.shiftl_mul_pow2 by lia.
    rewrite Z.shiftr_shiftl_l by lia. simpl (8 - 8). rewrite Z.shiftl_0_r.
    rewrite (Z.shiftr_div_pow2 v 8) by lia.
    rewrite (Z.div_small v (2 ^ 8)) by (unfold is_byte in Hv; lia).
    rewrite Z.lor_0_l. apply u8_byte. exact Hv. }
  rewrite !Hw by assumption. reflexivity.
Qed.

Lemma fillRectBlend_opaque (img : image.RGBA) (rect : image.Rectangle) (c : color.RGBA) :
  wf_img img -> drawable img -> color_ok c -> color.A c = 255 ->
  exists img', fillRectBlend img rect c = Some img'
    /\ paints_const img img' (fun x y => image.In x y rect)
         (color.R c, color.G c, color.B c, 255).
Proof.
  intros Hwf [Hdx Hdy] Hc HA.
  destruct (fillRectBlend_paints img rect c Hwf) as (img' & E & Hp).
  exists img'. split; [exact E|].
  eapply paints_const_ext; [|eapply paints_to_const; [exact Hwf | | exact Hp]].
  2:{ intros p. apply fill_src_const; assumption. }
  intros x y Hin. unfold fill_region. rewrite HA. simpl.
  unfold draw.clip. rewrite !In_Intersect, Hin, andb_true_r.
  destruct (image.In x y rect) eqn:Hr; [|reflexivity]. simpl.
  assert (image.In x y (image.Intersect rect (image.Bounds img)) = true) as Hi.
  { rewrite In_Intersect, Hr, Hin. reflexivity. }
  assert (image.Empty (image.Intersect rect (image.Bounds img)) = false) as HE.
  { destruct (image.Empty _) eqn:HE; [|reflexivity].
    rewrite (In_Empty _ x y HE) in Hi. discriminate. }
  pose proof (Intersect_within rect _ HE) as (B1 & B2 & B3 & B4 & B5 & B6).
  revert Hi B1 B2 B3 B4 B5 B6 Hin Hdx Hdy.
  generalize (image.Intersect rect (image.Bounds img)). intros [[ix0 iy0] [ix1 iy1]].
  destruct (image.Bounds img) as [[bx0 by0] [bx1 by1]].
  unfold image.In, image.Add, draw.uniform_bounds, image.Dx, image.Dy; simpl. lia.
Qed.

Lemma blendPixel_opaque (img : image.RGBA) (x y : Z) (c : color.RGBA) :
  wf_img img -> color.A c = 255 ->
  exists img', blendPixel img x y c = Some img'
    /\ paints_const img img' (fun x' y' => (x' =? x) && (y' =? y))
         (color.R c, color.G c, color.B c, 255).
Proof.
  intros Hwf HA.
  destruct (blendPixel_paints img x y c Hwf) as (img' & E & Hp).
  exists img'. split; [exact E|].
  eapply paints_const_ext; [|eapply paints_to_const; [exact Hwf | | exact Hp]].
  2:{ intros [[[r g] b] a]. unfold pixel_fn, px_map. rewrite HA. reflexivity. }
  intros x' y' Hin. simpl. rewrite HA. simpl.
  destruct ((x' =? x) && (y' =? y)) eqn:Exy.
  - assert (x' = x /\ y' = y) as [-> ->] by lia. rewrite Hin, !Z.eqb_refl. reflexivity.
  - rewrite <- !andb_assoc, Exy, !andb_false_r. reflexivity.
Qed.

(** ** drawRect with an opaque colour *)

Lemma drawRect_sides_opaque (n : nat) (y0 xl xr : Z) (c : color.RGBA) (img : image.RGBA) :
  wf_img img -> color.A c = 255 ->
  exists img', drawRect_sides n y0 xl xr c img = Some img'
    /\ paints_const img img'
         (fun x y => (y0 <=? y) && (y <? y0 + Z.of_nat n) && ((x =? xl) || (x =? xr)))
         (color.R c, color.G c, color.B c, 255).
Proof.
  intros Hwf HA. revert img y0 Hwf. induction n as [|n IH]; intros img y0 Hwf.
  - exists img. split; [reflexivity|].
    eapply paints_const_ext; [|apply paints_const_refl].
    intros x y _. cbv beta. change (Z.of_nat 0) with 0. lia.
  - replace (Z.of_nat (S n)) with (Z.of_nat n + 1) by lia. simpl.
    destruct (blendPixel_opaque img xl y0 c Hwf HA) as (i1 & E1 & P1).
    rewrite E1. simpl.
    assert (wf_img i1) as Hwf1 by (eapply wf_same_shape; [exact Hwf | apply P1]).
    destruct (blendPixel_opaque i1 xr y0 c Hwf1 HA) as (i2 & E2 & P2).
    rewrite E2. simpl.
    assert (wf_img i2) as Hwf2 by (eapply wf_same_shape; [exact Hwf1 | apply P2]).
    destruct (IH i2 (y0 + 1) Hwf2) as (i3 & E3 & P3).
    exists i3. split; [exact E3|].
    eapply paints_const_ext;
      [|eapply paints_const_trans; [eapply paints_const_trans; [exact P1 | exact P2] | exact P3]].
    intros x y _. cbv beta. blia.
Qed.

Lemma In_Rect_row (x0 x1 y0 x y : Z) :
  x0 <= x1 ->
  image.In x y (image.Rect x0 y0 x1 (y0 + 1)) = (x0 <=? x) && (x <? x1) && (y =? y0).
Proof.
  intros H. unfold image.Rect, image.In.
  replace (x0 >? x1) with false by (rewrite Z.gtb_ltb; lia).
  replace (y0 >? y0 + 1) with false by (rewrite Z.gtb_ltb; lia).
  simpl. lia.
Qed.


(** ** renderDrawing (claims C7 and C10) *)

Section DrawingFacts.

Context {OtherShape SrcImage FontCache : Type}.
Variable ext : External OtherShape SrcImage FontCache.

Lemma renderDrawing_bytes (r : renderer FontCache) (s : DrawingShape) :
  renderDrawing ext r s =
    if Nat.eqb (length (imageBytes ext s)) 0 then Some (img r)
    else
      match Decode ext (imageBytes ext s) with
      | None => drawRect (img r) (pixelBox r s) placeholder_grey 1
      | Some srcImg =>
          if negb (rotation s =? 0) || flipHorizontal s || flipVertical s
          then renderRotated ext r (emuToPixelX r (offsetX s)) (emuToPixelY r (offsetY s))
                 (emuToPixelX r (width s)) (emuToPixelY r (height s))
                 (rotation s) (flipHorizontal s) (flipVertical s)
                 (fun tr => drawScaled ext (img tr) srcImg 0 0
                              (emuToPixelX r (width s)) (emuToPixelY r (height s)))
          else drawScaled ext (img r) srcImg (emuToPixelX r (offsetX s))
                 (emuToPixelY r (offsetY s)) (emuToPixelX r (width s))
                 (emuToPixelY r (height s))
      end.
Proof.
  unfold renderDrawing, imageBytes, pixelBox.
  destruct (data s) as [|b bs] eqn:Hd; simpl.
  - destruct (String.eqb (path s) "") eqn:Hp; simpl.
    + reflexivity.
    + destruct (ReadFile ext (path s)) as [bytes|]; simpl; reflexivity.
  - reflexivity.
Qed.



(** C10.  A picture without embedded data whose path is empty or cannot be
    read leaves the canvas untouched; so does every picture for which there
    are no bytes to decode; and once the bytes decode, the picture itself is
    drawn.  The placeholder is left to the one remaining case: bytes that the
    decoder rejects. *)
Theorem renderDrawing_no_bytes (r : renderer FontCache) (s : DrawingShape) :
  (data s = [] -> path s = ""%string \/ ReadFile ext (path s) = None ->
   renderDrawing ext r s = Some (img r))
  /\ (imageBytes ext s = [] -> renderDrawing ext r s = Some (img r))
  /\ (forall srcImg, imageBytes ext s <> [] -> Decode ext (imageBytes ext s) = Some srcImg ->
        renderDrawing ext r s =
          if negb (rotation s =? 0) || flipHorizontal s || flipVertical s
          then renderRotated ext r (emuToPixelX r (offsetX s)) (emuToPixelY r (offsetY s))
                 (emuToPixelX r (width s)) (emuToPixelY r (height s))
                 (rotation s) (flipHorizontal s) (flipVertical s)
                 (fun tr => drawScaled ext (img tr) srcImg 0 0
                              (emuToPixelX r (width s)) (emuToPixelY r (height s)))
          else drawScaled ext (img r) srcImg (emuToPixelX r (offsetX s))
                 (emuToPixelY r (offsetY s)) (emuToPixelX r (width s))
                 (emuToPixelY r (height s))).
Proof.
  assert (imageBytes ext s = [] -> renderDrawing ext r s = Some (img r)) as H0.
  { intros H. rewrite renderDrawing_bytes, H. reflexivity. }
  split; [|split].
  - intros Hd Hp. apply H0. unfold imageBytes. rewrite Hd.
    destruct Hp as [-> | ->]; [reflexivity|].
    destruct (String.eqb (path s) ""); reflexivity.
  - exact H0.
  - intros srcImg Hne Hdec. rewrite renderDrawing_bytes, Hdec.
    destruct (imageBytes ext s); [congruence | reflexivity].
Qed.

End DrawingFacts.

(** ** SlideToImage and SlidesToImages *)


Lemma fillRectFast_total (i : image.RGBA) (rect : image.Rectangle) (c : color.RGBA) :
  wf_img i -> exists i', fillRectFast i rect c = Some i' /\ same_shape i i'.
Proof.
  intros Hwf. destruct (DrawUniformOver_paints i rect c Hwf) as (i' & E & Hs & _).
  exists i'. split; assumption.
Qed.

Section SlideFacts.

Context {OtherShape SrcImage FontCache : Type}.
Variable ext : External OtherShape SrcImage FontCache.

Lemma SlideToImage_out_of_range (p : Presentation OtherShape) (slideIndex : Z)
    (opts : option positive) (h : heap FontCache) :
  slideIndex < 0 \/ slideIndex >= Z.of_nat (length (slides p)) ->
  SlideToImage ext p slideIndex opts h = (Some (Err (out_of_range_message p slideIndex)), h).
Proof.
  intros H. unfold SlideToImage.
  replace ((slideIndex <? 0) || (slideIndex >=? Z.of_nat (length (slides p)))) with true
    by (rewrite Z.geb_leb; blia).
  reflexivity.
Qed.

Lemma SlideToImage_in_range_no_error (p : Presentation OtherShape) (slideIndex : Z)
    (opts : option positive) (h : heap FontCache) (msg : string) :
  0 <= slideIndex < Z.of_nat (length (slides p)) ->
  fst (SlideToImage ext p slideIndex opts h) <> Some (Err msg).
Proof.
  intros H. unfold SlideToImage.
  replace ((slideIndex <? 0) || (slideIndex >=? Z.of_nat (length (slides p)))) with false
    by (rewrite Z.geb_leb; blia).
  destruct (match opts with Some l => (l, h) | None => alloc h DefaultRenderOptions end)
    as [l h1].
  destruct (h1 !! l) as [o|]; [|simpl; discriminate].
  destruct (if Width o <=? 0 then _ else _) as [o2 h2]. cbn [fst].
  destruct (slides p !! Z.to_nat slideIndex) as [slide|]; [|simpl; discriminate]. cbn.
  destruct (layout p) as [lay|]; [|simpl; discriminate]. cbn.
  destruct (image.NewRGBA _) as [i0|]; [|simpl; discriminate]. cbn.
  match goal with |- context [mbind _ ?m] => destruct m as [i1|] end;
    [|simpl; discriminate]. cbn.
  destruct (renderShapes _ _ _) as [i2|]; simpl; discriminate.
Qed.

(** In range, with the options at address [l]: the heap after the call, and
    the image when the unmodelled parts return. *)
Lemma SlideToImage_heap (p : Presentation OtherShape) (slideIndex : Z) (l : positive)
    (h : heap FontCache) (o : RenderOptions FontCache) :
  0 <= slideIndex < Z.of_nat (length (slides p)) -> h !! l = Some o ->
  snd (SlideToImage ext p slideIndex (Some l) h)
  = if Width o <=? 0 then <[l := set_Width o 960]> h else h.
Proof.
  intros H Hl. unfold SlideToImage.
  replace ((slideIndex <? 0) || (slideIndex >=? Z.of_nat (length (slides p)))) with false
    by (rewrite Z.geb_leb; blia).
  rewrite Hl. destruct (Width o <=? 0); reflexivity.
Qed.




End SlideFacts.

(** ** The order of float64 values *)

Lemma SFcompare_key (f g : spec_float) :
  f <> S754_nan -> g <> S754_nan ->
  SFcompare f g = Some (match SFkey f, SFkey g with
                        | (a1, a2, a3), (b1, b2, b3) =>
                            match a1 ?= b1 with
                            | Eq => match a2 ?= b2 with
                                    | Eq => a3 ?= b3
                                    | c => c
                                    end
                            | c => c
                            end
                        end).
Proof.
  intros Hf Hg.
  destruct f as [[|]|[|]| |[|] m e], g as [[|]|[|]| |[|] m' e']; try congruence; simpl;
    try reflexivity.
  - rewrite Z.compare_opp. destruct (e' ?= e) eqn:E.
    + rewrite Z.compare_antisym, E. reflexivity.
    + rewrite Z.compare_antisym, E. reflexivity.
    + rewrite Z.compare_antisym, E. reflexivity.
Qed.

Lemma isNaN_spec (x : float) : F64.isNaN x = false <-> Prim2SF x <> S754_nan.
Proof.
  unfold F64.isNaN. rewrite FloatAxioms.eqb_spec. unfold SFeqb.
  destruct (Prim2SF x) as [[|]|[|]| |[|] m e] eqn:E; simpl;
    rewrite ?Z.compare_refl, ?Pos.compare_cont_refl; simpl; split; congruence.
Qed.

Lemma key_compare_lt (a b : Z * Z * Z) :
  (match a, b with
   | (a1, a2, a3), (b1, b2, b3) =>
       match a1 ?= b1 with
       | Eq => match a2 ?= b2 with Eq => a3 ?= b3 | c => c end
       | c => c
       end
   end = Lt) <-> key_lt a b.
Proof.
  destruct a as [[a1 a2] a3], b as [[b1 b2] b3]. unfold key_lt.
  destruct (Z.compare_spec a1 b1), (Z.compare_spec a2 b2), (Z.compare_spec a3 b3);
    split; intros Hc; try discriminate; try reflexivity; lia.
Qed.

Lemma key_compare_eq (a b : Z * Z * Z) :
  (match a, b with
   | (a1, a2, a3), (b1, b2, b3) =>
       match a1 ?= b1 with
       | Eq => match a2 ?= b2 with Eq => a3 ?= b3 | c => c end
       | c => c
       end
   end = Eq) <-> key_eq a b.
Proof.
  destruct a as [[a1 a2] a3], b as [[b1 b2] b3]. unfold key_eq.
  destruct (Z.compare_spec a1 b1), (Z.compare_spec a2 b2), (Z.compare_spec a3 b3);
    split; intros Hc; try discriminate; try reflexivity; lia.
Qed.

Ltac key_cases :=
  unfold fkey in *;
  repeat match goal with
         | |- context [SFkey (Prim2SF ?x)] =>
             let a := fresh "k" in let b := fresh "k" in let c := fresh "k" in
             destruct (SFkey (Prim2SF x)) as [[a b] c]
         | H : context [SFkey (Prim2SF ?x)] |- _ =>
             let a := fresh "k" in let b := fresh "k" in let c := fresh "k" in
             destruct (SFkey (Prim2SF x)) as [[a b] c]
         end;
  unfold key_le, key_lt, key_eq in *.

Lemma ltb_key (x y : float) :
  notNaN x -> notNaN y -> ((x <? y)%float = true <-> key_lt (fkey x) (fkey y)).
Proof.
  unfold notNaN. rewrite !isNaN_spec. intros Hx Hy.
  rewrite FloatAxioms.ltb_spec. unfold SFltb. rewrite (SFcompare_key _ _ Hx Hy).
  rewrite <- key_compare_lt. unfold fkey.
  destruct (SFkey (Prim2SF x)) as [[a1 a2] a3], (SFkey (Prim2SF y)) as [[b1 b2] b3].
  destruct (a1 ?= b1); [destruct (a2 ?= b2); [destruct (a3 ?= b3)| |]| |];
    split; congruence.
Qed.

Lemma leb_key (x y : float) :
  notNaN x -> notNaN y -> ((x <=? y)%float = true <-> key_le (fkey x) (fkey y)).
Proof.
  unfold notNaN. rewrite !isNaN_spec. intros Hx Hy.
  rewrite FloatAxioms.leb_spec. unfold SFleb. rewrite (SFcompare_key _ _ Hx Hy).
  unfold key_le. rewrite <- key_compare_lt, <- key_compare_eq. unfold fkey.
  destruct (SFkey (Prim2SF x)) as [[a1 a2] a3], (SFkey (Prim2SF y)) as [[b1 b2] b3].
  destruct (a1 ?= b1); [destruct (a2 ?= b2); [destruct (a3 ?= b3)| |]| |];
    split; intros H; try reflexivity; try discriminate; try tauto;
    destruct H; discriminate.
Qed.

Lemma eqb_key (x y : float) :
  notNaN x -> notNaN y -> ((x =? y)%float = true <-> key_eq (fkey x) (fkey y)).
Proof.
  unfold notNaN. rewrite !isNaN_spec. intros Hx Hy.
  rewrite FloatAxioms.eqb_spec. unfold SFeqb. rewrite (SFcompare_key _ _ Hx Hy).
  rewrite <- key_compare_eq. unfold fkey.
  destruct (SFkey (Prim2SF x)) as [[a1 a2] a3], (SFkey (Prim2SF y)) as [[b1 b2] b3].
  destruct (a1 ?= b1); [destruct (a2 ?= b2); [destruct (a3 ?= b3)| |]| |];
    split; congruence.
Qed.

Lemma ltb_false_key (x y : float) :
  notNaN x -> notNaN y -> ((x <? y)%float = false <-> key_le (fkey y) (fkey x)).
Proof.
  intros Hx Hy. rewrite <- not_true_iff_false, (ltb_key x y Hx Hy).
  key_cases. lia.
Qed.

Lemma leb_false_key (x y : float) :
  notNaN x -> notNaN y -> ((x <=? y)%float = false <-> key_lt (fkey y) (fkey x)).
Proof.
  intros Hx Hy. rewrite <- not_true_iff_false, (leb_key x y Hx Hy).
  key_cases. lia.
Qed.


Lemma fle_trans (x y z : float) :
  notNaN x -> notNaN y -> notNaN z -> fle x y -> fle y z -> fle x z.
Proof.
  unfold fle. intros Hx Hy Hz H1 H2.
  apply leb_key in H1; [|assumption|assumption].
  apply leb_key in H2; [|assumption|assumption].
  apply leb_key; [assumption|assumption|]. key_cases. lia.
Qed.

Lemma fle_refl (x : float) : notNaN x -> fle x x.
Proof. intros Hx. apply leb_key; [assumption|assumption|]. key_cases. lia. Qed.

Lemma flt_fle (x y : float) : notNaN x -> notNaN y -> flt x y -> fle x y.
Proof.
  unfold flt, fle. intros Hx Hy H. apply ltb_key in H; [|assumption|assumption].
  apply leb_key; [assumption|assumption|]. key_cases. lia.
Qed.

Lemma fle_total (x y : float) : notNaN x -> notNaN y -> fle x y \/ fle y x.
Proof.
  unfold fle. intros Hx Hy.
  destruct (PrimFloat.leb x y) eqn:E; [left; reflexivity | right].
  apply leb_false_key in E; [|assumption|assumption].
  apply leb_key; [assumption|assumption|]. key_cases. lia.
Qed.

(** ** angleInSweep on float64 (claim C8) *)

(** C8, as the claim words it, fails.  On float64 the sum [a + 2π] is
    rounded, and the rounding can carry the normalised angle across a
    boundary of the sweep: with a = s = 0.1 the
    angle is in the sweep and a + 2π is not; with a the float64 just below
    0.1 that [(0.1 + 2π) - 2π] yields, the angle is outside (0.1, 1) and
    inside (0.1 + 2π, 1 + 2π). *)
Lemma angleInSweep_full_turn_float64 :
  Sweep.angleInSweep 2 0x1.999999999999ap-4 0x1.999999999999ap-4 1 = Some true
  /\ Sweep.angleInSweep 2 (0x1.999999999999ap-4 + F64.two_pi) 0x1.999999999999ap-4 1
     = Some false
  /\ Sweep.angleInSweep 2 0x1.9999999999998p-4 0x1.999999999999ap-4 1 = Some false
  /\ Sweep.angleInSweep 2 0x1.9999999999998p-4 (0x1.999999999999ap-4 + F64.two_pi)
       (1 + F64.two_pi) = Some true.
Proof. vm_compute. repeat split. Qed.

(** ** Chart value ranges (claim C6) *)

Lemma notNaN_refl (x : float) : notNaN x -> feq x x.
Proof. intros Hx. apply eqb_key; [assumption|assumption|]. key_cases. lia. Qed.

Lemma fle_antisym (x y : float) : notNaN x -> notNaN y -> fle x y -> fle y x -> feq x y.
Proof.
  unfold fle, feq. intros Hx Hy H1 H2.
  apply leb_key in H1; [|assumption|assumption].
  apply leb_key in H2; [|assumption|assumption].
  apply eqb_key; [assumption|assumption|]. key_cases. lia.
Qed.

Lemma values_scan_spec (l : list float) (mn mx : float) :
  Forall notNaN l -> notNaN mn -> notNaN mx ->
  exists mn' mx',
    fold_left values_scan l (mn, mx) = (mn', mx')
    /\ notNaN mn' /\ notNaN mx' /\ fle mn' mn /\ fle mx mx'
    /\ (forall v, v ∈ l -> fle mn' v /\ fle v mx')
    /\ (mn' = mn \/ mn' ∈ l) /\ (mx' = mx \/ mx' ∈ l).
Proof.
  intros Hl. revert mn mx. induction Hl as [|v l Hv Hl IH]; intros mn mx Hmn Hmx.
  - exists mn, mx. simpl. repeat split; auto using fle_refl.
    + inversion H.
    + inversion H.
  - simpl.
    set (mn1 := if PrimFloat.ltb v mn then v else mn).
    set (mx1 := if PrimFloat.ltb mx v then v else mx).
    assert (notNaN mn1) as Hmn1 by (unfold mn1; destruct (PrimFloat.ltb v mn); assumption).
    assert (notNaN mx1) as Hmx1 by (unfold mx1; destruct (PrimFloat.ltb mx v); assumption).
    assert (fle mn1 mn /\ fle mn1 v) as [A1 A2].
    { unfold mn1, fle.
      destruct (PrimFloat.ltb v mn) eqn:E.
      - split; [apply flt_fle; assumption | apply fle_refl; assumption].
      - split; [apply fle_refl; assumption|].
        apply ltb_false_key in E; [|assumption|assumption].
        apply leb_key; [assumption|assumption|exact E]. }
    assert (fle mx mx1 /\ fle v mx1) as [B1 B2].
    { unfold mx1, fle.
      destruct (PrimFloat.ltb mx v) eqn:E.
      - split; [apply flt_fle; assumption | apply fle_refl; assumption].
      - split; [apply fle_refl; assumption|].
        apply ltb_false_key in E; [|assumption|assumption].
        apply leb_key; [assumption|assumption|exact E]. }
    destruct (IH mn1 mx1 Hmn1 Hmx1) as (mn' & mx' & E & N1 & N2 & L1 & L2 & Hall & M1 & M2).
    exists mn', mx'. split; [exact E|]. split; [exact N1|]. split; [exact N2|].
    split; [eapply fle_trans with mn1; assumption|].
    split; [eapply fle_trans with mx1; assumption|].
    split; [|split].
    + intros u Hu. apply elem_of_cons in Hu as [->|Hu]; [|apply Hall; exact Hu].
      split; [eapply fle_trans with mn1 | eapply fle_trans with mx1]; assumption.
    + destruct M1 as [->|M1]; [|right; apply elem_of_cons; right; exact M1].
      unfold mn1. destruct (PrimFloat.ltb v mn); [right; apply elem_of_cons; left|left];
        reflexivity.
    + destruct M2 as [->|M2]; [|right; apply elem_of_cons; right; exact M2].
      unfold mx1. destruct (PrimFloat.ltb mx v); [right; apply elem_of_cons; left|left];
        reflexivity.
Qed.

Lemma fold_left_concat {A B : Type} (f : A -> B -> A) (ls : list (list B)) (a : A) :
  fold_left (fun st l => fold_left f l st) ls a = fold_left f (concat ls) a.
Proof.
  revert a. induction ls as [|l ls IH]; intros a; simpl; [reflexivity|].
  rewrite IH, fold_left_app. reflexivity.
Qed.

Lemma fold_left_concat_map {A B C : Type} (f : A -> B -> A) (g : C -> list B)
    (ls : list C) (a : A) :
  fold_left (fun st c => fold_left f (g c) st) ls a = fold_left f (concat (map g ls)) a.
Proof.
  revert a. induction ls as [|l ls IH]; intros a; simpl; [reflexivity|].
  rewrite IH, fold_left_app. reflexivity.
Qed.

Lemma bar_scan_rest (l : list float) (mn mx : float) :
  fold_left bar_scan l (mn, mx, false)
  = (fst (fold_left values_scan l (mn, mx)), snd (fold_left values_scan l (mn, mx)), false).
Proof.
  revert mn mx. induction l as [|v l IH]; intros mn mx; simpl; [reflexivity|].
  apply IH.
Qed.

Lemma notNaN_MaxFloat64 : notNaN F64.MaxFloat64 /\ notNaN (- F64.MaxFloat64)%float.
Proof. split; reflexivity. Qed.

Lemma values_range_min_max (l : list float) :
  Forall finite64 l -> l <> [] ->
  exists m M, is_min m l /\ is_max M l
    /\ fold_left values_scan l (F64.MaxFloat64, (- F64.MaxFloat64)%float) = (m, M).
Proof.
  intros Hf Hne. destruct notNaN_MaxFloat64 as [N1 N2].
  assert (Forall notNaN l) as Hn.
  { eapply Forall_impl; [exact Hf|]. intros v (H & _). exact H. }
  destruct (values_scan_spec l _ _ Hn N1 N2)
    as (m & M & E & Nm & NM & L1 & L2 & Hall & M1 & M2).
  exists m, M. split; [|split; [|exact E]].
  - split; [|intros v Hv; apply Hall; exact Hv].
    destruct M1 as [->|M1]; [|exists m; split; [exact M1 | apply notNaN_refl; exact Nm]].
    destruct l as [|v l]; [congruence|]. exists v. split; [apply elem_of_cons; left; reflexivity|].
    rewrite Forall_forall in Hf. destruct (Hf v) as (Hv & Hv1 & _); [apply elem_of_cons; left; reflexivity|].
    apply fle_antisym; try assumption. apply Hall. apply elem_of_cons; left; reflexivity.
  - split; [|intros v Hv; apply Hall; exact Hv].
    destruct M2 as [->|M2]; [|exists M; split; [exact M2 | apply notNaN_refl; exact NM]].
    destruct l as [|v l]; [congruence|]. exists v. split; [apply elem_of_cons; left; reflexivity|].
    rewrite Forall_forall in Hf. destruct (Hf v) as (Hv & _ & Hv2); [apply elem_of_cons; left; reflexivity|].
    apply fle_antisym; try assumption. apply Hall. apply elem_of_cons; left; reflexivity.
Qed.

Lemma bar_range_min_max (l : list float) :
  Forall notNaN l -> l <> [] ->
  exists m M, is_min m l /\ is_max M l
    /\ fold_left bar_scan l (0%float, 0%float, true) = (m, M, false).
Proof.
  intros Hn Hne. destruct l as [|v l]; [congruence|].
  inversion Hn as [|? ? Hv Hl]; subst.
  destruct (values_scan_spec l v v Hl Hv Hv)
    as (m & M & E & Nm & NM & L1 & L2 & Hall & M1 & M2).
  exists m, M. simpl. rewrite bar_scan_rest, E. simpl.
  split; [|split; [|reflexivity]].
  - split.
    + exists m. split; [|apply notNaN_refl; exact Nm].
      destruct M1 as [->|M1]; apply elem_of_cons; [left; reflexivity | right; exact M1].
    + intros u Hu. apply elem_of_cons in Hu as [->|Hu]; [exact L1 | apply Hall; exact Hu].
  - split.
    + exists M. split; [|apply notNaN_refl; exact NM].
      destruct M2 as [->|M2]; apply elem_of_cons; [left; reflexivity | right; exact M2].
    + intros u Hu. apply elem_of_cons in Hu as [->|Hu]; [exact L2 | apply Hall; exact Hu].
Qed.

(** The values a bar chart reads from a consistent series are the values
    of the series. *)
Lemma category_values_elem (s : ChartSeries) (v : float) :
  consistent s -> (v ∈ category_values s <-> v ∈ map_values s).
Proof.
  intros Hc. unfold category_values, map_values, value.
  rewrite !list_elem_of_fmap. split.
  - intros (cat & -> & Hcat). apply Hc in Hcat as [v Hv]. rewrite Hv. simpl.
    exists (cat, v). split; [reflexivity|]. apply elem_of_map_to_list. exact Hv.
  - intros ([cat v'] & -> & Hk). apply elem_of_map_to_list in Hk.
    exists cat. simpl. rewrite Hk. split; [reflexivity|]. apply Hc. eauto.
Qed.

Lemma bar_values_elem (series : list ChartSeries) (v : float) :
  Forall consistent series ->
  (v ∈ concat (map category_values series) <-> v ∈ all_values series).
Proof.
  intros Hc. unfold all_values. induction Hc as [|s series Hs Hc IH]; simpl; [reflexivity|].
  rewrite !elem_of_app, IH, (category_values_elem s v Hs). reflexivity.
Qed.

Lemma is_min_ext (m : float) (l l' : list float) :
  (forall v, v ∈ l <-> v ∈ l') -> is_min m l -> is_min m l'.
Proof.
  intros H [(v & Hv & E) Hall]. split.
  - exists v. split; [apply H; exact Hv | exact E].
  - intros u Hu. apply Hall, H, Hu.
Qed.

Lemma is_max_ext (m : float) (l l' : list float) :
  (forall v, v ∈ l <-> v ∈ l') -> is_max m l -> is_max m l'.
Proof.
  intros H [(v & Hv & E) Hall]. split.
  - exists v. split; [apply H; exact Hv | exact E].
  - intros u Hu. apply Hall, H, Hu.
Qed.

Lemma pie_fold_sum (s : ChartSeries) (cats : list string) (acc : float) :
  fold_left (fun total cat => if (0 <? value s cat)%float then (total + value s cat)%float
                              else total) cats acc
  = fold_left PrimFloat.add (filter (fun v => (0 <? v)%float = true) (map (value s) cats)) acc.
Proof.
  revert acc. induction cats as [|cat cats IH]; intros acc; simpl; [reflexivity|].
  rewrite IH. rewrite filter_cons.
  destruct (decide ((0 <? value s cat)%float = true)) as [E|E].
  - rewrite E. reflexivity.
  - apply not_true_is_false in E. rewrite E. reflexivity.
Qed.

Lemma pie_total_sum (s : ChartSeries) : pie_total s = positive_sum (category_values s).
Proof. apply pie_fold_sum. Qed.

Lemma Forall_elem_ext {A : Type} (P : A -> Prop) (l l' : list A) :
  (forall v, v ∈ l <-> v ∈ l') -> Forall P l' -> Forall P l.
Proof.
  intros H. rewrite !Forall_forall. intros Hl v Hv. apply Hl, H, Hv.
Qed.

Lemma nonempty_elem_ext {A : Type} (l l' : list A) :
  (forall v, v ∈ l <-> v ∈ l') -> l' <> [] -> l <> [].
Proof.
  intros H Hne ->. destruct l' as [|v l']; [congruence|].
  specialize (H v). destruct H as [_ H].
  specialize (H (list_elem_of_here v l')). inversion H.
Qed.

(** The scan of the line, area and scatter charts starts from
    [MaxFloat64] and [-MaxFloat64]: what it finds are the least and the
    greatest of the values and these two. *)
Lemma values_range_scan (l : list float) :
  Forall notNaN l ->
  exists m M, is_min m (F64.MaxFloat64 :: l) /\ is_max M ((- F64.MaxFloat64)%float :: l)
    /\ fold_left values_scan l (F64.MaxFloat64, (- F64.MaxFloat64)%float) = (m, M).
Proof.
  intros Hn. destruct notNaN_MaxFloat64 as [N1 N2].
  destruct (values_scan_spec l _ _ Hn N1 N2)
    as (m & M & E & Nm & NM & L1 & L2 & Hall & M1 & M2).
  exists m, M. split; [|split; [|exact E]].
  - split.
    + exists m. split; [|apply notNaN_refl; exact Nm].
      destruct M1 as [->|M1]; apply elem_of_cons; [left; reflexivity | right; exact M1].
    + intros u Hu. apply elem_of_cons in Hu as [->|Hu]; [exact L1 | apply Hall; exact Hu].
  - split.
    + exists M. split; [|apply notNaN_refl; exact NM].
      destruct M2 as [->|M2]; apply elem_of_cons; [left; reflexivity | right; exact M2].
    + intros u Hu. apply elem_of_cons in Hu as [->|Hu]; [exact L2 | apply Hall; exact Hu].
Qed.

(** C6, as the code has it.  Line, area and scatter charts scan the values
    of all series, in whatever order the maps yield them, starting from
    [MaxFloat64] and [-MaxFloat64]; bar charts read the value of every
    category ([s.Values[cat]], 0 for a category without value).  The range
    used for scaling is [clamp_range m M], the minimum replaced by 0 when it
    is positive, then the maximum replaced by the minimum plus 1 when it is
    not above the minimum; [m] and [M] are the least and the greatest of all
    series values when the values are finite numbers, there is at least one,
    and, for a bar chart, the categories of each series are the keys of its
    values.  Pie and doughnut charts sum the positive values of the first
    series, discarding the others, leave the canvas as it is when the sum is
    0, and draw no slice for a value that is not positive. *)
Theorem chart_value_ranges :
  (forall series vals,
      (forall v, v ∈ concat vals <-> v ∈ all_values series) ->
      Forall finite64 (all_values series) -> all_values series <> [] ->
      exists m M, is_min m (all_values series) /\ is_max M (all_values series)
        /\ valuesRange vals = clamp_range m M)
  /\ (forall series,
         Forall consistent series ->
         Forall notNaN (all_values series) -> all_values series <> [] ->
         exists m M, is_min m (all_values series) /\ is_max M (all_values series)
           /\ barChartRange series = clamp_range m M)
  /\ (forall vals,
         Forall notNaN (concat vals) ->
         exists m M, is_min m (F64.MaxFloat64 :: concat vals)
           /\ is_max M ((- F64.MaxFloat64)%float :: concat vals)
           /\ valuesRange vals = clamp_range m M)
  /\ (forall series,
         Forall notNaN (concat (map category_values series)) ->
         concat (map category_values series) <> [] ->
         exists m M, is_min m (concat (map category_values series))
           /\ is_max M (concat (map category_values series))
           /\ barChartRange series = clamp_range m M)
  /\ (forall m M,
         clamp_range m M
         = (if (0 <? m)%float then 0%float else m,
            if (M <=? (if (0 <? m)%float then 0%float else m))%float
            then ((if (0 <? m)%float then 0%float else m) + 1)%float else M))
  /\ (forall s, pie_total s = positive_sum (category_values s))
  /\ (forall fillPieSlice img s rest px py pw ph,
         feq (pie_total s) 0 ->
         renderPieChart fillPieSlice img (s :: rest) px py pw ph = Some img)
  /\ (forall fillDoughnutSlice img s rest HoleSize px py pw ph,
         feq (pie_total s) 0 ->
         renderDoughnutChart fillDoughnutSlice img (s :: rest) HoleSize px py pw ph = Some img)
  /\ (forall fillPieSlice s total cx cy radius cat cats i startAngle img,
         fle (value s cat) 0 ->
         pie_slices fillPieSlice s total cx cy radius (cat :: cats) i startAngle img
         = pie_slices fillPieSlice s total cx cy radius cats (S i) startAngle img)
  /\ (forall fillDoughnutSlice s total cx cy innerR outerR cat cats i startAngle img,
         fle (value s cat) 0 ->
         doughnut_slices fillDoughnutSlice s total cx cy innerR outerR (cat :: cats) i
           startAngle img
         = doughnut_slices fillDoughnutSlice s total cx cy innerR outerR cats (S i)
             startAngle img).
Proof.
  split; [|split; [|split; [|split; [|split; [|split; [|split; [|split; [|split]]]]]]]].
  - intros series vals Hv Hf Hne. unfold valuesRange. rewrite fold_left_concat.
    destruct (values_range_min_max (concat vals)) as (m & M & Hm & HM & E).
    + eapply Forall_elem_ext; eauto.
    + eapply nonempty_elem_ext; eauto.
    + exists m, M. rewrite E.
      split; [eapply is_min_ext; eauto|]. split; [eapply is_max_ext; eauto | reflexivity].
  - intros series Hc Hn Hne. unfold barChartRange. rewrite fold_left_concat_map.
    pose proof (fun v => bar_values_elem series v Hc) as Hv.
    destruct (bar_range_min_max (concat (map category_values series))) as (m & M & Hm & HM & E).
    + eapply Forall_elem_ext; eauto.
    + eapply nonempty_elem_ext; eauto.
    + exists m, M. rewrite E.
      split; [eapply is_min_ext; eauto|]. split; [eapply is_max_ext; eauto | reflexivity].
  - intros vals Hn. unfold valuesRange. rewrite fold_left_concat.
    destruct (values_range_scan (concat vals) Hn) as (m & M & Hm & HM & E).
    exists m, M. rewrite E. auto.
  - intros series Hn Hne. unfold barChartRange. rewrite fold_left_concat_map.
    destruct (bar_range_min_max (concat (map category_values series)) Hn Hne)
      as (m & M & Hm & HM & E).
    exists m, M. rewrite E. auto.
  - reflexivity.
  - apply pie_total_sum.
  - intros fillPieSlice img s rest px py pw ph Ht. unfold renderPieChart.
    destruct (Nat.eqb (length (Categories s)) 0); [reflexivity|].
    unfold feq in Ht. rewrite Ht. reflexivity.
  - intros fillDoughnutSlice img s rest HoleSize px py pw ph Ht. unfold renderDoughnutChart.
    destruct (Nat.eqb (length (Categories s)) 0); [reflexivity|].
    unfold feq in Ht. rewrite Ht. reflexivity.
  - intros fillPieSlice s total cx cy radius cat cats i startAngle img Hv.
    cbn [pie_slices]. unfold fle in Hv. rewrite Hv. reflexivity.
  - intros fillDoughnutSlice s total cx cy innerR outerR cat cats i startAngle img Hv.
    cbn [doughnut_slices]. unfold fle in Hv. rewrite Hv. reflexivity.
Qed.

(** C6, as the claim words it, fails in three ways.  A bar chart reads
    [s.Values[cat]] for the categories only: for [stray_series], whose
    values are 5 and 100 with 100 under a key that is no category, the least
    and greatest of the values give the range (0, 100), which is the range of
    the line chart, and the bar chart scales with (0, 5).  The scan of the
    line chart starts from [-MaxFloat64], which an only value of -Inf does
    not exceed: the maximum stays [-MaxFloat64], where the rule gives
    -Inf + 1 = -Inf.  And a NaN is passed over by the comparisons of the line
    chart, while the bar chart keeps the NaN it reads first as its minimum
    and maximum: the values NaN and 1 give (0, 1) in one and (NaN, NaN) in
    the other. *)
Lemma chart_value_ranges_fail :
  (all_values [stray_series] = [5; 100]%float
   /\ clamp_range 5 100 = (0, 100)%float
   /\ lineChartRange [stray_series] = (0, 100)%float
   /\ barChartRange [stray_series] = (0, 5)%float)
  /\ (all_values [sunk_series] = [neg_infinity]
      /\ clamp_range neg_infinity neg_infinity = (neg_infinity, neg_infinity)
      /\ lineChartRange [sunk_series] = (neg_infinity, - F64.MaxFloat64)%float)
  /\ (all_values [nan_series] = [nan; 1]%float
      /\ lineChartRange [nan_series] = (0, 1)%float
      /\ barChartRange [nan_series] = (nan, nan)).
Proof. repeat split; vm_compute; reflexivity. Qed.

Lemma sample_series_values :
  forall v, v ∈ all_values [sample_series] <-> v = 3%float \/ v = 5%float.
Proof.
  intros v. unfold all_values, map_values, sample_series. simpl.
  rewrite app_nil_r, list_elem_of_fmap. split.
  - intros ((k & x) & -> & Hk). apply elem_of_map_to_list in Hk. simpl.
    apply lookup_insert_Some in Hk as [(_ & <-)|(_ & Hk)]; [left; reflexivity|].
    apply lookup_insert_Some in Hk as [(_ & <-)|(_ & Hk)]; [right; reflexivity|].
    rewrite lookup_empty in Hk. discriminate.
  - intros [-> | ->].
    + exists ("Q1", 3%float). split; [reflexivity|].
      apply elem_of_map_to_list. apply lookup_insert_eq.
    + exists ("Q2", 5%float). split; [reflexivity|].
      apply elem_of_map_to_list. rewrite lookup_insert_ne by discriminate.
      apply lookup_insert_eq.
Qed.

Lemma sample_series_consistent : consistent sample_series.
Proof.
  intros cat. unfold sample_series. simpl. split.
  - intros H. apply elem_of_cons in H as [-> | H]; [eexists; apply lookup_insert_eq|].
    apply elem_of_cons in H as [-> | H]; [|inversion H].
    rewrite lookup_insert_ne by discriminate. eexists; apply lookup_insert_eq.
  - intros (x & Hk).
    apply lookup_insert_Some in Hk as [(<- & _)|(_ & Hk)]; [left|].
    apply lookup_insert_Some in Hk as [(<- & _)|(_ & Hk)]; [right; left|].
    rewrite lookup_empty in Hk. discriminate.
Qed.

Lemma chart_value_ranges_witness :
  (exists m M, is_min m (all_values [sample_series])
     /\ is_max M (all_values [sample_series])
     /\ lineChartRange [sample_series] = clamp_range m M)
  /\ (exists m M, is_min m (all_values [sample_series])
        /\ is_max M (all_values [sample_series])
        /\ barChartRange [sample_series] = clamp_range m M)
  /\ renderPieChart (fun img _ _ _ _ _ _ => Some img)
       (image.RGBA_ [] 0 image.ZR) [ChartSeries_ ["Q1"] ∅] 0 0 10 10
     = Some (image.RGBA_ [] 0 image.ZR).
Proof.
  destruct chart_value_ranges as (HL & HB & _ & _ & _ & _ & HP & _ & _ & _).
  assert (Forall finite64 (all_values [sample_series])) as Hf.
  { apply Forall_forall. intros v Hv. apply sample_series_values in Hv.
    destruct Hv as [-> | ->]; repeat split; vm_compute; reflexivity. }
  assert (all_values [sample_series] <> []) as Hne.
  { intros E. pose proof (proj2 (sample_series_values 3%float) (or_introl eq_refl)) as H.
    rewrite E in H. inversion H. }
  split; [|split].
  - apply (HL [sample_series] (map map_values [sample_series])); [reflexivity | exact Hf | exact Hne].
  - apply (HB [sample_series]); [|eapply Forall_impl; [exact Hf | intros v Hv; apply Hv] | exact Hne].
    constructor; [exact sample_series_consistent | constructor].
  - apply HP. vm_compute. reflexivity.
Defined.

(** * float64 conversions and the polygon fill (claim C5) *)

(** ** Rounding never produces a NaN *)

Lemma shr_1_nonneg (mrs : shr_record) : 0 <= shr_m mrs -> 0 <= shr_m (shr_1 mrs).
Proof.
  destruct mrs as [m r s]. simpl. destruct m as [|[p|p|]|[p|p|]]; simpl; lia.
Qed.

Lemma iter_shr_1_nonneg (p : positive) (mrs : shr_record) :
  0 <= shr_m mrs -> 0 <= shr_m (SpecFloat.iter_pos shr_1 p mrs).
Proof.
  revert mrs. induction p as [p IH|p IH|]; intros mrs H; simpl.
  - apply IH, IH, shr_1_nonneg, H.
  - apply IH, IH, H.
  - apply shr_1_nonneg, H.
Qed.

Lemma shr_fexp_nonneg (prec emax m e : Z) (l : location) :
  0 <= m -> 0 <= shr_m (fst (shr_fexp prec emax m e l)).
Proof.
  intros H. unfold shr_fexp, shr.
  assert (0 <= shr_m (shr_record_of_loc m l)) as H0.
  { destruct l as [|[| |]]; exact H. }
  destruct (fexp prec emax (Zdigits2 m + e) - e); simpl; try exact H0.
  apply iter_shr_1_nonneg, H0.
Qed.

Lemma round_nearest_even_nonneg (m : Z) (l : location) :
  0 <= m -> 0 <= round_nearest_even m l.
Proof.
  intros H. destruct l as [|[| |]]; simpl; try lia. destruct (Z.even m); lia.
Qed.

Lemma binary_round_aux_not_nan (prec emax : Z) (sx : bool) (mx ex : Z) (lx : location) :
  0 <= mx -> binary_round_aux prec emax sx mx ex lx <> S754_nan.
Proof.
  intros H. unfold binary_round_aux.
  pose proof (shr_fexp_nonneg prec emax mx ex lx H) as H1.
  destruct (shr_fexp prec emax mx ex lx) as [mrs' e']. simpl in H1.
  pose proof (shr_fexp_nonneg prec emax _ e' loc_Exact
                (round_nearest_even_nonneg _ (loc_of_shr_record mrs') H1)) as H2.
  destruct (shr_fexp prec emax _ e' loc_Exact) as [mrs'' e'']. simpl in H2.
  destruct (shr_m mrs'') as [|m|m]; [discriminate| |lia].
  destruct (e'' <=? emax - prec); discriminate.
Qed.

Lemma binary_normalize_not_nan (prec emax m e : Z) (szero : bool) :
  binary_normalize prec emax m e szero <> S754_nan.
Proof.
  unfold binary_normalize, binary_round. destruct m as [|m|m]; [discriminate| |].
  - destruct (shl_align m e _) as [mz ez]. apply binary_round_aux_not_nan. lia.
  - destruct (shl_align m e _) as [mz ez]. apply binary_round_aux_not_nan. lia.
Qed.

Lemma notNaN_of_int (z : Z) : notNaN (F64.of_int z).
Proof.
  apply isNaN_spec. unfold F64.of_int.
  destruct (z =? - 2 ^ 63); [vm_compute; discriminate|].
  destruct (z <? 0).
  - rewrite FloatAxioms.opp_spec, FloatAxioms.of_uint63_spec.
    pose proof (binary_normalize_not_nan FloatOps.prec FloatOps.emax
                  (Uint63.to_Z (Uint63.of_Z (- z))) 0 false) as H.
    destruct (binary_normalize _ _ _ _ _); simpl; congruence.
  - rewrite FloatAxioms.of_uint63_spec. apply binary_normalize_not_nan.
Qed.



(** ** The edge rule *)





(** ** sort.Float64s *)








(** ** Spans *)

Lemma fill_spans_pairs (img : image.RGBA) (y : Z) (c : color.RGBA) (xs : list float) :
  fill_spans img y c xs = fill_pairs img y c (adjacent_pairs xs).
Proof.
  revert img. induction xs as [xs IH] using (induction_ltof1 _ (@length float)).
  intros img. destruct xs as [|xa [|xb xs]]; [reflexivity|reflexivity|].
  simpl. destruct (fill_span img y c xa xb) as [img'|]; [|reflexivity]. simpl.
  apply IH. unfold ltof. simpl. lia.
Qed.



(** ** Scanlines *)




Lemma seqZ_to_nat (m len : Z) : seqZ m (Z.of_nat (Z.to_nat len)) = seqZ m len.
Proof. unfold seqZ. rewrite Nat2Z.id. reflexivity. Qed.


(** ** fillPolygon returns *)

Lemma fill_span_total (img : image.RGBA) (y : Z) (c : color.RGBA) (xa xb : float) :
  wf_img img -> exists img', fill_span img y c xa xb = Some img' /\ same_shape img img'.
Proof.
  intros Hwf. unfold fill_span.
  destruct (_ <=? _); [|exists img; split; [reflexivity | apply same_shape_refl]].
  destruct (color.A c =? 255).
  - apply fillRectFast_total, Hwf.
  - destruct (fillRectBlend_paints img
                (image.Rect (F64.to_int (F64.Ceil xa)) y (F64.to_int (F64.Floor xb) + 1) (y + 1))
                c Hwf) as (img' & E & Hs & _).
    exists img'. split; assumption.
Qed.

Lemma fill_pairs_total (img : image.RGBA) (y : Z) (c : color.RGBA) (ps : list (float * float)) :
  wf_img img -> exists img', fill_pairs img y c ps = Some img' /\ same_shape img img'.
Proof.
  revert img. induction ps as [|[xa xb] ps IH]; intros img Hwf.
  - exists img. split; [reflexivity | apply same_shape_refl].
  - simpl. destruct (fill_span_total img y c xa xb Hwf) as (img1 & E1 & S1).
    rewrite E1. simpl.
    destruct (IH img1 (wf_same_shape _ _ Hwf S1)) as (img2 & E2 & S2).
    exists img2. split; [exact E2 | eapply same_shape_trans; eauto].
Qed.





(** The same triangle in a colour that is blended is filled on every row:
    fillRectBlend clips the span to the canvas itself. *)
Example fillPolygon_far_triangle_blended :
  (img ← fillPolygon sample_canvas far_triangle (color.RGBA_ 255 0 0 128);
   Some (map (fun y => map (fun x => pixel_at img x y) [0; 1; 2; 3]) [0; 1; 2; 3]))
  = Some (let r := Some (128, 0, 0, 128) in
          [[r; r; r; r]; [r; r; r; r]; [r; r; r; r]; [r; r; r; r]]).
Proof. vm_compute. reflexivity. Qed.

Example fillPolygon_triangle :
  (img ← fillPolygon sample_canvas sample_triangle (color.RGBA_ 255 0 0 255);
   Some (map (fun y => map (fun x => pixel_at img x y) [0; 1; 2; 3]) [0; 1; 2; 3]))
  = Some (let r := Some (255, 0, 0, 255) in
          let o := Some (0, 0, 0, 0) in
          [[r; r; r; r]; [r; r; r; o]; [r; r; o; o]; [r; o; o; o]]).
Proof. vm_compute. reflexivity. Qed.

(** * float64 arithmetic on integers below 2^53

    The conversion of an integer, the product of two integers and the
    truncated quotient, computed on float64, are the exact ones as long as
    the integers stay below 2^53. *)

Lemma digits2_pos_size (p : positive) : digits2_pos p = Pos.size p.
Proof. induction p as [p IH|p IH|]; simpl; congruence. Qed.

Lemma Zdigits2_digits (p : positive) : Zdigits2 (Zpos p) = digits (Zpos p).
Proof.
  unfold digits. simpl Zdigits2. rewrite digits2_pos_size.
  destruct p as [p|p|]; simpl; try reflexivity; rewrite Pos2Z.inj_succ; lia.
Qed.

Lemma digits_bounds (z : Z) : 0 < z -> 2 ^ (digits z - 1) <= z < 2 ^ digits z.
Proof.
  intros H. unfold digits. replace (Z.log2 z + 1 - 1) with (Z.log2 z) by lia.
  apply Z.log2_spec, H.
Qed.

Lemma digits_unique (z d : Z) : 0 < d -> 2 ^ (d - 1) <= z < 2 ^ d -> digits z = d.
Proof.
  intros Hd H. unfold digits.
  rewrite (Z.log2_unique z (d - 1)); [lia | lia |].
  replace (Z.succ (d - 1)) with d by lia. exact H.
Qed.

Lemma digits_pos (z : Z) : 0 < z -> 0 < digits z.
Proof. intros H. unfold digits. pose proof (Z.log2_nonneg z). lia. Qed.

Lemma digits_le (z n : Z) : 0 < z -> 0 <= n -> z < 2 ^ n -> digits z <= n.
Proof.
  intros Hz Hn H. destruct (digits_bounds z Hz) as [H1 _].
  destruct (Z_le_gt_dec (digits z) n) as [|Hgt]; [assumption|exfalso].
  assert (2 ^ n <= 2 ^ (digits z - 1)) by (apply Z.pow_le_mono_r; lia). lia.
Qed.

(** ** Right shifts that lose nothing *)

Lemma iter_pos_nat {A : Type} (f : A -> A) (p : positive) (x : A) :
  SpecFloat.iter_pos f p x = Nat.iter (Pos.to_nat p) f x.
Proof.
  revert x. induction p as [p IH|p IH|]; intros x; cbn [SpecFloat.iter_pos].
  - rewrite !IH, Pos2Nat.inj_xI, Nat.iter_succ, <- Nat.iter_swap.
    replace (2 * Pos.to_nat p)%nat with (Pos.to_nat p + Pos.to_nat p)%nat by lia.
    rewrite Nat.iter_add. reflexivity.
  - rewrite !IH, Pos2Nat.inj_xO.
    replace (2 * Pos.to_nat p)%nat with (Pos.to_nat p + Pos.to_nat p)%nat by lia.
    rewrite Nat.iter_add. reflexivity.
  - reflexivity.
Qed.

Lemma shr_1_even (m : Z) :
  0 <= m ->
  shr_1 (Build_shr_record (2 * m) false false) = Build_shr_record m false false.
Proof. intros H. destruct m as [|p|p]; [reflexivity | reflexivity | lia]. Qed.

Lemma iter_shr_1_exact (n : nat) (m : Z) :
  0 <= m ->
  Nat.iter n shr_1 (Build_shr_record (m * 2 ^ Z.of_nat n) false false)
  = Build_shr_record m false false.
Proof.
  intros H. induction n as [|n IH]; [simpl; f_equal; lia|].
  rewrite Nat.iter_succ, <- Nat.iter_swap.
  replace (m * 2 ^ Z.of_nat (S n)) with (2 * (m * 2 ^ Z.of_nat n))
    by (rewrite Nat2Z.inj_succ, Z.pow_succ_r by lia; ring).
  rewrite shr_1_even by (apply Z.mul_nonneg_nonneg; [lia | apply Z.pow_nonneg; lia]).
  exact IH.
Qed.

Lemma shr_exact (m e k : Z) :
  0 <= m -> 0 <= k ->
  shr (Build_shr_record (m * 2 ^ k) false false) e k
  = (Build_shr_record m false false, e + k).
Proof.
  intros Hm Hk. unfold shr. destruct k as [|p|p]; [|  |lia].
  - rewrite Z.mul_1_r, Z.add_0_r. reflexivity.
  - rewrite iter_pos_nat. rewrite <- (positive_nat_Z p) at 1.
    rewrite iter_shr_1_exact by exact Hm. reflexivity.
Qed.

(** ** Rounding a value that has a 53-digit form *)

Lemma fexp_normal (e : Z) :
  -1074 <= e - 53 -> fexp FloatOps.prec FloatOps.emax e = e - 53.
Proof.
  intros H. unfold fexp, SpecFloat.emin, FloatOps.prec, FloatOps.emax. lia.
Qed.

Lemma round_exact (s : bool) (m : positive) (e M k : Z) :
  Zpos m = M * 2 ^ k -> 0 <= k -> 2 ^ 52 <= M < 2 ^ 53 ->
  -1074 <= e + k <= 971 ->
  binary_round_aux FloatOps.prec FloatOps.emax s (Zpos m) e loc_Exact
  = S754_finite s (Z.to_pos M) (e + k).
Proof.
  intros Hm Hk HM HE.
  assert (digits (Zpos m) = 53 + k) as Hd.
  { apply digits_unique; [lia|]. rewrite Hm.
    replace (53 + k - 1) with (52 + k) by lia.
    rewrite !Z.pow_add_r by lia.
    assert (0 < 2 ^ k) by (apply Z.pow_pos_nonneg; lia). nia. }
  assert (digits M = 53) as HdM by (apply digits_unique; [lia | exact HM]).
  unfold binary_round_aux, shr_fexp.
  rewrite Zdigits2_digits, Hd, fexp_normal by lia.
  replace (53 + k + e - 53 - e) with k by lia.
  cbn [shr_record_of_loc]. rewrite Hm, shr_exact by lia.
  cbn [shr_m loc_of_shr_record round_nearest_even].
  destruct M as [|pM|pM]; [lia| |lia].
  rewrite Zdigits2_digits, HdM, fexp_normal by lia.
  replace (53 + (e + k) - 53 - (e + k)) with 0 by lia.
  cbn [shr shr_m Z.to_pos].
  replace (e + k <=? FloatOps.emax - FloatOps.prec) with true
    by (symmetry; apply Z.leb_le; unfold FloatOps.emax, FloatOps.prec; lia).
  reflexivity.
Qed.

(** ** float64(z) *)

Lemma iter_xO (k mx : positive) : Zpos (Pos.iter xO mx k) = Zpos mx * 2 ^ Zpos k.
Proof.
  induction k as [|k IH] using Pos.peano_ind; [simpl; lia|].
  rewrite Pos.iter_succ, Pos2Z.inj_xO, IH, Pos2Z.inj_succ, Z.pow_succ_r by lia. ring.
Qed.

Lemma shl_align_spec (mx : positive) (ex ex' : Z) :
  ex' <= ex ->
  exists mz, shl_align mx ex ex' = (mz, ex') /\ Zpos mz = Zpos mx * 2 ^ (ex - ex').
Proof.
  intros H. unfold shl_align. destruct (ex' - ex) as [|k|k] eqn:E; [|lia|].
  - exists mx. replace ex' with ex by lia. rewrite Z.sub_diag. split; [reflexivity | lia].
  - exists (Pos.iter xO mx k). split; [reflexivity|].
    rewrite iter_xO. replace (ex - ex') with (Zpos k) by lia. reflexivity.
Qed.

Lemma canonical_mantissa (z : Z) :
  0 < z -> z < 2 ^ 53 ->
  2 ^ 52 <= z * 2 ^ (53 - digits z) < 2 ^ 53 /\ 0 < digits z <= 53.
Proof.
  intros Hz Hlt. pose proof (digits_bounds z Hz) as [H1 H2].
  pose proof (digits_pos z Hz) as Hd.
  pose proof (digits_le z 53 Hz ltac:(lia) Hlt) as Hd2.
  split; [|lia].
  assert (0 < 2 ^ (53 - digits z)) as Hp by (apply Z.pow_pos_nonneg; lia).
  assert (2 ^ (digits z - 1) * 2 ^ (53 - digits z) = 2 ^ 52) as E1
    by (rewrite <- Z.pow_add_r by lia; f_equal; lia).
  assert (2 ^ digits z * 2 ^ (53 - digits z) = 2 ^ 53) as E2
    by (rewrite <- Z.pow_add_r by lia; f_equal; lia).
  rewrite <- E1, <- E2.
  split; [apply Z.mul_le_mono_nonneg_r; lia | apply Z.mul_lt_mono_pos_r; lia].
Qed.

Lemma Prim2SF_of_int (z : Z) :
  0 < z -> z < 2 ^ 53 -> Prim2SF (F64.of_int z) = canonical z.
Proof.
  intros Hz Hlt. unfold F64.of_int.
  replace (z =? - 2 ^ 63) with false by (symmetry; apply Z.eqb_neq; lia).
  replace (z <? 0) with false by (symmetry; apply Z.ltb_ge; lia).
  rewrite FloatAxioms.of_uint63_spec, Uint63.of_Z_spec.
  rewrite Z.mod_small by (change wB with (2 ^ 63); lia).
  destruct (canonical_mantissa z Hz Hlt) as [HM Hd].
  destruct z as [|p|p]; [lia| |lia].
  unfold binary_normalize, binary_round.
  change (Zpos (digits2_pos p)) with (Zdigits2 (Zpos p)).
  rewrite Zdigits2_digits, fexp_normal by lia.
  destruct (shl_align_spec p 0 (digits (Zpos p) + 0 - 53) ltac:(lia)) as (mz & -> & Hmz).
  rewrite (round_exact false mz _ (Zpos p * 2 ^ (53 - digits (Zpos p))) 0); try lia.
  - unfold canonical. f_equal. lia.
  - rewrite Hmz, Z.mul_1_r. f_equal. f_equal. lia.
Qed.

(** ** The product *)

Lemma digits_mul (a b : Z) : 0 < a -> 0 < b -> digits a + digits b - 1 <= digits (a * b).
Proof.
  intros Ha Hb.
  pose proof (digits_bounds a Ha) as [A1 _]. pose proof (digits_bounds b Hb) as [B1 _].
  pose proof (digits_bounds (a * b) ltac:(nia)) as [_ C2].
  pose proof (digits_pos a Ha). pose proof (digits_pos b Hb).
  pose proof (digits_pos (a * b) ltac:(nia)).
  assert (2 ^ (digits a - 1 + (digits b - 1)) < 2 ^ digits (a * b)) as H2.
  { rewrite Z.pow_add_r by lia.
    assert (0 < 2 ^ (digits a - 1)) by (apply Z.pow_pos_nonneg; lia).
    assert (0 < 2 ^ (digits b - 1)) by (apply Z.pow_pos_nonneg; lia). nia. }
  apply Z.pow_lt_mono_r_iff in H2; lia.
Qed.

Lemma of_int_mul (a b : Z) :
  0 < a -> 0 < b -> a * b < 2 ^ 53 ->
  (F64.of_int a * F64.of_int b)%float = F64.of_int (a * b).
Proof.
  intros Ha Hb Hab. apply FloatAxioms.Prim2SF_inj.
  assert (a < 2 ^ 53) as Ha2 by nia. assert (b < 2 ^ 53) as Hb2 by nia.
  rewrite FloatAxioms.mul_spec, !Prim2SF_of_int by (try assumption; nia).
  destruct (canonical_mantissa a Ha Ha2) as [MA DA].
  destruct (canonical_mantissa b Hb Hb2) as [MB DB].
  destruct (canonical_mantissa (a * b) ltac:(nia) Hab) as [MC DC].
  pose proof (digits_mul a b Ha Hb) as Hd.
  unfold canonical, SF64mul, SFmul. cbn [xorb].
  rewrite (round_exact false _ _ (a * b * 2 ^ (53 - digits (a * b)))
             (digits (a * b) + 53 - digits a - digits b)); try lia.
  - f_equal. lia.
  - rewrite Pos2Z.inj_mul, !Z2Pos.id by lia.
    replace (a * b * 2 ^ (53 - digits (a * b)) * 2 ^ (digits (a * b) + 53 - digits a - digits b))
      with (a * b * (2 ^ (53 - digits (a * b)) * 2 ^ (digits (a * b) + 53 - digits a - digits b)))
      by ring.
    rewrite <- Z.pow_add_r by lia.
    replace (53 - digits (a * b) + (digits (a * b) + 53 - digits a - digits b))
      with (53 - digits a + (53 - digits b)) by lia.
    rewrite Z.pow_add_r by lia. ring.
Qed.

(** ** The truncated quotient *)

Lemma SFtrunc_finite (m : positive) (e : Z) :
  F64.SFtrunc (S754_finite false m e) = Some (trunc_value (Zpos m) e).
Proof.
  unfold F64.SFtrunc, trunc_value. destruct e as [|p|p]; try reflexivity.
  replace (Z.neg p <? 0) with true by reflexivity.
  rewrite Z.shiftr_div_pow2 by lia. reflexivity.
Qed.

Lemma trunc_value_shift (m e : Z) :
  0 <= m -> trunc_value (2 * m) e = trunc_value m (e + 1).
Proof.
  intros Hm. unfold trunc_value.
  destruct (e <? 0) eqn:E1; [apply Z.ltb_lt in E1 | apply Z.ltb_ge in E1].
  - destruct (e + 1 <? 0) eqn:E2; [apply Z.ltb_lt in E2 | apply Z.ltb_ge in E2].
    + replace (- e) with (Z.succ (- (e + 1))) by lia.
      rewrite Z.pow_succ_r by lia. rewrite Z.div_mul_cancel_l; [reflexivity| |lia].
      apply Z.pow_nonzero; lia.
    + replace e with (-1) by lia. simpl. rewrite Z.mul_comm, Z.div_mul by lia.
      rewrite Z.mul_1_r. reflexivity.
  - replace (e + 1 <? 0) with false by (symmetry; apply Z.ltb_ge; lia).
    rewrite Z.pow_add_r by lia. ring.
Qed.

Lemma loc_of_shr_record_of_loc (m : Z) (l : location) :
  loc_of_shr_record (shr_record_of_loc m l) = l
  /\ shr_m (shr_record_of_loc m l) = m.
Proof. destruct l as [|[| |]]; split; reflexivity. Qed.

(** The last step of the rounding: a mantissa that reached 2^53 is halved. *)
Lemma round_finish (m1 e1 : Z) :
  2 ^ 52 <= m1 <= 2 ^ 53 -> -1074 <= e1 <= 970 ->
  F64.SFtrunc
    (let '(mrs, e) := shr_fexp FloatOps.prec FloatOps.emax m1 e1 loc_Exact in
     match shr_m mrs with
     | 0 => S754_zero false
     | Zpos m => if e <=? FloatOps.emax - FloatOps.prec then S754_finite false m e
                 else S754_infinity false
     | Zneg _ => S754_nan
     end)
  = Some (trunc_value m1 e1).
Proof.
  intros Hm He. destruct (Z.eq_dec m1 (2 ^ 53)) as [->|Hne].
  - unfold shr_fexp. change (Zdigits2 (2 ^ 53)) with 54.
    rewrite fexp_normal by lia. replace (54 + e1 - 53 - e1) with 1 by lia.
    cbn [shr_record_of_loc].
    change (2 ^ 53) with (2 ^ 52 * 2 ^ 1) at 1. rewrite shr_exact by lia.
    cbn [shr_m]. change (2 ^ 52) with (Zpos (Z.to_pos (2 ^ 52))) at 1. cbv iota.
    replace (e1 + 1 <=? FloatOps.emax - FloatOps.prec) with true
      by (symmetry; apply Z.leb_le; unfold FloatOps.emax, FloatOps.prec; lia).
    rewrite SFtrunc_finite. f_equal.
    change (Zpos (Z.to_pos (2 ^ 52))) with (2 ^ 52).
    change (2 ^ 53) with (2 * 2 ^ 52). symmetry. apply trunc_value_shift. lia.
  - assert (digits m1 = 53) as Hd by (apply digits_unique; lia).
    destruct m1 as [|p|p]; [lia| |lia].
    unfold shr_fexp. rewrite Zdigits2_digits, Hd, fexp_normal by lia.
    replace (53 + e1 - 53 - e1) with 0 by lia. cbn [shr_record_of_loc shr shr_m].
    replace (e1 <=? FloatOps.emax - FloatOps.prec) with true
      by (symmetry; apply Z.leb_le; unfold FloatOps.emax, FloatOps.prec; lia).
    apply SFtrunc_finite.
Qed.

Lemma round_nearest_even_cases (m : Z) (l : location) :
  round_nearest_even m l = m \/ round_nearest_even m l = m + 1.
Proof. destruct l as [|[| |]]; simpl; auto. destruct (Z.even m); auto. Qed.

Lemma shr_1_round (q : Z) (r s : bool) :
  0 < q ->
  shr_m (shr_1 (Build_shr_record q r s)) = q / 2
  /\ (round_nearest_even (shr_m (shr_1 (Build_shr_record q r s)))
        (loc_of_shr_record (shr_1 (Build_shr_record q r s))) = q / 2
      \/ (round_nearest_even (shr_m (shr_1 (Build_shr_record q r s)))
            (loc_of_shr_record (shr_1 (Build_shr_record q r s))) = q / 2 + 1
          /\ Z.odd q = true)).
Proof.
  intros Hq. destruct q as [|[p|p|]|p]; try lia.
  - assert (Zpos p~1 / 2 = Zpos p) as E
        by (symmetry; apply Z.div_unique with 1; lia).
    rewrite E. cbn [shr_1 shr_m loc_of_shr_record]. split; [reflexivity|].
    destruct (r || s); cbn [round_nearest_even].
    + right. split; reflexivity.
    + destruct (Z.even (Zpos p)); [left | right; split]; reflexivity.
  - assert (Zpos p~0 / 2 = Zpos p) as E
        by (symmetry; apply Z.div_unique with 0; lia).
    rewrite E. cbn [shr_1 shr_m loc_of_shr_record]. split; [reflexivity|].
    destruct (r || s); cbn [round_nearest_even]; left; reflexivity.
  - cbn [shr_1 shr_m loc_of_shr_record]. split; [reflexivity|].
    destruct (r || s); [right; split; reflexivity | left; reflexivity].
Qed.

Lemma shr_record_of_loc_eta (m : Z) (l : location) :
  exists r s, shr_record_of_loc m l = Build_shr_record m r s.
Proof. destruct l as [|[| |]]; simpl; eauto. Qed.

Lemma round_aux_trunc (q e : Z) (loc : location) :
  2 ^ 52 <= q < 2 ^ 54 -> -1074 <= e <= 900 ->
  exists m1 e1,
    F64.SFtrunc (binary_round_aux FloatOps.prec FloatOps.emax false q e loc)
    = Some (trunc_value m1 e1)
    /\ ((q < 2 ^ 53 /\ e1 = e /\ m1 = round_nearest_even q loc)
        \/ (2 ^ 53 <= q /\ e1 = e + 1
            /\ (m1 = q / 2 \/ (m1 = q / 2 + 1 /\ Z.odd q = true)))).
Proof.
  intros Hq He. destruct (Z_lt_ge_dec q (2 ^ 53)) as [Hlt|Hge].
  - exists (round_nearest_even q loc), e. split; [|left; auto].
    assert (digits q = 53) as Hd by (apply digits_unique; lia).
    assert (shr_fexp FloatOps.prec FloatOps.emax q e loc = (shr_record_of_loc q loc, e)) as E.
    { unfold shr_fexp. destruct q as [|p|p]; [lia| |lia].
      rewrite Zdigits2_digits, Hd, fexp_normal by lia.
      replace (53 + e - 53 - e) with 0 by lia. reflexivity. }
    unfold binary_round_aux. rewrite E.
    destruct (loc_of_shr_record_of_loc q loc) as [-> ->].
    apply round_finish; [|lia].
    destruct (round_nearest_even_cases q loc) as [-> | ->]; lia.
  - assert (digits q = 54) as Hd by (apply digits_unique; lia).
    destruct (shr_record_of_loc_eta q loc) as (r & s & Er).
    assert (shr_fexp FloatOps.prec FloatOps.emax q e loc
            = (shr_1 (Build_shr_record q r s), e + 1)) as E.
    { unfold shr_fexp. destruct q as [|p|p]; [lia| |lia].
      rewrite Zdigits2_digits, Hd, fexp_normal by lia.
      replace (54 + e - 53 - e) with 1 by lia. rewrite Er. reflexivity. }
    destruct (shr_1_round q r s ltac:(lia)) as [Hm Hr].
    exists (round_nearest_even (shr_m (shr_1 (Build_shr_record q r s)))
              (loc_of_shr_record (shr_1 (Build_shr_record q r s)))), (e + 1).
    split.
    + unfold binary_round_aux. rewrite E. apply round_finish; [|lia].
      assert (2 ^ 52 <= q / 2 < 2 ^ 53).
      { split; [apply Z.div_le_lower_bound; lia | apply Z.div_lt_upper_bound; lia]. }
      destruct Hr as [-> | [-> _]]; lia.
    + right. split; [lia|]. split; [reflexivity|]. exact Hr.
Qed.

Lemma round_new_location (q D r : Z) :
  0 <= r ->
  round_nearest_even q (new_location D r) = q
  \/ (round_nearest_even q (new_location D r) = q + 1 /\ D <= 2 * r).
Proof.
  intros Hr. unfold new_location, new_location_even, new_location_odd.
  destruct (Z.even D); destruct (r =? 0); cbn [round_nearest_even]; auto.
  - destruct (Z.compare_spec (2 * r) D) as [Hc|Hc|Hc]; auto.
    + destruct (Z.even q); [left; reflexivity | right; split; [reflexivity | lia]].
    + right. split; [reflexivity | lia].
  - destruct (Z.compare_spec (2 * r + 1) D) as [Hc|Hc|Hc]; auto.
    right. split; [reflexivity | lia].
Qed.

Lemma SFdiv_core_53 (mA mB : positive) (eA eB : Z) :
  2 ^ 52 <= Zpos mA < 2 ^ 53 -> 2 ^ 52 <= Zpos mB < 2 ^ 53 ->
  -1074 <= eA - eB - 53 ->
  SFdiv_core_binary FloatOps.prec FloatOps.emax (Zpos mA) eA (Zpos mB) eB
  = ((Zpos mA * 2 ^ 53) / Zpos mB, eA - eB - 53,
     new_location (Zpos mB) ((Zpos mA * 2 ^ 53) mod Zpos mB)).
Proof.
  intros HA HB He. unfold SFdiv_core_binary.
  rewrite !Zdigits2_digits.
  rewrite (digits_unique (Zpos mA) 53), (digits_unique (Zpos mB) 53) by lia.
  replace (53 + eA - (53 + eB)) with (eA - eB) by lia.
  rewrite fexp_normal by lia.
  replace (Z.min (eA - eB - 53) (eA - eB)) with (eA - eB - 53) by lia.
  replace (eA - eB - (eA - eB - 53)) with 53 by lia.
  rewrite Z.shiftl_mul_pow2 by lia.
  unfold Z.div, Z.modulo.
  destruct (Z.div_eucl (Zpos mA * 2 ^ 53) (Zpos mB)) as [q r]. reflexivity.
Qed.

(** Rounding to the nearest 53-digit value cannot reach the next integer:
    the quotient of two integers below 2^53 is too far from it. *)
Lemma trunc_of_rounded (A B t m1 : Z) :
  0 < A < 2 ^ 53 -> 0 < B -> 0 <= t ->
  2 ^ 52 <= A * 2 ^ t / B ->
  m1 = A * 2 ^ t / B \/ (m1 = A * 2 ^ t / B + 1 /\ B <= 2 * ((A * 2 ^ t) mod B)) ->
  m1 / 2 ^ t = A / B.
Proof.
  intros HA HB Ht Hq Hm.
  assert (0 < 2 ^ t) as HT by (apply Z.pow_pos_nonneg; lia).
  set (T := 2 ^ t) in *.
  pose proof (Z.div_mod (A * T) B ltac:(lia)) as E.
  pose proof (Z.mod_pos_bound (A * T) B HB) as Hr.
  set (q := A * T / B) in *. set (r := (A * T) mod B) in *.
  assert (q / T = A / B) as E0.
  { unfold q. rewrite Z.div_div by lia.
    rewrite Z.div_mul_cancel_r by lia. reflexivity. }
  destruct Hm as [-> | [-> Hup]]; [exact E0|].
  rewrite <- E0.
  pose proof (Z.div_mod q T ltac:(lia)) as Eq.
  pose proof (Z.mod_pos_bound q T HT) as Hs.
  set (k := q / T) in *. set (s := q mod T) in *.
  destruct (Z_lt_ge_dec (s + 1) T) as [Hlt|Hge].
  - symmetry. apply Z.div_unique with (s + 1); lia.
  - exfalso. assert (s = T - 1) as Hs1 by lia.
    assert (T * (B * (k + 1) - A) = B - r) as E1 by nia.
    assert (1 <= B * (k + 1) - A) as H1 by nia.
    assert (T <= B - r) as H2 by nia.
    assert (2 * T <= B) as H3 by lia.
    assert (B * q <= A * T) as H4 by lia.
    assert (B * 2 ^ 52 <= B * q) as H5 by (apply Z.mul_le_mono_nonneg_l; lia).
    assert (A * T < 2 ^ 53 * T) as H6 by (apply Z.mul_lt_mono_pos_r; lia).
    assert (B * 2 ^ 52 < 2 ^ 53 * T) as H7 by lia.
    change (2 ^ 53) with (2 * 2 ^ 52) in H7. lia.
Qed.

Lemma trunc_value_nonpos (m e : Z) : e <= 0 -> trunc_value m e = m / 2 ^ (- e).
Proof.
  intros He. unfold trunc_value. destruct (e <? 0) eqn:E; [reflexivity|].
  apply Z.ltb_ge in E. replace e with 0 by lia. simpl. rewrite Z.div_1_r. lia.
Qed.

Lemma SFtrunc_div (A B : Z) :
  0 < A -> A < 2 ^ 53 -> 0 < B -> B < 2 ^ 53 ->
  F64.SFtrunc (Prim2SF (F64.of_int A / F64.of_int B)) = Some (A / B).
Proof.
  intros HA HA2 HB HB2.
  rewrite FloatAxioms.div_spec, !Prim2SF_of_int by assumption.
  destruct (canonical_mantissa A HA HA2) as [MA DA].
  destruct (canonical_mantissa B HB HB2) as [MB DB].
  unfold canonical, SF64div, SFdiv.
  set (a := 53 - digits A) in *. set (b := 53 - digits B) in *.
  replace (digits A - 53) with (- a) by lia. replace (digits B - 53) with (- b) by lia.
  rewrite SFdiv_core_53 by (rewrite ?Z2Pos.id by lia; lia).
  rewrite !Z2Pos.id by lia. cbn [xorb].
  set (t0 := 53 + a - b).
  assert (1 <= t0) as Ht0 by (unfold t0; lia).
  assert (0 < 2 ^ b) as Hb by (apply Z.pow_pos_nonneg; lia).
  assert (A * 2 ^ a * 2 ^ 53 = A * 2 ^ t0 * 2 ^ b) as EN.
  { rewrite <- !Z.mul_assoc, <- !Z.pow_add_r by lia. do 2 f_equal. lia. }
  rewrite EN, Z.div_mul_cancel_r, Z.mul_mod_distr_r by lia.
  set (q := A * 2 ^ t0 / B). set (r := (A * 2 ^ t0) mod B).
  pose proof (Z.mod_pos_bound (A * 2 ^ t0) B HB) as Hr. fold r in Hr.
  assert (2 ^ 52 <= q < 2 ^ 54) as Hq.
  { unfold q. rewrite <- (Z.div_mul_cancel_r _ _ (2 ^ b)), <- EN by lia. split.
    - apply Z.div_le_lower_bound; [lia|]. change (2 ^ 53) with (2 * 2 ^ 52) in *. nia.
    - apply Z.div_lt_upper_bound; [lia|]. change (2 ^ 54) with (2 * 2 ^ 53). nia. }
  replace (- a - - b - 53) with (- t0) by lia.
  destruct (round_aux_trunc q (- t0) (new_location (B * 2 ^ b) (r * 2 ^ b)) Hq ltac:(lia))
    as (m1 & e1 & E & Hc).
  rewrite E. f_equal.
  destruct Hc as [(Hlt & -> & ->) | (Hge & -> & Hm)].
  - rewrite trunc_value_nonpos, Z.opp_involutive by lia.
    apply trunc_of_rounded; [lia | lia | lia | fold q; lia |]. fold q. fold r.
    destruct (round_new_location q (B * 2 ^ b) (r * 2 ^ b) ltac:(nia)) as [-> | [-> Hup]];
      [left; reflexivity | right; split; [reflexivity | nia]].
  - rewrite trunc_value_nonpos by lia.
    replace (- (- t0 + 1)) with (t0 - 1) by lia.
    assert (A * 2 ^ t0 = A * 2 ^ (t0 - 1) * 2) as E2.
    { replace t0 with (Z.succ (t0 - 1)) at 1 by lia. rewrite Z.pow_succ_r by lia. ring. }
    assert (q / 2 = A * 2 ^ (t0 - 1) / B) as Eq1.
    { unfold q. rewrite E2, Z.div_div by lia.
      rewrite Z.div_mul_cancel_r by lia. reflexivity. }
    apply trunc_of_rounded;
      [lia | lia | lia | rewrite <- Eq1; apply Z.div_le_lower_bound; lia |].
    rewrite <- Eq1. destruct Hm as [-> | [-> Hodd]]; [left; reflexivity|].
    right. split; [reflexivity|].
    pose proof (Z.div_mod (A * 2 ^ (t0 - 1)) B ltac:(lia)) as D1.
    pose proof (Z.div_mod (A * 2 ^ t0) B ltac:(lia)) as D0. fold q in D0. fold r in D0.
    pose proof (Z.div_mod q 2 ltac:(lia)) as Dq.
    rewrite Zmod_odd, Hodd in Dq. rewrite <- Eq1 in D1. nia.
Qed.

(** [int(float64(a) / float64(b))] is the integer quotient. *)
Lemma to_int_div (A B : Z) :
  0 < A -> A < 2 ^ 53 -> 0 < B -> B < 2 ^ 53 ->
  F64.to_int (F64.of_int A / F64.of_int B) = A / B.
Proof.
  intros HA HA2 HB HB2. unfold F64.to_int.
  rewrite SFtrunc_div by assumption.
  assert (0 <= A / B) by (apply Z.div_pos; lia).
  assert (A / B <= A) by (apply Z.div_le_upper_bound; nia).
  replace ((F64.min_int64 <=? A / B) && (A / B <? 2 ^ 63)) with true; [reflexivity|].
  symmetry. apply andb_true_iff. unfold F64.min_int64. split; [apply Z.leb_le | apply Z.ltb_lt]; lia.
Qed.

(** The height of the image: the quotient [W * cy / cx], truncated. *)
Lemma imageHeight_quotient (W cx cy : Z) :
  0 < W -> 0 < cy -> 0 < cx -> cx < 2 ^ 53 -> W * cy < 2 ^ 53 ->
  imageHeight W cx cy = W * cy / cx.
Proof.
  intros HW Hcy Hcx Hcx2 Hwc. unfold imageHeight.
  rewrite of_int_mul by assumption. apply to_int_div; try assumption. nia.
Qed.

(** * SlideToImage and SlidesToImages (claims C1, C4, C9) *)

Section SlideClaims.

Context {OtherShape SrcImage FontCache : Type}.
Variable ext : External OtherShape SrcImage FontCache.



(** SlideToImage keeps the options where they are, and changes at most
    their width. *)
Lemma SlideToImage_options (p : Presentation OtherShape) (slideIndex : Z) (l : positive)
    (h : heap FontCache) (o : RenderOptions FontCache) :
  h !! l = Some o ->
  exists w, snd (SlideToImage ext p slideIndex (Some l) h) !! l = Some (set_Width o w)
    /\ forall l', l' <> l -> snd (SlideToImage ext p slideIndex (Some l) h) !! l' = h !! l'.
Proof.
  intros Hl.
  assert (set_Width o (Width o) = o) as Eo by (destruct o; reflexivity).
  destruct (Z_lt_ge_dec slideIndex 0) as [H0|H0];
    [|destruct (Z_lt_ge_dec slideIndex (Z.of_nat (length (slides p)))) as [H1|H1]].
  - rewrite SlideToImage_out_of_range by lia. exists (Width o).
    simpl. rewrite Eo. auto.
  - rewrite (SlideToImage_heap ext p slideIndex l h o ltac:(lia) Hl).
    destruct (Width o <=? 0).
    + exists 960. unfold heap in *. split; [rewrite lookup_insert_eq; reflexivity|].
      intros l' Hne. rewrite lookup_insert_ne by congruence. reflexivity.
    + exists (Width o). rewrite Eo. auto.
  - rewrite SlideToImage_out_of_range by lia. exists (Width o).
    simpl. rewrite Eo. auto.
Qed.

Lemma SlidesToImages_loop_options (p : Presentation OtherShape) (n : nat) (i : Z)
    (l : positive) (images : list image.RGBA) (h : heap FontCache)
    (o : RenderOptions FontCache) :
  h !! l = Some o ->
  exists w, snd (SlidesToImages_loop ext p n i l images h) !! l = Some (set_Width o w)
    /\ forall l', l' <> l -> snd (SlidesToImages_loop ext p n i l images h) !! l' = h !! l'.
Proof.
  revert i images h o. induction n as [|n IH]; intros i images h o Hl.
  - exists (Width o). simpl. split; [|auto]. rewrite Hl. destruct o; reflexivity.
  - cbn [SlidesToImages_loop].
    destruct (SlideToImage_options p i l h o Hl) as (w & Hw & Hframe).
    destruct (SlideToImage ext p i (Some l) h) as [[[img|msg]|] h1]; simpl in Hw, Hframe.
    + destruct (IH (i + 1) (images ++ [img]) h1 _ Hw) as (w' & Hw' & Hframe').
      exists w'. split; [rewrite Hw'; destruct o; reflexivity|].
      intros l' Hne. rewrite Hframe' by exact Hne. apply Hframe, Hne.
    + exists w. auto.
    + exists w. auto.
Qed.



(** C9, as the code has it.  SlideToImage stores 960 into the width of the
    caller's options when that width is not positive and the slide index is
    in range; with an index out of range it returns before, and the options
    stay as they were.  SlidesToImages stores a new font cache into the
    caller's options when they have none; after the call the options differ
    from the ones before at most in the font cache and the width, and no
    other options object has changed. *)
Theorem options_mutated (p : Presentation OtherShape) (slideIndex : Z) (l : positive)
    (h : heap FontCache) (o : RenderOptions FontCache) :
  h !! l = Some o ->
  (0 <= slideIndex < Z.of_nat (length (slides p)) -> Width o <= 0 ->
   snd (SlideToImage ext p slideIndex (Some l) h) = <[l := set_Width o 960]> h)
  /\ (0 <= slideIndex < Z.of_nat (length (slides p)) -> 0 < Width o ->
      snd (SlideToImage ext p slideIndex (Some l) h) = h)
  /\ (slideIndex < 0 \/ slideIndex >= Z.of_nat (length (slides p)) ->
      snd (SlideToImage ext p slideIndex (Some l) h) = h)
  /\ (opt_FontCache o = None ->
      exists w,
        snd (SlidesToImages ext p (Some l) h) !! l
        = Some (set_Width (set_FontCache o (NewFontCache ext (FontDirs o))) w)
        /\ forall l', l' <> l -> snd (SlidesToImages ext p (Some l) h) !! l' = h !! l').
Proof.
  intros Hl. split; [|split; [|split]].
  - intros Hi Hw. rewrite (SlideToImage_heap ext p slideIndex l h o Hi Hl).
    replace (Width o <=? 0) with true by lia. reflexivity.
  - intros Hi Hw. rewrite (SlideToImage_heap ext p slideIndex l h o Hi Hl).
    replace (Width o <=? 0) with false by lia. reflexivity.
  - intros Hi. rewrite SlideToImage_out_of_range by exact Hi. reflexivity.
  - intros Hfc. unfold SlidesToImages. rewrite Hl, Hfc.
    set (o1 := set_FontCache o (NewFontCache ext (FontDirs o))).
    unfold heap in *.
    destruct (SlidesToImages_loop_options p (length (slides p)) 0 l [] (<[l := o1]> h) o1)
      as (w & Hw & Hframe); [unfold heap; rewrite lookup_insert_eq; reflexivity|].
    exists w. split; [exact Hw|].
    intros l' Hne. rewrite Hframe by exact Hne.
    unfold heap. rewrite lookup_insert_ne by congruence. reflexivity.
Qed.

End SlideClaims.

(** ** The claims on a sample presentation *)

Lemma sample_heap_lookup (w : Z) : sample_heap w !! 1%positive = Some (sample_options w).
Proof. unfold sample_heap, heap. rewrite lookup_insert_eq. reflexivity. Qed.







(** The deck at a width of 8, run: the call returns an image of 8 by 6
    pixels. *)
Example SlideToImage_sample_deck :
  (fun i => image.Bounds i)
    <$> (r ← fst (SlideToImage bare sample_deck 0 (Some 1%positive) (sample_heap 8));
         match r with Ok i => Some i | Err _ => None end)
  = Some (image.Rect 0 0 8 6).
Proof. vm_compute. reflexivity. Qed.

Lemma options_mutated_witness :
  snd (SlideToImage bare sample_presentation 0 (Some 1%positive) (sample_heap 0))
  = <[1%positive := set_Width (sample_options 0) 960]> (sample_heap 0)
  /\ exists w,
       snd (SlidesToImages bare sample_presentation (Some 1%positive) (sample_heap 0))
         !! 1%positive
       = Some (set_Width (set_FontCache (sample_options 0) tt) w).
Proof.
  destruct (options_mutated bare sample_presentation 0 1%positive (sample_heap 0)
              (sample_options 0) (sample_heap_lookup 0)) as (H1 & _ & _ & H4).
  split.
  - apply H1; simpl; lia.
  - destruct (H4 eq_refl) as (w & Hw & _). exists w. exact Hw.
Defined.

(** C9, as the claim words it, fails for SlideToImage: with a slide index
    out of range the call returns the error before it looks at the options,
    and a width of 0 stays 0. *)
Lemma SlideToImage_out_of_range_keeps_width :
  SlideToImage bare sample_presentation 1 (Some 1%positive) (sample_heap 0)
  = (Some (Err "slide index 1 out of range (0-0)"), sample_heap 0)
  /\ sample_heap 0 !! 1%positive = Some (sample_options 0)
  /\ Width (sample_options 0) = 0.
Proof.
  split; [|split; [apply sample_heap_lookup | reflexivity]].
  rewrite SlideToImage_out_of_range by (simpl; lia). reflexivity.
Qed.

Example out_of_range_message_sample :
  out_of_range_message (Presentation_ [Slide_ [] None; Slide_ [] None; Slide_ [] None] None
                          : Presentation unit) 7
  = "slide index 7 out of range (0-2)"%string.
Proof. vm_compute. reflexivity. Qed.

(** ** Pictures on a sample canvas (claims C7, C10) *)

Lemma sample_canvas_wf : wf_img sample_canvas /\ drawable sample_canvas.
Proof. unfold wf_img, drawable. repeat split; vm_compute; congruence. Qed.


Lemma renderDrawing_no_bytes_witness :
  renderDrawing bare sample_renderer sample_empty_picture = Some (img sample_renderer).
Proof.
  apply (proj1 (renderDrawing_no_bytes bare sample_renderer sample_empty_picture)).
  - reflexivity.
  - left. reflexivity.
Defined.

Example renderDrawing_placeholder_pixels :
  (img ← renderDrawing bare sample_renderer sample_picture;
   Some (map (fun y => map (fun x => pixel_at img x y) [0; 1; 2; 3]) [0; 1; 2; 3]))
  = Some (let g := Some (200, 200, 200, 255) in
          let o := Some (0, 0, 0, 0) in
          [[g; g; g; g]; [g; o; o; g]; [g; o; o; g]; [g; g; g; g]]).
Proof. vm_compute. reflexivity. Qed.

(** A picture whose offset and width add up to 2^63: the sum wraps to
    -2^63, image.Rect swaps the corners, and the box runs from -2^63 to 2^62
    across the whole canvas; its outline shows as the rows 0 and 3. *)
Example renderDrawing_placeholder_wrapped :
  pixelBox sample_renderer far_picture = image.Rect (- 2 ^ 63) 0 (2 ^ 62) 4
  /\ (img ← renderDrawing bare sample_renderer far_picture;
      Some (map (fun y => map (fun x => pixel_at img x y) [0; 1; 2; 3]) [0; 1; 2; 3]))
     = Some (let g := Some (200, 200, 200, 255) in
             let o := Some (0, 0, 0, 0) in
             [[g; g; g; g]; [o; o; o; o]; [o; o; o; o]; [g; g; g; g]]).
Proof. split; vm_compute; reflexivity. Qed.

(** * Further properties *)

(** The height computation of SlideToImage on float64 is exact integer
    arithmetic: the product [float64(W) * float64(cy)] is the float64 of
    [W * cy], and the truncated quotient by [float64(cx)] is [W * cy / cx]. *)
Theorem float64_height_exact (W cx cy : Z) :
  0 < W -> 0 < cy -> 0 < cx -> cx < 2 ^ 53 -> W * cy < 2 ^ 53 ->
  (F64.of_int W * F64.of_int cy)%float = F64.of_int (W * cy)
  /\ F64.to_int (F64.of_int (W * cy) / F64.of_int cx) = W * cy / cx
  /\ imageHeight W cx cy = W * cy / cx.
Proof.
  intros HW Hcy Hcx Hcx2 Hwc.
  split; [apply of_int_mul; assumption|].
  split; [apply to_int_div; try assumption; nia|].
  apply imageHeight_quotient; assumption.
Qed.

Lemma float64_height_exact_witness :
  (F64.of_int 960 * F64.of_int 6858000)%float = F64.of_int (960 * 6858000)
  /\ F64.to_int (F64.of_int (960 * 6858000) / F64.of_int 9144000) = 960 * 6858000 / 9144000
  /\ imageHeight 960 9144000 6858000 = 960 * 6858000 / 9144000.
Proof. apply float64_height_exact; lia. Defined.

(** fillPolygon never fails on a well-formed canvas, whatever the vertices
    (NaN and infinite coordinates included), and keeps the bounds, the stride
    and the length of the buffer; with fewer than three vertices it leaves
    the canvas as it is. *)
Theorem fillPolygon_returns (img : image.RGBA) (pts : list fpoint) (c : color.RGBA) :
  wf_img img ->
  (exists img', fillPolygon img pts c = Some img' /\ same_shape img img')
  /\ ((length pts < 3)%nat -> fillPolygon img pts c = Some img).
Proof.
  intros Hwf. split.
  - unfold fillPolygon. destruct pts as [|p0 rest];
      [exists img; split; [reflexivity | apply same_shape_refl]|].
    destruct (length (p0 :: rest) <? 3)%nat;
      [exists img; split; [reflexivity | apply same_shape_refl]|].
    destruct (minmaxY rest (pt_y p0) (pt_y p0)) as [minY maxY].
    generalize (Z.to_nat (F64.to_int maxY - F64.to_int minY + 1)). intros k.
    generalize (F64.to_int minY). intros y.
    revert img Hwf y. induction k as [|k IH]; intros img Hwf y.
    + exists img. split; [reflexivity | apply same_shape_refl].
    + cbn [fillPolygon_rows]. rewrite fill_spans_pairs.
      destruct (fill_pairs_total img y c
                  (adjacent_pairs
                     (Float64s (intersections (p0 :: rest) (F64.of_int y + 0.5)%float
                                  (length (p0 :: rest)) 0))) Hwf) as (img1 & E1 & S1).
      rewrite E1. simpl.
      destruct (IH img1 (wf_same_shape _ _ Hwf S1) (y + 1)) as (img2 & E2 & S2).
      exists img2. split; [exact E2 | eapply same_shape_trans; eauto].
  - intros Hlen. unfold fillPolygon. destruct pts as [|p0 rest]; [reflexivity|].
    replace (length (p0 :: rest) <? 3)%nat with true
      by (symmetry; apply Nat.ltb_lt; exact Hlen).
    reflexivity.
Qed.

Lemma fillPolygon_returns_witness :
  exists img', fillPolygon sample_canvas sample_triangle (color.RGBA_ 0 0 255 128) = Some img'
               /\ same_shape sample_canvas img'.
Proof.
  apply (fillPolygon_returns sample_canvas sample_triangle (color.RGBA_ 0 0 255 128)).
  apply sample_canvas_wf.
Defined.

Section SlidesFacts.

Context {OtherShape SrcImage FontCache : Type}.
Variable ext : External OtherShape SrcImage FontCache.

Lemma SlidesToImages_loop_result (p : Presentation OtherShape) (n : nat) (i : Z)
    (l : positive) (images : list image.RGBA) (h : heap FontCache) :
  0 <= i -> i + Z.of_nat n <= Z.of_nat (length (slides p)) ->
  (forall msg, fst (SlidesToImages_loop ext p n i l images h) <> Some (Err msg))
  /\ (forall res, fst (SlidesToImages_loop ext p n i l images h) = Some (Ok res) ->
        length res = (length images + n)%nat).
Proof.
  revert i images h. induction n as [|n IH]; intros i images h Hi Hn.
  - simpl. split; [discriminate|]. intros res E. inversion E; subst. lia.
  - cbn [SlidesToImages_loop].
    pose proof (fun msg => SlideToImage_in_range_no_error ext p i (Some l) h msg ltac:(lia)) as Hne.
    destruct (SlideToImage ext p i (Some l) h) as [[[img|msg]|] h1]; simpl in Hne.
    + destruct (IH (i + 1) (images ++ [img]) h1 ltac:(lia) ltac:(lia)) as [H1 H2].
      split; [exact H1|]. intros res E. rewrite (H2 res E), length_app. simpl. lia.
    + exfalso. exact (Hne msg eq_refl).
    + simpl. split; discriminate.
Qed.

(** SlidesToImages asks SlideToImage for the indices 0 .. len(p.slides)-1
    only, so it never returns an error; and when it returns, it returns one
    image for each slide. *)
Theorem SlidesToImages_no_error (p : Presentation OtherShape) (opts : option positive)
    (h : heap FontCache) :
  (forall msg, fst (SlidesToImages ext p opts h) <> Some (Err msg))
  /\ (forall images, fst (SlidesToImages ext p opts h) = Some (Ok images) ->
        length images = length (slides p)).
Proof.
  unfold SlidesToImages.
  destruct (match opts with Some l => (l, h) | None => alloc h DefaultRenderOptions end)
    as [l h1].
  destruct (h1 !! l) as [o|]; [|simpl; split; discriminate].
  apply SlidesToImages_loop_result; lia.
Qed.

End SlidesFacts.

(** * Bullet numbers: toRoman and formatBulletNumber *)

Lemma roman_symbol_fuel (k j : nat) (v : Z) (sym : string) (num : Z) (buf : string)
    (r : Z * string) :
  roman_symbol k v sym num buf = Some r -> roman_symbol (k + j) v sym num buf = Some r.
Proof.
  revert num buf. induction k as [|k IH]; intros num buf; simpl.
  - destruct (v <=? num) eqn:E; [discriminate|]. intros H.
    destruct j; simpl; rewrite E; exact H.
  - destruct (v <=? num); [apply IH | auto].
Qed.

Lemma roman_symbols_fuel (k j : nat) (table : list (Z * string)) (num : Z) (buf s : string) :
  roman_symbols k table num buf = Some s -> roman_symbols (k + j) table num buf = Some s.
Proof.
  revert num buf. induction table as [|[v sym] table IH]; intros num buf; simpl; [auto|].
  destruct (roman_symbol k v sym num buf) as [[num' buf']|] eqn:E; [|discriminate].
  rewrite (roman_symbol_fuel k j _ _ _ _ _ E). simpl. apply IH.
Qed.

Lemma toRoman_fuel (k j : nat) (num : Z) (s : string) :
  toRoman k num = Some s -> toRoman (k + j) num = Some s.
Proof.
  unfold toRoman. destruct ((num <=? 0) || (num >? 3999)); [auto|].
  apply roman_symbols_fuel.
Qed.

Lemma roman_reads_back_all : forallb roman_reads_back (seqZ 1 3999) = true.
Proof. vm_compute. reflexivity. Qed.

Lemma letter_not_decimal_all : forallb letter_not_decimal (seqZ 1 26) = true.
Proof. vm_compute. reflexivity. Qed.

Lemma parse_fmt_d (z : Z) : parse_d (fmt_d z) = Some z.
Proof.
  unfold parse_d, fmt_d. rewrite NilEmpty.isi. simpl. rewrite DecimalZ.of_to. reflexivity.
Qed.

Lemma roman_in_range (n : Z) (fuel : nat) :
  1 <= n <= 3999 -> (3 <= fuel)%nat ->
  exists s, toRoman fuel n = Some s
    /\ roman_value s = Some n /\ roman_value (ToLower s) = Some n
    /\ parse_d s = None /\ parse_d (ToLower s) = None.
Proof.
  intros Hn Hf.
  pose proof roman_reads_back_all as H. rewrite forallb_forall in H.
  specialize (H n). unfold roman_reads_back in H.
  destruct (toRoman 3 n) as [s|] eqn:E.
  - exists s. replace fuel with (3 + (fuel - 3))%nat by lia.
    rewrite (toRoman_fuel 3 _ n s E).
    rewrite !andb_true_iff, !bool_decide_eq_true in H.
    destruct H as [[[H1 H2] H3] H4]; [|auto].
    apply list_elem_of_In, elem_of_seqZ. lia.
  - assert (false = true); [|discriminate]. apply H.
    apply list_elem_of_In, elem_of_seqZ. lia.
Qed.

Lemma append_inv_last (s1 s2 : string) (c : ascii) :
  (s1 ++ String c EmptyString)%string = (s2 ++ String c EmptyString)%string -> s1 = s2.
Proof.
  revert s2. induction s1 as [|a s1 IH]; intros [|b s2]; simpl; intros H.
  - reflexivity.
  - inversion H as [[H1 H2]]. destruct s2; discriminate.
  - inversion H as [[H1 H2]]. destruct s1; discriminate.
  - inversion H as [[H1 H2]]. f_equal. apply IH, H2.
Qed.

Lemma ToLower_uint (d : Decimal.uint) :
  ToLower (NilEmpty.string_of_uint d) = NilEmpty.string_of_uint d.
Proof. induction d; simpl; rewrite ?IHd; reflexivity. Qed.

Lemma ToLower_fmt_d (z : Z) : ToLower (fmt_d z) = fmt_d z.
Proof.
  unfold fmt_d. destruct (Z.to_int z) as [d|d]; simpl; rewrite ToLower_uint; reflexivity.
Qed.

Lemma fmt_d_inj (n m : Z) : fmt_d n = fmt_d m -> n = m.
Proof.
  intros H. apply (f_equal parse_d) in H. rewrite !parse_fmt_d in H. congruence.
Qed.

Lemma toRoman_out_of_range (fuel : nat) (n : Z) :
  n <= 0 \/ 3999 < n -> toRoman fuel n = Some (fmt_d n).
Proof.
  intros H. unfold toRoman.
  replace ((n <=? 0) || (n >? 3999)) with true by (rewrite Z.gtb_ltb; lia). reflexivity.
Qed.

Lemma toRoman_inj (fuel : nat) (n m : Z) (s : string) :
  (3 <= fuel)%nat -> toRoman fuel n = Some s -> toRoman fuel m = Some s -> n = m.
Proof.
  intros Hf Hn Hm.
  destruct (Z_le_gt_dec 1 n) as [Hn1|Hn1];
    [destruct (Z_le_gt_dec n 3999) as [Hn2|Hn2]|].
  2,3: rewrite toRoman_out_of_range in Hn by lia.
  1: destruct (roman_in_range n fuel ltac:(lia) Hf) as (sn & En & Vn & _ & Pn & _).
  all: destruct (Z_le_gt_dec 1 m) as [Hm1|Hm1];
    [destruct (Z_le_gt_dec m 3999) as [Hm2|Hm2]|].
  all: try rewrite toRoman_out_of_range in Hm by lia.
  all: try (destruct (roman_in_range m fuel ltac:(lia) Hf) as (sm & Em & Vm & _ & Pm & _)).
  all: try (apply fmt_d_inj; congruence).
  - exfalso. assert (sn = fmt_d m) as E by congruence.
    rewrite E, parse_fmt_d in Pn. discriminate.
  - exfalso. assert (sn = fmt_d m) as E by congruence.
    rewrite E, parse_fmt_d in Pn. discriminate.
  - exfalso. assert (sm = fmt_d n) as E by congruence.
    rewrite E, parse_fmt_d in Pm. discriminate.
  - exfalso. assert (sm = fmt_d n) as E by congruence.
    rewrite E, parse_fmt_d in Pm. discriminate.
Qed.

Lemma toRoman_lower_inj (fuel : nat) (n m : Z) (r1 r2 : string) :
  (3 <= fuel)%nat -> toRoman fuel n = Some r1 -> toRoman fuel m = Some r2 ->
  ToLower r1 = ToLower r2 -> n = m.
Proof.
  intros Hf Hn Hm HL.
  destruct (Z_le_gt_dec 1 n) as [Hn1|Hn1];
    [destruct (Z_le_gt_dec n 3999) as [Hn2|Hn2]|].
  2,3: rewrite toRoman_out_of_range in Hn by lia.
  1: destruct (roman_in_range n fuel ltac:(lia) Hf) as (sn & En & _ & Vn & _ & Pn).
  all: destruct (Z_le_gt_dec 1 m) as [Hm1|Hm1];
    [destruct (Z_le_gt_dec m 3999) as [Hm2|Hm2]|].
  all: try rewrite toRoman_out_of_range in Hm by lia.
  all: try (destruct (roman_in_range m fuel ltac:(lia) Hf) as (sm & Em & _ & Vm & _ & Pm)).
  all: repeat match goal with
              | H : Some _ = Some _ |- _ => inversion H; subst; clear H
              | H1 : toRoman ?f ?x = Some ?a, H2 : toRoman ?f ?x = Some ?b |- _ =>
                  rewrite H1 in H2
              end.
  all: rewrite ?ToLower_fmt_d in HL.
  all: try (apply fmt_d_inj; congruence).
  - exfalso. rewrite HL, parse_fmt_d in Pn. discriminate.
  - exfalso. rewrite HL, parse_fmt_d in Pn. discriminate.
  - exfalso. rewrite <- HL, parse_fmt_d in Pm. discriminate.
  - exfalso. rewrite <- HL, parse_fmt_d in Pm. discriminate.
Qed.

Lemma toRoman_total (fuel : nat) (n : Z) :
  (3 <= fuel)%nat -> exists s, toRoman fuel n = Some s.
Proof.
  intros Hf. destruct (Z_le_gt_dec 1 n) as [H1|H1];
    [destruct (Z_le_gt_dec n 3999) as [H2|H2]|].
  - destruct (roman_in_range n fuel ltac:(lia) Hf) as (s & E & _). eauto.
  - rewrite toRoman_out_of_range by lia. eauto.
  - rewrite toRoman_out_of_range by lia. eauto.
Qed.

Lemma letter_inj (base n m : Z) :
  0 <= base <= 200 -> 1 <= n <= 26 -> 1 <= m <= 26 ->
  letter base n = letter base m -> n = m.
Proof.
  intros Hb Hn Hm H. unfold letter in H. inversion H as [H1].
  apply (f_equal nat_of_ascii) in H1.
  rewrite !nat_ascii_embedding in H1 by lia. lia.
Qed.

Lemma letter_parse (n : Z) :
  1 <= n <= 26 -> parse_d (letter 65 n) = None /\ parse_d (letter 97 n) = None.
Proof.
  intros Hn. pose proof letter_not_decimal_all as H. rewrite forallb_forall in H.
  specialize (H n ltac:(apply list_elem_of_In, elem_of_seqZ; lia)).
  unfold letter_not_decimal in H.
  rewrite andb_true_iff, !bool_decide_eq_true in H. exact H.
Qed.

(** The body of an alphabetic label. *)
Lemma alpha_body_inj (base n m : Z) :
  base = 65 \/ base = 97 ->
  (if (1 <=? n) && (n <=? 26) then letter base n else fmt_d n)
  = (if (1 <=? m) && (m <=? 26) then letter base m else fmt_d m) ->
  n = m.
Proof.
  intros Hb.
  destruct ((1 <=? n) && (n <=? 26)) eqn:En, ((1 <=? m) && (m <=? 26)) eqn:Em; intros H.
  - apply (letter_inj base); [lia | lia | lia | exact H].
  - exfalso. destruct (letter_parse n ltac:(lia)) as [P1 P2].
    destruct Hb as [-> | ->]; rewrite H, parse_fmt_d in *; discriminate.
  - exfalso. destruct (letter_parse m ltac:(lia)) as [P1 P2].
    destruct Hb as [-> | ->]; rewrite <- H, parse_fmt_d in *; discriminate.
  - apply fmt_d_inj, H.
Qed.

(** toRoman writes a numeral for 1 .. 3999, with no symbol more than three
    times in a row (a fuel of 3 suffices for every loop): the numeral reads
    back as the number, in upper and in lower case, and no other number,
    in range or not, gets the same string. *)
Theorem toRoman_reads_back (fuel : nat) (n : Z) :
  (3 <= fuel)%nat -> 1 <= n <= 3999 ->
  exists s,
    toRoman fuel n = Some s
    /\ roman_value s = Some n
    /\ roman_value (ToLower s) = Some n
    /\ forall m, toRoman fuel m = Some s -> m = n.
Proof.
  intros Hf Hn. destruct (roman_in_range n fuel Hn Hf) as (s & E & V & VL & _).
  exists s. repeat split; try assumption.
  intros m Hm. symmetry. eapply toRoman_inj; eauto.
Qed.

Lemma toRoman_reads_back_witness :
  exists s,
    toRoman 3 1994 = Some s
    /\ roman_value s = Some 1994
    /\ roman_value (ToLower s) = Some 1994
    /\ forall m, toRoman 3 m = Some s -> m = 1994.
Proof. apply toRoman_reads_back; lia. Defined.

Example toRoman_1994 :
  toRoman 3 1994 = Some "MCMXCIV"%string
  /\ toRoman 3 3888 = Some "MMMDCCCLXXXVIII"%string
  /\ toRoman 3 4000 = Some "4000"%string
  /\ toRoman 2 3000 = None.
Proof. vm_compute. repeat split. Qed.

(** formatBulletNumber returns a label for every number and every format
    (an unknown format counts as arabicPeriod), and within one format two
    different numbers never get the same label: letters stand for 1 .. 26 only,
    Roman numerals for 1 .. 3999 only, and every other number is written in
    decimal. *)
Theorem formatBulletNumber_injective (fuel : nat) (format : string) (n : Z) :
  (3 <= fuel)%nat ->
  (exists s, formatBulletNumber fuel n format = Some s)
  /\ (forall m s, formatBulletNumber fuel n format = Some s ->
                  formatBulletNumber fuel m format = Some s -> n = m).
Proof.
  intros Hf. unfold formatBulletNumber.
  destruct (toRoman_total fuel n Hf) as (rn & En).
  destruct (String.eqb format NumFormatRomanUcPeriod).
  { rewrite En. simpl. split; [eauto|]. intros m s H1 H2.
    destruct (toRoman fuel m) as [rm|] eqn:Em; [|discriminate]. simpl in H2.
    rewrite <- H1 in H2. inversion H2 as [H3]. apply append_inv_last in H3. subst rm.
    eapply toRoman_inj; eauto. }
  destruct (String.eqb format NumFormatRomanLcPeriod).
  { rewrite En. simpl. split; [eauto|]. intros m s H1 H2.
    destruct (toRoman fuel m) as [rm|] eqn:Em; [|discriminate]. simpl in H2.
    rewrite <- H1 in H2. inversion H2 as [H3]. apply append_inv_last in H3.
    eapply toRoman_lower_inj; eauto. }
  destruct (String.eqb format NumFormatAlphaUcPeriod).
  { split; [destruct (_ && _); eauto|]. intros m s H1 H2.
    apply (alpha_body_inj 65); [auto|]. apply (append_inv_last _ _ "."%char).
    destruct ((1 <=? n) && (n <=? 26)), ((1 <=? m) && (m <=? 26)); congruence. }
  destruct (String.eqb format NumFormatAlphaLcPeriod).
  { split; [destruct (_ && _); eauto|]. intros m s H1 H2.
    apply (alpha_body_inj 97); [auto|]. apply (append_inv_last _ _ "."%char).
    destruct ((1 <=? n) && (n <=? 26)), ((1 <=? m) && (m <=? 26)); congruence. }
  destruct (String.eqb format NumFormatAlphaLcParen).
  { split; [destruct (_ && _); eauto|]. intros m s H1 H2.
    apply (alpha_body_inj 97); [auto|]. apply (append_inv_last _ _ ")"%char).
    destruct ((1 <=? n) && (n <=? 26)), ((1 <=? m) && (m <=? 26)); congruence. }
  destruct (String.eqb format NumFormatArabicParen).
  { split; [eauto|]. intros m s H1 H2. apply fmt_d_inj.
    apply (append_inv_last _ _ ")"%char). congruence. }
  split; [eauto|]. intros m s H1 H2. apply fmt_d_inj.
  apply (append_inv_last _ _ "."%char). congruence.
Qed.

Lemma formatBulletNumber_injective_witness :
  (exists s, formatBulletNumber 3 4 NumFormatRomanLcPeriod = Some s)
  /\ (forall m s, formatBulletNumber 3 4 NumFormatRomanLcPeriod = Some s ->
                  formatBulletNumber 3 m NumFormatRomanLcPeriod = Some s -> 4 = m).
Proof. apply formatBulletNumber_injective. lia. Defined.

Example formatBulletNumber_samples :
  formatBulletNumber 3 4 NumFormatRomanLcPeriod = Some "iv."%string
  /\ formatBulletNumber 3 26 NumFormatAlphaUcPeriod = Some "Z."%string
  /\ formatBulletNumber 3 27 NumFormatAlphaUcPeriod = Some "27."%string
  /\ formatBulletNumber 3 3 NumFormatAlphaLcParen = Some "c)"%string
  /\ formatBulletNumber 3 (-2) "circleNumDbPlain" = Some "-2."%string.
Proof. vm_compute. repeat split. Qed.

(** * Lines: drawLine and the dashed borders *)

Lemma drawLine_loop_points (fuel : nat) (x1 y1 x2 y2 dx dy sx sy err : Z) (c : color.RGBA)
    (img : image.RGBA) :
  drawLine_loop fuel x1 y1 x2 y2 dx dy sx sy err c img
  = (pts ← line_points fuel x1 y1 x2 y2 dx dy sx sy err; blend_points pts c img).
Proof.
  revert x1 y1 err img. induction fuel as [|k IH]; intros x1 y1 err img; [reflexivity|].
  cbn [drawLine_loop line_points].
  destruct ((x1 =? x2) && (y1 =? y2)).
  - simpl. destruct (blendPixel img x1 y1 c); reflexivity.
  - destruct (if 2 * err >? - dy then _ else _) as [err1 x1'].
    destruct (if 2 * err <? dx then _ else _) as [err2 y1'].
    destruct (line_points k x1' y1' x2 y2 dx dy sx sy err2) as [pts|] eqn:E.
    + simpl. destruct (blendPixel img x1 y1 c) as [img1|]; [|reflexivity]. simpl.
      rewrite IH, E. reflexivity.
    + simpl. destruct (blendPixel img x1 y1 c) as [img1|]; [|reflexivity]. simpl.
      rewrite IH, E. reflexivity.
Qed.

Lemma blend_points_total (pts : list (Z * Z)) (c : color.RGBA) (img : image.RGBA) :
  wf_img img ->
  exists img', blend_points pts c img = Some img' /\ same_shape img img'
    /\ forall x y, image.In x y (image.Bounds img) = true -> on_points pts x y = false ->
         pixel_at img' x y = pixel_at img x y.
Proof.
  revert img. induction pts as [|[px py] pts IH]; intros img Hwf.
  - exists img. split; [reflexivity|]. split; [apply same_shape_refl | reflexivity].
  - simpl. destruct (blendPixel_paints img px py c Hwf) as (img1 & E1 & Hp).
    rewrite E1. simpl. pose proof Hp as [S1 _].
    destruct (IH img1 (wf_same_shape _ _ Hwf S1)) as (img2 & E2 & S2 & F2).
    exists img2. split; [exact E2|]. split; [eapply same_shape_trans; eauto|].
    intros x y Hin Hon. apply orb_false_iff in Hon as [H1 H2]. simpl in H1.
    destruct S1 as (Hb & _). rewrite F2 by (rewrite ?Hb; assumption).
    eapply paints_frame; eauto. cbv beta.
    rewrite <- !andb_assoc, H1, !andb_false_r. reflexivity.
Qed.

Lemma blend_points_opaque (pts : list (Z * Z)) (c : color.RGBA) (img : image.RGBA) :
  wf_img img -> color.A c = 255 ->
  exists img', blend_points pts c img = Some img'
    /\ paints_const img img' (on_points pts) (color.R c, color.G c, color.B c, 255).
Proof.
  intros Hwf HA. revert img Hwf. induction pts as [|[px py] pts IH]; intros img Hwf.
  - exists img. split; [reflexivity | apply paints_const_refl].
  - simpl. destruct (blendPixel_opaque img px py c Hwf HA) as (img1 & E1 & Hp1).
    rewrite E1. simpl. pose proof Hp1 as [S1 _].
    destruct (IH img1 (wf_same_shape _ _ Hwf S1)) as (img2 & E2 & Hp2).
    exists img2. split; [exact E2|].
    eapply paints_const_ext; [|eapply paints_const_trans; eauto].
    intros x y _. reflexivity.
Qed.

(** The loop of drawLine, [i] steps along x and [j] steps along y after the
    start: the error term is [dx - dy - i*dy + j*dx], neither coordinate
    passes its end, and every turn of the loop makes a step. *)
Lemma line_points_spec (fuel : nat) (X0 Y0 dx dy sx sy i j : Z) :
  0 <= dx -> 0 <= dy -> sx = 1 \/ sx = -1 -> sy = 1 \/ sy = -1 ->
  0 <= i <= dx -> 0 <= j <= dy -> (dx - i) + (dy - j) < Z.of_nat fuel ->
  exists pts,
    line_points fuel (X0 + sx * i) (Y0 + sy * j) (X0 + sx * dx) (Y0 + sy * dy)
      dx dy sx sy (dx - dy - i * dy + j * dx) = Some pts
    /\ head pts = Some (X0 + sx * i, Y0 + sy * j)
    /\ last pts = Some (X0 + sx * dx, Y0 + sy * dy)
    /\ Forall (fun p => exists i' j', p = (X0 + sx * i', Y0 + sy * j')
                                      /\ i <= i' <= dx /\ j <= j' <= dy) pts
    /\ Sorted adjacent pts
    /\ Z.of_nat (length pts) <= (dx - i) + (dy - j) + 1.
Proof.
  intros Hdx Hdy Hsx Hsy. revert i j.
  induction fuel as [|k IH]; intros i j Hi Hj Hf; [lia|].
  cbn [line_points].
  destruct ((X0 + sx * i =? X0 + sx * dx) && (Y0 + sy * j =? Y0 + sy * dy)) eqn:Eend.
  - exists [(X0 + sx * i, Y0 + sy * j)].
    assert (i = dx /\ j = dy) as [-> ->] by (destruct Hsx, Hsy; subst; lia).
    split; [reflexivity|]. split; [reflexivity|]. split; [reflexivity|].
    split; [constructor; [|constructor]; exists dx, dy; repeat split; lia|].
    split; [repeat constructor | simpl; lia].
  - assert (i < dx \/ j < dy) as Hnot by (destruct Hsx, Hsy; subst; lia).
    set (err := dx - dy - i * dy + j * dx).
    set (di := if 2 * err >? - dy then 1 else 0).
    set (dj := if 2 * err <? dx then 1 else 0).
    assert ((di = 0 \/ di = 1) /\ (dj = 0 \/ dj = 1) /\ 1 <= di + dj
            /\ i + di <= dx /\ j + dj <= dy) as (Hdi & Hdj & Hstep & Hi' & Hj').
    { unfold di, dj, err. rewrite Z.gtb_ltb.
      destruct (- dy <? 2 * (dx - dy - i * dy + j * dx)) eqn:E1,
               (2 * (dx - dy - i * dy + j * dx) <? dx) eqn:E2;
        repeat split; try lia; try (left; reflexivity); try (right; reflexivity); nia. }
    assert ((if 2 * err >? - dy then (err - dy, X0 + sx * i + sx) else (err, X0 + sx * i))
            = (err - di * dy, X0 + sx * (i + di))) as ->.
    { unfold di. destruct (2 * err >? - dy); f_equal; ring. }
    assert ((if 2 * err <? dx then (err - di * dy + dx, Y0 + sy * j + sy)
             else (err - di * dy, Y0 + sy * j))
            = (dx - dy - (i + di) * dy + (j + dj) * dx, Y0 + sy * (j + dj))) as ->.
    { unfold dj, err. destruct (2 * (dx - dy - i * dy + j * dx) <? dx); f_equal; ring. }
    destruct (IH (i + di) (j + dj) ltac:(lia) ltac:(lia) ltac:(lia))
      as (pts & E & Hh & Hl & Hall & Hs & Hlen).
    rewrite E. exists ((X0 + sx * i, Y0 + sy * j) :: pts).
    split; [reflexivity|]. split; [reflexivity|].
    destruct pts as [|q pts]; [discriminate|]. inversion Hh; subst q.
    split; [exact Hl|]. split; [|split].
    + constructor; [exists i, j; repeat split; lia|].
      eapply Forall_impl; [exact Hall|]. intros p (i' & j' & -> & Hi2 & Hj2).
      exists i', j'. repeat split; lia.
    + constructor; [exact Hs|]. constructor. unfold adjacent. simpl.
      split; [destruct Hsx, Hdi; subst; lia|]. split; [destruct Hsy, Hdj; subst; lia|].
      intros Heq. inversion Heq. destruct Hsx, Hsy; subst; lia.
    + simpl in *. lia.
Qed.

Lemma chain_covers (f : Z * Z -> Z) (pts : list (Z * Z)) (p q : Z * Z) (x : Z) :
  (forall a b, adjacent a b -> Z.abs (f b - f a) <= 1) ->
  Sorted adjacent pts -> head pts = Some p -> last pts = Some q ->
  f p <= x <= f q \/ f q <= x <= f p ->
  exists r, r ∈ pts /\ f r = x.
Proof.
  intros Hf Hs. revert p. induction Hs as [|a pts Hs IH Hd]; intros p Hh Hl Hx; [discriminate|].
  simpl in Hh. inversion Hh; subst a.
  destruct (Z.eq_dec (f p) x) as [E|NE]; [exists p; split; [left|exact E]|].
  destruct pts as [|p2 pts].
  - simpl in Hl. inversion Hl; subst q. lia.
  - inversion Hd as [|? ? Hadj]; subst. pose proof (Hf _ _ Hadj) as Hstep.
    destruct (IH p2 eq_refl Hl ltac:(lia)) as (r & Hr & E).
    exists r. split; [right; exact Hr | exact E].
Qed.

Lemma on_points_true (pts : list (Z * Z)) (x y : Z) :
  on_points pts x y = true <-> (x, y) ∈ pts.
Proof.
  unfold on_points. rewrite existsb_exists. split.
  - intros ([px py] & Hin & Hxy). simpl in Hxy.
    assert (x = px /\ y = py) as [-> ->] by lia. apply list_elem_of_In, Hin.
  - intros Hin. exists (x, y). split; [apply list_elem_of_In, Hin|].
    simpl. rewrite !Z.eqb_refl. reflexivity.
Qed.

(** What drawLine does, for a fuel that lasts: the pixels it visits. *)
Lemma drawLine_points (fuel : nat) (x1 y1 x2 y2 : Z) :
  Z.abs (x2 - x1) + Z.abs (y2 - y1) < Z.of_nat fuel ->
  exists pts,
    (forall c img, drawLine fuel img x1 y1 x2 y2 c = blend_points pts c img)
    /\ head pts = Some (x1, y1) /\ last pts = Some (x2, y2)
    /\ Forall (fun p => Z.min x1 x2 <= fst p <= Z.max x1 x2
                        /\ Z.min y1 y2 <= snd p <= Z.max y1 y2) pts
    /\ Sorted adjacent pts
    /\ Z.of_nat (length pts) <= Z.abs (x2 - x1) + Z.abs (y2 - y1) + 1.
Proof.
  intros Hf.
  set (dx := abs (x2 - x1)). set (dy := abs (y2 - y1)).
  set (sx := if x1 >? x2 then -1 else 1). set (sy := if y1 >? y2 then -1 else 1).
  assert (dx = Z.abs (x2 - x1) /\ dy = Z.abs (y2 - y1)) as [Edx Edy].
  { unfold dx, dy, abs. split; [destruct (x2 - x1 <? 0) eqn:E | destruct (y2 - y1 <? 0) eqn:E]; lia. }
  assert ((sx = 1 \/ sx = -1) /\ (sy = 1 \/ sy = -1) /\ x2 = x1 + sx * dx /\ y2 = y1 + sy * dy)
    as (Hsx & Hsy & Ex & Ey).
  { unfold sx, sy. rewrite !Z.gtb_ltb.
    destruct (x2 <? x1) eqn:E1, (y2 <? y1) eqn:E2; repeat split; auto; lia. }
  destruct (line_points_spec fuel x1 y1 dx dy sx sy 0 0) as (pts & E & Hh & Hl & Hall & Hs & Hlen);
    try lia; try assumption.
  replace (x1 + sx * 0) with x1 in * by lia. replace (y1 + sy * 0) with y1 in * by lia.
  replace (dx - dy - 0 * dy + 0 * dx) with (dx - dy) in E by lia.
  rewrite <- Ex, <- Ey in *.
  exists pts. split; [|split; [exact Hh|split; [exact Hl|split; [|split; [exact Hs|lia]]]]].
  - intros c img. unfold drawLine. fold dx dy sx sy. rewrite drawLine_loop_points, E. reflexivity.
  - eapply Forall_impl; [exact Hall|]. intros p (i' & j' & -> & Hi & Hj). simpl.
    destruct Hsx, Hsy; subst sx sy; lia.
Qed.

(** drawLine returns after at most |x2 - x1| + |y2 - y1| + 1 turns of its
    loop, on every well-formed canvas, for end points less than 2^61 apart
    (|err| stays below 3/2 * (dx + dy), so that [2 * err] fits an [int]).  The
    pixels it blends form a chain from (x1, y1) to (x2, y2): each one is next to the one
    before (diagonals included), all lie in the box spanned by the end points,
    and every column and every row between the end points holds one of
    them.  Nothing else is touched; an opaque colour is stored at each pixel
    of the chain that lies on the canvas. *)
Theorem drawLine_chain (fuel : nat) (img : image.RGBA) (x1 y1 x2 y2 : Z) (c : color.RGBA) :
  wf_img img -> int64 x1 -> int64 y1 -> int64 x2 -> int64 y2 ->
  Z.abs (x2 - x1) + Z.abs (y2 - y1) < 2 ^ 61 ->
  Z.abs (x2 - x1) + Z.abs (y2 - y1) < Z.of_nat fuel ->
  exists pts img',
    drawLine fuel img x1 y1 x2 y2 c = Some img'
    /\ blend_points pts c img = Some img'
    /\ same_shape img img'
    /\ head pts = Some (x1, y1) /\ last pts = Some (x2, y2)
    /\ Sorted adjacent pts
    /\ (forall x y, (x, y) ∈ pts ->
          Z.min x1 x2 <= x <= Z.max x1 x2 /\ Z.min y1 y2 <= y <= Z.max y1 y2)
    /\ (forall x, Z.min x1 x2 <= x <= Z.max x1 x2 -> exists y, (x, y) ∈ pts)
    /\ (forall y, Z.min y1 y2 <= y <= Z.max y1 y2 -> exists x, (x, y) ∈ pts)
    /\ (forall x y, image.In x y (image.Bounds img) = true -> (x, y) ∉ pts ->
          pixel_at img' x y = pixel_at img x y)
    /\ (color.A c = 255 ->
        forall x y, image.In x y (image.Bounds img) = true -> (x, y) ∈ pts ->
          pixel_at img' x y = Some (color.R c, color.G c, color.B c, 255)).
Proof.
  intros Hwf _ _ _ _ _ Hf.
  destruct (drawLine_points fuel x1 y1 x2 y2 Hf) as (pts & E & Hh & Hl & Hall & Hs & _).
  destruct (blend_points_total pts c img Hwf) as (img' & E' & Sh & Fr).
  exists pts, img'. rewrite E.
  split; [exact E'|]. split; [exact E'|]. split; [exact Sh|].
  split; [exact Hh|]. split; [exact Hl|]. split; [exact Hs|].
  split; [|split; [|split; [|split]]].
  - intros x y Hin. rewrite Forall_forall in Hall. apply (Hall (x, y) Hin).
  - intros x Hx.
    destruct (chain_covers fst pts (x1, y1) (x2, y2) x) as ([rx ry] & Hr & Er);
      try assumption; [intros a b (H & _); exact H | simpl; lia |].
    simpl in Er. subst rx. exists ry. exact Hr.
  - intros y Hy.
    destruct (chain_covers snd pts (x1, y1) (x2, y2) y) as ([rx ry] & Hr & Er);
      try assumption; [intros a b (_ & H & _); exact H | simpl; lia |].
    simpl in Er. subst ry. exists rx. exact Hr.
  - intros x y Hin Hnot. apply Fr; [exact Hin|].
    apply not_true_iff_false. rewrite on_points_true. exact Hnot.
  - intros HA x y Hin Hon.
    destruct (blend_points_opaque pts c img Hwf HA) as (img2 & E2 & _ & Hp).
    assert (img2 = img') as -> by congruence.
    rewrite (Hp x y Hin). apply on_points_true in Hon. rewrite Hon. reflexivity.
Qed.

Lemma drawLine_chain_witness :
  exists pts img',
    drawLine 8 sample_canvas 0 0 3 2 (color.RGBA_ 255 0 0 255) = Some img'
    /\ blend_points pts (color.RGBA_ 255 0 0 255) sample_canvas = Some img'
    /\ same_shape sample_canvas img'
    /\ head pts = Some (0, 0) /\ last pts = Some (3, 2)
    /\ Sorted adjacent pts
    /\ (forall x y, (x, y) ∈ pts ->
          Z.min 0 3 <= x <= Z.max 0 3 /\ Z.min 0 2 <= y <= Z.max 0 2)
    /\ (forall x, Z.min 0 3 <= x <= Z.max 0 3 -> exists y, (x, y) ∈ pts)
    /\ (forall y, Z.min 0 2 <= y <= Z.max 0 2 -> exists x, (x, y) ∈ pts)
    /\ (forall x y, image.In x y (image.Bounds sample_canvas) = true -> (x, y) ∉ pts ->
          pixel_at img' x y = pixel_at sample_canvas x y)
    /\ (color.A (color.RGBA_ 255 0 0 255) = 255 ->
        forall x y, image.In x y (image.Bounds sample_canvas) = true -> (x, y) ∈ pts ->
          pixel_at img' x y = Some (255, 0, 0, 255)).
Proof.
  apply (drawLine_chain 8 sample_canvas 0 0 3 2 (color.RGBA_ 255 0 0 255)).
  - apply sample_canvas_wf.
  - unfold int64. lia.
  - unfold int64. lia.
  - unfold int64. lia.
  - unfold int64. lia.
  - simpl. lia.
  - simpl. lia.
Defined.

Example drawLine_sample :
  line_points 8 0 0 3 2 3 2 1 1 1 = Some [(0, 0); (1, 1); (2, 1); (3, 2)].
Proof. vm_compute. reflexivity. Qed.

(** The pixels of a horizontal or vertical line: the box between the end
    points. *)
Lemma drawLine_axis_points (fuel : nat) (x1 y1 x2 y2 : Z) :
  x1 = x2 \/ y1 = y2 ->
  Z.abs (x2 - x1) + Z.abs (y2 - y1) < Z.of_nat fuel ->
  exists pts,
    (forall c img, drawLine fuel img x1 y1 x2 y2 c = blend_points pts c img)
    /\ forall x y, on_points pts x y
                   = (Z.min x1 x2 <=? x) && (x <=? Z.max x1 x2)
                     && (Z.min y1 y2 <=? y) && (y <=? Z.max y1 y2).
Proof.
  intros Haxis Hf.
  destruct (drawLine_points fuel x1 y1 x2 y2 Hf) as (pts & E & Hh & Hl & Hall & Hs & _).
  exists pts. split; [exact E|].
  intros x y. rewrite Forall_forall in Hall.
  destruct (on_points pts x y) eqn:Hon.
  - apply on_points_true in Hon. specialize (Hall _ Hon). simpl in Hall. symmetry. lia.
  - symmetry. apply not_true_iff_false. intros Hbox.
    apply not_true_iff_false in Hon. apply Hon. apply on_points_true.
    destruct Haxis as [-> | ->].
    + destruct (chain_covers snd pts (x2, y1) (x2, y2) y) as ([rx ry] & Hr & Er);
        try assumption; [intros a b (_ & H & _); exact H | simpl; lia |].
      simpl in Er. subst ry. pose proof (Hall _ Hr) as Hb. simpl in Hb.
      replace x with rx by lia. exact Hr.
    + destruct (chain_covers fst pts (x1, y2) (x2, y2) x) as ([rx ry] & Hr & Er);
        try assumption; [intros a b (H & _); exact H | simpl; lia |].
      simpl in Er. subst rx. pose proof (Hall _ Hr) as Hb. simpl in Hb.
      replace y with ry by lia. exact Hr.
Qed.

(** A horizontal or a vertical line in an opaque colour, between end
    points less than 2^61 apart, is the run of pixels between its end points,
    both of them included, whichever end comes first. *)
Theorem drawLine_axis (fuel : nat) (img : image.RGBA) (x1 y1 x2 y2 : Z) (c : color.RGBA) :
  wf_img img -> color.A c = 255 -> x1 = x2 \/ y1 = y2 ->
  int64 x1 -> int64 y1 -> int64 x2 -> int64 y2 ->
  Z.abs (x2 - x1) + Z.abs (y2 - y1) < 2 ^ 61 ->
  Z.abs (x2 - x1) + Z.abs (y2 - y1) < Z.of_nat fuel ->
  exists img',
    drawLine fuel img x1 y1 x2 y2 c = Some img'
    /\ paints_const img img'
         (fun x y => (Z.min x1 x2 <=? x) && (x <=? Z.max x1 x2)
                     && (Z.min y1 y2 <=? y) && (y <=? Z.max y1 y2))
         (color.R c, color.G c, color.B c, 255).
Proof.
  intros Hwf HA Haxis _ _ _ _ _ Hf.
  destruct (drawLine_axis_points fuel x1 y1 x2 y2 Haxis Hf) as (pts & E & Hbox).
  destruct (blend_points_opaque pts c img Hwf HA) as (img' & E' & Hp).
  exists img'. rewrite E. split; [exact E'|].
  eapply paints_const_ext; [|exact Hp].
  intros x y _. cbv beta. apply Hbox.
Qed.

Lemma drawLine_axis_witness :
  exists img',
    drawLine 4 sample_canvas 3 1 0 1 (color.RGBA_ 128 128 128 255) = Some img'
    /\ paints_const sample_canvas img'
         (fun x y => (Z.min 3 0 <=? x) && (x <=? Z.max 3 0)
                     && (Z.min 1 1 <=? y) && (y <=? Z.max 1 1))
         (128, 128, 128, 255).
Proof.
  apply (drawLine_axis 4 sample_canvas 3 1 0 1 (color.RGBA_ 128 128 128 255)).
  - apply sample_canvas_wf.
  - reflexivity.
  - right. reflexivity.
  - unfold int64. lia.
  - unfold int64. lia.
  - unfold int64. lia.
  - unfold int64. lia.
  - simpl. lia.
  - simpl. lia.
Defined.

(** ** Dashed lines *)

Ltac bool_lia :=
  apply eq_true_iff_eq;
  repeat rewrite ?orb_true_iff, ?andb_true_iff, ?Z.eqb_eq, ?Z.leb_le, ?Z.ltb_lt;
  lia.

Lemma drawDashedHLine_loop_opaque (n : nat) (x x1 y : Z) (c : color.RGBA)
    (dashLen period : Z) (img : image.RGBA) :
  wf_img img -> color.A c = 255 -> period <> 0 ->
  exists img',
    drawDashedHLine_loop n x x1 y c dashLen period img = Some img'
    /\ paints_const img img'
         (fun x' y' => (y' =? y) && (x <=? x') && (x' <? x + Z.of_nat n)
                       && (Z.rem (x' - x1) period <? dashLen))
         (color.R c, color.G c, color.B c, 255).
Proof.
  intros Hwf HA Hp. revert x img Hwf. induction n as [|n IH]; intros x img Hwf.
  - exists img. split; [reflexivity|].
    eapply paints_const_ext; [|apply paints_const_refl].
    intros x' y' _. cbv beta. symmetry. apply not_true_iff_false.
    rewrite !andb_true_iff, Z.leb_le, Z.ltb_lt. simpl. lia.
  - cbn [drawDashedHLine_loop]. replace (period =? 0) with false by lia.
    assert (exists img1,
      (if Z.rem (x - x1) period <? dashLen then blendPixel img x y c else Some img) = Some img1
      /\ paints_const img img1
           (fun x' y' => (x' =? x) && (y' =? y) && (Z.rem (x - x1) period <? dashLen))
           (color.R c, color.G c, color.B c, 255)) as (img1 & E1 & Hp1).
    { destruct (Z.rem (x - x1) period <? dashLen).
      - destruct (blendPixel_opaque img x y c Hwf HA) as (img1 & E1 & Hp1).
        exists img1. split; [exact E1|].
        eapply paints_const_ext; [|exact Hp1]. intros x' y' _. cbv beta.
        rewrite andb_true_r. reflexivity.
      - exists img. split; [reflexivity|].
        eapply paints_const_ext; [|apply paints_const_refl]. intros x' y' _. cbv beta.
        rewrite andb_false_r. reflexivity. }
    rewrite E1. simpl. pose proof Hp1 as [S1 _].
    destruct (IH (x + 1) img1 (wf_same_shape _ _ Hwf S1)) as (img2 & E2 & Hp2).
    exists img2. split; [exact E2|].
    eapply paints_const_ext; [|eapply paints_const_trans; eauto].
    intros x' y' _. cbv beta.
    destruct (Z.eq_dec x' x) as [->|Hne].
    + destruct (Z.rem (x - x1) period <? dashLen); bool_lia.
    + replace (x' =? x) with false by lia. simpl.
      destruct (Z.rem (x' - x1) period <? dashLen); bool_lia.
Qed.

Lemma drawDashedVLine_loop_opaque (n : nat) (y y1 x : Z) (c : color.RGBA)
    (dashLen period : Z) (img : image.RGBA) :
  wf_img img -> color.A c = 255 -> period <> 0 ->
  exists img',
    drawDashedVLine_loop n y y1 x c dashLen period img = Some img'
    /\ paints_const img img'
         (fun x' y' => (x' =? x) && (y <=? y') && (y' <? y + Z.of_nat n)
                       && (Z.rem (y' - y1) period <? dashLen))
         (color.R c, color.G c, color.B c, 255).
Proof.
  intros Hwf HA Hp. revert y img Hwf. induction n as [|n IH]; intros y img Hwf.
  - exists img. split; [reflexivity|].
    eapply paints_const_ext; [|apply paints_const_refl].
    intros x' y' _. cbv beta. symmetry. apply not_true_iff_false.
    rewrite !andb_true_iff, Z.leb_le, Z.ltb_lt. simpl. lia.
  - cbn [drawDashedVLine_loop]. replace (period =? 0) with false by lia.
    assert (exists img1,
      (if Z.rem (y - y1) period <? dashLen then blendPixel img x y c else Some img) = Some img1
      /\ paints_const img img1
           (fun x' y' => (x' =? x) && (y' =? y) && (Z.rem (y - y1) period <? dashLen))
           (color.R c, color.G c, color.B c, 255)) as (img1 & E1 & Hp1).
    { destruct (Z.rem (y - y1) period <? dashLen).
      - destruct (blendPixel_opaque img x y c Hwf HA) as (img1 & E1 & Hp1).
        exists img1. split; [exact E1|].
        eapply paints_const_ext; [|exact Hp1]. intros x' y' _. cbv beta.
        rewrite andb_true_r. reflexivity.
      - exists img. split; [reflexivity|].
        eapply paints_const_ext; [|apply paints_const_refl]. intros x' y' _. cbv beta.
        rewrite andb_false_r. reflexivity. }
    rewrite E1. simpl. pose proof Hp1 as [S1 _].
    destruct (IH (y + 1) img1 (wf_same_shape _ _ Hwf S1)) as (img2 & E2 & Hp2).
    exists img2. split; [exact E2|].
    eapply paints_const_ext; [|eapply paints_const_trans; eauto].
    intros x' y' _. cbv beta.
    destruct (Z.eq_dec y' y) as [->|Hne].
    + destruct (Z.rem (y - y1) period <? dashLen); bool_lia.
    + replace (y' =? y) with false by lia. rewrite andb_false_r. simpl.
      destruct (Z.rem (y' - y1) period <? dashLen); bool_lia.
Qed.

Lemma dash_rem_mod (start dashLen gapLen t : Z) :
  0 < dashLen + gapLen -> start <= t ->
  (Z.rem (t - start) (dashLen + gapLen) <? dashLen) = on_dash start dashLen gapLen t.
Proof. intros Hp Ht. unfold on_dash. rewrite Z.rem_mod_nonneg by lia. reflexivity. Qed.

Lemma drawDashedHLine_opaque (img : image.RGBA) (x1 x2 y : Z) (c : color.RGBA)
    (dashLen gapLen : Z) :
  wf_img img -> color.A c = 255 -> 0 < dashLen + gapLen ->
  exists img',
    drawDashedHLine img x1 x2 y c dashLen gapLen = Some img'
    /\ paints_const img img'
         (fun x' y' => (x1 <=? x') && (x' <? x2) && on_dash x1 dashLen gapLen x' && (y' =? y))
         (color.R c, color.G c, color.B c, 255).
Proof.
  intros Hwf HA Hp. unfold drawDashedHLine.
  destruct (drawDashedHLine_loop_opaque (Z.to_nat (x2 - x1)) x1 x1 y c dashLen
              (dashLen + gapLen) img Hwf HA ltac:(lia)) as (img' & E & Hpaint).
  exists img'. split; [exact E|].
  eapply paints_const_ext; [|exact Hpaint]. intros x' y' _. cbv beta.
  destruct (Z_le_gt_dec x1 x') as [Hle|Hgt].
  - rewrite (dash_rem_mod x1 dashLen gapLen x' Hp Hle).
    destruct (on_dash x1 dashLen gapLen x'); bool_lia.
  - replace (x1 <=? x') with false by lia. rewrite andb_false_r. reflexivity.
Qed.

Lemma drawDashedVLine_opaque (img : image.RGBA) (x y1 y2 : Z) (c : color.RGBA)
    (dashLen gapLen : Z) :
  wf_img img -> color.A c = 255 -> 0 < dashLen + gapLen ->
  exists img',
    drawDashedVLine img x y1 y2 c dashLen gapLen = Some img'
    /\ paints_const img img'
         (fun x' y' => (y1 <=? y') && (y' <? y2) && on_dash y1 dashLen gapLen y' && (x' =? x))
         (color.R c, color.G c, color.B c, 255).
Proof.
  intros Hwf HA Hp. unfold drawDashedVLine.
  destruct (drawDashedVLine_loop_opaque (Z.to_nat (y2 - y1)) y1 y1 x c dashLen
              (dashLen + gapLen) img Hwf HA ltac:(lia)) as (img' & E & Hpaint).
  exists img'. split; [exact E|].
  eapply paints_const_ext; [|exact Hpaint]. intros x' y' _. cbv beta.
  destruct (Z_le_gt_dec y1 y') as [Hle|Hgt].
  - rewrite (dash_rem_mod y1 dashLen gapLen y' Hp Hle).
    destruct (on_dash y1 dashLen gapLen y'); bool_lia.
  - replace (y1 <=? y') with false by lia. simpl.
    rewrite !andb_false_r. reflexivity.
Qed.

Lemma drawRectBorder_loop_opaque (n : nat) (i : Z) (rect : image.Rectangle) (c : color.RGBA)
    (dashLen gapLen : Z) (img : image.RGBA) :
  wf_img img -> color.A c = 255 -> 0 < dashLen + gapLen ->
  exists img',
    drawRectBorder_loop n i rect c dashLen gapLen img = Some img'
    /\ paints_const img img'
         (fun x y =>
            existsb (fun i =>
               ((image.X (image.Min rect) <=? x) && (x <? image.X (image.Max rect))
                && on_dash (image.X (image.Min rect)) dashLen gapLen x
                && ((y =? image.Y (image.Min rect) + i)
                    || (y =? image.Y (image.Max rect) - 1 - i)))
               || ((image.Y (image.Min rect) <=? y) && (y <? image.Y (image.Max rect))
                   && on_dash (image.Y (image.Min rect)) dashLen gapLen y
                   && ((x =? image.X (image.Min rect) + i)
                       || (x =? image.X (image.Max rect) - 1 - i))))
              (seqZ i (Z.of_nat n)))
         (color.R c, color.G c, color.B c, 255).
Proof.
  intros Hwf HA Hp. revert i img Hwf. induction n as [|n IH]; intros i img Hwf.
  - exists img. split; [reflexivity | apply paints_const_refl].
  - cbn [drawRectBorder_loop].
    destruct rect as [[x0 y0] [x1 y1]]. cbn [image.X image.Y image.Min image.Max] in *.
    destruct (drawDashedHLine_opaque img x0 x1 (y0 + i) c dashLen gapLen Hwf HA Hp)
      as (img1 & E1 & P1). rewrite E1. simpl. pose proof P1 as [S1 _].
    pose proof (wf_same_shape _ _ Hwf S1) as Hwf1.
    destruct (drawDashedHLine_opaque img1 x0 x1 (y1 - 1 - i) c dashLen gapLen Hwf1 HA Hp)
      as (img2 & E2 & P2). rewrite E2. simpl. pose proof P2 as [S2 _].
    pose proof (wf_same_shape _ _ Hwf1 S2) as Hwf2.
    destruct (drawDashedVLine_opaque img2 (x0 + i) y0 y1 c dashLen gapLen Hwf2 HA Hp)
      as (img3 & E3 & P3). rewrite E3. simpl. pose proof P3 as [S3 _].
    pose proof (wf_same_shape _ _ Hwf2 S3) as Hwf3.
    destruct (drawDashedVLine_opaque img3 (x1 - 1 - i) y0 y1 c dashLen gapLen Hwf3 HA Hp)
      as (img4 & E4 & P4). rewrite E4. simpl. pose proof P4 as [S4 _].
    pose proof (wf_same_shape _ _ Hwf3 S4) as Hwf4.
    destruct (IH (i + 1) img4 Hwf4) as (img5 & E5 & P5).
    exists img5. split; [exact E5|].
    pose proof (paints_const_trans _ _ _ _ _ _
                  (paints_const_trans _ _ _ _ _ _
                     (paints_const_trans _ _ _ _ _ _
                        (paints_const_trans _ _ _ _ _ _ P1 P2) P3) P4) P5) as P.
    eapply paints_const_ext; [|exact P]. intros x y _. cbv beta.
    rewrite (seqZ_cons i (Z.of_nat (S n))) by lia. cbn [existsb].
    replace (Z.pred (Z.of_nat (S n))) with (Z.of_nat n) by lia.
    replace (Z.succ i) with (i + 1) by lia.
    generalize (existsb
      (fun i0 => (x0 <=? x) && (x <? x1) && on_dash x0 dashLen gapLen x
                 && ((y =? y0 + i0) || (y =? y1 - 1 - i0))
                 || (y0 <=? y) && (y <? y1) && on_dash y0 dashLen gapLen y
                    && ((x =? x0 + i0) || (x =? x1 - 1 - i0)))
      (seqZ (i + 1) (Z.of_nat n))).
    intros b.
    destruct (on_dash x0 dashLen gapLen x), (on_dash y0 dashLen gapLen y), b;
      rewrite ?andb_true_r, ?andb_false_r, ?orb_true_r, ?orb_false_r, ?andb_false_l,
        ?orb_false_l; try reflexivity; bool_lia.
Qed.

(** ** drawRectBorder *)

(** drawRectBorder with a dashed style.  With an opaque colour and any
    style other than "solid" and "none", drawRectBorder returns and sets
    exactly the pixels of the dashed outline to the colour, leaving every
    other pixel of the canvas as it was: on each of the [width] nested
    outlines, the top and bottom rows carry dashes counted from the left
    edge of the rectangle and the left and right columns dashes counted
    from its top edge.  The pattern is 2 on / 2 off for "dot" and 6 on /
    4 off for every other style, "dash" and unknown style names alike.
    Pixels of the outline outside the canvas are skipped, and a width of
    zero or less draws nothing.  The corners of the rectangle are below
    2^62 in absolute value and the width is below 2^62, so that [x - x1],
    [rect.Min + i] and [rect.Max - 1 - i] fit an [int]. *)
Theorem drawRectBorder_dashed (img : image.RGBA) (rect : image.Rectangle) (c : color.RGBA)
    (width : Z) (style : BorderStyle) :
  wf_img img -> color.A c = 255 ->
  style <> BorderSolid -> style <> BorderNone ->
  Z.abs (image.X (image.Min rect)) < 2 ^ 62 -> Z.abs (image.Y (image.Min rect)) < 2 ^ 62 ->
  Z.abs (image.X (image.Max rect)) < 2 ^ 62 -> Z.abs (image.Y (image.Max rect)) < 2 ^ 62 ->
  width < 2 ^ 62 ->
  exists img',
    drawRectBorder img rect c width style = Some img'
    /\ paints_const img img'
         (on_dashed_border rect width
            (if String.eqb style BorderDot then 2 else 6)
            (if String.eqb style BorderDot then 2 else 4))
         (color.R c, color.G c, color.B c, 255)
    /\ (width <= 0 -> img' = img).
Proof.
  intros Hwf HA Hs Hn _ _ _ _ _. unfold drawRectBorder.
  apply String.eqb_neq in Hs. apply String.eqb_neq in Hn. rewrite Hs, Hn. cbn [orb].
  assert (forall d g, 0 < d + g ->
            exists img',
              drawRectBorder_loop (Z.to_nat width) 0 rect c d g img = Some img'
              /\ paints_const img img' (on_dashed_border rect width d g)
                   (color.R c, color.G c, color.B c, 255)
              /\ (width <= 0 -> img' = img)) as H.
  { intros d g Hp.
    destruct (drawRectBorder_loop_opaque (Z.to_nat width) 0 rect c d g img Hwf HA Hp)
      as (img' & E & P).
    exists img'. split; [exact E|]. split.
    - eapply paints_const_ext; [|exact P]. intros x y _. unfold on_dashed_border.
      unfold seqZ. rewrite Nat2Z.id. reflexivity.
    - intros Hw. replace (Z.to_nat width) with 0%nat in E by lia. simpl in E. congruence. }
  destruct (String.eqb style BorderDot); apply H; lia.
Qed.

Lemma drawRectBorder_dashed_witness :
  exists img',
    drawRectBorder sample_canvas (image.Rect 0 0 4 4) (color.RGBA_ 10 20 30 255) 1 BorderDot
      = Some img'
    /\ paints_const sample_canvas img'
         (on_dashed_border (image.Rect 0 0 4 4) 1
            (if String.eqb BorderDot BorderDot then 2 else 6)
            (if String.eqb BorderDot BorderDot then 2 else 4))
         (10, 20, 30, 255)
    /\ (1 <= 0 -> img' = sample_canvas).
Proof.
  apply (drawRectBorder_dashed sample_canvas (image.Rect 0 0 4 4)
           (color.RGBA_ 10 20 30 255) 1 BorderDot).
  - apply sample_canvas_wf.
  - reflexivity.
  - discriminate.
  - discriminate.
  - simpl. lia.
  - simpl. lia.
  - simpl. lia.
  - simpl. lia.
  - lia.
Defined.

(** The dotted outline of the 4 x 4 canvas: on each side the first two
    pixels, counted from the left or from the top, are set and the next two
    are skipped, so the bottom right corner stays as it was. *)
Example drawRectBorder_dot_sample :
  (fun img => map (fun y => map (fun x => pixel_at img x y) [0; 1; 2; 3]) [0; 1; 2; 3])
    <$> drawRectBorder sample_canvas (image.Rect 0 0 4 4) (color.RGBA_ 10 20 30 255) 1 BorderDot
  = let o := Some (10, 20, 30, 255) in
    let z := Some (0, 0, 0, 0) in
    Some [[o; o; z; o]; [o; z; z; o]; [z; z; z; z]; [o; o; z; z]].
Proof. vm_compute. reflexivity. Qed.

(** * Underlines *)

Lemma drawLine_row_opaque (fuel : nat) (img : image.RGBA) (x1 x2 y : Z) (c : color.RGBA) :
  wf_img img -> color.A c = 255 -> Z.abs (x2 - x1) < Z.of_nat fuel ->
  exists img',
    drawLine fuel img x1 y x2 y c = Some img'
    /\ wf_img img'
    /\ paints_const img img'
         (fun x' y' => (Z.min x1 x2 <=? x') && (x' <=? Z.max x1 x2) && (y' =? y))
         (color.R c, color.G c, color.B c, 255).
Proof.
  intros Hwf HA Hf.
  destruct (drawLine_axis_points fuel x1 y x2 y) as (pts & E & Hbox);
    [right; reflexivity | lia |].
  destruct (blend_points_opaque pts c img Hwf HA) as (img' & E' & P).
  exists img'. rewrite E. split; [exact E'|].
  split; [eapply wf_same_shape; [exact Hwf | apply P]|].
  eapply paints_const_ext; [|exact P]. intros x' y' _. cbv beta. rewrite Hbox. bool_lia.
Qed.

(** drawUnderline with an opaque colour and a style other than "wavy"
    returns and sets exactly the pixels of the underline: one row at [y]
    for the single style, for "none" and for every unknown style name; the
    rows [y - 1] and [y + 1] for the double style; the rows [y - 1], [y] and
    [y + 1] for the heavy one.  These rows run between [x1] and [x2] with
    both ends included, also when [x2 < x1].  The dashed style draws 6 pixels
    on, 3 off from [x1] and stops before [x2]. *)
Theorem drawUnderline_pixels (Sin : float -> float) (fuel : nat) (img : image.RGBA)
    (x1 x2 y : Z) (c : color.RGBA) (style : UnderlineType) :
  wf_img img -> color.A c = 255 -> style <> UnderlineWavy ->
  Z.abs (x2 - x1) < Z.of_nat fuel ->
  exists img',
    drawUnderline Sin fuel img x1 x2 y c style = Some img'
    /\ paints_const img img' (underline_pixels style x1 x2 y)
         (color.R c, color.G c, color.B c, 255).
Proof.
  intros Hwf HA Hw Hf. unfold drawUnderline, underline_pixels, underline_rows.
  destruct (String.eqb_spec style UnderlineSingle) as [->|H1].
  { cbn [String.eqb Ascii.eqb Bool.eqb UnderlineDash UnderlineSingle UnderlineDouble
         UnderlineHeavy existsb].
    destruct (drawLine_row_opaque fuel img x1 x2 y c Hwf HA Hf) as (img' & E & _ & P).
    exists img'. split; [exact E|].
    eapply paints_const_ext; [|exact P]. intros x' y' _. cbv beta. bool_lia. }
  destruct (String.eqb_spec style UnderlineDouble) as [->|H2].
  { cbn [String.eqb Ascii.eqb Bool.eqb UnderlineDash UnderlineSingle UnderlineDouble
         UnderlineHeavy existsb].
    destruct (drawLine_row_opaque fuel img x1 x2 (y - 1) c Hwf HA Hf) as (i1 & E1 & W1 & P1).
    rewrite E1. simpl.
    destruct (drawLine_row_opaque fuel i1 x1 x2 (y + 1) c W1 HA Hf) as (i2 & E2 & _ & P2).
    exists i2. split; [exact E2|].
    eapply paints_const_ext; [|eapply paints_const_trans; [exact P1 | exact P2]].
    intros x' y' _. cbv beta. bool_lia. }
  destruct (String.eqb_spec style UnderlineHeavy) as [->|H3].
  { cbn [String.eqb Ascii.eqb Bool.eqb UnderlineDash UnderlineSingle UnderlineDouble
         UnderlineHeavy existsb].
    destruct (drawLine_row_opaque fuel img x1 x2 (y - 1) c Hwf HA Hf) as (i1 & E1 & W1 & P1).
    rewrite E1. simpl.
    destruct (drawLine_row_opaque fuel i1 x1 x2 y c W1 HA Hf) as (i2 & E2 & W2 & P2).
    rewrite E2. simpl.
    destruct (drawLine_row_opaque fuel i2 x1 x2 (y + 1) c W2 HA Hf) as (i3 & E3 & _ & P3).
    exists i3. split; [exact E3|].
    eapply paints_const_ext;
      [|eapply paints_const_trans; [eapply paints_const_trans; [exact P1 | exact P2] | exact P3]].
    intros x' y' _. cbv beta. bool_lia. }
  destruct (String.eqb_spec style UnderlineDash) as [->|H4].
  { destruct (drawDashedHLine_opaque img x1 x2 y c 6 3 Hwf HA ltac:(lia)) as (img' & E & P).
    exists img'. split; [exact E|].
    eapply paints_const_ext; [|exact P]. intros x' y' _. cbv beta.
    destruct (on_dash x1 6 3 x'); bool_lia. }
  destruct (String.eqb_spec style UnderlineWavy) as [->|H5]; [congruence|].
  cbn [existsb].
  destruct (drawLine_row_opaque fuel img x1 x2 y c Hwf HA Hf) as (img' & E & _ & P).
  exists img'. split; [exact E|].
  eapply paints_const_ext; [|exact P]. intros x' y' _. cbv beta. bool_lia.
Qed.

Lemma drawUnderline_pixels_witness :
  exists img',
    drawUnderline (fun x => x) 4 sample_canvas 3 0 2 (color.RGBA_ 9 9 9 255) UnderlineDouble
      = Some img'
    /\ paints_const sample_canvas img' (underline_pixels UnderlineDouble 3 0 2) (9, 9, 9, 255).
Proof.
  apply (drawUnderline_pixels (fun x => x) 4 sample_canvas 3 0 2
           (color.RGBA_ 9 9 9 255) UnderlineDouble).
  - apply sample_canvas_wf.
  - reflexivity.
  - discriminate.
  - simpl. lia.
Defined.

(** * Frames, crosses and rounded rectangles *)

(** ** Sums, squares and comparisons of integers on float64 *)

Lemma digits_shift (z k : Z) : 0 < z -> 0 <= k -> digits (z * 2 ^ k) = digits z + k.
Proof.
  intros Hz Hk. pose proof (digits_bounds z Hz) as [H1 H2].
  pose proof (digits_pos z Hz) as Hd.
  assert (0 < 2 ^ k) by (apply Z.pow_pos_nonneg; lia).
  apply digits_unique; [lia|].
  replace (digits z + k - 1) with (digits z - 1 + k) by lia.
  rewrite !Z.pow_add_r by lia. nia.
Qed.

Lemma round_integer (s : bool) (m : positive) (e z : Z) :
  -1074 <= e <= 0 -> 0 < z < 2 ^ 53 -> Zpos m = z * 2 ^ (- e) ->
  binary_round FloatOps.prec FloatOps.emax s m e
  = S754_finite s (Z.to_pos (z * 2 ^ (53 - digits z))) (digits z - 53).
Proof.
  intros He Hz Hm.
  destruct (canonical_mantissa z ltac:(lia) ltac:(lia)) as [HM Hd].
  unfold binary_round.
  change (Zpos (digits2_pos m)) with (Zdigits2 (Zpos m)).
  rewrite Zdigits2_digits, Hm, digits_shift by lia.
  replace (digits z + - e + e) with (digits z) by lia.
  rewrite fexp_normal by lia.
  destruct (Z_le_gt_dec (digits z - 53) e) as [Hle|Hgt].
  - destruct (shl_align_spec m e (digits z - 53) Hle) as (mz & -> & Hmz).
    rewrite (round_exact s mz _ (z * 2 ^ (53 - digits z)) 0); try lia.
    + f_equal. lia.
    + rewrite Hmz, Hm, Z.mul_1_r, <- Z.mul_assoc, <- Z.pow_add_r by lia.
      f_equal. f_equal. lia.
  - assert (shl_align m e (digits z - 53) = (m, e)) as ->.
    { unfold shl_align. destruct (digits z - 53 - e) eqn:E; try reflexivity. lia. }
    rewrite (round_exact s m _ (z * 2 ^ (53 - digits z)) (digits z - 53 - e)); try lia.
    + f_equal. lia.
    + rewrite Hm, <- Z.mul_assoc, <- Z.pow_add_r by lia. f_equal. f_equal. lia.
Qed.

Lemma Prim2SF_of_int_0 : Prim2SF (F64.of_int 0) = S754_zero false.
Proof. vm_compute. reflexivity. Qed.

Lemma of_int_add (p q : Z) :
  0 <= p -> 0 <= q -> p + q < 2 ^ 53 ->
  (F64.of_int p + F64.of_int q)%float = F64.of_int (p + q).
Proof.
  intros Hp Hq Hpq. apply FloatAxioms.Prim2SF_inj. rewrite FloatAxioms.add_spec.
  destruct (Z.eq_dec p 0) as [->|Hp0].
  { rewrite Prim2SF_of_int_0. rewrite Z.add_0_l.
    destruct (Z.eq_dec q 0) as [->|Hq0]; [rewrite Prim2SF_of_int_0; reflexivity|].
    rewrite Prim2SF_of_int by lia. reflexivity. }
  destruct (Z.eq_dec q 0) as [->|Hq0].
  { rewrite Prim2SF_of_int_0, Z.add_0_r, Prim2SF_of_int by lia. reflexivity. }
  rewrite !Prim2SF_of_int by lia.
  destruct (canonical_mantissa p ltac:(lia) ltac:(lia)) as [MP DP].
  destruct (canonical_mantissa q ltac:(lia) ltac:(lia)) as [MQ DQ].
  unfold canonical at 1 2. unfold SF64add, SFadd.
  set (ez := Z.min (digits p - 53) (digits q - 53)).
  destruct (shl_align_spec (Z.to_pos (p * 2 ^ (53 - digits p))) (digits p - 53) ez
              ltac:(lia)) as (mp & -> & Hmp).
  destruct (shl_align_spec (Z.to_pos (q * 2 ^ (53 - digits q))) (digits q - 53) ez
              ltac:(lia)) as (mq & -> & Hmq).
  cbn [fst cond_Zopp].
  rewrite Z2Pos.id in Hmp, Hmq by lia.
  assert (Zpos mp = p * 2 ^ (- ez)) as Ep.
  { rewrite Hmp, <- Z.mul_assoc, <- Z.pow_add_r by lia. f_equal. f_equal. lia. }
  assert (Zpos mq = q * 2 ^ (- ez)) as Eq.
  { rewrite Hmq, <- Z.mul_assoc, <- Z.pow_add_r by lia. f_equal. f_equal. lia. }
  change (Zpos mp + Zpos mq) with (Zpos (mp + mq)). unfold binary_normalize.
  rewrite (round_integer false (mp + mq) ez (p + q)); [reflexivity | lia | lia |].
  rewrite Pos2Z.inj_add, Ep, Eq. ring.
Qed.

Lemma of_int_opp (a : Z) : 0 < a < 2 ^ 63 -> F64.of_int (- a) = (- F64.of_int a)%float.
Proof.
  intros Ha. unfold F64.of_int.
  replace (- a =? - 2 ^ 63) with false by lia. replace (a =? - 2 ^ 63) with false by lia.
  replace (- a <? 0) with true by lia. replace (a <? 0) with false by lia.
  rewrite Z.opp_involutive. reflexivity.
Qed.

Lemma of_int_sq (a : Z) :
  - 2 ^ 26 < a < 2 ^ 26 -> (F64.of_int a * F64.of_int a)%float = F64.of_int (a * a).
Proof.
  intros Ha.
  destruct (Z.lt_trichotomy a 0) as [Hn | [-> | Hp]].
  - replace a with (- - a) at 1 2 by lia. rewrite of_int_opp by lia.
    replace (a * a) with (- a * - a) by ring.
    rewrite <- (of_int_mul (- a) (- a)) by nia.
    apply FloatAxioms.Prim2SF_inj.
    rewrite !FloatAxioms.mul_spec, FloatAxioms.opp_spec, Prim2SF_of_int by lia.
    reflexivity.
  - vm_compute. reflexivity.
  - apply of_int_mul; nia.
Qed.

Lemma of_int_leb (p q : Z) :
  0 <= p < 2 ^ 53 -> 0 < q < 2 ^ 53 ->
  (F64.of_int p <=? F64.of_int q)%float = (p <=? q).
Proof.
  intros Hp Hq. rewrite FloatAxioms.leb_spec.
  rewrite (Prim2SF_of_int q) by lia.
  destruct (Z.eq_dec p 0) as [->|Hp0].
  { rewrite Prim2SF_of_int_0. unfold canonical, SFleb, SFcompare. symmetry. lia. }
  rewrite Prim2SF_of_int by lia.
  destruct (canonical_mantissa p ltac:(lia) ltac:(lia)) as [MP DP].
  destruct (canonical_mantissa q ltac:(lia) ltac:(lia)) as [MQ DQ].
  pose proof (digits_bounds p ltac:(lia)) as [P1 P2].
  pose proof (digits_bounds q ltac:(lia)) as [Q1 Q2].
  unfold canonical, SFleb, SFcompare.
  destruct (Z.compare_spec (digits p - 53) (digits q - 53)) as [E|L|G].
  - rewrite Pos.compare_cont_spec. cbn [Pos.switch_Eq].
    rewrite <- Z2Pos.inj_compare by lia.
    replace (digits q) with (digits p) in * by lia.
    assert (0 < 2 ^ (53 - digits p)) by (apply Z.pow_pos_nonneg; lia).
    destruct (Z.compare_spec (p * 2 ^ (53 - digits p)) (q * 2 ^ (53 - digits p)));
      symmetry; [apply Z.leb_le | apply Z.leb_le | apply Z.leb_gt]; nia.
  - symmetry. apply Z.leb_le.
    assert (2 ^ digits p <= 2 ^ (digits q - 1)) by (apply Z.pow_le_mono_r; lia). lia.
  - symmetry. apply Z.leb_gt.
    assert (2 ^ digits q <= 2 ^ (digits p - 1)) by (apply Z.pow_le_mono_r; lia). lia.
Qed.

(** The circle test of fillRoundedRect, [dx*dx + dy*dy <= r2] on float64,
    is the test on the integers. *)
Lemma circle_test (a b r : Z) :
  - 2 ^ 26 < a < 2 ^ 26 -> - 2 ^ 26 < b < 2 ^ 26 -> 0 < r < 2 ^ 26 ->
  (F64.of_int a * F64.of_int a + F64.of_int b * F64.of_int b <=? F64.of_int (r * r))%float
  = (a * a + b * b <=? r * r).
Proof.
  intros Ha Hb Hr.
  assert (0 <= a * a < 2 ^ 52) by nia. assert (0 <= b * b < 2 ^ 52) by nia.
  assert (0 < r * r < 2 ^ 52) by nia.
  rewrite !of_int_sq, of_int_add, of_int_leb by lia. reflexivity.
Qed.

(** ** drawRect with any width *)

Lemma In_Rect (x0 y0 x1 y1 x y : Z) :
  x0 <= x1 -> y0 <= y1 ->
  image.In x y (image.Rect x0 y0 x1 y1) = (x0 <=? x) && (x <? x1) && (y0 <=? y) && (y <? y1).
Proof.
  intros Hx Hy. unfold image.Rect, image.In.
  replace (x0 >? x1) with false by (rewrite Z.gtb_ltb; lia).
  replace (y0 >? y1) with false by (rewrite Z.gtb_ltb; lia).
  reflexivity.
Qed.

Lemma drawable_same_shape (img img' : image.RGBA) :
  drawable img -> same_shape img img' -> drawable img'.
Proof. unfold drawable. intros H (-> & _). exact H. Qed.

Lemma drawRect_loop_opaque (n : nat) (i : Z) (rect : image.Rectangle) (c : color.RGBA)
    (img : image.RGBA) :
  wf_img img -> drawable img -> color_ok c -> color.A c = 255 ->
  image.X (image.Min rect) <= image.X (image.Max rect) ->
  exists img',
    drawRect_loop n i rect c img = Some img'
    /\ paints_const img img' (fun x y => existsb (fun j => outline_at rect j x y) (seqZ i (Z.of_nat n)))
         (color.R c, color.G c, color.B c, 255).
Proof.
  intros Hwf Hd Hc HA Hx. revert i img Hwf Hd. induction n as [|n IH]; intros i img Hwf Hd.
  - exists img. split; [reflexivity | apply paints_const_refl].
  - cbn [drawRect_loop].
    destruct rect as [[x0 y0] [x1 y1]]. cbn [image.X image.Y image.Min image.Max] in *.
    destruct (fillRectBlend_opaque img (image.Rect x0 (y0 + i) x1 (y0 + i + 1)) c Hwf Hd Hc HA)
      as (i1 & E1 & P1). rewrite E1. simpl. pose proof P1 as [S1 _].
    pose proof (wf_same_shape _ _ Hwf S1) as Hwf1.
    pose proof (drawable_same_shape _ _ Hd S1) as Hd1.
    destruct (fillRectBlend_opaque i1 (image.Rect x0 (y1 - 1 - i) x1 (y1 - i)) c Hwf1 Hd1 Hc HA)
      as (i2 & E2 & P2). rewrite E2. simpl. pose proof P2 as [S2 _].
    pose proof (wf_same_shape _ _ Hwf1 S2) as Hwf2.
    pose proof (drawable_same_shape _ _ Hd1 S2) as Hd2.
    destruct (drawRect_sides_opaque (Z.to_nat (y1 - y0)) y0 (x0 + i) (x1 - 1 - i) c i2 Hwf2 HA)
      as (i3 & E3 & P3). rewrite E3. simpl. pose proof P3 as [S3 _].
    pose proof (wf_same_shape _ _ Hwf2 S3) as Hwf3.
    pose proof (drawable_same_shape _ _ Hd2 S3) as Hd3.
    destruct (IH (i + 1) i3 Hwf3 Hd3) as (i4 & E4 & P4).
    exists i4. split; [exact E4|].
    pose proof (paints_const_trans _ _ _ _ _ _
                  (paints_const_trans _ _ _ _ _ _
                     (paints_const_trans _ _ _ _ _ _ P1 P2) P3) P4) as P.
    eapply paints_const_ext; [|exact P]. intros x y _. cbv beta.
    rewrite (seqZ_cons i (Z.of_nat (S n))) by lia. cbn [existsb].
    replace (Z.pred (Z.of_nat (S n))) with (Z.of_nat n) by lia.
    replace (Z.succ i) with (i + 1) by lia.
    generalize (existsb (fun j => outline_at (image.Rectangle_ (image.Pt x0 y0) (image.Pt x1 y1)) j x y)
                  (seqZ (i + 1) (Z.of_nat n))).
    intros b. unfold outline_at. cbn [image.X image.Y image.Min image.Max].
    replace (y1 - i) with (y1 - 1 - i + 1) by lia.
    rewrite !In_Rect_row by lia.
    destruct b; rewrite ?orb_true_r, ?orb_false_r; [reflexivity|].
    assert (Z.of_nat (Z.to_nat (y1 - y0)) = Z.max 0 (y1 - y0)) as -> by lia.
    bool_lia.
Qed.

Lemma rings_frame (rect : image.Rectangle) (width x y : Z) :
  width <= image.Dx rect -> width <= image.Dy rect ->
  existsb (fun j => outline_at rect j x y) (seqZ 0 width) = on_frame rect width x y.
Proof.
  intros Hw Hh. destruct rect as [[x0 y0] [x1 y1]].
  unfold image.Dx, image.Dy in *. cbn [image.X image.Y image.Min image.Max] in *.
  apply eq_true_iff_eq. rewrite existsb_exists. unfold on_frame, outline_at, image.In.
  cbn [image.X image.Y image.Min image.Max].
  split.
  - intros (j & Hj & H). apply list_elem_of_In, elem_of_seqZ in Hj. lia.
  - intros H.
    assert (x0 <= x < x1 /\ y0 <= y < y1
            /\ (x < x0 + width \/ x1 - width <= x \/ y < y0 + width \/ y1 - width <= y))
      as (Bx & By & [C | [C | [C | C]]]) by lia.
    + exists (x - x0). split; [apply list_elem_of_In, elem_of_seqZ|]; lia.
    + exists (x1 - 1 - x). split; [apply list_elem_of_In, elem_of_seqZ|]; lia.
    + exists (y - y0). split; [apply list_elem_of_In, elem_of_seqZ|]; lia.
    + exists (y1 - 1 - y). split; [apply list_elem_of_In, elem_of_seqZ|]; lia.
Qed.

(** drawRect with an opaque colour and a width no larger than the
    rectangle sets exactly the frame of that width along the inside of the
    rectangle: the pixels of [rect] less than [width] away from one of its
    sides.  The interior and everything outside [rect] stay as they were;
    a width of zero or less draws nothing. *)
Theorem drawRect_frame (img : image.RGBA) (rect : image.Rectangle) (c : color.RGBA)
    (width : Z) :
  wf_img img -> drawable img -> color_ok c -> color.A c = 255 ->
  image.X (image.Min rect) <= image.X (image.Max rect) ->
  width <= image.Dx rect -> width <= image.Dy rect ->
  exists img',
    drawRect img rect c width = Some img'
    /\ paints_const img img' (on_frame rect width) (color.R c, color.G c, color.B c, 255).
Proof.
  intros Hwf Hd Hc HA Hx Hw Hh. unfold drawRect.
  destruct (drawRect_loop_opaque (Z.to_nat width) 0 rect c img Hwf Hd Hc HA Hx)
    as (img' & E & P).
  exists img'. split; [exact E|].
  eapply paints_const_ext; [|exact P]. intros x y _. cbv beta.
  rewrite seqZ_to_nat. apply rings_frame; assumption.
Qed.

Lemma drawRect_frame_witness :
  exists img',
    drawRect sample_canvas (image.Rect 0 0 4 4) (color.RGBA_ 1 2 3 255) 2 = Some img'
    /\ paints_const sample_canvas img' (on_frame (image.Rect 0 0 4 4) 2) (1, 2, 3, 255).
Proof.
  apply (drawRect_frame sample_canvas (image.Rect 0 0 4 4) (color.RGBA_ 1 2 3 255) 2).
  - apply sample_canvas_wf.
  - apply sample_canvas_wf.
  - unfold color_ok, is_byte. simpl. lia.
  - reflexivity.
  - simpl. lia.
  - vm_compute. discriminate.
  - vm_compute. discriminate.
Defined.

(** ** fillPlus *)

(** fillPlus with an opaque colour sets exactly the pixels of the cross:
    the horizontal bar over the full width and the vertical bar over the
    full height, each a third (rounded down) of the box away from its
    sides.  The box lies within the range of [int]: [x + w] and [y + h] do
    not wrap. *)
Theorem fillPlus_cross (img : image.RGBA) (x y w h : Z) (c : color.RGBA) :
  wf_img img -> drawable img -> color_ok c -> color.A c = 255 -> 0 <= w -> 0 <= h ->
  int64 x -> int64 y -> int64 (x + w) -> int64 (y + h) ->
  exists img',
    fillPlus img x y w h c = Some img'
    /\ paints_const img img' (plus_pixels x y w h) (color.R c, color.G c, color.B c, 255).
Proof.
  intros Hwf Hd Hc HA Hw Hh _ _ _ _. unfold fillPlus.
  pose proof (Z.quot_pos w 3 Hw ltac:(lia)) as Qw.
  pose proof (Z.quot_pos h 3 Hh ltac:(lia)) as Qh.
  pose proof (Z.mul_quot_le w 3 Hw ltac:(lia)) as Mw.
  pose proof (Z.mul_quot_le h 3 Hh ltac:(lia)) as Mh.
  destruct (fillRectBlend_opaque img (image.Rect x (y + h ÷ 3) (x + w) (y + h - h ÷ 3)) c
              Hwf Hd Hc HA) as (i1 & E1 & P1).
  rewrite E1. simpl. pose proof P1 as [S1 _].
  destruct (fillRectBlend_opaque i1 (image.Rect (x + w ÷ 3) y (x + w - w ÷ 3) (y + h)) c
              (wf_same_shape _ _ Hwf S1) (drawable_same_shape _ _ Hd S1) Hc HA)
    as (i2 & E2 & P2).
  exists i2. split; [exact E2|].
  eapply paints_const_ext; [|eapply paints_const_trans; [exact P1 | exact P2]].
  intros x' y' _. cbv beta. rewrite !In_Rect by lia. reflexivity.
Qed.

Lemma fillPlus_cross_witness :
  exists img',
    fillPlus sample_canvas 0 0 3 3 (color.RGBA_ 1 2 3 255) = Some img'
    /\ paints_const sample_canvas img' (plus_pixels 0 0 3 3) (1, 2, 3, 255).
Proof.
  apply (fillPlus_cross sample_canvas 0 0 3 3 (color.RGBA_ 1 2 3 255)).
  - apply sample_canvas_wf.
  - apply sample_canvas_wf.
  - unfold color_ok, is_byte. simpl. lia.
  - reflexivity.
  - lia.
  - lia.
  - unfold int64. lia.
  - unfold int64. lia.
  - unfold int64. lia.
  - unfold int64. lia.
Defined.

(** ** fillRoundedRect *)

Lemma fillRoundedRect_row_opaque (n : nat) (px py ccx : Z) (dy r2 : float) (c : color.RGBA)
    (img : image.RGBA) :
  wf_img img -> color.A c = 255 ->
  exists img',
    fillRoundedRect_row n px py ccx dy r2 c img = Some img'
    /\ paints_const img img'
         (fun x' y' =>
            (y' =? py) && (px <=? x') && (x' <? px + Z.of_nat n)
            && (F64.of_int (x' - ccx) * F64.of_int (x' - ccx) + dy * dy <=? r2)%float)
         (color.R c, color.G c, color.B c, 255).
Proof.
  intros Hwf HA. revert px img Hwf. induction n as [|n IH]; intros px img Hwf.
  - exists img. split; [reflexivity|].
    eapply paints_const_ext; [|apply paints_const_refl].
    intros x' y' _. cbv beta. symmetry. apply not_true_iff_false.
    rewrite !andb_true_iff, Z.leb_le, Z.ltb_lt. simpl. lia.
  - cbn [fillRoundedRect_row].
    set (t := fun x' : Z =>
                (F64.of_int (x' - ccx) * F64.of_int (x' - ccx) + dy * dy <=? r2)%float).
    change ((F64.of_int (px - ccx) * F64.of_int (px - ccx) + dy * dy <=? r2)%float)
      with (t px).
    assert (exists img1,
      (if t px then blendPixel img px py c else Some img) = Some img1
      /\ paints_const img img1 (fun x' y' => (x' =? px) && (y' =? py) && t px)
           (color.R c, color.G c, color.B c, 255)) as (img1 & E1 & P1).
    { destruct (t px).
      - destruct (blendPixel_opaque img px py c Hwf HA) as (img1 & E1 & P1).
        exists img1. split; [exact E1|].
        eapply paints_const_ext; [|exact P1]. intros x' y' _. cbv beta.
        rewrite andb_true_r. reflexivity.
      - exists img. split; [reflexivity|].
        eapply paints_const_ext; [|apply paints_const_refl]. intros x' y' _. cbv beta.
        rewrite andb_false_r. reflexivity. }
    rewrite E1. simpl. pose proof P1 as [S1 _].
    destruct (IH (px + 1) img1 (wf_same_shape _ _ Hwf S1)) as (img2 & E2 & P2).
    exists img2. split; [exact E2|].
    eapply paints_const_ext; [|eapply paints_const_trans; eauto].
    intros x' y' _. cbv beta. fold (t x').
    destruct (Z.eq_dec x' px) as [->|Hne].
    + destruct (t px); bool_lia.
    + replace (x' =? px) with false by lia. simpl.
      destruct (t x'); bool_lia.
Qed.

Lemma fillRoundedRect_rows_opaque (n : nat) (py : Z) (cr : image.Rectangle) (ccx ccy : Z)
    (r2 : float) (c : color.RGBA) (img : image.RGBA) :
  wf_img img -> color.A c = 255 ->
  exists img',
    fillRoundedRect_rows n py cr ccx ccy r2 c img = Some img'
    /\ paints_const img img'
         (fun x' y' =>
            (py <=? y') && (y' <? py + Z.of_nat n)
            && (image.X (image.Min cr) <=? x') && (x' <? image.X (image.Max cr))
            && (F64.of_int (x' - ccx) * F64.of_int (x' - ccx)
                + F64.of_int (y' - ccy) * F64.of_int (y' - ccy) <=? r2)%float)
         (color.R c, color.G c, color.B c, 255).
Proof.
  intros Hwf HA. revert py img Hwf. induction n as [|n IH]; intros py img Hwf.
  - exists img. split; [reflexivity|].
    eapply paints_const_ext; [|apply paints_const_refl].
    intros x' y' _. cbv beta. symmetry. apply not_true_iff_false.
    rewrite !andb_true_iff, Z.leb_le, Z.ltb_lt. simpl. lia.
  - cbn [fillRoundedRect_rows].
    destruct (fillRoundedRect_row_opaque
                (Z.to_nat (image.X (image.Max cr) - image.X (image.Min cr)))
                (image.X (image.Min cr)) py ccx (F64.of_int (py - ccy)) r2 c img Hwf HA)
      as (img1 & E1 & P1).
    rewrite E1. simpl. pose proof P1 as [S1 _].
    destruct (IH (py + 1) img1 (wf_same_shape _ _ Hwf S1)) as (img2 & E2 & P2).
    exists img2. split; [exact E2|].
    eapply paints_const_ext; [|eapply paints_const_trans; eauto].
    intros x' y' _. cbv beta.
    assert (Z.of_nat (Z.to_nat (image.X (image.Max cr) - image.X (image.Min cr)))
            = Z.max 0 (image.X (image.Max cr) - image.X (image.Min cr))) as -> by lia.
    destruct (Z.eq_dec y' py) as [->|Hne].
    + generalize ((F64.of_int (x' - ccx) * F64.of_int (x' - ccx)
                   + F64.of_int (py - ccy) * F64.of_int (py - ccy) <=? r2)%float).
      intros t. destruct t; bool_lia.
    + replace (y' =? py) with false by lia. simpl.
      generalize ((F64.of_int (x' - ccx) * F64.of_int (x' - ccx)
                   + F64.of_int (y' - ccy) * F64.of_int (y' - ccy) <=? r2)%float).
      intros t. destruct t; bool_lia.
Qed.

(** The pixels of one corner: those of the square [cr] that pass the circle
    test about [(ccx, ccy)]. *)
Lemma fillRoundedRect_corner_opaque (cr : image.Rectangle) (ccx ccy r : Z)
    (c : color.RGBA) (img : image.RGBA) :
  wf_img img -> color.A c = 255 -> 0 <= r < 2 ^ 26 ->
  image.X (image.Max cr) - image.X (image.Min cr) <= r ->
  image.Y (image.Max cr) - image.Y (image.Min cr) <= r ->
  Z.abs (image.X (image.Min cr) - ccx) <= r -> Z.abs (image.X (image.Max cr) - ccx) <= r ->
  Z.abs (image.Y (image.Min cr) - ccy) <= r -> Z.abs (image.Y (image.Max cr) - ccy) <= r ->
  exists img',
    fillRoundedRect_rows (Z.to_nat (image.Y (image.Max cr) - image.Y (image.Min cr)))
      (image.Y (image.Min cr)) cr ccx ccy (F64.of_int (r * r)) c img = Some img'
    /\ paints_const img img'
         (fun x' y' =>
            image.In x' y' cr
            && ((x' - ccx) * (x' - ccx) + (y' - ccy) * (y' - ccy) <=? r * r))
         (color.R c, color.G c, color.B c, 255).
Proof.
  intros Hwf HA Hr Hdx Hdy Hx0 Hx1 Hy0 Hy1.
  destruct (fillRoundedRect_rows_opaque
              (Z.to_nat (image.Y (image.Max cr) - image.Y (image.Min cr)))
              (image.Y (image.Min cr)) cr ccx ccy (F64.of_int (r * r)) c img Hwf HA)
    as (img' & E & P).
  exists img'. split; [exact E|].
  eapply paints_const_ext; [|exact P]. intros x' y' _. cbv beta.
  assert (Z.of_nat (Z.to_nat (image.Y (image.Max cr) - image.Y (image.Min cr)))
          = Z.max 0 (image.Y (image.Max cr) - image.Y (image.Min cr))) as -> by lia.
  unfold image.In.
  destruct ((image.X (image.Min cr) <=? x') && (x' <? image.X (image.Max cr))
            && (image.Y (image.Min cr) <=? y') && (y' <? image.Y (image.Max cr))) eqn:Hin.
  - pose proof Hin as Hin'. rewrite !andb_true_iff, !Z.leb_le, !Z.ltb_lt in Hin'.
    rewrite circle_test by lia.
    generalize ((x' - ccx) * (x' - ccx) + (y' - ccy) * (y' - ccy) <=? r * r).
    intros t. destruct t; bool_lia.
  - simpl. apply not_true_iff_false. intros H. apply not_true_iff_false in Hin.
    apply Hin. clear Hin. rewrite !andb_true_iff in H. destruct H as [H _]. lia.
Qed.

(** fillRoundedRect with an opaque colour sets exactly the pixels of the
    rounded rectangle: the box [w] by [h] at [(x, y)] without the pixels of
    its four corner squares that are farther than the radius from the inner
    corner of their square.  The radius in use is the one asked for, cut down
    to half the width and half the height (rounded down); with a radius of
    zero or less the whole box is filled.  The test on squared distances,
    made on float64 in the code, is exact.  No pixel outside the box is
    touched.  The box lies within the range of [int]: [x + w] and [y + h] do
    not wrap. *)
Theorem fillRoundedRect_pixels (img : image.RGBA) (x y w h radius : Z) (c : color.RGBA) :
  wf_img img -> drawable img -> color_ok c -> color.A c = 255 ->
  0 <= w -> 0 <= h -> radius < 2 ^ 26 ->
  int64 x -> int64 y -> int64 (x + w) -> int64 (y + h) -> int64 radius ->
  exists img',
    fillRoundedRect img x y w h radius c = Some img'
    /\ paints_const img img' (rounded_pixels x y w h radius)
         (color.R c, color.G c, color.B c, 255).
Proof.
  intros Hwf Hd Hc HA Hw Hh Hrad _ _ _ _ _.
  unfold fillRoundedRect, rounded_pixels, corner_radius.
  destruct (radius <=? 0) eqn:Hr0.
  { destruct (fillRectBlend_opaque img (image.Rect x y (x + w) (y + h)) c Hwf Hd Hc HA)
      as (img' & E & P).
    exists img'. split; [exact E|].
    eapply paints_const_ext; [|exact P]. intros x' y' _. cbv beta zeta.
    rewrite In_Rect by lia. rewrite !Z.add_0_r, !Z.sub_0_r.
    match goal with |- context [(?a <=? 0 * 0)] => generalize (a <=? 0 * 0) end.
    intros t. destruct t; bool_lia. }
  assert (minInt radius (minInt (w ÷ 2) (h ÷ 2)) = Z.min radius (Z.min (w ÷ 2) (h ÷ 2))) as ->.
  { unfold minInt. destruct (w ÷ 2 <? h ÷ 2) eqn:E1;
      [destruct (radius <? w ÷ 2) eqn:E2 | destruct (radius <? h ÷ 2) eqn:E2]; lia. }
  pose proof (Z.quot_pos w 2 Hw ltac:(lia)) as Qw.
  pose proof (Z.quot_pos h 2 Hh ltac:(lia)) as Qh.
  pose proof (Z.mul_quot_le w 2 Hw ltac:(lia)) as Mw.
  pose proof (Z.mul_quot_le h 2 Hh ltac:(lia)) as Mh.
  set (r := Z.min radius (Z.min (w ÷ 2) (h ÷ 2))).
  assert (0 <= r < 2 ^ 26 /\ 2 * r <= w /\ 2 * r <= h) as (Hr & Hrw & Hrh) by lia.
  cbn [fillRoundedRect_corners image.X image.Y image.Min image.Max].
  destruct (fillRectBlend_opaque img (image.Rect (x + r) y (x + w - r) (y + h)) c Hwf Hd Hc HA)
    as (i1 & E1 & P1). rewrite E1. simpl. pose proof P1 as [S1 _].
  pose proof (wf_same_shape _ _ Hwf S1) as W1. pose proof (drawable_same_shape _ _ Hd S1) as D1.
  destruct (fillRectBlend_opaque i1 (image.Rect x (y + r) (x + r) (y + h - r)) c W1 D1 Hc HA)
    as (i2 & E2 & P2). rewrite E2. simpl. pose proof P2 as [S2 _].
  pose proof (wf_same_shape _ _ W1 S2) as W2. pose proof (drawable_same_shape _ _ D1 S2) as D2.
  destruct (fillRectBlend_opaque i2 (image.Rect (x + w - r) (y + r) (x + w) (y + h - r)) c
              W2 D2 Hc HA) as (i3 & E3 & P3). rewrite E3. simpl. pose proof P3 as [S3 _].
  pose proof (wf_same_shape _ _ W2 S3) as W3.
  destruct (fillRoundedRect_corner_opaque
              (image.Rectangle_ (image.Pt x y) (image.Pt (x + r) (y + r)))
              (x + r) (y + r) r c i3 W3 HA Hr) as (i4 & E4 & P4);
    try (cbn [image.X image.Y image.Min image.Max]; lia).
  cbn [image.X image.Y image.Min image.Max] in E4. rewrite E4. simpl. pose proof P4 as [S4 _].
  pose proof (wf_same_shape _ _ W3 S4) as W4.
  destruct (fillRoundedRect_corner_opaque
              (image.Rectangle_ (image.Pt (x + w - r) y) (image.Pt (x + w) (y + r)))
              (x + w - r) (y + r) r c i4 W4 HA Hr) as (i5 & E5 & P5);
    try (cbn [image.X image.Y image.Min image.Max]; lia).
  cbn [image.X image.Y image.Min image.Max] in E5. rewrite E5. simpl. pose proof P5 as [S5 _].
  pose proof (wf_same_shape _ _ W4 S5) as W5.
  destruct (fillRoundedRect_corner_opaque
              (image.Rectangle_ (image.Pt x (y + h - r)) (image.Pt (x + r) (y + h)))
              (x + r) (y + h - r) r c i5 W5 HA Hr) as (i6 & E6 & P6);
    try (cbn [image.X image.Y image.Min image.Max]; lia).
  cbn [image.X image.Y image.Min image.Max] in E6. rewrite E6. simpl. pose proof P6 as [S6 _].
  pose proof (wf_same_shape _ _ W5 S6) as W6.
  destruct (fillRoundedRect_corner_opaque
              (image.Rectangle_ (image.Pt (x + w - r) (y + h - r)) (image.Pt (x + w) (y + h)))
              (x + w - r) (y + h - r) r c i6 W6 HA Hr) as (i7 & E7 & P7);
    try (cbn [image.X image.Y image.Min image.Max]; lia).
  cbn [image.X image.Y image.Min image.Max] in E7. rewrite E7. simpl.
  exists i7. split; [reflexivity|].
  pose proof (paints_const_trans _ _ _ _ _ _
                (paints_const_trans _ _ _ _ _ _
                   (paints_const_trans _ _ _ _ _ _
                      (paints_const_trans _ _ _ _ _ _
                         (paints_const_trans _ _ _ _ _ _
                            (paints_const_trans _ _ _ _ _ _ P1 P2) P3) P4) P5) P6) P7) as P.
  eapply paints_const_ext; [|exact P]. intros x' y' _. cbv beta zeta.
  rewrite !In_Rect by lia. unfold image.In. cbn [image.X image.Y image.Min image.Max].
  destruct (x' <? x + r) eqn:Cx; destruct (y' <? y + r) eqn:Cy;
    match goal with |- context [(?a <=? r * r)] => generalize (a <=? r * r) end;
    intros t; try (destruct t; bool_lia).
Qed.

Lemma fillRoundedRect_pixels_witness :
  exists img',
    fillRoundedRect sample_canvas 0 0 4 4 2 (color.RGBA_ 1 2 3 255) = Some img'
    /\ paints_const sample_canvas img' (rounded_pixels 0 0 4 4 2) (1, 2, 3, 255).
Proof.
  apply (fillRoundedRect_pixels sample_canvas 0 0 4 4 2 (color.RGBA_ 1 2 3 255)).
  - apply sample_canvas_wf.
  - apply sample_canvas_wf.
  - unfold color_ok, is_byte. simpl. lia.
  - reflexivity.
  - lia.
  - lia.
  - lia.
  - unfold int64. lia.
  - unfold int64. lia.
  - unfold int64. lia.
  - unfold int64. lia.
  - unfold int64. lia.
Defined.

(** The 4 x 4 box with radius 2.  Distances are taken from the pixel's
    own coordinates to the inner corner of its square, so the corners on the
    left and at the top lose more pixels than those on the right and at the
    bottom. *)
Example fillRoundedRect_sample :
  map (fun y' => map (fun x' => rounded_pixels 0 0 4 4 2 x' y') [0; 1; 2; 3]) [0; 1; 2; 3]
  = [[false; false; true; false];
     [false; true; true; true];
     [true; true; true; true];
     [false; true; true; true]].
Proof. vm_compute. reflexivity. Qed.

(** * The flips of renderRotated *)

Lemma load_lookup (pix : list Z) (i : Z) :
  load pix i = if (0 <=? i) && (i <? Z.of_nat (length pix)) then pix !! Z.to_nat i else None.
Proof. reflexivity. Qed.

Lemma load_ext (pix pix' : list Z) :
  (forall i, load pix i = load pix' i) -> forall off, get_px pix off = get_px pix' off.
Proof. intros H off. unfold get_px. rewrite !H. reflexivity. Qed.

Lemma copy_bytes_spec (dst : list Z) (dOff : Z) (src : list Z) (sOff n : Z) :
  0 <= dOff -> 0 <= n -> dOff + n <= Z.of_nat (length dst) ->
  0 <= sOff -> sOff + n <= Z.of_nat (length src) ->
  exists dst',
    copy_bytes dst dOff src sOff n = Some dst'
    /\ length dst' = length dst
    /\ forall i, load dst' i
                 = if (dOff <=? i) && (i <? dOff + n) then load src (sOff + (i - dOff))
                   else load dst i.
Proof.
  intros H1 H2 H3 H4 H5. unfold copy_bytes.
  replace ((0 <=? dOff) && (0 <=? n) && (dOff + n <=? Z.of_nat (length dst))
           && (0 <=? sOff) && (sOff + n <=? Z.of_nat (length src))) with true by lia.
  eexists. split; [reflexivity|].
  assert (length (take (Z.to_nat dOff) dst) = Z.to_nat dOff) as L1
    by (rewrite length_take; lia).
  assert (length (take (Z.to_nat n) (drop (Z.to_nat sOff) src)) = Z.to_nat n) as L2
    by (rewrite length_take, length_drop; lia).
  assert (length (take (Z.to_nat dOff) dst ++ take (Z.to_nat n) (drop (Z.to_nat sOff) src)
                  ++ drop (Z.to_nat (dOff + n)) dst) = length dst) as L.
  { rewrite !length_app, L1, L2, length_drop. lia. }
  split; [exact L|].
  intros i. rewrite !load_lookup, L.
  destruct ((0 <=? i) && (i <? Z.of_nat (length dst))) eqn:Hi.
  - destruct (Z_lt_le_dec i dOff) as [Hlt|Hge].
    + replace ((dOff <=? i) && (i <? dOff + n)) with false by lia.
      rewrite lookup_app_l by lia. rewrite lookup_take_lt by lia. reflexivity.
    + rewrite lookup_app_r by lia. rewrite L1.
      destruct (Z_lt_le_dec i (dOff + n)) as [Hlt2|Hge2].
      * replace ((dOff <=? i) && (i <? dOff + n)) with true by lia.
        rewrite lookup_app_l by lia. rewrite lookup_take_lt by lia. rewrite lookup_drop.
        replace ((0 <=? sOff + (i - dOff))
                 && (sOff + (i - dOff) <? Z.of_nat (length src))) with true by lia.
        f_equal. lia.
      * replace ((dOff <=? i) && (i <? dOff + n)) with false by lia.
        rewrite lookup_app_r by lia. rewrite L2, lookup_drop. f_equal. lia.
  - replace ((dOff <=? i) && (i <? dOff + n)) with false by lia. reflexivity.
Qed.

(** The byte of the source that ends up at offset [i] of a mirrored row. *)
Lemma flip_row_spec (n : nat) (px w srcRow dstRow : Z) (src dst : list Z) :
  0 <= px -> px + Z.of_nat n = w ->
  0 <= dstRow -> dstRow + 4 * w <= Z.of_nat (length dst) ->
  0 <= srcRow -> srcRow + 4 * w <= Z.of_nat (length src) ->
  exists dst',
    flip_row n px w srcRow dstRow src dst = Some dst'
    /\ length dst' = length dst
    /\ forall i, load dst' i
                 = if (dstRow + 4 * px <=? i) && (i <? dstRow + 4 * w)
                   then load src (srcRow + (w - 1 - (i - dstRow) / 4) * 4 + (i - dstRow) mod 4)
                   else load dst i.
Proof.
  revert px dst. induction n as [|n IH]; intros px dst Hpx Hn Hd0 Hd1 Hs0 Hs1.
  - exists dst. split; [reflexivity|]. split; [reflexivity|]. intros i.
    replace ((dstRow + 4 * px <=? i) && (i <? dstRow + 4 * w)) with false by lia.
    reflexivity.
  - cbn [flip_row].
    destruct (copy_bytes_spec dst (dstRow + px * 4) src (srcRow + (w - 1 - px) * 4) 4)
      as (d1 & E1 & L1 & S1); try lia.
    rewrite E1. simpl.
    destruct (IH (px + 1) d1) as (d2 & E2 & L2 & S2); try lia.
    exists d2. split; [exact E2|]. split; [lia|]. intros i. rewrite S2, S1.
    destruct ((dstRow + 4 * (px + 1) <=? i) && (i <? dstRow + 4 * w)) eqn:C1.
    + replace ((dstRow + 4 * px <=? i) && (i <? dstRow + 4 * w)) with true by lia.
      reflexivity.
    + destruct ((dstRow + px * 4 <=? i) && (i <? dstRow + px * 4 + 4)) eqn:C2.
      * replace ((dstRow + 4 * px <=? i) && (i <? dstRow + 4 * w)) with true by lia.
        f_equal.
        assert ((i - dstRow) / 4 = px) as Eq
          by (symmetry; apply Z.div_unique with (i - dstRow - 4 * px); lia).
        assert ((i - dstRow) mod 4 = i - dstRow - 4 * px) as Em
          by (symmetry; apply Z.mod_unique with px; lia).
        rewrite Eq, Em. lia.
      * replace ((dstRow + 4 * px <=? i) && (i <? dstRow + 4 * w)) with false by lia.
        reflexivity.
Qed.

Lemma flip_rows_spec (n : nat) (py w h : Z) (flipH flipV : bool) (src dst : list Z) :
  0 < w -> 0 <= py -> py + Z.of_nat n = h ->
  Z.of_nat (length src) = 4 * w * h -> Z.of_nat (length dst) = 4 * w * h ->
  exists dst',
    flip_rows n py w h flipH flipV (4 * w) (4 * w) src dst = Some dst'
    /\ length dst' = length dst
    /\ forall i, load dst' i
                 = if (4 * w * py <=? i) && (i <? 4 * w * h)
                   then load src (mirror flipV h (i / (4 * w)) * (4 * w)
                                  + row_source flipH w (i mod (4 * w)))
                   else load dst i.
Proof.
  intros Hw. revert py dst. induction n as [|n IH]; intros py dst Hpy Hn Hs Hd.
  - exists dst. split; [reflexivity|]. split; [reflexivity|]. intros i.
    replace ((4 * w * py <=? i) && (i <? 4 * w * h)) with false by lia. reflexivity.
  - cbn [flip_rows].
    set (sy := if flipV then h - 1 - py else py).
    assert (0 <= sy < h) as Hsy by (subst sy; destruct flipV; lia).
    assert (exists d1,
      (if flipH then flip_row (Z.to_nat w) 0 w (sy * (4 * w)) (py * (4 * w)) src dst
       else copy_bytes dst (py * (4 * w)) src (sy * (4 * w)) (w * 4)) = Some d1
      /\ length d1 = length dst
      /\ forall i, load d1 i
                   = if (py * (4 * w) <=? i) && (i <? py * (4 * w) + 4 * w)
                     then load src (sy * (4 * w) + row_source flipH w (i - py * (4 * w)))
                     else load dst i) as (d1 & E1 & L1 & S1).
    { destruct flipH.
      - destruct (flip_row_spec (Z.to_nat w) 0 w (sy * (4 * w)) (py * (4 * w)) src dst)
          as (d1 & E1 & L1 & S1); try nia.
        exists d1. split; [exact E1|]. split; [exact L1|]. intros i. rewrite S1.
        rewrite Z.mul_0_r, Z.add_0_r. unfold row_source.
        destruct ((py * (4 * w) <=? i) && (i <? py * (4 * w) + 4 * w)); [|reflexivity].
        f_equal. lia.
      - destruct (copy_bytes_spec dst (py * (4 * w)) src (sy * (4 * w)) (w * 4))
          as (d1 & E1 & L1 & S1); try nia.
        exists d1. split; [exact E1|]. split; [exact L1|]. intros i. rewrite S1.
        unfold row_source. replace (w * 4) with (4 * w) by lia. reflexivity. }
    rewrite E1. simpl.
    destruct (IH (py + 1) d1) as (d2 & E2 & L2 & S2); try lia.
    exists d2. split; [exact E2|]. split; [lia|]. intros i. rewrite S2, S1.
    destruct ((4 * w * (py + 1) <=? i) && (i <? 4 * w * h)) eqn:C1.
    + replace ((4 * w * py <=? i) && (i <? 4 * w * h)) with true by nia. reflexivity.
    + destruct ((py * (4 * w) <=? i) && (i <? py * (4 * w) + 4 * w)) eqn:C2.
      * replace ((4 * w * py <=? i) && (i <? 4 * w * h)) with true by nia.
        assert (i / (4 * w) = py) as Eq
          by (symmetry; apply Z.div_unique with (i - py * (4 * w)); lia).
        assert (i mod (4 * w) = i - py * (4 * w)) as Em
          by (symmetry; apply Z.mod_unique with py; lia).
        rewrite Eq, Em. reflexivity.
      * replace ((4 * w * py <=? i) && (i <? 4 * w * h)) with false by nia. reflexivity.
Qed.

Lemma layer_offset (tmp : image.RGBA) (w h x y : Z) :
  layer tmp w h -> image.PixOffset tmp x y = y * (4 * w) + x * 4.
Proof.
  intros (Hw & Hh & _ & Hb & Hs & _). unfold image.PixOffset. rewrite Hb, Hs.
  unfold image.Rect. replace (0 >? w) with false by lia. replace (0 >? h) with false by lia.
  simpl. lia.
Qed.

Lemma flip_pixels (tmp : image.RGBA) (w h : Z) (flipH flipV : bool) :
  layer tmp w h ->
  exists img',
    renderRotated_flip tmp w h flipH flipV = Some img'
    /\ layer img' w h
    /\ forall x y, 0 <= x < w -> 0 <= y < h ->
         pixel_at img' x y = pixel_at tmp (mirror flipH w x) (mirror flipV h y).
Proof.
  intros Hl. pose proof Hl as (Hw & Hh & Hfit & Hb & Hs & Hlen).
  unfold renderRotated_flip.
  destruct (flipH || flipV) eqn:Hf.
  2:{ apply orb_false_iff in Hf as [-> ->]. exists tmp. split; [reflexivity|].
      split; [exact Hl|]. intros x y _ _. reflexivity. }
  assert (image.Dx (image.Bounds tmp) = w /\ image.Dy (image.Bounds tmp) = h) as [Edx Edy].
  { rewrite Hb. unfold image.Rect, image.Dx, image.Dy.
    replace (0 >? w) with false by lia. replace (0 >? h) with false by lia. simpl. lia. }
  unfold image.NewRGBA. rewrite Edx, Edy.
  replace ((0 <=? w) && (0 <=? h) && (4 * w * h <? 2 ^ 63)) with true by lia.
  cbn [mbind option_bind image.Stride image.Pix]. rewrite Hs.
  destruct (flip_rows_spec (Z.to_nat h) 0 w h flipH flipV (image.Pix tmp)
              (replicate (Z.to_nat (4 * w * h)) 0)) as (pix & E & L & S);
    try lia; [rewrite length_replicate; nia|].
  rewrite E. cbn [mbind option_bind]. eexists. split; [reflexivity|].
  assert (layer (image.with_pix
                   (image.RGBA_ (replicate (Z.to_nat (4 * w * h)) 0) (4 * w) (image.Bounds tmp))
                   pix) w h) as Hl'.
  { unfold layer, image.with_pix. cbn [image.Bounds image.Stride image.Pix].
    rewrite L, length_replicate. repeat split; try assumption; try lia. }
  split; [exact Hl'|].
  intros x y Hx Hy. unfold pixel_at.
  rewrite (layer_offset _ w h x y Hl'), (layer_offset _ w h _ _ Hl).
  unfold image.with_pix. cbn [image.Pix].
  assert (0 <= mirror flipH w x < w) as Mx by (unfold mirror; destruct flipH; lia).
  assert (0 <= mirror flipV h y < h) as My by (unfold mirror; destruct flipV; lia).
  assert (forall ch, 0 <= ch < 4 ->
            load pix (y * (4 * w) + x * 4 + ch)
            = load (image.Pix tmp) (mirror flipV h y * (4 * w) + mirror flipH w x * 4 + ch))
    as Hch.
  { intros ch Hc. rewrite S.
    replace ((4 * w * 0 <=? y * (4 * w) + x * 4 + ch)
             && (y * (4 * w) + x * 4 + ch <? 4 * w * h)) with true by nia.
    assert ((y * (4 * w) + x * 4 + ch) / (4 * w) = y) as Eq
      by (symmetry; apply Z.div_unique with (x * 4 + ch); lia).
    assert ((y * (4 * w) + x * 4 + ch) mod (4 * w) = x * 4 + ch) as Em
      by (symmetry; apply Z.mod_unique with y; lia).
    rewrite Eq, Em. f_equal. unfold row_source, mirror. destruct flipH; [|lia].
    assert ((x * 4 + ch) / 4 = x) as -> by (symmetry; apply Z.div_unique with ch; lia).
    assert ((x * 4 + ch) mod 4 = ch) as -> by (symmetry; apply Z.mod_unique with x; lia).
    lia. }
  unfold get_px.
  pose proof (Hch 0 ltac:(lia)) as H0. rewrite !Z.add_0_r in H0.
  rewrite H0, (Hch 1), (Hch 2), (Hch 3) by lia. reflexivity.
Qed.

Lemma mirror_mirror (flip : bool) (size i : Z) : mirror flip size (mirror flip size i) = i.
Proof. unfold mirror. destruct flip; lia. Qed.

(** The flip step of renderRotated returns, on every offscreen layer,
    a layer of the same size whose pixel at (x, y) is the pixel of the
    old one at the mirrored column when the flip is horizontal and at the
    mirrored row when it is vertical (both: a half turn).  Flipping the
    result once more the same way gives back every pixel of the layer. *)
Theorem renderRotated_flip_mirror (tmp : image.RGBA) (w h : Z) (flipH flipV : bool) :
  layer tmp w h ->
  exists img' img'',
    renderRotated_flip tmp w h flipH flipV = Some img'
    /\ layer img' w h
    /\ (forall x y, 0 <= x < w -> 0 <= y < h ->
          pixel_at img' x y
          = pixel_at tmp (if flipH then w - 1 - x else x) (if flipV then h - 1 - y else y))
    /\ renderRotated_flip img' w h flipH flipV = Some img''
    /\ (forall x y, 0 <= x < w -> 0 <= y < h -> pixel_at img'' x y = pixel_at tmp x y).
Proof.
  intros Hl.
  destruct (flip_pixels tmp w h flipH flipV Hl) as (img' & E1 & Hl' & P1).
  destruct (flip_pixels img' w h flipH flipV Hl') as (img'' & E2 & _ & P2).
  exists img', img''. split; [exact E1|]. split; [exact Hl'|]. split; [exact P1|].
  split; [exact E2|].
  intros x y Hx Hy. rewrite P2, P1 by (try assumption; unfold mirror; destruct flipH, flipV; lia).
  rewrite !mirror_mirror. reflexivity.
Qed.

Lemma sample_canvas_layer : layer sample_canvas 4 4.
Proof. unfold layer. repeat split; vm_compute; congruence. Qed.

Lemma renderRotated_flip_mirror_witness :
  exists img' img'',
    renderRotated_flip sample_canvas 4 4 true false = Some img'
    /\ layer img' 4 4
    /\ (forall x y, 0 <= x < 4 -> 0 <= y < 4 ->
          pixel_at img' x y
          = pixel_at sample_canvas (if true then 4 - 1 - x else x) (if false then 4 - 1 - y else y))
    /\ renderRotated_flip img' 4 4 true false = Some img''
    /\ (forall x y, 0 <= x < 4 -> 0 <= y < 4 -> pixel_at img'' x y = pixel_at sample_canvas x y).
Proof.
  apply (renderRotated_flip_mirror sample_canvas 4 4 true false).
  apply sample_canvas_layer.
Defined.

(** * Text lines *)

Section WrapFacts.

Import text.

Context {Font Face : Type}.
Variable Metrics : Face -> Z * Z.
Variable MeasureString : Face -> string -> Z.
Variable Fields : string -> list string.

Lemma buildTextLine_fold (rs : list (@textRun Font Face)) (tl : @textLine Font Face) :
  runs (fold_left (buildTextLine_step Metrics) rs tl) = runs tl
  /\ line_width (fold_left (buildTextLine_step Metrics) rs tl) = line_width tl + total_width rs.
Proof.
  revert tl. induction rs as [|r rs IH]; intros tl; simpl; [split; [reflexivity | lia]|].
  destruct (IH (buildTextLine_step Metrics tl r)) as [-> ->].
  unfold buildTextLine_step. destruct (face r) as [f|]; [|simpl; split; [reflexivity | lia]].
  destruct (Metrics f) as [asc desc]. simpl.
  destruct (asc >? ascent tl); simpl; destruct (desc >? _); simpl; split; try reflexivity; lia.
Qed.

Lemma buildTextLine_runs (rs : list (@textRun Font Face)) :
  runs (buildTextLine Metrics rs) = rs
  /\ line_width (buildTextLine Metrics rs) = total_width rs.
Proof.
  unfold buildTextLine. simpl.
  destruct (buildTextLine_fold rs (textLine_ rs 0 0 0 0)) as [-> ->]. simpl. split; [reflexivity | lia].
Qed.

Lemma total_width_app (a b : list (@textRun Font Face)) : total_width (a ++ b) = total_width a + total_width b.
Proof. induction a as [|r a IH]; simpl; [reflexivity | rewrite IH; lia]. Qed.

Lemma buildTextLine_ok (maxW : Z) (cur : list (@textRun Font Face)) (cw : Z) :
  current_ok maxW cur cw -> line_ok maxW (buildTextLine Metrics cur).
Proof.
  intros (H1 & H2 & H3). destruct (buildTextLine_runs cur) as [Er Ew].
  unfold line_ok. rewrite Er, Ew. split; [reflexivity|]. split; [|exact H3].
  intros H. rewrite <- H1. apply H2, H.
Qed.

Lemma current_ok_nil (maxW : Z) : @current_ok Font Face maxW [] 0.
Proof. split; [reflexivity|]. split; [simpl; lia | constructor]. Qed.

Lemma current_ok_single (maxW : Z) (r : @textRun Font Face) :
  face r <> None -> current_ok maxW [r] (width r).
Proof.
  intros H. split; [simpl; lia|]. split; [simpl; lia|]. constructor; [exact H | constructor].
Qed.

Lemma current_ok_snoc (maxW : Z) (cur : list (@textRun Font Face)) (cw : Z) (r : @textRun Font Face) :
  current_ok maxW cur cw -> face r <> None ->
  (cur <> [] -> cw + width r <= maxW) ->
  current_ok maxW (cur ++ [r]) (cw + width r).
Proof.
  intros (H1 & H2 & H3) Hf Hfit. split; [rewrite total_width_app; simpl; lia|].
  split.
  - intros Hlen. apply Hfit. destruct cur; [simpl in Hlen; lia | discriminate].
  - apply Forall_app. split; [exact H3|]. constructor; [exact Hf | constructor].
Qed.

Lemma nonempty_true (s : string) : nonempty s = true <-> s <> "".
Proof.
  unfold nonempty. rewrite negb_true_iff. split.
  - intros H E. subst s. discriminate.
  - intros H. destruct (String.eqb_spec s ""); [contradiction | reflexivity].
Qed.

Lemma append_nonempty (a b : string) : b <> "" -> (a ++ b)%string <> "".
Proof. destruct a; simpl; [auto | discriminate]. Qed.

Lemma length_pos_nonnil {A : Type} (l : list A) :
  (0 <? Z.of_nat (length l)) = true <-> l <> [].
Proof.
  destruct l; simpl; split; intros H; try congruence; try lia; try discriminate.
  reflexivity.
Qed.

(** The loop over the words keeps the lines in order; the text gathered
    in [partial] fits behind the runs of the line under way. *)
Lemma wrap_words_ok (maxW : Z) (noblank : bool) (run : @textRun Font Face) (f : Face)
    (words : list string) (first : bool) (lines : list (@textLine Font Face)) (cur : list (@textRun Font Face))
    (cw : Z) (partial : string) :
  Forall (fun w => w <> "") words ->
  Forall (line_ok maxW) lines -> current_ok maxW cur cw ->
  (noblank = true -> Forall (fun l => runs l <> []) lines) ->
  (first = true -> partial = "") -> (first = false -> partial <> "") ->
  (partial <> "" -> cur <> [] -> cw + MeasureString f partial <= maxW) ->
  forall lines' cur' cw' partial',
    wrap_words Metrics MeasureString run f maxW words first (lines, cur, cw) partial
      = (lines', cur', cw', partial') ->
    Forall (line_ok maxW) lines' /\ current_ok maxW cur' cw'
    /\ (noblank = true -> Forall (fun l => runs l <> []) lines')
    /\ (partial' <> "" -> cur' <> [] -> cw' + MeasureString f partial' <= maxW).
Proof.
  intros Hw. revert first lines cur cw partial.
  induction Hw as [|word rest Hword Hrest IH];
    intros first lines cur cw partial Hl Hc Hnb Hf1 Hf2 Hfit lines' cur' cw' partial' E.
  - simpl in E. inversion E; subst. auto.
  - cbn [wrap_words] in E.
    set (test := ((if first then partial else (partial ++ " ")%string) ++ word)%string) in E.
    destruct ((cw + MeasureString f test >? maxW)
              && ((0 <? Z.of_nat (length cur)) || nonempty partial)) eqn:C.
    + apply andb_true_iff in C as [C1 C2].
      set (cur2 := if nonempty partial
                   then cur ++ [textRun_ partial (font run) (Some f) (MeasureString f partial)]
                   else cur) in E.
      assert (current_ok maxW cur2 (total_width cur2) /\ cur2 <> []) as [Hc2 Hne2].
      { subst cur2. destruct (nonempty partial) eqn:Np.
        - apply nonempty_true in Np. split.
          + destruct Hc as (H1 & H2 & H3).
            pose proof (current_ok_snoc maxW cur cw
                          (textRun_ partial (font run) (Some f) (MeasureString f partial))
                          (conj H1 (conj H2 H3)) ltac:(discriminate)) as H.
            cbn [width] in H. rewrite total_width_app. simpl. rewrite <- H1.
            replace (cw + (MeasureString f partial + 0)) with (cw + MeasureString f partial)
              by lia.
            apply H. intros Hne. apply Hfit; assumption.
          + destruct cur; discriminate.
        - rewrite orb_false_r in C2. apply length_pos_nonnil in C2.
          destruct Hc as (H1 & H2 & H3). split; [|exact C2].
          rewrite <- H1. repeat split; assumption. }
      eapply (IH false (lines ++ [buildTextLine Metrics cur2]) [] 0 word); try exact E.
      * apply Forall_app. split; [exact Hl|]. constructor; [|constructor].
        eapply buildTextLine_ok. exact Hc2.
      * apply current_ok_nil.
      * intros Hb. apply Forall_app. split; [apply Hnb, Hb|]. constructor; [|constructor].
        destruct (buildTextLine_runs cur2) as [-> _]. exact Hne2.
      * discriminate.
      * intros _. exact Hword.
      * intros _ H. congruence.
    + set (partial2 := ((if nonempty partial then (partial ++ " ")%string else partial)
                        ++ word)%string) in E.
      assert (partial2 = test) as Ept.
      { subst partial2 test. destruct first.
        - rewrite (Hf1 eq_refl). reflexivity.
        - pose proof (Hf2 eq_refl) as Hp. apply nonempty_true in Hp. rewrite Hp. reflexivity. }
      eapply (IH false lines cur cw partial2); try exact E; try assumption.
      * discriminate.
      * intros _. subst partial2. apply append_nonempty, Hword.
      * intros _ Hne. rewrite Ept.
        apply andb_false_iff in C as [C | C]; [lia|].
        apply orb_false_iff in C as [C _].
        apply not_true_iff_false in C. exfalso. apply C. apply length_pos_nonnil, Hne.
Qed.

Hypothesis Fields_nonempty : forall s w, In w (Fields s) -> w <> "".

Lemma wrap_run_ok (maxW : Z) (noblank : bool) (run : @textRun Font Face) (lines : list (@textLine Font Face))
    (cur : list (@textRun Font Face)) (cw : Z) :
  Forall (line_ok maxW) lines -> current_ok maxW cur cw ->
  (noblank = true -> Forall (fun l => runs l <> []) lines) ->
  (noblank = true -> text run <> newline) ->
  forall lines' cur' cw',
    wrap_run Metrics MeasureString Fields maxW (lines, cur, cw) run = (lines', cur', cw') ->
    Forall (line_ok maxW) lines' /\ current_ok maxW cur' cw'
    /\ (noblank = true -> Forall (fun l => runs l <> []) lines').
Proof.
  intros Hl Hc Hnb Hnl lines' cur' cw' E. unfold wrap_run in E.
  destruct (String.eqb_spec (text run) newline) as [En|En].
  { inversion E; subst. split; [|split].
    - apply Forall_app. split; [exact Hl|]. constructor; [|constructor].
      eapply buildTextLine_ok. exact Hc.
    - apply current_ok_nil.
    - intros Hb. exfalso. apply (Hnl Hb En). }
  destruct (face run) as [f|] eqn:Hface; [|inversion E; subst; auto].
  destruct ((cw + width run <=? maxW) || (length cur =? 0)%nat) eqn:Cfit.
  { inversion E; subst. split; [exact Hl|]. split; [|exact Hnb].
    apply current_ok_snoc; [exact Hc | congruence |].
    intros Hne. apply orb_true_iff in Cfit as [C | C]; [lia|].
    destruct cur; [contradiction | discriminate]. }
  apply orb_false_iff in Cfit as [_ Cne].
  assert (cur <> []) as Hne by (destruct cur; [discriminate | discriminate]).
  destruct (length (Fields (text run)) <=? 1)%nat eqn:Cw.
  { replace (0 <? length cur)%nat with true in E
      by (symmetry; apply Nat.ltb_lt; destruct cur; [contradiction | simpl; lia]).
    inversion E; subst. split; [|split].
    - apply Forall_app. split; [exact Hl|]. constructor; [|constructor].
      eapply buildTextLine_ok. exact Hc.
    - apply current_ok_single. congruence.
    - intros Hb. apply Forall_app. split; [apply Hnb, Hb|]. constructor; [|constructor].
      destruct (buildTextLine_runs cur) as [-> _]. exact Hne. }
  destruct (wrap_words Metrics MeasureString run f maxW (Fields (text run)) true
              (lines, cur, cw) "") as [[[l2 c2] w2] p2] eqn:Ew.
  destruct (wrap_words_ok maxW noblank run f (Fields (text run)) true lines cur cw ""
              ltac:(apply Forall_forall; intros w Hw; apply list_elem_of_In in Hw;
                    apply (Fields_nonempty (text run)), Hw)
              Hl Hc Hnb ltac:(reflexivity) ltac:(discriminate) ltac:(congruence)
              l2 c2 w2 p2 Ew) as (Hl2 & Hc2 & Hnb2 & Hfit2).
  destruct (nonempty p2) eqn:Np; inversion E; subst; [|auto].
  apply nonempty_true in Np. split; [exact Hl2|]. split; [|exact Hnb2].
  apply current_ok_snoc; [exact Hc2 | discriminate |].
  intros Hne2. cbn [width]. apply Hfit2; assumption.
Qed.

Lemma wrap_runs_ok (maxW : Z) (noblank : bool) (rs : list (@textRun Font Face)) (lines : list (@textLine Font Face))
    (cur : list (@textRun Font Face)) (cw : Z) :
  Forall (line_ok maxW) lines -> current_ok maxW cur cw ->
  (noblank = true -> Forall (fun l => runs l <> []) lines) ->
  (noblank = true -> forall r, In r rs -> text r <> newline) ->
  forall lines' cur' cw',
    fold_left (wrap_run Metrics MeasureString Fields maxW) rs (lines, cur, cw)
      = (lines', cur', cw') ->
    Forall (line_ok maxW) lines' /\ current_ok maxW cur' cw'
    /\ (noblank = true -> Forall (fun l => runs l <> []) lines').
Proof.
  revert lines cur cw. induction rs as [|r rs IH]; intros lines cur cw Hl Hc Hnb Hnl l' c' w' E.
  - simpl in E. inversion E; subst. auto.
  - cbn [fold_left] in E.
    destruct (wrap_run Metrics MeasureString Fields maxW (lines, cur, cw) r)
      as [[l1 c1] w1] eqn:E1.
    destruct (wrap_run_ok maxW noblank r lines cur cw Hl Hc Hnb
                ltac:(intros Hb; apply (Hnl Hb); left; reflexivity) l1 c1 w1 E1)
      as (Hl1 & Hc1 & Hnb1).
    eapply (IH l1 c1 w1); try eassumption.
    intros Hb r' Hr'. apply (Hnl Hb). right. exact Hr'.
Qed.

Lemma wrapRunLine_ok (noblank : bool) (rs : list (@textRun Font Face)) (maxWidth : Z) :
  (noblank = true -> forall r, In r rs -> text r <> newline) ->
  Forall (line_ok (wrap_width maxWidth)) (wrapRunLine Metrics MeasureString Fields rs maxWidth)
  /\ (noblank = true ->
      Forall (fun l => runs l <> []) (wrapRunLine Metrics MeasureString Fields rs maxWidth)).
Proof.
  intros Hnl. unfold wrapRunLine.
  destruct (length rs =? 0)%nat; [split; [constructor | intros _; constructor]|].
  fold (wrap_width maxWidth).
  destruct (fold_left (wrap_run Metrics MeasureString Fields (wrap_width maxWidth)) rs ([], [], 0))
    as [[l c] w] eqn:E.
  destruct (wrap_runs_ok (wrap_width maxWidth) noblank rs [] [] 0 ltac:(constructor)
              (current_ok_nil _) ltac:(intros _; constructor) Hnl l c w E) as (Hl & Hc & Hnb).
  destruct (0 <? length c)%nat eqn:Cc; [|split; assumption].
  split.
  - apply Forall_app. split; [exact Hl|]. constructor; [|constructor].
    eapply buildTextLine_ok. exact Hc.
  - intros Hb. apply Forall_app. split; [apply Hnb, Hb|]. constructor; [|constructor].
    destruct (buildTextLine_runs c) as [-> _]. destruct c; [discriminate | discriminate].
Qed.

End WrapFacts.

(** wrapRunLine keeps its lines within the width: whatever the runs, their
    widths and the font measures, every line of the result is as wide as
    the sum of the widths of its runs, and a line of two runs or more is no
    wider than the width asked for (at least 1); only a line made of a
    single run can be wider.  Runs without a face are left out.  Without
    line-break runs no line of the result is empty.  ([strings.Fields] is
    taken to return no empty word, as it does.) *)
Theorem wrapRunLine_fits {Font Face : Type} (Metrics : Face -> Z * Z)
    (MeasureString : Face -> string -> Z) (Fields : string -> list string)
    (rs : list (@text.textRun Font Face)) (maxWidth : Z) :
  (forall s w, In w (Fields s) -> w <> "") ->
  Forall (fun l =>
            text.line_width l = text.total_width (text.runs l)
            /\ ((2 <= length (text.runs l))%nat -> text.line_width l <= Z.max 1 maxWidth)
            /\ Forall (fun r => text.face r <> None) (text.runs l)
            /\ ((forall r, In r rs -> text.text r <> text.newline) -> text.runs l <> []))
         (text.wrapRunLine Metrics MeasureString Fields rs maxWidth).
Proof.
  intros HF. apply Forall_forall. intros l Hl.
  destruct (wrapRunLine_ok Metrics MeasureString Fields HF false rs maxWidth
              ltac:(discriminate)) as [Hok _].
  rewrite Forall_forall in Hok. destruct (Hok l Hl) as (H1 & H2 & H3).
  split; [exact H1|]. split.
  - intros Hlen. specialize (H2 Hlen). unfold text.wrap_width in H2.
    destruct (maxWidth <=? 0) eqn:E; lia.
  - split; [exact H3|]. intros Hnl.
    destruct (wrapRunLine_ok Metrics MeasureString Fields HF true rs maxWidth
                ltac:(intros _; exact Hnl)) as [_ Hne].
    specialize (Hne eq_refl). rewrite Forall_forall in Hne. apply Hne, Hl.
Qed.

Lemma sample_fields_nonempty (s w : string) : In w (text.sample_fields s) -> w <> "".
Proof.
  unfold text.sample_fields. generalize ""%string at 1. revert w.
  induction s as [|c s IH]; intros w cur; simpl.
  - destruct (String.eqb_spec cur ""); simpl; [tauto|]. intros [<- | []]. assumption.
  - destruct (Ascii.eqb c " ").
    + intros H. apply in_app_or in H as [H | H].
      * destruct (String.eqb_spec cur ""); simpl in H; [tauto|].
        destruct H as [<- | []]. assumption.
      * apply (IH _ _ H).
    + apply IH.
Qed.

Lemma wrapRunLine_fits_witness :
  Forall (fun l =>
            text.line_width l = text.total_width (text.runs l)
            /\ ((2 <= length (text.runs l))%nat -> text.line_width l <= Z.max 1 60)
            /\ Forall (fun r => text.face r <> None) (text.runs l)
            /\ ((forall r, In r [text.sample_run "aa bb"; text.sample_run "cc dd ee"] ->
                   text.text r <> text.newline) -> text.runs l <> []))
         (text.wrapRunLine (fun _ : unit => (10, 3)) text.sample_measure text.sample_fields
            [text.sample_run "aa bb"; text.sample_run "cc dd ee"] 60).
Proof.
  apply (wrapRunLine_fits (fun _ : unit => (10, 3)) text.sample_measure text.sample_fields
           [text.sample_run "aa bb"; text.sample_run "cc dd ee"] 60).
  exact sample_fields_nonempty.
Defined.

(** The second run does not fit behind the first: its first word still
    does, the rest goes to the next line. *)
Example wrapRunLine_sample :
  map (fun l => (map text.text (text.runs l), text.line_width l))
    (text.wrapRunLine (fun _ : unit => (10, 3)) text.sample_measure text.sample_fields
       [text.sample_run "aa bb"; text.sample_run "cc dd ee"] 60)
  = [(["aa bb"; "cc"], 49); (["dd ee"], 35)].
Proof. vm_compute. reflexivity. Qed.

(** * scaleImageBilinear at the size of the source *)

(** ** The float64 steps when the ratio is 1 *)

Lemma Prim2SF_0 : Prim2SF 0 = S754_zero false.
Proof. vm_compute. reflexivity. Qed.

Lemma of_int_0 : F64.of_int 0 = 0%float.
Proof. vm_compute. reflexivity. Qed.

Lemma of_int_1 : F64.of_int 1 = 1%float.
Proof. vm_compute. reflexivity. Qed.

Lemma div_self (W : Z) : 0 < W < 2 ^ 53 -> (F64.of_int W / F64.of_int W)%float = 1%float.
Proof.
  intros HW. apply FloatAxioms.Prim2SF_inj.
  rewrite FloatAxioms.div_spec, Prim2SF_of_int by lia.
  destruct (canonical_mantissa W ltac:(lia) ltac:(lia)) as [HM Hd].
  unfold canonical, SF64div, SFdiv.
  rewrite SFdiv_core_53 by (rewrite ?Z2Pos.id by lia; lia).
  rewrite Z2Pos.id by lia.
  rewrite Z.mul_comm, Z.div_mul, Z.mul_comm, Z.mod_mul by lia.
  replace (digits W - 53 - (digits W - 53) - 53) with (-53) by lia.
  assert (forall D, new_location D 0 = loc_Exact) as ->.
  { intros D. unfold new_location. destruct (Z.even D); reflexivity. }
  vm_compute. reflexivity.
Qed.

Lemma mul_one (d : Z) : 0 <= d < 2 ^ 53 -> (F64.of_int d * 1)%float = F64.of_int d.
Proof.
  intros Hd. destruct (Z.eq_dec d 0) as [->|Hne]; [vm_compute; reflexivity|].
  rewrite <- of_int_1, of_int_mul by lia. f_equal. lia.
Qed.

Lemma to_int_of_int (d : Z) : 0 <= d < 2 ^ 53 -> F64.to_int (F64.of_int d) = d.
Proof.
  intros Hd. destruct (Z.eq_dec d 0) as [->|Hne]; [vm_compute; reflexivity|].
  unfold F64.to_int. rewrite Prim2SF_of_int by lia.
  destruct (canonical_mantissa d ltac:(lia) ltac:(lia)) as [HM Hdd].
  unfold canonical. rewrite SFtrunc_finite, Z2Pos.id, trunc_value_nonpos by lia.
  replace (- (digits d - 53)) with (53 - digits d) by lia.
  rewrite Z.div_mul by (apply Z.pow_nonzero; lia).
  replace ((F64.min_int64 <=? d) && (d <? 2 ^ 63)) with true; [reflexivity|].
  symmetry. apply andb_true_iff. unfold F64.min_int64.
  split; [apply Z.leb_le | apply Z.ltb_lt]; lia.
Qed.

Lemma sub_self (d : Z) : 0 <= d < 2 ^ 53 -> (F64.of_int d - F64.of_int d)%float = 0%float.
Proof.
  intros Hd. destruct (Z.eq_dec d 0) as [->|Hne]; [vm_compute; reflexivity|].
  apply FloatAxioms.Prim2SF_inj.
  rewrite FloatAxioms.sub_spec, Prim2SF_of_int, Prim2SF_0 by lia.
  unfold canonical, SF64sub, SFsub. rewrite Z.min_id.
  unfold shl_align. rewrite Z.sub_diag. cbn [fst cond_Zopp]. rewrite ?Z.sub_diag.
  reflexivity.
Qed.

Lemma mul_zero (q : Z) : 0 <= q < 2 ^ 53 -> (F64.of_int q * 0)%float = 0%float.
Proof.
  intros Hq. destruct (Z.eq_dec q 0) as [->|Hne]; [vm_compute; reflexivity|].
  apply FloatAxioms.Prim2SF_inj.
  rewrite FloatAxioms.mul_spec, Prim2SF_of_int, Prim2SF_0 by lia. reflexivity.
Qed.

Lemma add_zero (p : Z) : 0 <= p < 2 ^ 53 -> (F64.of_int p + 0)%float = F64.of_int p.
Proof. intros Hp. rewrite <- of_int_0, of_int_add by lia. f_equal. lia. Qed.

Lemma one_minus_zero : (1 - 0)%float = 1%float.
Proof. vm_compute. reflexivity. Qed.

(** The value written for a channel when both fractions are 0. *)
Lemma channel_identity (v00 v10 v01 v11 : Z) :
  is_byte v00 -> is_byte v10 -> is_byte v01 -> is_byte v11 ->
  to_uint8 ((F64.of_int v00 * 1 + F64.of_int v10 * 0) * 1
            + (F64.of_int v01 * 1 + F64.of_int v11 * 0) * 0)%float = v00.
Proof.
  unfold is_byte. intros H0 H1 H2 H3.
  rewrite !mul_one, !mul_zero, !add_zero, mul_one, mul_zero, add_zero by lia.
  unfold to_uint8, u8. rewrite to_int_of_int by lia. apply Z.mod_small. lia.
Qed.

(** ** The loops *)

Lemma channels_identity (n : nat) (ch : Z) (sp : list Z) (o00 o10 o01 o11 dstOff : Z)
    (pix : list Z) :
  0 <= ch -> ch + Z.of_nat n = 4 -> bytes_ok sp ->
  0 <= o00 -> o00 + 4 <= Z.of_nat (length sp) ->
  0 <= o10 -> o10 + 4 <= Z.of_nat (length sp) ->
  0 <= o01 -> o01 + 4 <= Z.of_nat (length sp) ->
  0 <= o11 -> o11 + 4 <= Z.of_nat (length sp) ->
  0 <= dstOff -> dstOff + 4 <= Z.of_nat (length pix) ->
  exists pix',
    scale.channels n ch sp o00 o10 o01 o11 0 1 0 1 dstOff pix = Some pix'
    /\ length pix' = length pix
    /\ forall i, load pix' i
                 = if (dstOff + ch <=? i) && (i <? dstOff + 4)
                   then load sp (o00 + (i - dstOff)) else load pix i.
Proof.
  intros Hch Hn Hb A0 A1 B0 B1 C0 C1 D0 D1 E0. revert ch pix Hch Hn.
  induction n as [|n IH]; intros ch pix Hch Hn E1.
  - exists pix. split; [reflexivity|]. split; [reflexivity|]. intros i.
    replace ((dstOff + ch <=? i) && (i <? dstOff + 4)) with false by lia. reflexivity.
  - cbn [scale.channels].
    destruct (load_Some sp (o00 + ch)) as [v00 L00]; [lia|].
    destruct (load_Some sp (o10 + ch)) as [v10 L10]; [lia|].
    destruct (load_Some sp (o01 + ch)) as [v01 L01]; [lia|].
    destruct (load_Some sp (o11 + ch)) as [v11 L11]; [lia|].
    rewrite L00, L10, L01, L11. cbn [mbind option_bind].
    rewrite channel_identity by (eapply load_is_byte; eauto).
    destruct (store_in_range pix (dstOff + ch) v00) as [p1 S1]; [lia|].
    rewrite S1. cbn [mbind option_bind].
    destruct (IH (ch + 1) p1) as (p2 & E2 & L2 & S2);
      [lia | lia | rewrite (length_store _ _ _ _ S1); exact E1 |].
    exists p2. split; [exact E2|]. split; [rewrite L2; eapply length_store; eauto|].
    intros i. rewrite S2, (load_store _ _ _ _ i S1).
    destruct (Z.eq_dec i (dstOff + ch)) as [->|Hne].
    + replace ((dstOff + (ch + 1) <=? dstOff + ch) && (dstOff + ch <? dstOff + 4))
        with false by lia.
      replace ((dstOff + ch <=? dstOff + ch) && (dstOff + ch <? dstOff + 4)) with true by lia.
      rewrite Z.eqb_refl. rewrite <- L00. f_equal. lia.
    + replace (i =? dstOff + ch) with false by lia.
      replace ((dstOff + (ch + 1) <=? i) && (i <? dstOff + 4))
        with ((dstOff + ch <=? i) && (i <? dstOff + 4)) by lia.
      reflexivity.
Qed.

Lemma columns_identity (n : nat) (dx W : Z) (sp : list Z) (srcOff0 srcOff1 dbase : Z)
    (pix : list Z) :
  0 <= dx -> dx + Z.of_nat n = W -> W < 2 ^ 53 -> bytes_ok sp ->
  0 <= srcOff0 -> srcOff0 + 4 * W <= Z.of_nat (length sp) ->
  0 <= srcOff1 -> srcOff1 + 4 * W <= Z.of_nat (length sp) ->
  0 <= dbase -> dbase + 4 * W <= Z.of_nat (length pix) ->
  exists pix',
    scale.columns n dx sp 1 W srcOff0 srcOff1 0 1 (dbase + 4 * dx) pix = Some pix'
    /\ length pix' = length pix
    /\ forall i, load pix' i
                 = if (dbase + 4 * dx <=? i) && (i <? dbase + 4 * W)
                   then load sp (srcOff0 + (i - dbase)) else load pix i.
Proof.
  intros Hdx Hn HW Hb A0 A1 B0 B1 D0. revert dx pix Hdx Hn.
  induction n as [|n IH]; intros dx pix Hdx Hn D1.
  - exists pix. split; [reflexivity|]. split; [reflexivity|]. intros i.
    replace ((dbase + 4 * dx <=? i) && (i <? dbase + 4 * W)) with false by lia. reflexivity.
  - cbn [scale.columns].
    rewrite mul_one, to_int_of_int, sub_self, one_minus_zero by lia.
    set (sx1 := if dx + 1 >=? W then W - 1 else dx + 1).
    assert (0 <= sx1 < W) as Hsx1 by (subst sx1; destruct (dx + 1 >=? W) eqn:E; lia).
    destruct (channels_identity 4 0 sp (srcOff0 + dx * 4) (srcOff0 + sx1 * 4)
                (srcOff1 + dx * 4) (srcOff1 + sx1 * 4) (dbase + 4 * dx) pix)
      as (p1 & E1 & L1 & S1); try lia; try assumption.
    rewrite E1. cbn [mbind option_bind].
    replace (dbase + 4 * dx + 4) with (dbase + 4 * (dx + 1)) by lia.
    destruct (IH (dx + 1) p1) as (p2 & E2 & L2 & S2); [lia | lia | lia |].
    exists p2. split; [exact E2|]. split; [lia|].
    intros i. rewrite S2, S1.
    destruct ((dbase + 4 * (dx + 1) <=? i) && (i <? dbase + 4 * W)) eqn:C1.
    + replace ((dbase + 4 * dx <=? i) && (i <? dbase + 4 * W)) with true by lia.
      reflexivity.
    + destruct ((dbase + 4 * dx + 0 <=? i) && (i <? dbase + 4 * dx + 4)) eqn:C2.
      * replace ((dbase + 4 * dx <=? i) && (i <? dbase + 4 * W)) with true by lia.
        f_equal. lia.
      * replace ((dbase + 4 * dx <=? i) && (i <? dbase + 4 * W)) with false by lia.
        reflexivity.
Qed.

Lemma rows_identity (n : nat) (dy W H : Z) (src : image.RGBA) (pix : list Z) :
  0 <= dy -> dy + Z.of_nat n = H -> 0 < W < 2 ^ 53 -> H < 2 ^ 53 ->
  bytes_ok (image.Pix src) -> image.Stride src = 4 * W ->
  Z.of_nat (length (image.Pix src)) = 4 * W * H ->
  Z.of_nat (length pix) = 4 * W * H ->
  exists pix',
    scale.rows n dy src 1 1 W H W (4 * W) pix = Some pix'
    /\ length pix' = length pix
    /\ forall i, load pix' i
                 = if (4 * W * dy <=? i) && (i <? 4 * W * H)
                   then load (image.Pix src) i else load pix i.
Proof.
  intros Hdy Hn HW HH Hb Hs Hl. revert dy pix Hdy Hn.
  induction n as [|n IH]; intros dy pix Hdy Hn Hp.
  - exists pix. split; [reflexivity|]. split; [reflexivity|]. intros i.
    replace ((4 * W * dy <=? i) && (i <? 4 * W * H)) with false by lia. reflexivity.
  - cbn [scale.rows].
    rewrite mul_one, to_int_of_int, sub_self, one_minus_zero by lia.
    set (sy1 := if dy + 1 >=? H then H - 1 else dy + 1).
    assert (0 <= sy1 < H) as Hsy1 by (subst sy1; destruct (dy + 1 >=? H) eqn:E; lia).
    rewrite Hs.
    replace ((dy + image.Y (image.Min (image.Bounds src))
              - image.Y (image.Min (image.Bounds src))) * (4 * W)
             + (image.X (image.Min (image.Bounds src))
                - image.X (image.Min (image.Bounds src))) * 4)
      with (dy * (4 * W)) by lia.
    replace ((sy1 + image.Y (image.Min (image.Bounds src))
              - image.Y (image.Min (image.Bounds src))) * (4 * W)
             + (image.X (image.Min (image.Bounds src))
                - image.X (image.Min (image.Bounds src))) * 4)
      with (sy1 * (4 * W)) by lia.
    destruct (columns_identity (Z.to_nat W) 0 W (image.Pix src) (dy * (4 * W)) (sy1 * (4 * W))
                (dy * (4 * W)) pix) as (p1 & E1 & L1 & S1); try lia; try assumption; try nia.
    rewrite Z.mul_0_r, Z.add_0_r in E1. rewrite E1. cbn [mbind option_bind].
    destruct (IH (dy + 1) p1) as (p2 & E2 & L2 & S2); [lia | lia | lia |].
    exists p2. split; [exact E2|]. split; [lia|].
    intros i. rewrite S2, S1.
    destruct ((4 * W * (dy + 1) <=? i) && (i <? 4 * W * H)) eqn:C1.
    + replace ((4 * W * dy <=? i) && (i <? 4 * W * H)) with true by nia. reflexivity.
    + destruct ((dy * (4 * W) + 4 * 0 <=? i) && (i <? dy * (4 * W) + 4 * W)) eqn:C2.
      * replace ((4 * W * dy <=? i) && (i <? 4 * W * H)) with true by nia.
        f_equal. lia.
      * replace ((4 * W * dy <=? i) && (i <? 4 * W * H)) with false by nia. reflexivity.
Qed.

Lemma load_eq_list (a b : list Z) :
  length a = length b -> (forall i, load a i = load b i) -> a = b.
Proof.
  intros Hl H. apply list_eq. intros i.
  destruct (Nat.lt_ge_cases i (length a)) as [Hi|Hi].
  - specialize (H (Z.of_nat i)). unfold load in H. rewrite <- Hl in H.
    replace ((0 <=? Z.of_nat i) && (Z.of_nat i <? Z.of_nat (length a))) with true in H by lia.
    rewrite Nat2Z.id in H. exact H.
  - rewrite !lookup_ge_None_2 by lia. reflexivity.
Qed.

(** Scaling an [*image.RGBA] to its own size copies it: scaleImageBilinear
    returns a new image at the origin, with the same stride and, byte for
    byte, the pixels of the source (every float64 step of the interpolation
    is exact: the ratios are 1, the fractions 0).  Asked for a width or a
    height of zero or less it returns a transparent image of one pixel. *)
Theorem scaleImageBilinear_same_size (src : image.RGBA) :
  wf_img src -> bytes_ok (image.Pix src) ->
  0 < image.Dx (image.Bounds src) < 2 ^ 53 -> 0 < image.Dy (image.Bounds src) < 2 ^ 53 ->
  4 * image.Dx (image.Bounds src) * image.Dy (image.Bounds src) < 2 ^ 63 ->
  (exists dst,
     scale.scaleImageBilinear src (image.Dx (image.Bounds src)) (image.Dy (image.Bounds src))
       = Some dst
     /\ image.Bounds dst
        = image.Rect 0 0 (image.Dx (image.Bounds src)) (image.Dy (image.Bounds src))
     /\ image.Stride dst = image.Stride src
     /\ image.Pix dst = image.Pix src)
  /\ (forall dstW dstH, dstW <= 0 \/ dstH <= 0 ->
        scale.scaleImageBilinear src dstW dstH
        = Some (image.RGBA_ [0; 0; 0; 0] 4 (image.Rect 0 0 1 1))).
Proof.
  intros (_ & _ & Hs & Hl) Hb HW HH Hfit. split.
  - set (W := image.Dx (image.Bounds src)) in *. set (H := image.Dy (image.Bounds src)) in *.
    unfold scale.scaleImageBilinear. fold W H.
    replace ((W <=? 0) || (H <=? 0)) with false by lia.
    assert (image.Dx (image.Rect 0 0 W H) = W /\ image.Dy (image.Rect 0 0 W H) = H)
      as [Edx Edy].
    { unfold image.Rect, image.Dx, image.Dy.
      replace (0 >? W) with false by lia. replace (0 >? H) with false by lia. simpl. lia. }
    unfold image.NewRGBA. rewrite Edx, Edy.
    replace ((0 <=? W) && (0 <=? H) && (4 * W * H <? 2 ^ 63)) with true by lia.
    cbn [mbind option_bind image.Stride image.Pix]. rewrite !div_self by lia.
    assert (Z.of_nat (length (image.Pix src)) = 4 * W * H) as Hl' by (rewrite Hl, Hs; ring).
    assert (0 <= 4 * W * H) as Hnn by nia.
    assert (Z.of_nat (length (replicate (Z.to_nat (4 * W * H)) 0)) = 4 * W * H) as Hr
      by (rewrite length_replicate; lia).
    destruct (rows_identity (Z.to_nat H) 0 W H src (replicate (Z.to_nat (4 * W * H)) 0))
      as (pix & E & L & S); try lia; try assumption.
    rewrite E. cbn [mbind option_bind]. eexists. split; [reflexivity|].
    unfold image.with_pix. cbn [image.Bounds image.Stride image.Pix].
    split; [reflexivity|]. split; [symmetry; exact Hs|].
    apply load_eq_list.
    + apply Nat2Z.inj. rewrite L, Hr, Hl'. reflexivity.
    + intros i. rewrite S.
      destruct ((4 * W * 0 <=? i) && (i <? 4 * W * H)) eqn:C; [reflexivity|].
      rewrite !load_None; [reflexivity | lia | lia].
  - intros dstW dstH Hd. unfold scale.scaleImageBilinear.
    replace ((dstW <=? 0) || (dstH <=? 0)) with true by lia. reflexivity.
Qed.

Lemma sample_canvas_bytes : bytes_ok (image.Pix sample_canvas).
Proof.
  unfold bytes_ok, sample_canvas. cbn [image.Pix]. apply Forall_forall. intros x Hx.
  apply elem_of_replicate in Hx as [-> _]. unfold is_byte. lia.
Qed.

Lemma scaleImageBilinear_same_size_witness :
  (exists dst,
     scale.scaleImageBilinear sample_canvas (image.Dx (image.Bounds sample_canvas))
       (image.Dy (image.Bounds sample_canvas)) = Some dst
     /\ image.Bounds dst
        = image.Rect 0 0 (image.Dx (image.Bounds sample_canvas))
            (image.Dy (image.Bounds sample_canvas))
     /\ image.Stride dst = image.Stride sample_canvas
     /\ image.Pix dst = image.Pix sample_canvas)
  /\ (forall dstW dstH, dstW <= 0 \/ dstH <= 0 ->
        scale.scaleImageBilinear sample_canvas dstW dstH
        = Some (image.RGBA_ [0; 0; 0; 0] 4 (image.Rect 0 0 1 1))).
Proof.
  apply (scaleImageBilinear_same_size sample_canvas).
  - apply sample_canvas_wf.
  - apply sample_canvas_bytes.
  - vm_compute. split; reflexivity.
  - vm_compute. split; reflexivity.
  - vm_compute. reflexivity.
Defined.

(** A 2 x 1 image of two different pixels, scaled to its own size. *)
Example scaleImageBilinear_sample :
  image.Pix <$> scale.scaleImageBilinear
                  (image.RGBA_ [10; 20; 30; 255; 200; 100; 0; 128] 8 (image.Rect 5 7 7 8)) 2 1
  = Some [10; 20; 30; 255; 200; 100; 0; 128].
Proof. vm_compute. reflexivity. Qed.

(** * angleInSweep on float64 *)

(** The slice of a pie chart with one category, from -π/2 to -π/2 + 2π:
    the direction straight up is in it, the directions to the right, down
    and to the left are not. *)
Example angleInSweep_single_slice :
  map (fun a => Sweep.angleInSweep 1 a minus_half_pi (minus_half_pi + F64.two_pi))
    [minus_half_pi; 0; (- minus_half_pi); 0x1.921fb54442d18p+1]%float
  = [Some true; Some false; Some false; Some false].
Proof. vm_compute. reflexivity. Qed.

(** * Anti-aliased lines along an axis *)

(** ** float64 steps on integers and half-integers *)

(** A value with a 53-digit form [M * 2^E] is rounded to that form. *)
Lemma round_dyadic (s : bool) (m : positive) (e M E : Z) :
  2 ^ 52 <= M < 2 ^ 53 -> -1074 <= E <= 971 ->
  (E <= e /\ M = Zpos m * 2 ^ (e - E)) \/ (e <= E /\ Zpos m = M * 2 ^ (E - e)) ->
  binary_round FloatOps.prec FloatOps.emax s m e = S754_finite s (Z.to_pos M) E.
Proof.
  intros HM HE Hrel.
  assert (digits (Zpos m) + e = 53 + E) as Hd.
  { destruct Hrel as [[Hle Hm] | [Hle Hm]].
    - assert (digits (Zpos m * 2 ^ (e - E)) = 53) as H
        by (rewrite <- Hm; apply digits_unique; lia).
      rewrite digits_shift in H by lia. lia.
    - rewrite Hm, digits_shift by lia.
      rewrite (digits_unique M 53) by lia. lia. }
  unfold binary_round.
  change (Zpos (digits2_pos m)) with (Zdigits2 (Zpos m)).
  rewrite Zdigits2_digits, Hd, fexp_normal by lia.
  replace (53 + E - 53) with E by lia.
  destruct Hrel as [[Hle Hm] | [Hle Hm]].
  - destruct (shl_align_spec m e E Hle) as (mz & -> & Hmz).
    rewrite (round_exact s mz E M 0) by (try lia; rewrite Hmz, <- Hm; lia).
    f_equal. lia.
  - destruct (Z.eq_dec e E) as [->|Hne].
    + destruct (shl_align_spec m E E ltac:(lia)) as (mz & -> & Hmz).
      rewrite (round_exact s mz E M 0) by (try lia; rewrite Hmz, Hm, Z.sub_diag; lia).
      f_equal. lia.
    + assert (shl_align m e E = (m, e)) as ->.
      { unfold shl_align. destruct (E - e) eqn:Ed; try reflexivity; lia. }
      rewrite (round_exact s m e M (E - e)) by lia.
      f_equal. lia.
Qed.

Lemma digits_succ_double (x : Z) : 0 < x -> digits (2 * x + 1) = digits x + 1.
Proof.
  intros Hx. pose proof (digits_bounds x Hx) as [H1 H2]. pose proof (digits_pos x Hx) as Hd.
  apply digits_unique; [lia|].
  replace (digits x + 1 - 1) with (digits x) by lia.
  replace (digits x) with (Z.succ (digits x - 1)) at 1 by lia.
  rewrite Z.pow_succ_r by lia. rewrite Z.pow_add_r by lia. change (2 ^ 1) with 2. lia.
Qed.

(** [float64(x) + 0.5] *)
Lemma Prim2SF_half (x : Z) :
  0 < x < 2 ^ 51 ->
  Prim2SF (F64.of_int x + 0.5)%float
  = S754_finite false (Z.to_pos ((2 * x + 1) * 2 ^ (52 - digits x))) (digits x - 53).
Proof.
  intros Hx. rewrite FloatAxioms.add_spec, Prim2SF_of_int by lia.
  destruct (canonical_mantissa x ltac:(lia) ltac:(lia)) as [HM Hd].
  pose proof (digits_le x 51 ltac:(lia) ltac:(lia) ltac:(lia)) as Hd51.
  change (Prim2SF 0.5) with (S754_finite false (Z.to_pos (2 ^ 52)) (-53)).
  unfold canonical, SF64add, SFadd.
  replace (Z.min (digits x - 53) (-53)) with (-53) by lia.
  destruct (shl_align_spec (Z.to_pos (x * 2 ^ (53 - digits x))) (digits x - 53) (-53)
              ltac:(lia)) as (mx & -> & Hmx).
  destruct (shl_align_spec (Z.to_pos (2 ^ 52)) (-53) (-53) ltac:(lia)) as (mh & -> & Hmh).
  cbn [fst cond_Zopp]. rewrite Z2Pos.id in Hmx by lia.
  change (Zpos mx + Zpos mh) with (Zpos (mx + mh)). unfold binary_normalize.
  assert (0 < 2 ^ (52 - digits x)) as Hp by (apply Z.pow_pos_nonneg; lia).
  assert (2 ^ (53 - digits x) = 2 * 2 ^ (52 - digits x)) as E53.
  { replace (53 - digits x) with (Z.succ (52 - digits x)) by lia.
    rewrite Z.pow_succ_r by lia. reflexivity. }
  apply round_dyadic.
  - rewrite E53 in HM.
    assert (2 ^ (52 - digits x) <= 2 ^ 51) by (apply Z.pow_le_mono_r; lia).
    split; [nia|].
    assert ((2 * x + 1) * 2 ^ (52 - digits x) <= x * (2 * 2 ^ (52 - digits x))
            + 2 ^ (52 - digits x)) by lia.
    pose proof (digits_bounds x ltac:(lia)) as [B1 B2].
    assert (2 ^ digits x * 2 ^ (52 - digits x) = 2 ^ 52) as E52
      by (rewrite <- Z.pow_add_r by lia; f_equal; lia).
    nia.
  - lia.
  - right. split; [lia|].
    rewrite Pos2Z.inj_add, Hmx, Hmh.
    replace (digits x - 53 - -53) with (digits x) by lia.
    replace (-53 - -53) with 0 by lia.
    rewrite Z.pow_0_r, Z.mul_1_r.
    change (Zpos (Z.to_pos (2 ^ 52))) with (2 ^ 52).
    assert (2 ^ (53 - digits x) * 2 ^ digits x = 2 ^ 53) as E1
      by (rewrite <- Z.pow_add_r by lia; f_equal; lia).
    assert (2 ^ (52 - digits x) * 2 ^ digits x = 2 ^ 52) as E2
      by (rewrite <- Z.pow_add_r by lia; f_equal; lia).
    change (2 ^ 53) with (2 * 2 ^ 52) in E1. nia.
Qed.

Lemma Prim2SF_infinity : Prim2SF infinity = S754_infinity false.
Proof. vm_compute. reflexivity. Qed.

(** The tests that math.Floor makes first, on a positive finite value. *)
Lemma positive_tests (x : float) (m : positive) (e : Z) :
  Prim2SF x = S754_finite false m e ->
  (x =? 0)%float = false /\ F64.isNaN x = false /\ is_infinity x = false
  /\ (x <? 0)%float = false.
Proof.
  intros H. repeat split.
  - rewrite FloatAxioms.eqb_spec, H, Prim2SF_0. reflexivity.
  - unfold F64.isNaN. rewrite FloatAxioms.eqb_spec, H. unfold SFeqb, SFcompare.
    rewrite Z.compare_refl, Pos.compare_cont_refl. reflexivity.
  - unfold is_infinity. rewrite FloatAxioms.eqb_spec, FloatAxioms.abs_spec, H, Prim2SF_infinity.
    reflexivity.
  - rewrite FloatAxioms.ltb_spec, H, Prim2SF_0. reflexivity.
Qed.

Lemma Floor_positive (x : float) (m : positive) (e z : Z) :
  Prim2SF x = S754_finite false m e -> trunc_value (Zpos m) e = z -> 0 <= z < 2 ^ 53 ->
  F64.Floor x = F64.of_int z.
Proof.
  intros H Hz Hr. destruct (positive_tests x m e H) as (T1 & T2 & T3 & T4).
  unfold F64.Floor. rewrite T1, T2, T3, T4. cbn [orb].
  unfold F64.int_part. rewrite H, SFtrunc_finite, Hz.
  replace (Z.abs z <? 2 ^ 53) with true by lia. reflexivity.
Qed.

Lemma Floor_of_int (y : Z) : 0 <= y < 2 ^ 53 -> F64.Floor (F64.of_int y) = F64.of_int y.
Proof.
  intros Hy. destruct (Z.eq_dec y 0) as [->|Hne]; [vm_compute; reflexivity|].
  destruct (canonical_mantissa y ltac:(lia) ltac:(lia)) as [HM Hd].
  eapply Floor_positive; [apply Prim2SF_of_int; lia | | lia].
  rewrite Z2Pos.id, trunc_value_nonpos by lia.
  replace (- (digits y - 53)) with (53 - digits y) by lia.
  apply Z.div_mul. apply Z.pow_nonzero; lia.
Qed.

Lemma Floor_half (x : Z) :
  0 <= x < 2 ^ 51 -> F64.Floor (F64.of_int x + 0.5)%float = F64.of_int x.
Proof.
  intros Hx. destruct (Z.eq_dec x 0) as [->|Hne]; [vm_compute; reflexivity|].
  destruct (canonical_mantissa x ltac:(lia) ltac:(lia)) as [HM Hd].
  pose proof (digits_le x 51 ltac:(lia) ltac:(lia) ltac:(lia)) as Hd51.
  assert (0 < 2 ^ (52 - digits x)) as Hp by (apply Z.pow_pos_nonneg; lia).
  eapply Floor_positive; [apply Prim2SF_half; lia | | lia].
  rewrite Z2Pos.id, trunc_value_nonpos by lia.
  replace (- (digits x - 53)) with (Z.succ (52 - digits x)) by lia.
  rewrite Z.pow_succ_r by lia.
  rewrite (Z.mul_comm 2), Z.div_mul_cancel_r by lia.
  symmetry. apply Z.div_unique with 1; lia.
Qed.

Lemma fpart_of_int (y : Z) : 0 <= y < 2 ^ 53 -> wu.fpart (F64.of_int y) = 0%float.
Proof. intros Hy. unfold wu.fpart. rewrite Floor_of_int, sub_self by lia. reflexivity. Qed.

Lemma fpart_half (x : Z) : 0 <= x < 2 ^ 51 -> wu.fpart (F64.of_int x + 0.5)%float = 0.5%float.
Proof.
  intros Hx. unfold wu.fpart. rewrite Floor_half by lia.
  destruct (Z.eq_dec x 0) as [->|Hne]; [vm_compute; reflexivity|].
  apply FloatAxioms.Prim2SF_inj.
  rewrite FloatAxioms.sub_spec, Prim2SF_half, Prim2SF_of_int by lia.
  destruct (canonical_mantissa x ltac:(lia) ltac:(lia)) as [HM Hd].
  pose proof (digits_le x 51 ltac:(lia) ltac:(lia) ltac:(lia)) as Hd51.
  assert (0 < 2 ^ (52 - digits x)) as Hp by (apply Z.pow_pos_nonneg; lia).
  assert (2 ^ (53 - digits x) = 2 * 2 ^ (52 - digits x)) as E53.
  { replace (53 - digits x) with (Z.succ (52 - digits x)) by lia.
    rewrite Z.pow_succ_r by lia. reflexivity. }
  unfold canonical, SF64sub, SFsub. rewrite Z.min_id.
  unfold shl_align. rewrite Z.sub_diag. cbn [fst cond_Zopp].
  rewrite !Z2Pos.id by nia.
  replace ((2 * x + 1) * 2 ^ (52 - digits x) - x * 2 ^ (53 - digits x))
    with (2 ^ (52 - digits x)) by lia.
  destruct (2 ^ (52 - digits x)) as [|p|p] eqn:Ep; [lia| |lia].
  unfold binary_normalize.
  change (Prim2SF 0.5) with (S754_finite false (Z.to_pos (2 ^ 52)) (-53)).
  apply round_dyadic; [lia | lia |]. left. split; [lia|].
  rewrite <- Ep. replace (digits x - 53 - -53) with (digits x) by lia.
  rewrite <- Z.pow_add_r by lia. f_equal. lia.
Qed.

Lemma Round_of_int (x : Z) : 0 <= x < 2 ^ 53 -> wu.Round (F64.of_int x) = F64.of_int x.
Proof.
  intros Hx. destruct (Z.eq_dec x 0) as [->|Hne]; [vm_compute; reflexivity|].
  unfold wu.Round. rewrite Prim2SF_of_int by lia.
  destruct (canonical_mantissa x ltac:(lia) ltac:(lia)) as [HM Hd].
  unfold canonical. destruct (0 <=? digits x - 53) eqn:E; [reflexivity|].
  apply Z.leb_gt in E. rewrite Z2Pos.id by lia.
  replace (- (digits x - 53)) with (53 - digits x) by lia.
  assert (0 < 2 ^ (53 - digits x - 1)) as Hp by (apply Z.pow_pos_nonneg; lia).
  assert (2 ^ (53 - digits x) = 2 * 2 ^ (53 - digits x - 1)) as E53.
  { replace (53 - digits x) with (Z.succ (53 - digits x - 1)) at 1 by lia.
    rewrite Z.pow_succ_r by lia. reflexivity. }
  assert ((x * 2 ^ (53 - digits x) + 2 ^ (53 - digits x - 1)) / 2 ^ (53 - digits x) = x) as ->.
  { symmetry. apply Z.div_unique with (2 ^ (53 - digits x - 1)); lia. }
  replace (x =? 0) with false by lia. reflexivity.
Qed.

Lemma abs_of_int (z : Z) : 0 <= z < 2 ^ 53 -> PrimFloat.abs (F64.of_int z) = F64.of_int z.
Proof.
  intros Hz. destruct (Z.eq_dec z 0) as [->|Hne]; [vm_compute; reflexivity|].
  apply FloatAxioms.Prim2SF_inj. rewrite FloatAxioms.abs_spec, Prim2SF_of_int by lia.
  reflexivity.
Qed.

(** The difference of two integers, with its sign. *)
Lemma Prim2SF_sub (a b : Z) :
  0 < a < 2 ^ 53 -> 0 < b < 2 ^ 53 -> a <> b ->
  Prim2SF (F64.of_int a - F64.of_int b)%float
  = S754_finite (a <? b) (Z.to_pos (Z.abs (a - b) * 2 ^ (53 - digits (Z.abs (a - b)))))
      (digits (Z.abs (a - b)) - 53).
Proof.
  intros Ha Hb Hne. rewrite FloatAxioms.sub_spec, !Prim2SF_of_int by lia.
  destruct (canonical_mantissa a ltac:(lia) ltac:(lia)) as [MA DA].
  destruct (canonical_mantissa b ltac:(lia) ltac:(lia)) as [MB DB].
  unfold canonical at 1 2. unfold SF64sub, SFsub.
  set (ez := Z.min (digits a - 53) (digits b - 53)).
  destruct (shl_align_spec (Z.to_pos (a * 2 ^ (53 - digits a))) (digits a - 53) ez
              ltac:(lia)) as (ma & -> & Hma).
  destruct (shl_align_spec (Z.to_pos (b * 2 ^ (53 - digits b))) (digits b - 53) ez
              ltac:(lia)) as (mb & -> & Hmb).
  cbn [fst cond_Zopp]. rewrite Z2Pos.id in Hma, Hmb by lia.
  assert (Zpos ma = a * 2 ^ (- ez)) as Ea.
  { rewrite Hma, <- Z.mul_assoc, <- Z.pow_add_r by lia. f_equal. f_equal. lia. }
  assert (Zpos mb = b * 2 ^ (- ez)) as Eb.
  { rewrite Hmb, <- Z.mul_assoc, <- Z.pow_add_r by lia. f_equal. f_equal. lia. }
  assert (0 < 2 ^ (- ez)) as Hp by (apply Z.pow_pos_nonneg; lia).
  destruct (Zpos ma - Zpos mb) as [|p|p] eqn:Ed.
  - exfalso. nia.
  - assert (b < a) by nia. replace (a <? b) with false by lia.
    replace (Z.abs (a - b)) with (a - b) by lia.
    unfold binary_normalize. apply round_integer; [lia | lia |]. rewrite <- Ed, Ea, Eb. ring.
  - assert (a < b) by nia. replace (a <? b) with true by lia.
    replace (Z.abs (a - b)) with (b - a) by lia.
    unfold binary_normalize. apply round_integer; [lia | lia |].
    assert (Zpos p = Zpos mb - Zpos ma) as -> by lia. rewrite Ea, Eb. ring.
Qed.

Lemma of_int_sub (a b : Z) :
  0 <= b <= a -> a < 2 ^ 53 -> (F64.of_int a - F64.of_int b)%float = F64.of_int (a - b).
Proof.
  intros Hb Ha. destruct (Z.eq_dec a b) as [->|Hne].
  { rewrite sub_self, Z.sub_diag by lia. symmetry. apply of_int_0. }
  destruct (Z.eq_dec b 0) as [->|Hb0].
  { rewrite Z.sub_0_r. apply FloatAxioms.Prim2SF_inj.
    rewrite FloatAxioms.sub_spec, Prim2SF_of_int_0, Prim2SF_of_int by lia. reflexivity. }
  apply FloatAxioms.Prim2SF_inj. rewrite Prim2SF_sub, Prim2SF_of_int by lia.
  replace (a <? b) with false by lia. replace (Z.abs (a - b)) with (a - b) by lia.
  reflexivity.
Qed.

(** [math.Abs(float64(a) - float64(b))] *)
Lemma abs_sub (a b : Z) :
  0 <= a < 2 ^ 53 -> 0 <= b < 2 ^ 53 ->
  PrimFloat.abs (F64.of_int a - F64.of_int b)%float = F64.of_int (Z.abs (a - b)).
Proof.
  intros Ha Hb. destruct (Z_le_gt_dec b a) as [Hle|Hgt].
  { rewrite of_int_sub, abs_of_int by lia. f_equal. lia. }
  apply FloatAxioms.Prim2SF_inj. rewrite FloatAxioms.abs_spec.
  destruct (Z.eq_dec a 0) as [->|Ha0].
  - rewrite FloatAxioms.sub_spec, Prim2SF_of_int_0, !Prim2SF_of_int by lia.
    replace (Z.abs (0 - b)) with b by lia. reflexivity.
  - rewrite Prim2SF_sub, Prim2SF_of_int by lia. reflexivity.
Qed.

Lemma of_int_ltb (p q : Z) :
  0 <= p < 2 ^ 53 -> 0 <= q < 2 ^ 53 ->
  (F64.of_int p <? F64.of_int q)%float = (p <? q).
Proof.
  intros Hp Hq.
  destruct (Z.eq_dec q 0) as [->|Hq0].
  { rewrite FloatAxioms.ltb_spec, Prim2SF_of_int_0.
    destruct (Z.eq_dec p 0) as [->|Hp0]; [rewrite Prim2SF_of_int_0; reflexivity|].
    rewrite Prim2SF_of_int by lia. unfold canonical, SFltb, SFcompare. symmetry. lia. }
  pose proof (of_int_leb q p ltac:(lia)) as H.
  destruct (Z.eq_dec p 0) as [->|Hp0].
  { rewrite FloatAxioms.ltb_spec, Prim2SF_of_int_0, Prim2SF_of_int by lia.
    unfold canonical, SFltb, SFcompare. symmetry. lia. }
  specialize (H ltac:(lia)).
  assert (notNaN (F64.of_int p)) as Np by apply notNaN_of_int.
  assert (notNaN (F64.of_int q)) as Nq by apply notNaN_of_int.
  destruct (p <? q) eqn:E.
  - replace (q <=? p) with false in H by lia.
    apply leb_false_key in H; [|assumption|assumption].
    apply ltb_key; assumption.
  - replace (q <=? p) with true in H by lia.
    apply leb_key in H; [|assumption|assumption].
    apply ltb_false_key; assumption.
Qed.

Lemma of_int_eqb_0 (d : Z) : 0 <= d < 2 ^ 53 -> (F64.of_int d =? 0)%float = (d =? 0).
Proof.
  intros Hd. destruct (Z.eq_dec d 0) as [->|Hne]; [vm_compute; reflexivity|].
  rewrite FloatAxioms.eqb_spec, Prim2SF_of_int, Prim2SF_0 by lia.
  unfold canonical, SFeqb, SFcompare. symmetry. lia.
Qed.

Lemma zero_div (d : Z) : 0 < d < 2 ^ 53 -> (0 / F64.of_int d)%float = 0%float.
Proof.
  intros Hd. apply FloatAxioms.Prim2SF_inj.
  rewrite FloatAxioms.div_spec, Prim2SF_of_int, Prim2SF_0 by lia. reflexivity.
Qed.

(** [uint8(float64(a) * 0.5)] for a byte. *)
Lemma half_byte (a : Z) : is_byte a -> to_uint8 (F64.of_int a * 0.5)%float = a / 2.
Proof.
  unfold is_byte. intros Ha.
  assert (forallb (fun a => to_uint8 (F64.of_int a * 0.5)%float =? a / 2) (seqZ 0 256) = true)
    as H by (vm_compute; reflexivity).
  rewrite forallb_forall in H. apply Z.eqb_eq. apply H.
  apply list_elem_of_In, elem_of_seqZ. lia.
Qed.

(** ** The pixels *)

Lemma bind_Some {A : Type} (m : option A) : m ≫= Some = m.
Proof. destruct m; reflexivity. Qed.

Lemma plot2_full (img : image.RGBA) (steep : bool) (t k : Z) (c : color.RGBA) :
  wu.plot2 img steep t k c 1 0
  = blendPixel img (fst (along steep k t)) (snd (along steep k t)) c.
Proof.
  unfold wu.plot2, along, blendPixelF.
  replace (1 <=? 0)%float with false by (vm_compute; reflexivity).
  replace (1 <=? 1)%float with true by (vm_compute; reflexivity).
  replace (0 <=? 0)%float with true by (vm_compute; reflexivity).
  destruct steep; cbn [fst snd]; apply bind_Some.
Qed.

Lemma plot2_half (img : image.RGBA) (steep : bool) (t k : Z) (c : color.RGBA) :
  is_byte (color.A c) ->
  wu.plot2 img steep t k c 0.5 0
  = blendPixel img (fst (along steep k t)) (snd (along steep k t)) (half_alpha c).
Proof.
  intros Hc. unfold wu.plot2, along, blendPixelF.
  replace (0.5 <=? 0)%float with false by (vm_compute; reflexivity).
  replace (1 <=? 0.5)%float with false by (vm_compute; reflexivity).
  replace (0 <=? 0)%float with true by (vm_compute; reflexivity).
  rewrite half_byte by exact Hc. fold (half_alpha c).
  destruct steep; cbn [fst snd]; apply bind_Some.
Qed.

Lemma drawLineWu_loop_axis (n : nat) (t k : Z) (steep : bool) (c : color.RGBA)
    (img : image.RGBA) :
  0 <= k < 2 ^ 53 ->
  wu.drawLineWu_loop n t (F64.of_int k) 0 steep c img
  = blend_points (map (along steep k) (seqZ t (Z.of_nat n))) c img.
Proof.
  intros Hk. revert t img. induction n as [|n IH]; intros t img; [reflexivity|].
  cbn [wu.drawLineWu_loop].
  rewrite Floor_of_int, to_int_of_int, fpart_of_int, one_minus_zero, add_zero, plot2_full
    by lia.
  rewrite (seqZ_cons t (Z.of_nat (S n))) by lia.
  replace (Z.pred (Z.of_nat (S n))) with (Z.of_nat n) by lia.
  replace (Z.succ t) with (t + 1) by lia.
  cbn [map blend_points].
  destruct (along steep k t) as [px py] eqn:Ea. cbn [fst snd].
  destruct (blendPixel img px py c) as [img1|]; [|reflexivity].
  cbn [mbind option_bind]. apply IH.
Qed.

(** An axis-parallel run, end points in order. *)
Lemma drawLineWu_span_axis (img : image.RGBA) (steep : bool) (k lo hi : Z) (c : color.RGBA) :
  is_byte (color.A c) -> 0 <= k < 2 ^ 51 -> 0 <= lo -> lo <= hi -> hi < 2 ^ 51 ->
  wu.drawLineWu_span img steep (F64.of_int lo) (F64.of_int k) (F64.of_int hi) (F64.of_int k) c
  = axis_line img steep k lo hi c.
Proof.
  intros Hc Hk Hlo Hle Hhi. unfold wu.drawLineWu_span.
  rewrite (sub_self k) by lia. rewrite (of_int_sub hi lo) by lia.
  assert ((if negb (F64.of_int (hi - lo) =? 0)%float
           then (0 / F64.of_int (hi - lo))%float else 0%float) = 0%float) as ->.
  { rewrite of_int_eqb_0 by lia. destruct (hi - lo =? 0) eqn:E; [reflexivity|].
    cbn [negb]. apply zero_div. lia. }
  rewrite !Round_of_int, !sub_self, !to_int_of_int by lia.
  replace (0 * 0)%float with 0%float by (vm_compute; reflexivity).
  rewrite !add_zero, !fpart_half, !fpart_of_int, !Floor_of_int, !to_int_of_int by lia.
  rewrite one_minus_zero.
  replace (1 - 0.5)%float with 0.5%float by (vm_compute; reflexivity).
  replace (1 * 0.5)%float with 0.5%float by (vm_compute; reflexivity).
  replace (0 * 0.5)%float with 0%float by (vm_compute; reflexivity).
  rewrite plot2_half by exact Hc.
  unfold axis_line.
  destruct (blendPixel img _ _ (half_alpha c)) as [img1|]; [|reflexivity].
  cbn [mbind option_bind]. rewrite plot2_half by exact Hc.
  destruct (blendPixel img1 _ _ (half_alpha c)) as [img2|]; [|reflexivity].
  cbn [mbind option_bind].
  rewrite drawLineWu_loop_axis by lia. unfold inner_run.
  rewrite seqZ_to_nat. do 3 f_equal. lia.
Qed.

(** drawLineAA of width 1 along an axis, between pixels with coordinates
    from 0 to 2^51: the code, float64 arithmetic and all, comes to three
    steps.  The end pixel with the smaller coordinate is blended at half
    the colour's alpha, then the other end pixel likewise, then each pixel
    strictly between the two is blended with the colour itself, one after the
    other; the neighbouring row or column gets a coverage of 0 and is left
    alone.  When both end points are the same pixel it is blended twice at
    half alpha. *)
Theorem drawLineAA_axis (img : image.RGBA) (x1 y1 x2 y2 : Z) (c : color.RGBA) (width : Z) :
  width <= 1 -> is_byte (color.A c) ->
  0 <= x1 < 2 ^ 51 -> 0 <= y1 < 2 ^ 51 -> 0 <= x2 < 2 ^ 51 -> 0 <= y2 < 2 ^ 51 ->
  (y1 = y2 ->
   wu.drawLineAA img x1 y1 x2 y2 c width
   = axis_line img false y1 (Z.min x1 x2) (Z.max x1 x2) c)
  /\ (x1 = x2 -> y1 <> y2 ->
      wu.drawLineAA img x1 y1 x2 y2 c width
      = axis_line img true x1 (Z.min y1 y2) (Z.max y1 y2) c).
Proof.
  intros Hw Hc Hx1 Hy1 Hx2 Hy2. unfold wu.drawLineAA.
  replace (width <=? 1) with true by lia. unfold wu.drawLineWu.
  rewrite !abs_sub, !of_int_ltb by lia. split.
  - intros <-. rewrite Z.sub_diag.
    replace (Z.abs (x2 - x1) <? Z.abs 0) with false by lia.
    cbv beta iota zeta. rewrite of_int_ltb by lia.
    destruct (x2 <? x1) eqn:E.
    + replace (Z.min x1 x2) with x2 by lia. replace (Z.max x1 x2) with x1 by lia.
      apply drawLineWu_span_axis; lia || assumption.
    + replace (Z.min x1 x2) with x1 by lia. replace (Z.max x1 x2) with x2 by lia.
      apply drawLineWu_span_axis; lia || assumption.
  - intros <- Hne. rewrite Z.sub_diag.
    replace (Z.abs 0 <? Z.abs (y2 - y1)) with true by lia.
    cbv beta iota zeta. rewrite of_int_ltb by lia.
    destruct (y2 <? y1) eqn:E.
    + replace (Z.min y1 y2) with y2 by lia. replace (Z.max y1 y2) with y1 by lia.
      apply drawLineWu_span_axis; lia || assumption.
    + replace (Z.min y1 y2) with y1 by lia. replace (Z.max y1 y2) with y2 by lia.
      apply drawLineWu_span_axis; lia || assumption.
Qed.

Lemma drawLineAA_axis_witness :
  (2 = 2 ->
   wu.drawLineAA sample_canvas 3 2 0 2 (color.RGBA_ 10 20 30 255) 1
   = axis_line sample_canvas false 2 (Z.min 3 0) (Z.max 3 0) (color.RGBA_ 10 20 30 255))
  /\ (3 = 0 -> 2 <> 2 ->
      wu.drawLineAA sample_canvas 3 2 0 2 (color.RGBA_ 10 20 30 255) 1
      = axis_line sample_canvas true 3 (Z.min 2 2) (Z.max 2 2) (color.RGBA_ 10 20 30 255)).
Proof.
  apply (drawLineAA_axis sample_canvas 3 2 0 2 (color.RGBA_ 10 20 30 255) 1).
  - lia.
  - unfold is_byte. simpl. lia.
  - lia.
  - lia.
  - lia.
  - lia.
Defined.

(** The row 2 of the 4 x 4 canvas after a line from (3, 2) to (0, 2) in an
    opaque colour: the ends at alpha 127, the two pixels between in full. *)
Example drawLineAA_sample :
  (fun img => map (fun x => pixel_at img x 2) [0; 1; 2; 3])
    <$> wu.drawLineAA sample_canvas 3 2 0 2 (color.RGBA_ 10 20 30 255) 1
  = Some [Some (4, 9, 14, 127); Some (10, 20, 30, 255); Some (10, 20, 30, 255);
          Some (4, 9, 14, 127)].
Proof. vm_compute. reflexivity. Qed.

(** * angleInSweep on the angles of the grid (claim C8) *)

(** ** The binary64 form of k * 2^E *)

Lemma dyadic_abs (E z : Z) :
  z <> 0 ->
  dyadic E z
  = S754_finite (z <? 0) (Z.to_pos (Z.abs z * 2 ^ (53 - digits (Z.abs z))))
      (digits (Z.abs z) - 53 + E).
Proof. intros Hz. destruct z as [|p|p]; [congruence | reflexivity | reflexivity]. Qed.

(** A value [z * 2^E] with [z] below 2^53 is rounded to itself. *)
Lemma round_scaled (s : bool) (m : positive) (e E z : Z) :
  0 < z < 2 ^ 53 -> e <= E -> -1022 <= E <= 971 -> Zpos m = z * 2 ^ (E - e) ->
  binary_round FloatOps.prec FloatOps.emax s m e
  = S754_finite s (Z.to_pos (z * 2 ^ (53 - digits z))) (digits z - 53 + E).
Proof.
  intros Hz He HE Hm.
  destruct (canonical_mantissa z ltac:(lia) ltac:(lia)) as [HM Hd].
  apply round_dyadic; [exact HM | lia |].
  destruct (Z_le_gt_dec (digits z - 53 + E) e) as [Hle|Hgt].
  - left. split; [exact Hle|].
    rewrite Hm, <- Z.mul_assoc, <- Z.pow_add_r by lia. f_equal. f_equal. lia.
  - right. split; [lia|].
    rewrite Hm, <- Z.mul_assoc, <- Z.pow_add_r by lia. f_equal. f_equal. lia.
Qed.

Lemma normalize_dyadic (E ez z : Z) :
  Z.abs z < 2 ^ 53 -> ez <= E -> -1022 <= E <= 971 ->
  binary_normalize FloatOps.prec FloatOps.emax (z * 2 ^ (E - ez)) ez false = dyadic E z.
Proof.
  intros Hz He HE.
  assert (0 < 2 ^ (E - ez)) as Hp by (apply Z.pow_pos_nonneg; lia).
  destruct z as [|p|p].
  - reflexivity.
  - destruct (Zpos p * 2 ^ (E - ez)) as [|q|q] eqn:Eq; [nia | | nia].
    unfold binary_normalize.
    rewrite (round_scaled false q ez E (Zpos p)) by lia. reflexivity.
  - destruct (Zneg p * 2 ^ (E - ez)) as [|q|q] eqn:Eq; [nia | nia |].
    unfold binary_normalize.
    rewrite (round_scaled true q ez E (Zpos p)) by lia. reflexivity.
Qed.

(** The mantissa of [z * 2^E] brought to the exponent [ez]. *)
Lemma dyadic_align (E z ez : Z) :
  z <> 0 -> Z.abs z < 2 ^ 53 -> ez <= digits (Z.abs z) - 53 + E ->
  exists mz,
    shl_align (Z.to_pos (Z.abs z * 2 ^ (53 - digits (Z.abs z))))
      (digits (Z.abs z) - 53 + E) ez = (mz, ez)
    /\ cond_Zopp (z <? 0) (Zpos mz) = z * 2 ^ (E - ez).
Proof.
  intros Hz Hlt He.
  destruct (canonical_mantissa (Z.abs z) ltac:(lia) Hlt) as [HM Hd].
  destruct (shl_align_spec (Z.to_pos (Z.abs z * 2 ^ (53 - digits (Z.abs z))))
              (digits (Z.abs z) - 53 + E) ez He) as (mz & Em & Hmz).
  exists mz. split; [exact Em|].
  rewrite Z2Pos.id in Hmz by lia.
  assert (Zpos mz = Z.abs z * 2 ^ (E - ez)) as Ez.
  { rewrite Hmz, <- Z.mul_assoc, <- Z.pow_add_r by lia. f_equal. f_equal. lia. }
  unfold cond_Zopp. destruct (z <? 0) eqn:Es; rewrite Ez.
  - replace (Z.abs z) with (- z) by lia. ring.
  - replace (Z.abs z) with z by lia. reflexivity.
Qed.

Lemma SFadd_dyadic (E a b : Z) :
  a <> 0 -> b <> 0 -> Z.abs a < 2 ^ 53 -> Z.abs b < 2 ^ 53 -> Z.abs (a + b) < 2 ^ 53 ->
  -1022 <= E <= 971 ->
  SFadd FloatOps.prec FloatOps.emax (dyadic E a) (dyadic E b) = dyadic E (a + b).
Proof.
  intros Ha Hb La Lb Lab HE.
  rewrite (dyadic_abs E a Ha), (dyadic_abs E b Hb). unfold SFadd.
  destruct (canonical_mantissa (Z.abs a) ltac:(lia) La) as [_ Da].
  destruct (canonical_mantissa (Z.abs b) ltac:(lia) Lb) as [_ Db].
  set (ez := Z.min (digits (Z.abs a) - 53 + E) (digits (Z.abs b) - 53 + E)).
  destruct (dyadic_align E a ez Ha La ltac:(lia)) as (ma & -> & Ea).
  destruct (dyadic_align E b ez Hb Lb ltac:(lia)) as (mb & -> & Eb).
  cbn [fst]. rewrite Ea, Eb, <- Z.mul_add_distr_r.
  apply normalize_dyadic; lia.
Qed.

Lemma SFsub_dyadic (E a b : Z) :
  a <> 0 -> b <> 0 -> Z.abs a < 2 ^ 53 -> Z.abs b < 2 ^ 53 -> Z.abs (a - b) < 2 ^ 53 ->
  -1022 <= E <= 971 ->
  SFsub FloatOps.prec FloatOps.emax (dyadic E a) (dyadic E b) = dyadic E (a - b).
Proof.
  intros Ha Hb La Lb Lab HE.
  rewrite (dyadic_abs E a Ha), (dyadic_abs E b Hb). unfold SFsub.
  destruct (canonical_mantissa (Z.abs a) ltac:(lia) La) as [_ Da].
  destruct (canonical_mantissa (Z.abs b) ltac:(lia) Lb) as [_ Db].
  set (ez := Z.min (digits (Z.abs a) - 53 + E) (digits (Z.abs b) - 53 + E)).
  destruct (dyadic_align E a ez Ha La ltac:(lia)) as (ma & -> & Ea).
  destruct (dyadic_align E b ez Hb Lb ltac:(lia)) as (mb & -> & Eb).
  cbn [fst]. rewrite Ea, Eb, <- Z.mul_sub_distr_r.
  apply normalize_dyadic; lia.
Qed.

(** The order of two 53-digit forms is the order of the integers. *)
Lemma canonical_compare (E p q : Z) :
  0 < p < 2 ^ 53 -> 0 < q < 2 ^ 53 ->
  match digits p - 53 + E ?= digits q - 53 + E with
  | Lt => Lt
  | Gt => Gt
  | Eq => Pos.compare_cont Eq (Z.to_pos (p * 2 ^ (53 - digits p)))
            (Z.to_pos (q * 2 ^ (53 - digits q)))
  end = (p ?= q).
Proof.
  intros Hp Hq.
  destruct (canonical_mantissa p ltac:(lia) ltac:(lia)) as [MP DP].
  destruct (canonical_mantissa q ltac:(lia) ltac:(lia)) as [MQ DQ].
  pose proof (digits_bounds p ltac:(lia)) as [P1 P2].
  pose proof (digits_bounds q ltac:(lia)) as [Q1 Q2].
  destruct (Z.compare_spec (digits p - 53 + E) (digits q - 53 + E)) as [H|H|H].
  - rewrite Pos.compare_cont_spec. cbn [Pos.switch_Eq].
    rewrite <- Z2Pos.inj_compare by lia.
    replace (digits q) with (digits p) in * by lia.
    assert (0 < 2 ^ (53 - digits p)) by (apply Z.pow_pos_nonneg; lia).
    destruct (Z.compare_spec (p * 2 ^ (53 - digits p)) (q * 2 ^ (53 - digits p)));
      symmetry; [apply Z.compare_eq_iff | apply Z.compare_lt_iff | apply Z.compare_gt_iff]; nia.
  - symmetry. apply Z.compare_lt_iff.
    assert (2 ^ digits p <= 2 ^ (digits q - 1)) by (apply Z.pow_le_mono_r; lia). lia.
  - symmetry. apply Z.compare_gt_iff.
    assert (2 ^ digits q <= 2 ^ (digits p - 1)) by (apply Z.pow_le_mono_r; lia). lia.
Qed.

Lemma SFcompare_dyadic (E a b : Z) :
  Z.abs a < 2 ^ 53 -> Z.abs b < 2 ^ 53 ->
  SFcompare (dyadic E a) (dyadic E b) = Some (a ?= b).
Proof.
  intros La Lb.
  destruct a as [|p|p], b as [|q|q]; try reflexivity.
  - unfold dyadic, SFcompare. f_equal. apply canonical_compare; lia.
  - unfold dyadic, SFcompare. f_equal.
    change (- Zneg p) with (Zpos p). change (- Zneg q) with (Zpos q).
    pose proof (canonical_compare E (Zpos p) (Zpos q) ltac:(lia) ltac:(lia)) as H.
    change (Zneg p ?= Zneg q) with (CompOpp (Zpos p ?= Zpos q)). rewrite <- H.
    destruct (digits (Zpos p) - 53 + E ?= digits (Zpos q) - 53 + E); reflexivity.
Qed.

(** ** The float64 values of the grid *)

Lemma Prim2SF_fixed (k : Z) : on_grid k -> Prim2SF (fixed k) = dyadic (-49) k.
Proof.
  unfold on_grid. intros Hk. unfold fixed. rewrite FloatAxioms.mul_spec.
  assert (Prim2SF 0x1p-49 = S754_finite false 4503599627370496 (-101)) as ->
    by (vm_compute; reflexivity).
  assert (forall (s : bool) (z : Z), 0 < z < 2 ^ 53 ->
            SFmul FloatOps.prec FloatOps.emax
              (S754_finite s (Z.to_pos (z * 2 ^ (53 - digits z))) (digits z - 53))
              (S754_finite false 4503599627370496 (-101))
            = S754_finite s (Z.to_pos (z * 2 ^ (53 - digits z))) (digits z - 53 + -49)) as Hmul.
  { intros s z Hz. destruct (canonical_mantissa z ltac:(lia) ltac:(lia)) as [HM Hd].
    unfold SFmul. rewrite xorb_false_r.
    rewrite (round_exact s _ _ (z * 2 ^ (53 - digits z)) 52).
    - f_equal. lia.
    - rewrite Pos2Z.inj_mul, Z2Pos.id by lia. reflexivity.
    - lia.
    - exact HM.
    - lia. }
  destruct k as [|p|p].
  - vm_compute. reflexivity.
  - rewrite Prim2SF_of_int by lia. unfold canonical, SF64mul. rewrite Hmul by lia.
    reflexivity.
  - change (Zneg p) with (- Zpos p) at 1. rewrite of_int_opp by lia.
    rewrite FloatAxioms.opp_spec, Prim2SF_of_int by lia.
    unfold canonical, SFopp, SF64mul. cbn [negb]. rewrite Hmul by lia.
    reflexivity.
Qed.

Lemma fixed_0 : fixed 0 = 0%float.
Proof. vm_compute. reflexivity. Qed.

Lemma fixed_turn : fixed turn = F64.two_pi.
Proof. vm_compute. reflexivity. Qed.

Lemma turn_bounds : 0 < turn /\ 2 * turn < 2 ^ 53 /\ 2 ^ 53 < 3 * turn.
Proof. unfold turn. lia. Qed.

Lemma fixed_add (a b : Z) :
  on_grid a -> on_grid b -> on_grid (a + b) -> (fixed a + fixed b)%float = fixed (a + b).
Proof.
  unfold on_grid. intros Ha Hb Hab. apply FloatAxioms.Prim2SF_inj.
  rewrite FloatAxioms.add_spec, !Prim2SF_fixed by (unfold on_grid; lia).
  destruct (Z.eq_dec a 0) as [->|Na].
  { rewrite Z.add_0_l. destruct b; reflexivity. }
  destruct (Z.eq_dec b 0) as [->|Nb].
  { rewrite Z.add_0_r. destruct a; [congruence | reflexivity | reflexivity]. }
  apply SFadd_dyadic; lia.
Qed.

Lemma fixed_sub (a b : Z) :
  on_grid a -> on_grid b -> on_grid (a - b) -> (fixed a - fixed b)%float = fixed (a - b).
Proof.
  unfold on_grid. intros Ha Hb Hab. apply FloatAxioms.Prim2SF_inj.
  rewrite FloatAxioms.sub_spec, !Prim2SF_fixed by (unfold on_grid; lia).
  destruct (Z.eq_dec a 0) as [->|Na].
  { destruct b; reflexivity. }
  destruct (Z.eq_dec b 0) as [->|Nb].
  { rewrite Z.sub_0_r. destruct a; [congruence | reflexivity | reflexivity]. }
  apply SFsub_dyadic; lia.
Qed.

Lemma fixed_ltb (a b : Z) :
  on_grid a -> on_grid b -> (fixed a <? fixed b)%float = (a <? b).
Proof.
  unfold on_grid. intros Ha Hb.
  rewrite FloatAxioms.ltb_spec, !Prim2SF_fixed by (unfold on_grid; lia).
  unfold SFltb. rewrite SFcompare_dyadic by lia.
  unfold Z.ltb. destruct (a ?= b); reflexivity.
Qed.

Lemma fixed_leb (a b : Z) :
  on_grid a -> on_grid b -> (fixed a <=? fixed b)%float = (a <=? b).
Proof.
  unfold on_grid. intros Ha Hb.
  rewrite FloatAxioms.leb_spec, !Prim2SF_fixed by (unfold on_grid; lia).
  unfold SFleb. rewrite SFcompare_dyadic by lia.
  unfold Z.leb. destruct (a ?= b); reflexivity.
Qed.

(** ** The two loops of [norm] *)

Lemma mod_add_turn (k : Z) : (k + turn) mod turn = k mod turn.
Proof. rewrite <- (Z_mod_plus_full k 1 turn). f_equal; lia. Qed.

Lemma mod_turn_bound (k : Z) : 0 <= k mod turn < turn.
Proof. apply Z.mod_pos_bound. apply turn_bounds. Qed.

Lemma on_grid_mod (k : Z) : on_grid (k mod turn).
Proof.
  pose proof (mod_turn_bound k). pose proof turn_bounds. unfold on_grid. lia.
Qed.

(** [for a < 0 { a += 2 * math.Pi }] on an angle of the grid: it ends
    within [n] turns of the loop when [a >= -n * 2π], with the angle itself
    or, for a negative one, the angle brought into [0, 2π). *)
Lemma norm_neg_fixed (n : nat) (k : Z) :
  on_grid k -> - Z.of_nat n * turn <= k ->
  Sweep.norm_neg n (fixed k) = Some (fixed (if k <? 0 then k mod turn else k)).
Proof.
  pose proof turn_bounds as (T0 & T1 & T2).
  revert k. induction n as [|n IH]; intros k Hk Hn.
  - cbn [Sweep.norm_neg]. rewrite <- fixed_0 at 1.
    rewrite fixed_ltb by (try assumption; unfold on_grid; lia).
    replace (k <? 0) with false by lia. reflexivity.
  - cbn [Sweep.norm_neg]. rewrite <- fixed_0 at 1.
    rewrite fixed_ltb by (try assumption; unfold on_grid; lia).
    destruct (k <? 0) eqn:Ek; [|reflexivity].
    unfold on_grid in Hk.
    rewrite <- fixed_turn, fixed_add by (unfold on_grid; lia).
    rewrite IH by (unfold on_grid; nia).
    f_equal. f_equal. destruct (k + turn <? 0) eqn:E2.
    + apply mod_add_turn.
    + rewrite <- mod_add_turn. symmetry. apply Z.mod_small. lia.
Qed.

(** [for a >= 2*math.Pi { a -= 2 * math.Pi }] on a non-negative angle of
    the grid below [(n + 1) * 2π]. *)
Lemma norm_pos_fixed (n : nat) (k : Z) :
  0 <= k < 2 ^ 53 -> k < (Z.of_nat n + 1) * turn ->
  Sweep.norm_pos n (fixed k) = Some (fixed (k mod turn)).
Proof.
  pose proof turn_bounds as (T0 & T1 & T2).
  revert k. induction n as [|n IH]; intros k Hk Hn.
  - cbn [Sweep.norm_pos]. rewrite <- fixed_turn.
    rewrite fixed_leb by (unfold on_grid; lia).
    replace (turn <=? k) with false by lia.
    rewrite Z.mod_small by lia. reflexivity.
  - cbn [Sweep.norm_pos]. rewrite <- fixed_turn.
    rewrite fixed_leb by (unfold on_grid; lia).
    destruct (turn <=? k) eqn:Ek.
    + rewrite fixed_sub by (unfold on_grid; lia).
      rewrite IH by nia.
      f_equal. f_equal. rewrite <- (mod_add_turn (k - turn)). f_equal. lia.
    + rewrite Z.mod_small by lia. reflexivity.
Qed.

Lemma norm_fixed (n : nat) (k : Z) :
  (3 <= n)%nat -> on_grid k -> Sweep.norm n (fixed k) = Some (fixed (k mod turn)).
Proof.
  pose proof turn_bounds as (T0 & T1 & T2).
  intros Hn Hk. unfold Sweep.norm.
  rewrite norm_neg_fixed by (try assumption; unfold on_grid in Hk; nia).
  cbn [mbind option_bind].
  pose proof (mod_turn_bound k) as Hm.
  rewrite norm_pos_fixed.
  - f_equal. f_equal. destruct (k <? 0); [apply Z.mod_mod; lia | reflexivity].
  - unfold on_grid in Hk. destruct (k <? 0) eqn:Ek; lia.
  - unfold on_grid in Hk. destruct (k <? 0) eqn:Ek; nia.
Qed.

(** On the angles of the grid the float64 code is the test on the
    integers. *)
Lemma angleInSweep_fixed (n : nat) (a s e : Z) :
  (3 <= n)%nat -> on_grid a -> on_grid s -> on_grid e ->
  Sweep.angleInSweep n (fixed a) (fixed s) (fixed e) = Some (in_sweep a s e).
Proof.
  intros Hn Ha Hs He. unfold Sweep.angleInSweep.
  rewrite !norm_fixed by assumption. cbn [mbind option_bind].
  rewrite !fixed_leb by apply on_grid_mod. reflexivity.
Qed.

Lemma add_turn (k : Z) :
  on_grid k -> on_grid (k + turn) -> (fixed k + F64.two_pi)%float = fixed (k + turn).
Proof.
  intros Hk Hkt. pose proof turn_bounds.
  rewrite <- fixed_turn. apply fixed_add; try assumption. unfold on_grid. lia.
Qed.

(** C8, as the code has it.  On the angles that are whole multiples of
    2^-49 and lie, with the turn added, between -16 and 16, every float64
    addition and subtraction of [2 * math.Pi] is exact: angleInSweep returns
    (each loop of [norm] ends within three turns), its answer is the sweep
    test on the angles reduced by whole turns, and it is the same for [a]
    and [a + 2π] and for the sweep [(s, e)] and the sweep [(s + 2π, e + 2π)]. *)
Theorem angleInSweep_full_turn (fuel : nat) (a s e : Z) :
  (3 <= fuel)%nat ->
  on_grid a -> on_grid (a + turn) -> on_grid s -> on_grid (s + turn) ->
  on_grid e -> on_grid (e + turn) ->
  Sweep.angleInSweep fuel (fixed a) (fixed s) (fixed e) = Some (in_sweep a s e)
  /\ Sweep.angleInSweep fuel (fixed a + F64.two_pi) (fixed s) (fixed e)
     = Some (in_sweep a s e)
  /\ Sweep.angleInSweep fuel (fixed a) (fixed s + F64.two_pi) (fixed e + F64.two_pi)
     = Some (in_sweep a s e).
Proof.
  intros Hn Ha Ha' Hs Hs' He He'.
  split; [apply angleInSweep_fixed; assumption|]. split.
  - rewrite add_turn, angleInSweep_fixed by assumption.
    unfold in_sweep. rewrite mod_add_turn. reflexivity.
  - rewrite !add_turn, angleInSweep_fixed by assumption.
    unfold in_sweep. rewrite !mod_add_turn. reflexivity.
Qed.

(** The angles 5, 1 and 3 (in units of 2^-49): 5 is outside the sweep from
    1 to 3, and stays outside with a turn added to it or to the sweep. *)
Lemma angleInSweep_full_turn_witness :
  Sweep.angleInSweep 3 (fixed 2814749767106560) (fixed 562949953421312)
    (fixed 1688849860263936)
  = Some (in_sweep 2814749767106560 562949953421312 1688849860263936)
  /\ Sweep.angleInSweep 3 (fixed 2814749767106560 + F64.two_pi) (fixed 562949953421312)
       (fixed 1688849860263936)
     = Some (in_sweep 2814749767106560 562949953421312 1688849860263936)
  /\ Sweep.angleInSweep 3 (fixed 2814749767106560) (fixed 562949953421312 + F64.two_pi)
       (fixed 1688849860263936 + F64.two_pi)
     = Some (in_sweep 2814749767106560 562949953421312 1688849860263936).
Proof.
  apply (angleInSweep_full_turn 3 2814749767106560 562949953421312 1688849860263936);
    unfold on_grid, turn; lia.
Defined.

Example fixed_sample :
  [fixed 2814749767106560; fixed 562949953421312; fixed 1688849860263936;
   fixed (- 884279719003555)]
  = [5; 1; 3; minus_half_pi]%float
  /\ in_sweep 2814749767106560 562949953421312 1688849860263936 = false.
Proof. split; vm_compute; reflexivity. Qed.

(** * Sweeps of a full turn *)

(** On float64, for angles of the grid: [norm] returns within three turns
    of each of its loops, with the angle reduced by whole turns into
    [0, 2π); and angleInSweep returns the sweep test on the reduced angles. *)
Theorem angleInSweep_on_grid (fuel : nat) (a s e : Z) :
  (3 <= fuel)%nat -> on_grid a -> on_grid s -> on_grid e ->
  Sweep.norm fuel (fixed a) = Some (fixed (a mod turn))
  /\ 0 <= a mod turn < turn
  /\ (fixed 0 <=? fixed (a mod turn))%float = true
  /\ (fixed (a mod turn) <? F64.two_pi)%float = true
  /\ Sweep.angleInSweep fuel (fixed a) (fixed s) (fixed e) = Some (in_sweep a s e).
Proof.
  intros Hn Ha Hs He. pose proof (mod_turn_bound a) as Hm. pose proof turn_bounds.
  split; [apply norm_fixed; assumption|]. split; [exact Hm|].
  split; [|split; [|apply angleInSweep_fixed; assumption]].
  - rewrite fixed_leb by (try apply on_grid_mod; unfold on_grid; lia). lia.
  - rewrite <- fixed_turn, fixed_ltb by (try apply on_grid_mod; unfold on_grid; lia). lia.
Qed.

Lemma angleInSweep_on_grid_witness :
  Sweep.norm 3 (fixed (- 884279719003555)) = Some (fixed (- 884279719003555 mod turn))
  /\ 0 <= - 884279719003555 mod turn < turn
  /\ (fixed 0 <=? fixed (- 884279719003555 mod turn))%float = true
  /\ (fixed (- 884279719003555 mod turn) <? F64.two_pi)%float = true
  /\ Sweep.angleInSweep 3 (fixed (- 884279719003555)) (fixed 0) (fixed 562949953421312)
     = Some (in_sweep (- 884279719003555) 0 562949953421312).
Proof.
  apply (angleInSweep_on_grid 3 (- 884279719003555) 0 562949953421312);
    unfold on_grid; lia.
Defined.

(** On float64, a sweep that ends a full turn after its start (both on the
    grid) holds nothing but the direction of its start: the normalised end
    falls on the normalised start, and angleInSweep returns true exactly for
    the angles that are the start up to whole turns.  This is the slice of a
    pie chart with one category, from -π/2 to -π/2 + 2π. *)
Theorem angleInSweep_whole_turn (fuel : nat) (a s : Z) :
  (3 <= fuel)%nat -> on_grid a -> on_grid s -> on_grid (s + turn) ->
  Sweep.angleInSweep fuel (fixed a) (fixed s) (fixed s + F64.two_pi)
  = Some (a mod turn =? s mod turn)
  /\ (a mod turn = s mod turn <-> exists k : Z, a = s + k * turn).
Proof.
  intros Hn Ha Hs Hs'. pose proof turn_bounds as (T0 & _). split.
  - rewrite add_turn, angleInSweep_fixed by assumption.
    unfold in_sweep. rewrite mod_add_turn. cbv zeta. rewrite Z.leb_refl. f_equal.
    apply eq_true_iff_eq. rewrite andb_true_iff, !Z.leb_le, Z.eqb_eq. lia.
  - split.
    + intros E. exists (a / turn - s / turn).
      pose proof (Z.div_mod a turn ltac:(lia)). pose proof (Z.div_mod s turn ltac:(lia)). nia.
    + intros (k & ->). apply Z_mod_plus_full.
Qed.

Lemma angleInSweep_whole_turn_witness :
  Sweep.angleInSweep 3 (fixed 0) (fixed (- 884279719003555))
    (fixed (- 884279719003555) + F64.two_pi)
  = Some (0 mod turn =? - 884279719003555 mod turn)
  /\ (0 mod turn = - 884279719003555 mod turn
      <-> exists k : Z, 0 = - 884279719003555 + k * turn).
Proof.
  apply (angleInSweep_whole_turn 3 0 (- 884279719003555)); unfold on_grid, turn; lia.
Defined.
